(** * Agent-Artips: response formatter and utterance playback controller

    A shallow embedding of
      - [formatResponseText], [cleanHtmlAndFormatText], the response
        handling and the request of [sendMessageToWebhook] (the webhook
        module),
      - [processTextForSpeech], [splitIntoSentences], [speakNextChunk],
        [speak] and [cancel], the choice of a voice ([determineGender],
        [getVoiceQualityScore], [processVoices]), the mount effect and
        its cleanup (src/hooks/useSpeechSynthesis.ts), and
      - the conversations and the handlers of the page that call them
        ([updateConversation], [handleSendMessage], [handleReplayAudio]
        and the like, src/App.tsx),
    together with the JavaScript primitives they rest on: strings as
    sequences of UTF-16 code units, [String.prototype.trim], regular
    expressions with their backtracking order, [JSON.parse] and
    [JSON.stringify]. *)

From Stdlib Require Import String Ascii.
From Stdlib Require Import List NArith ZArith Arith Bool Lia DecimalString.
Import ListNotations.

Set Warnings "-register-all".

(* ================================================================== *)
(** * JavaScript strings *)
(* ================================================================== *)

Module JS.

(** A JavaScript string is a sequence of UTF-16 code units. *)
Definition jsstring := list N.

(** A source literal made of ASCII characters. *)
Definition lit (s : string) : jsstring :=
  List.map N_of_ascii (list_ascii_of_string s).

(** The same, with every apostrophe of the literal standing for a
    double quote (U+0022). *)
Definition litq (s : string) : jsstring :=
  List.map (fun c => if N.eqb c 39 then 34%N else c) (lit s).

Definition LF : N := 10.
Definition BACKSLASH : N := 92.
Definition DQUOTE : N := 34.

(** WhiteSpace and LineTerminator code units: what [\s] matches and
    what [trim] strips. *)
Definition is_space (c : N) : bool :=
  ((9 <=? c) && (c <=? 13) || (c =? 32) || (c =? 160) || (c =? 5760)
   || (8192 <=? c) && (c <=? 8202) || (c =? 8232) || (c =? 8233)
   || (c =? 8239) || (c =? 8287) || (c =? 12288) || (c =? 65279))%N.

(** LineTerminator code units: what [.] does not match. *)
Definition is_line_terminator (c : N) : bool :=
  ((c =? 10) || (c =? 13) || (c =? 8232) || (c =? 8233))%N.

Fixpoint drop_while (p : N -> bool) (s : jsstring) : jsstring :=
  match s with
  | [] => []
  | c :: s' => if p c then drop_while p s' else s
  end.

Fixpoint take_while (p : N -> bool) (s : jsstring) : jsstring :=
  match s with
  | [] => []
  | c :: s' => if p c then c :: take_while p s' else []
  end.

Definition trimStart (s : jsstring) : jsstring := drop_while is_space s.
Definition trimEnd (s : jsstring) : jsstring :=
  rev (drop_while is_space (rev s)).
Definition trim (s : jsstring) : jsstring := trimEnd (trimStart s).

Definition str_eqb (a b : jsstring) : bool :=
  if list_eq_dec N.eq_dec a b then true else false.

Fixpoint startsWith (s p : jsstring) {struct p} : bool :=
  match p, s with
  | [], _ => true
  | _ :: _, [] => false
  | x :: p', c :: s' => (c =? x)%N && startsWith s' p'
  end.

Fixpoint includes (s p : jsstring) : bool :=
  startsWith s p || match s with [] => false | _ :: s' => includes s' p end.

(** [s.substring(n)] for [n] within the string. *)
Definition substring_from (n : nat) (s : jsstring) : jsstring := skipn n s.

End JS.
Import JS.

(* ================================================================== *)
(** * Regular expressions *)
(* ================================================================== *)

(** The fragment of ECMAScript regular expressions the two modules
    use: character classes, concatenation, ordered alternation, greedy
    and lazy repetition of a class, and one capture group.  Matching
    follows the backtracking order of the language: alternatives left to
    right, a greedy repetition longest first, a lazy one shortest
    first. *)
Module RegExp.

Inductive cclass : Type :=
| CChar (c : N)             (* a literal code unit *)
| CCharI (c : N)            (* a literal under the [i] flag *)
| CRange (lo hi : N)        (* [lo-hi] *)
| COneOf (l : list N)       (* [...] *)
| CNoneOf (l : list N)      (* [^...] *)
| CDot                      (* . *)
| CSpace.                   (* \s *)

(** Canonicalize of a pattern without the [u] flag.  Every literal in
    the patterns below is ASCII, and a non-ASCII code unit never
    canonicalizes to an ASCII one, so upper-casing a-z is all that
    can make two code units meet. *)
Definition canon (c : N) : N :=
  if ((97 <=? c) && (c <=? 122))%N then (c - 32)%N else c.

Fixpoint mem (c : N) (l : list N) : bool :=
  match l with
  | [] => false
  | x :: l' => (c =? x)%N || mem c l'
  end.

Definition cls_mem (k : cclass) (c : N) : bool :=
  match k with
  | CChar x => (c =? x)%N
  | CCharI x => (canon c =? canon x)%N
  | CRange lo hi => ((lo <=? c) && (c <=? hi))%N
  | COneOf l => mem c l
  | CNoneOf l => negb (mem c l)
  | CDot => negb (is_line_terminator c)
  | CSpace => is_space c
  end.

Inductive regex : Type :=
| Eps
| Chr (k : cclass)
| Seq (r1 r2 : regex)
| Alt (r1 r2 : regex)
| Rep (greedy : bool) (min : nat) (k : cclass)   (* k{min,} or k{min,}? *)
| Group (r : regex).

Declare Scope regex_scope.
Delimit Scope regex_scope with re.
Bind Scope regex_scope with regex.
Infix "+++" := Seq (at level 60, right associativity) : regex_scope.

Definition Star (k : cclass) : regex := Rep true 0 k.       (* k* *)
Definition Plus (k : cclass) : regex := Rep true 1 k.       (* k+ *)
Definition LazyStar (k : cclass) : regex := Rep false 0 k.  (* k*? *)
Definition Opt (r : regex) : regex := Alt r Eps.            (* r? *)

Fixpoint str (l : jsstring) : regex :=
  match l with
  | [] => Eps
  | c :: l' => Seq (Chr (CChar c)) (str l')
  end.

Fixpoint strI (l : jsstring) : regex :=
  match l with
  | [] => Eps
  | c :: l' => Seq (Chr (CCharI c)) (strI l')
  end.

(** The state of a match attempt: how many code units it has
    consumed, what is left of the input, and the capture of group 1
    ([None] is JavaScript's [undefined]). *)
Definition result : Type := (nat * option jsstring)%type.
Definition kont : Type := nat -> jsstring -> option jsstring -> option result.

Fixpoint rep_greedy (k : cclass) (kt : kont) (min pos : nat)
         (s : jsstring) (cap : option jsstring) {struct s} : option result :=
  match s with
  | c :: s' =>
      if cls_mem k c then
        match rep_greedy k kt (pred min) (S pos) s' cap with
        | Some r => Some r
        | None => match min with O => kt pos s cap | S _ => None end
        end
      else match min with O => kt pos s cap | S _ => None end
  | [] => match min with O => kt pos s cap | S _ => None end
  end.

Fixpoint rep_lazy (k : cclass) (kt : kont) (min pos : nat)
         (s : jsstring) (cap : option jsstring) {struct s} : option result :=
  match min with
  | S m =>
      match s with
      | c :: s' => if cls_mem k c then rep_lazy k kt m (S pos) s' cap else None
      | [] => None
      end
  | O =>
      match kt pos s cap with
      | Some r => Some r
      | None =>
          match s with
          | c :: s' => if cls_mem k c then rep_lazy k kt 0 (S pos) s' cap else None
          | [] => None
          end
      end
  end.

Fixpoint m (r : regex) (kt : kont) (pos : nat) (s : jsstring)
         (cap : option jsstring) {struct r} : option result :=
  match r with
  | Eps => kt pos s cap
  | Chr k =>
      match s with
      | c :: s' => if cls_mem k c then kt (S pos) s' cap else None
      | [] => None
      end
  | Seq r1 r2 => m r1 (fun pos' s' cap' => m r2 kt pos' s' cap') pos s cap
  | Alt r1 r2 =>
      match m r1 kt pos s cap with
      | Some res => Some res
      | None => m r2 kt pos s cap
      end
  | Rep true min k => rep_greedy k kt min pos s cap
  | Rep false min k => rep_lazy k kt min pos s cap
  | Group r1 =>
      m r1 (fun pos' s' _ => kt pos' s' (Some (firstn (pos' - pos) s))) pos s cap
  end.

(** A match attempt anchored at the head of [s]: the length of the
    match and the capture of group 1. *)
Definition match_here (r : regex) (s : jsstring) : option result :=
  m r (fun pos _ cap => Some (pos, cap)) 0 s None.

(** RegExp.prototype.exec from index 0: the leftmost match, as
    (index, length, group 1). *)
Fixpoint search (r : regex) (i : nat) (s : jsstring)
  : option (nat * nat * option jsstring) :=
  match match_here r s with
  | Some (len, cap) => Some (i, len, cap)
  | None =>
      match s with
      | [] => None
      | _ :: s' => search r (S i) s'
      end
  end.

(** [s.replace(/r/g, f)]: [skip] code units of an earlier match are
    still to be passed over.  After an empty match the next attempt is
    one code unit further. *)
Fixpoint replace_from (r : regex) (f : option jsstring -> jsstring)
         (skip : nat) (s : jsstring) : jsstring :=
  match s with
  | [] =>
      match skip with
      | O => match match_here r [] with Some (_, cap) => f cap | None => [] end
      | S _ => []
      end
  | c :: s' =>
      match skip with
      | S n => replace_from r f n s'
      | O =>
          match match_here r s with
          | Some (O, cap) => f cap ++ c :: replace_from r f 0 s'
          | Some (S n, cap) => f cap ++ replace_from r f n s'
          | None => c :: replace_from r f 0 s'
          end
      end
  end.

Definition replace_all (r : regex) (f : option jsstring -> jsstring)
           (s : jsstring) : jsstring :=
  replace_from r f 0 s.

(** Replacement by a fixed string, and by ['$1']. *)
Definition by_str (t : jsstring) : option jsstring -> jsstring := fun _ => t.
Definition by_group1 : option jsstring -> jsstring :=
  fun cap => match cap with Some g => g | None => [] end.

(** [s.match(/r/g)]: every match in turn; [None] is [null]. *)
Fixpoint matches_from (r : regex) (skip : nat) (s : jsstring) : list jsstring :=
  match s with
  | [] =>
      match skip with
      | O => match match_here r [] with Some _ => [[]] | None => [] end
      | S _ => []
      end
  | c :: s' =>
      match skip with
      | S n => matches_from r n s'
      | O =>
          match match_here r s with
          | Some (O, _) => [] :: matches_from r 0 s'
          | Some (S n, _) => firstn (S n) s :: matches_from r n s'
          | None => matches_from r 0 s'
          end
      end
  end.

Definition match_all (r : regex) (s : jsstring) : option (list jsstring) :=
  match matches_from r 0 s with
  | [] => None
  | l => Some l
  end.

End RegExp.
Import RegExp.
Local Open Scope regex_scope.

(* ================================================================== *)
(** * Completions *)
(* ================================================================== *)

(** A JavaScript evaluation either returns a value or throws. *)
Inductive error : Type :=
| SyntaxError                (* JSON.parse on malformed text *)
| RangeError                 (* JSON.parse out of stack *)
| TypeError                  (* a property read on null or undefined *)
| HttpError (status : N)     (* thrown by sendMessageToWebhook *)
| NetworkError.              (* a rejected fetch *)

Inductive completion (A : Type) : Type :=
| Normal (a : A)
| Throw (e : error).
Arguments Normal {A} a.
Arguments Throw {A} e.

Definition bind {A B : Type} (c : completion A) (f : A -> completion B)
  : completion B :=
  match c with
  | Normal a => f a
  | Throw e => Throw e
  end.

(** [try { c } catch (e) { h e }] *)
Definition try_catch {A : Type} (c : completion A) (h : error -> completion A)
  : completion A :=
  match c with
  | Normal a => Normal a
  | Throw e => h e
  end.

Declare Scope js_scope.
Delimit Scope js_scope with js.
Notation "x <- c ;; k" := (bind c (fun x => k))
  (at level 61, c at next level, right associativity) : js_scope.

(* ================================================================== *)
(** * JSON *)
(* ================================================================== *)

Module JSON.

(** What [JSON.parse] can return.  A number keeps its literal: the
    double it denotes is the engine's business (see [Engine]).  The
    members of an object are held in property order: array-index
    keys in ascending order, then the other keys in the order of
    their first definition. *)
Inductive value : Type :=
| Null
| Bool (b : bool)
| Number (literal : jsstring)
| String_ (s : jsstring)
| Array (elements : list value)
| Object (members : list (jsstring * value)).

Definition is_ws (c : N) : bool :=
  ((c =? 9) || (c =? 10) || (c =? 13) || (c =? 32))%N.
Definition skip_ws (s : jsstring) : jsstring := drop_while is_ws s.

Definition is_digit (c : N) : bool := ((48 <=? c) && (c <=? 57))%N.

Definition hex_digit (c : N) : option N :=
  if is_digit c then Some (c - 48)%N
  else if ((97 <=? c) && (c <=? 102))%N then Some (c - 87)%N
  else if ((65 <=? c) && (c <=? 70))%N then Some (c - 55)%N
  else None.

Definition hex4 (a b c d : N) : option N :=
  match hex_digit a, hex_digit b, hex_digit c, hex_digit d with
  | Some x, Some y, Some z, Some w => Some (((x * 16 + y) * 16 + z) * 16 + w)%N
  | _, _, _, _ => None
  end.

(** The code unit of a single-character escape. *)
Definition simple_escape (e : N) : option N :=
  if (e =? 34)%N then Some 34%N          (* quote *)
  else if (e =? 92)%N then Some 92%N     (* \\ *)
  else if (e =? 47)%N then Some 47%N     (* \/ *)
  else if (e =? 98)%N then Some 8%N      (* \b *)
  else if (e =? 102)%N then Some 12%N    (* \f *)
  else if (e =? 110)%N then Some 10%N    (* \n *)
  else if (e =? 114)%N then Some 13%N    (* \r *)
  else if (e =? 116)%N then Some 9%N     (* \t *)
  else None.

(** The characters of a string after its opening quote, up to the
    closing one: the value (reversed into [acc]) and what follows. *)
Fixpoint parse_chars (s : jsstring) (acc : jsstring)
  : option (jsstring * jsstring) :=
  match s with
  | [] => None
  | c :: s' =>
      if (c =? 34)%N then Some (rev acc, s')
      else if (c =? 92)%N then
        match s' with
        | [] => None
        | e :: s'' =>
            if (e =? 117)%N then
              match s'' with
              | h1 :: h2 :: h3 :: h4 :: s3 =>
                  match hex4 h1 h2 h3 h4 with
                  | Some u => parse_chars s3 (u :: acc)
                  | None => None
                  end
              | _ => None
              end
            else
              match simple_escape e with
              | Some x => parse_chars s'' (x :: acc)
              | None => None
              end
        end
      else if (c <? 32)%N then None
      else parse_chars s' (c :: acc)
  end.

(** A number literal: an optional minus sign, an integer part (a
    lone 0, or digits that do not start with 0), an optional fraction
    and an optional exponent, each with at least one digit. *)
Definition parse_int (s : jsstring) : option (jsstring * jsstring) :=
  match s with
  | c :: r =>
      if (c =? 48)%N then Some ([c], r)
      else if is_digit c then Some (take_while is_digit s, drop_while is_digit s)
      else None
  | [] => None
  end.

Definition parse_frac (s : jsstring) : option (jsstring * jsstring) :=
  match s with
  | c :: r =>
      if (c =? 46)%N then
        match take_while is_digit r with
        | [] => None
        | ds => Some (c :: ds, drop_while is_digit r)
        end
      else Some ([], s)
  | [] => Some ([], s)
  end.

Definition parse_exp (s : jsstring) : option (jsstring * jsstring) :=
  match s with
  | c :: r =>
      if ((c =? 101) || (c =? 69))%N then
        let '(sign, r1) :=
          match r with
          | x :: r' => if ((x =? 43) || (x =? 45))%N then ([x], r') else ([], r)
          | [] => ([], r)
          end in
        match take_while is_digit r1 with
        | [] => None
        | ds => Some (c :: sign ++ ds, drop_while is_digit r1)
        end
      else Some ([], s)
  | [] => Some ([], s)
  end.

Definition parse_number (s : jsstring) : option (jsstring * jsstring) :=
  let '(minus, s1) :=
    match s with
    | c :: r => if (c =? 45)%N then ([c], r) else ([], s)
    | [] => ([], s)
    end in
  match parse_int s1 with
  | None => None
  | Some (i, s2) =>
      match parse_frac s2 with
      | None => None
      | Some (f, s3) =>
          match parse_exp s3 with
          | None => None
          | Some (e, s4) => Some (minus ++ i ++ f ++ e, s4)
          end
      end
  end.

(** The value of a key that is an array index: a canonical decimal
    numeral no greater than 2^32 - 2. *)
Fixpoint digits_value (acc : N) (s : jsstring) : option N :=
  match s with
  | [] => Some acc
  | c :: s' =>
      if is_digit c then digits_value (acc * 10 + (c - 48))%N s' else None
  end.

Definition array_index (k : jsstring) : option N :=
  match k with
  | [] => None
  | c :: r =>
      if (c =? 48)%N && negb (match r with [] => true | _ => false end) then None
      else
        match digits_value 0 k with
        | Some n => if (n <=? 4294967294)%N then Some n else None
        | None => None
        end
  end.

Fixpoint has_key (k : jsstring) (ms : list (jsstring * value)) : bool :=
  match ms with
  | [] => false
  | (k', _) :: ms' => str_eqb k' k || has_key k ms'
  end.

Fixpoint set_key (k : jsstring) (v : value) (ms : list (jsstring * value))
  : list (jsstring * value) :=
  match ms with
  | [] => []
  | (k', v') :: ms' =>
      if str_eqb k' k then (k', v) :: ms' else (k', v') :: set_key k v ms'
  end.

(** A new index key goes before the first key that is not an index
    or is a greater one. *)
Fixpoint add_index (i : N) (k : jsstring) (v : value)
         (ms : list (jsstring * value)) : list (jsstring * value) :=
  match ms with
  | [] => [(k, v)]
  | (k', v') :: ms' =>
      match array_index k' with
      | Some j => if (j <? i)%N then (k', v') :: add_index i k v ms'
                  else (k, v) :: ms
      | None => (k, v) :: ms
      end
  end.

(** CreateDataProperty on the object under construction: a repeated
    key has its value replaced where it stands. *)
Definition define_property (ms : list (jsstring * value)) (k : jsstring)
           (v : value) : list (jsstring * value) :=
  if has_key k ms then set_key k v ms
  else match array_index k with
       | Some i => add_index i k v ms
       | None => ms ++ [(k, v)]
       end.

Inductive parsed (A : Type) : Type :=
| Ok (a : A)
| Malformed
| OutOfFuel.
Arguments Ok {A} a.
Arguments Malformed {A}.
Arguments OutOfFuel {A}.

Definition keyword (w : jsstring) (v : value) (s : jsstring)
  : parsed (value * jsstring) :=
  if startsWith s w then Ok (v, skipn (length w) s) else Malformed.

(** Recursive descent; every call spends one unit of [fuel]. *)
Fixpoint parse_value (fuel : nat) (s : jsstring) : parsed (value * jsstring) :=
  match fuel with
  | O => OutOfFuel
  | S f =>
      match skip_ws s with
      | [] => Malformed
      | c :: r =>
          if (c =? 123)%N then                       (* { *)
            match skip_ws r with
            | [] => Malformed
            | x :: r' => if (x =? 125)%N then Ok (Object [], r')
                         else parse_members f r []
            end
          else if (c =? 91)%N then                   (* [ *)
            match skip_ws r with
            | [] => Malformed
            | x :: r' => if (x =? 93)%N then Ok (Array [], r')
                         else parse_elements f r []
            end
          else if (c =? 34)%N then                   (* string *)
            match parse_chars r [] with
            | Some (str, r') => Ok (String_ str, r')
            | None => Malformed
            end
          else if (c =? 116)%N then keyword (lit "true") (Bool true) (c :: r)
          else if (c =? 102)%N then keyword (lit "false") (Bool false) (c :: r)
          else if (c =? 110)%N then keyword (lit "null") Null (c :: r)
          else
            match parse_number (c :: r) with
            | Some (l, r') => Ok (Number l, r')
            | None => Malformed
            end
      end
  end

with parse_elements (fuel : nat) (s : jsstring) (acc : list value)
  : parsed (value * jsstring) :=
  match fuel with
  | O => OutOfFuel
  | S f =>
      match parse_value f s with
      | Ok (v, r) =>
          match skip_ws r with
          | [] => Malformed
          | x :: r' =>
              if (x =? 44)%N then parse_elements f r' (v :: acc)
              else if (x =? 93)%N then Ok (Array (rev (v :: acc)), r')
              else Malformed
          end
      | Malformed => Malformed
      | OutOfFuel => OutOfFuel
      end
  end

with parse_members (fuel : nat) (s : jsstring) (acc : list (jsstring * value))
  : parsed (value * jsstring) :=
  match fuel with
  | O => OutOfFuel
  | S f =>
      match skip_ws s with
      | [] => Malformed
      | q :: r =>
          if (q =? 34)%N then
            match parse_chars r [] with
            | None => Malformed
            | Some (k, r1) =>
                match skip_ws r1 with
                | [] => Malformed
                | x :: r2 =>
                    if (x =? 58)%N then
                      match parse_value f r2 with
                      | Ok (v, r3) =>
                          match skip_ws r3 with
                          | [] => Malformed
                          | y :: r4 =>
                              if (y =? 44)%N
                              then parse_members f r4 (define_property acc k v)
                              else if (y =? 125)%N
                              then Ok (Object (define_property acc k v), r4)
                              else Malformed
                          end
                      | Malformed => Malformed
                      | OutOfFuel => OutOfFuel
                      end
                    else Malformed
                end
            end
          else Malformed
      end
  end.

(** [JSON.parse(text)]: one value, with nothing but white space
    around it.  The fuel is enough for every text (see
    [parse_never_out_of_fuel]); an engine that runs out of stack
    throws a RangeError. *)
Definition parse (text : jsstring) : completion value :=
  match parse_value (2 * length text + 2) text with
  | Ok (v, r) =>
      match skip_ws r with
      | [] => Normal v
      | _ :: _ => Throw SyntaxError
      end
  | Malformed => Throw SyntaxError
  | OutOfFuel => Throw RangeError
  end.

(** ** JSON.stringify *)

Definition hex_char (d : N) : N := if (d <? 10)%N then (48 + d)%N else (87 + d)%N.

Definition unicode_escape (c : N) : jsstring :=
  [92; 117; hex_char (c / 4096 mod 16); hex_char (c / 256 mod 16);
   hex_char (c / 16 mod 16); hex_char (c mod 16)]%N.

Definition is_lead (c : N) : bool := ((55296 <=? c) && (c <=? 56319))%N.
Definition is_trail (c : N) : bool := ((56320 <=? c) && (c <=? 57343))%N.

(** QuoteJSONString, without the quotes.  [paired] tells that the
    previous code unit was a lead surrogate followed by this trail. *)
Fixpoint quote_chars (paired : bool) (s : jsstring) : jsstring :=
  match s with
  | [] => []
  | c :: s' =>
      if (c =? 8)%N then [92; 98]%N ++ quote_chars false s'
      else if (c =? 9)%N then [92; 116]%N ++ quote_chars false s'
      else if (c =? 10)%N then [92; 110]%N ++ quote_chars false s'
      else if (c =? 12)%N then [92; 102]%N ++ quote_chars false s'
      else if (c =? 13)%N then [92; 114]%N ++ quote_chars false s'
      else if (c =? 34)%N then [92; 34]%N ++ quote_chars false s'
      else if (c =? 92)%N then [92; 92]%N ++ quote_chars false s'
      else if (c <? 32)%N then unicode_escape c ++ quote_chars false s'
      else if is_lead c then
        match s' with
        | d :: _ => if is_trail d then c :: quote_chars true s'
                    else unicode_escape c ++ quote_chars false s'
        | [] => unicode_escape c
        end
      else if is_trail c then
        if paired then c :: quote_chars false s'
        else unicode_escape c ++ quote_chars false s'
      else c :: quote_chars false s'
  end.

Definition quote (s : jsstring) : jsstring := 34%N :: quote_chars false s ++ [34%N].

Fixpoint join (sep : jsstring) (l : list jsstring) : jsstring :=
  match l with
  | [] => []
  | [x] => x
  | x :: l' => x ++ sep ++ join sep l'
  end.

Section Stringify.
(** The rendering of the double a number literal denotes. *)
Variable number_toString : jsstring -> jsstring.

Fixpoint stringify (v : value) : jsstring :=
  match v with
  | Null => lit "null"
  | Bool true => lit "true"
  | Bool false => lit "false"
  | Number l => number_toString l
  | String_ s => quote s
  | Array l => lit "[" ++ join (lit ",") (List.map stringify l) ++ lit "]"
  | Object ms =>
      lit "{"
      ++ join (lit ",")
           (List.map (fun kv => quote (fst kv) ++ lit ":" ++ stringify (snd kv)) ms)
      ++ lit "}"
  end.
End Stringify.

End JSON.

Import JSON.
Local Open Scope js_scope.

(** What the model leaves to the JavaScript engine: the double a number
    literal denotes, seen through ToBoolean and through the rendering
    of [JSON.stringify]. *)
Record Engine : Type := {
  number_truthy : jsstring -> bool;
  number_toString : jsstring -> jsstring
}.

Definition ch (c : ascii) : N := N_of_ascii c.
Arguments ch c%_char.

(* ================================================================== *)
(** * The webhook module: response formatting *)
(* ================================================================== *)

Module Webhook.

(** ** cleanHtmlAndFormatText *)

(** The word output in double quotes, white space, a colon, white
    space, and between double quotes a run of code units other than
    the double quote (group 1). *)
Definition re_output : regex :=
  str (litq "'output'") +++ Star CSpace +++ Chr (CChar (ch ":")) +++ Star CSpace
  +++ Chr (CChar DQUOTE) +++ Group (Star (CNoneOf [DQUOTE])) +++ Chr (CChar DQUOTE).

(** A backslash followed by the letter n; a backslash followed by a
    double quote. *)
Definition re_escaped_newline : regex := str [BACKSLASH; ch "n"].
Definition re_escaped_quote : regex := str [BACKSLASH; DQUOTE].

(** The HTML patterns, all under the [gi] flags but the last. *)
Definition re_br : regex :=
  strI (lit "<br") +++ Star CSpace +++ Opt (Chr (CCharI (ch "/")))
  +++ Chr (CCharI (ch ">")).
Definition re_h_open : regex :=
  strI (lit "<h") +++ Chr (CRange (ch "1") (ch "6")) +++ Chr (CCharI (ch ">")).
Definition re_h_close : regex :=
  strI (lit "</h") +++ Chr (CRange (ch "1") (ch "6")) +++ Chr (CCharI (ch ">")).
(** /<[^>]*>/ *)
Definition re_any_tag : regex :=
  Chr (CChar (ch "<")) +++ Star (CNoneOf [ch ">"]) +++ Chr (CChar (ch ">")).

(** The Markdown patterns. *)
Definition re_bold_stars : regex :=
  str (lit "**") +++ Group (LazyStar CDot) +++ str (lit "**").
Definition re_italic_star : regex :=
  str (lit "*") +++ Group (LazyStar CDot) +++ str (lit "*").
Definition re_bold_underscores : regex :=
  str (lit "__") +++ Group (LazyStar CDot) +++ str (lit "__").
Definition re_italic_underscore : regex :=
  str (lit "_") +++ Group (LazyStar CDot) +++ str (lit "_").
(** /\[(.*?)\]\(.*?\)/ *)
Definition re_link : regex :=
  str (lit "[") +++ Group (LazyStar CDot) +++ str (lit "](") +++ LazyStar CDot
  +++ str (lit ")").

(** /\n{3,}/ *)
Definition re_newlines3 : regex := Rep true 3 (CChar LF).

(** The bullet of a list item: a line feed, U+2022 and a space. *)
Definition bullet : jsstring := [LF; 8226%N; 32%N].

(** The leading label. *)
Definition strip_label (text : jsstring) : jsstring :=
  if startsWith text (lit "Response:")
  then trim (substring_from (List.length (lit "Response:")) text)
  else text.

(** The value of an output field in what still looks like JSON.
    [match[1]] has to be a non-empty string. *)
Definition extract_output (text : jsstring) : jsstring :=
  if startsWith (trim text) (lit "{") && includes text (litq "'output'") then
    match search re_output 0 text with
    | Some (_, _, Some (c :: g)) =>
        replace_all re_escaped_quote (by_str [DQUOTE])
          (replace_all re_escaped_newline (by_str [LF]) (c :: g))
    | _ => text
    end
  else text.

Definition unescape (text : jsstring) : jsstring :=
  replace_all re_escaped_quote (by_str [DQUOTE])
    (replace_all re_escaped_newline (by_str [LF]) text).

(** The chain of HTML replacements, in source order: each pattern with
    the string that replaces its matches.  All but the last are under
    the [gi] flags. *)
Definition html_rules : list (regex * jsstring) :=
  [ (re_br, [LF]);
    (strI (lit "<p>"), [LF]);
    (strI (lit "</p>"), [LF]);
    (strI (lit "<li>"), bullet);
    (strI (lit "</li>"), []);
    (strI (lit "<ul>"), [LF]);
    (strI (lit "</ul>"), [LF]);
    (strI (lit "<ol>"), [LF]);
    (strI (lit "</ol>"), [LF]);
    (re_h_open, [LF; LF]);
    (re_h_close, [LF]);
    (Alt (strI (lit "<strong>")) (strI (lit "<b>")), []);
    (Alt (strI (lit "</strong>")) (strI (lit "</b>")), []);
    (Alt (strI (lit "<em>")) (strI (lit "<i>")), []);
    (Alt (strI (lit "</em>")) (strI (lit "</i>")), []);
    (re_any_tag, []) ].

(** [text.replace(p1, s1).replace(p2, s2)...] *)
Definition replace_chain (rules : list (regex * jsstring)) (text : jsstring)
  : jsstring :=
  fold_left (fun t rule => replace_all (fst rule) (by_str (snd rule)) t) rules text.

Definition strip_html (text : jsstring) : jsstring :=
  replace_chain html_rules text.

(** The Markdown replacements, one statement each in the source, all
    by ['$1']. *)
Definition markdown_rules : list regex :=
  [re_bold_stars; re_italic_star; re_bold_underscores; re_italic_underscore;
   re_link].

Definition strip_markdown (text : jsstring) : jsstring :=
  fold_left (fun t re => replace_all re by_group1 t) markdown_rules text.

Definition collapse_newlines (text : jsstring) : jsstring :=
  replace_all re_newlines3 (by_str [LF; LF]) text.

Definition cleanHtmlAndFormatText (text : jsstring) : jsstring :=
  let text := strip_label text in
  let text := extract_output text in
  let text := unescape text in
  let text := strip_html text in
  let text := strip_markdown text in
  let text := collapse_newlines text in
  trim text.

(** ** formatResponseText *)

Section Format.
Variable E : Engine.

(** A JavaScript value here is a JSON value or [undefined] ([None]). *)
Definition jsval : Type := option value.

Definition is_string (v : jsval) : bool :=
  match v with Some (String_ _) => true | _ => false end.

(** typeof v === 'object' *)
Definition is_object (v : jsval) : bool :=
  match v with
  | Some Null | Some (Array _) | Some (Object _) => true
  | _ => false
  end.

(** ToBoolean *)
Definition truthy (v : jsval) : bool :=
  match v with
  | None | Some Null => false
  | Some (Bool b) => b
  | Some (Number l) => number_truthy E l
  | Some (String_ s) => match s with [] => false | _ => true end
  | Some (Array _) | Some (Object _) => true
  end.

Fixpoint lookup (k : jsstring) (ms : list (jsstring * value)) : jsval :=
  match ms with
  | [] => None
  | (k', v) :: ms' => if str_eqb k' k then Some v else lookup k ms'
  end.

(** [base.key] and [base[key]], for the keys this module reads:
    output, response, message, text, content, result, answer, data,
    and the indices and own keys of the parsed value.  None of the
    named keys is a property of a prototype, so on a primitive, on
    an array and on an object without that own key the read is
    [undefined]; on [null] and [undefined] it throws. *)
Definition get (base : jsval) (key : jsstring) : completion jsval :=
  match base with
  | None | Some Null => Throw TypeError
  | Some (Object ms) => Normal (lookup key ms)
  | Some (Array l) =>
      match array_index key with
      | Some i => Normal (nth_error l (N.to_nat i))
      | None => Normal None
      end
  | Some _ => Normal None
  end.

(** A call of [cleanHtmlAndFormatText] on a value: a value that is
    not a string has no [startsWith]. *)
Definition clean_call (v : jsval) : completion jsstring :=
  match v with
  | Some (String_ s) => Normal (cleanHtmlAndFormatText s)
  | _ => Throw TypeError
  end.

(** [data && typeof data.k === 'string'] *)
Definition has_string (data : jsval) (k : jsstring) : completion bool :=
  if truthy data then v <- get data k ;; Normal (is_string v)
  else Normal false.

(** [data && data.data && typeof data.data.k === 'string'] *)
Definition has_nested_string (data : jsval) (k : jsstring) : completion bool :=
  if truthy data then
    d <- get data (lit "data") ;;
    if truthy d then v <- get d k ;; Normal (is_string v) else Normal false
  else Normal false.

(** [Array.isArray(data) && data.length > 0 && typeof data[0] === 'string'] *)
Definition first_element_is_string (data : jsval) : completion bool :=
  match data with
  | Some (Array l) =>
      if 0 <? List.length l then v <- get data (lit "0") ;; Normal (is_string v)
      else Normal false
  | _ => Normal false
  end.

(** The values [for (const key in data)] reads through [data[key]],
    in property order. *)
Definition for_in_values (data : jsval) : list value :=
  match data with
  | Some (Object ms) => List.map snd ms
  | Some (Array l) => l
  | _ => []
  end.

(** The first string property longer than 20 code units. *)
Fixpoint first_long_string (vs : list value) : option jsstring :=
  match vs with
  | [] => None
  | String_ s :: vs' =>
      if 20 <? List.length s then Some s else first_long_string vs'
  | _ :: vs' => first_long_string vs'
  end.

(** One arm of the else-if chain. *)
Definition else_if {A : Type} (cond : completion bool)
           (body rest : completion A) : completion A :=
  b <- cond ;; if b then body else rest.

(** The body of the [try] block: [Some s] when it returns [s], and
    [None] when control leaves the block without a return. *)
Definition try_body (text : jsstring) : completion (option jsstring) :=
  parsed <- JSON.parse text ;;
  let data : jsval := Some parsed in
  let ret (c : completion jsstring) := s <- c ;; Normal (Some s) in
  if is_string data then ret (clean_call data)
  else
  else_if (has_string data (lit "output"))
    (ret (v <- get data (lit "output") ;; clean_call v))
  (else_if (has_string data (lit "response"))
    (ret (v <- get data (lit "response") ;; clean_call v))
  (else_if (has_string data (lit "message"))
    (ret (v <- get data (lit "message") ;; clean_call v))
  (else_if (has_string data (lit "text"))
    (ret (v <- get data (lit "text") ;; clean_call v))
  (else_if (has_string data (lit "content"))
    (ret (v <- get data (lit "content") ;; clean_call v))
  (else_if (has_string data (lit "result"))
    (ret (v <- get data (lit "result") ;; clean_call v))
  (else_if (has_string data (lit "answer"))
    (ret (v <- get data (lit "answer") ;; clean_call v))
  (else_if (has_string data (lit "data"))
    (ret (v <- get data (lit "data") ;; clean_call v))
  (else_if (has_nested_string data (lit "response"))
    (ret (d <- get data (lit "data") ;; v <- get d (lit "response") ;; clean_call v))
  (else_if (has_nested_string data (lit "message"))
    (ret (d <- get data (lit "data") ;; v <- get d (lit "message") ;; clean_call v))
  (else_if (has_nested_string data (lit "text"))
    (ret (d <- get data (lit "data") ;; v <- get d (lit "text") ;; clean_call v))
  (else_if (first_element_is_string data)
    (ret (v <- get data (lit "0") ;; clean_call v))
  (if truthy data && is_object data then
     match first_long_string (for_in_values data) with
     | Some s => Normal (Some (cleanHtmlAndFormatText s))
     | None =>
         Normal (Some (lit "Response: "
                       ++ cleanHtmlAndFormatText
                            (stringify (number_toString E) parsed)))
     end
   else Normal None)))))))))))).

Definition formatResponseText (text : jsstring) : completion jsstring :=
  if startsWith (trim text) (lit "{") || startsWith (trim text) (lit "[") then
    r <- try_catch (try_body text)
           (fun _ => Normal (Some (cleanHtmlAndFormatText text))) ;;
    match r with
    | Some s => Normal s
    | None => Normal (cleanHtmlAndFormatText text)
    end
  else Normal (cleanHtmlAndFormatText text).

(** ** sendMessageToWebhook *)

(** What [fetch] and [response.text()] hand back. *)
Record response : Type := {
  ok : bool;
  status : N;
  body : jsstring
}.

Inductive fetched : Type :=
| Rejected
| Responded (r : response).

Definition empty_response_notice : jsstring :=
  lit "Sorry, I received an empty response. Please try again.".

Definition sendMessageToWebhook (f : fetched) : completion jsstring :=
  try_catch
    (match f with
     | Rejected => Throw NetworkError
     | Responded r =>
         if negb (ok r) then Throw (HttpError (status r))
         else
           let textData := body r in
           if match textData with [] => true | _ => false end
              || str_eqb (trim textData) []
           then Normal empty_response_notice
           else formatResponseText textData
     end)
    (fun e => Throw e).

(** The formatter of the specification, [format(raw)]: what
    [sendMessageToWebhook] makes of a successful response whose body
    is [raw]. *)
Definition format (raw : jsstring) : completion jsstring :=
  sendMessageToWebhook (Responded {| ok := true; status := 200; body := raw |}).

End Format.

(** An engine for closed examples: a literal is falsy when its
    mantissa has no digit but 0, and is rendered as it is written.
    This is what an engine does on the small integers the examples
    use. *)
Definition mantissa_nonzero (l : jsstring) : bool :=
  existsb (fun c => (49 <=? c) && (c <=? 57))%N
    (take_while (fun c => negb ((c =? 101) || (c =? 69)))%N l).

Definition small_integers : Engine :=
  {| number_truthy := mantissa_nonzero; number_toString := fun l => l |}.

End Webhook.
Import Webhook.

(* ================================================================== *)
(** * useSpeechSynthesis: chunking and the playback controller *)
(* ================================================================== *)

Module Speech.

Definition AUDIBLE_PREFIX : jsstring := lit "Lecture en cours : ".

(** ** processTextForSpeech *)

Definition processTextForSpeech (text : jsstring) : jsstring :=
  let processedText := replace_all (Rep true 1 (CChar (ch "#"))) (by_str (lit " ")) text in
  let processedText :=
    replace_all (str (lit "--") +++ Plus (CChar (ch "-"))) (by_str (lit " ")) processedText in
  let processedText := replace_all (str (lit "***")) (by_str (lit " ")) processedText in
  let processedText := replace_all (str (lit "...")) (by_str (lit ".")) processedText in
  let processedText :=
    replace_all (Chr (CChar (ch "<")) +++ Plus (CNoneOf [ch ">"]) +++ Chr (CChar (ch ">")))
      (by_str (lit " ")) processedText in
  let processedText :=
    replace_all (Chr (COneOf [ch "*"; ch "_"; ch "~"; ch "`"])) (by_str (lit " "))
      processedText in
  trim (replace_all (Plus CSpace) (by_str (lit " ")) processedText).

(** ** splitIntoSentences *)

Definition terminal : list N := [ch "."; ch "!"; ch "?"].

(** One or more code units other than . ! ?, then at most one of
    them, then white space. *)
Definition re_sentence : regex :=
  Plus (CNoneOf terminal) +++ Opt (Chr (COneOf terminal)) +++ Star CSpace.

Definition splitIntoSentences (text : jsstring) : list jsstring :=
  match match_all re_sentence text with
  | Some sentences =>
      List.filter (fun s => 0 <? List.length s) (List.map trim sentences)
  | None => [text]
  end.

(** ** The hook's state *)

Record voice : Type := {
  name : jsstring;
  voice_lang : jsstring;
  localService : bool
}.

(** A SpeechSynthesisUtterance; rate, pitch and volume are the
    literals of the source. *)
Record utterance : Type := {
  text : jsstring;
  utt_voice : option voice;
  lang : jsstring;
  rate : jsstring;
  pitch : jsstring;
  volume : jsstring
}.

Definition with_text (u : utterance) (t : jsstring) : utterance :=
  {| text := t; utt_voice := utt_voice u; lang := lang u;
     rate := rate u; pitch := pitch u; volume := volume u |}.

(** The refs and the React state of the hook.  [synthesisRef] tells
    whether [synthesisRef.current] holds the device. *)
Record hook : Type := {
  isSpeaking : bool;
  isSupported : bool;
  synthesisRef : bool;
  selectedVoiceRef : option voice;
  isInitializedRef : bool;
  voicesLoadedRef : bool;
  utteranceQueueRef : list utterance;
  currentUtteranceIndexRef : nat;
  isCancellingRef : bool
}.

(** The callbacks handed to [setTimeout]. *)
Inductive callback : Type :=
| SettleThenStart (text : jsstring)   (* the arrow function of [speak], 100 ms *)
| NextChunk                           (* [speakNextChunk] from [onend], 50 ms *)
| ResetCancelling.                    (* the arrow function of [cancel], 50 ms *)

(** What the speech device is asked to do. *)
Inductive device_call : Type :=
| DevSpeak (u : utterance)
| DevCancel.

(** The hook in its environment: the clock (ms), the pending timers
    in the order they were set, every call made to the device, oldest
    first, and the utterances the device has been handed and has not
    yet reported on. *)
Record world : Type := {
  hk : hook;
  now : nat;
  timers : list (nat * callback);
  device : list device_call;
  inflight : list utterance
}.

Definition set_hook (w : world) (h : hook) : world :=
  {| hk := h; now := now w; timers := timers w; device := device w;
     inflight := inflight w |}.

Definition setTimeout (cb : callback) (ms : nat) (w : world) : world :=
  {| hk := hk w; now := now w; timers := timers w ++ [(now w + ms, cb)];
     device := device w; inflight := inflight w |}.

(** [synthesisRef.current.speak(u)].  The device takes the utterance
    and reports on it through its handlers; the call itself returns,
    so the [catch] around it in [speakNextChunk] is not entered. *)
Definition synthesis_speak (u : utterance) (w : world) : world :=
  {| hk := hk w; now := now w; timers := timers w;
     device := device w ++ [DevSpeak u]; inflight := inflight w ++ [u] |}.

(** [synthesisRef.current.cancel()]: the device drops what it holds;
    it still reports on each dropped utterance, later. *)
Definition synthesis_cancel (w : world) : world :=
  {| hk := hk w; now := now w; timers := timers w;
     device := device w ++ [DevCancel]; inflight := inflight w |}.

Definition setIsSpeaking (b : bool) (h : hook) : hook :=
  {| isSpeaking := b; isSupported := isSupported h;
     synthesisRef := synthesisRef h; selectedVoiceRef := selectedVoiceRef h;
     isInitializedRef := isInitializedRef h; voicesLoadedRef := voicesLoadedRef h;
     utteranceQueueRef := utteranceQueueRef h;
     currentUtteranceIndexRef := currentUtteranceIndexRef h;
     isCancellingRef := isCancellingRef h |}.

Definition set_queue (q : list utterance) (h : hook) : hook :=
  {| isSpeaking := isSpeaking h; isSupported := isSupported h;
     synthesisRef := synthesisRef h; selectedVoiceRef := selectedVoiceRef h;
     isInitializedRef := isInitializedRef h; voicesLoadedRef := voicesLoadedRef h;
     utteranceQueueRef := q;
     currentUtteranceIndexRef := currentUtteranceIndexRef h;
     isCancellingRef := isCancellingRef h |}.

Definition set_index (i : nat) (h : hook) : hook :=
  {| isSpeaking := isSpeaking h; isSupported := isSupported h;
     synthesisRef := synthesisRef h; selectedVoiceRef := selectedVoiceRef h;
     isInitializedRef := isInitializedRef h; voicesLoadedRef := voicesLoadedRef h;
     utteranceQueueRef := utteranceQueueRef h;
     currentUtteranceIndexRef := i;
     isCancellingRef := isCancellingRef h |}.

Definition set_cancelling (b : bool) (h : hook) : hook :=
  {| isSpeaking := isSpeaking h; isSupported := isSupported h;
     synthesisRef := synthesisRef h; selectedVoiceRef := selectedVoiceRef h;
     isInitializedRef := isInitializedRef h; voicesLoadedRef := voicesLoadedRef h;
     utteranceQueueRef := utteranceQueueRef h;
     currentUtteranceIndexRef := currentUtteranceIndexRef h;
     isCancellingRef := b |}.

(** [l[i] = x] for [i] within the list. *)
Fixpoint update (l : list utterance) (i : nat) (x : utterance) : list utterance :=
  match l, i with
  | [], _ => []
  | _ :: l', O => x :: l'
  | y :: l', S j => y :: update l' j x
  end.

(** ** speakNextChunk and the handlers it attaches *)

(** The queue is done with, or the session has failed. *)
Definition stop_and_clear (h : hook) : hook :=
  set_index 0 (set_queue [] (setIsSpeaking false h)).

Definition speakNextChunk (w : world) : world :=
  let h := hk w in
  if isCancellingRef h then set_hook w (setIsSpeaking false h)
  else if negb (synthesisRef h)
          || (List.length (utteranceQueueRef h) <=? currentUtteranceIndexRef h)
  then set_hook w (stop_and_clear h)
  else
    match nth_error (utteranceQueueRef h) (currentUtteranceIndexRef h) with
    | None => set_hook w (stop_and_clear h)
    | Some u =>
        (* onend, onerror and onstart are attached here; the first
           chunk is given the audible prefix, in the queue itself *)
        let u' :=
          if currentUtteranceIndexRef h =? 0
          then with_text u (AUDIBLE_PREFIX ++ text u) else u in
        let h' := set_queue (update (utteranceQueueRef h)
                               (currentUtteranceIndexRef h) u') h in
        synthesis_speak u' (set_hook w h')
    end.

Definition onend (w : world) : world :=
  let h := hk w in
  if isCancellingRef h then set_hook w (setIsSpeaking false h)
  else
    setTimeout NextChunk 50
      (set_hook w (set_index (S (currentUtteranceIndexRef h)) h)).

Definition onerror (w : world) : world :=
  let h := hk w in
  if isCancellingRef h then set_hook w (setIsSpeaking false h)
  else set_hook w (stop_and_clear h).

Definition onstart (w : world) : world :=
  set_hook w (setIsSpeaking true (hk w)).

(** ** speak *)

(** [new SpeechSynthesisUtterance(chunk)] with the voice, the language
    ([selectedVoiceRef.current?.lang || 'fr-FR']: the default stands
    for a missing voice and for an empty tag), rate, pitch and volume
    of the source. *)
Definition make_utterance (v : option voice) (chunk : jsstring) : utterance :=
  {| text := chunk;
     utt_voice := v;
     lang := match v with
             | Some x =>
                 match voice_lang x with
                 | [] => lit "fr-FR"
                 | _ :: _ => voice_lang x
                 end
             | None => lit "fr-FR"
             end;
     rate := lit "1.0"; pitch := lit "1.05"; volume := lit "1.0" |}.

(** The arrow function [speak] hands to [setTimeout]. *)
Definition settle_then_start (text : jsstring) (w : world) : world :=
  let w := set_hook w (set_cancelling false (hk w)) in
  let processedText := processTextForSpeech text in
  let chunks := splitIntoSentences processedText in
  match chunks with
  | [] => w
  | _ :: _ =>
      let h := hk w in
      let h := set_queue (List.map (make_utterance (selectedVoiceRef h)) chunks) h in
      let h := set_index 0 h in
      let h := setIsSpeaking true h in
      speakNextChunk (set_hook w h)
  end.

Definition blank (text : jsstring) : bool :=
  match text with [] => true | _ => false end
  || (List.length (trim text) =? 0).

Definition ready (h : hook) : bool :=
  synthesisRef h && isInitializedRef h && voicesLoadedRef h
  && match selectedVoiceRef h with Some _ => true | None => false end.

Definition speak (text : jsstring) (w : world) : world :=
  if blank text then w
  else if negb (ready (hk w)) then w
  else
    let w := set_hook w (set_cancelling true (hk w)) in
    let w := synthesis_cancel w in
    setTimeout (SettleThenStart text) 100 w.

(** ** cancel *)

(** [isSpeaking] is the state of the latest render, the one whose
    [cancel] the caller holds. *)
Definition cancel (w : world) : world :=
  let h := hk w in
  if negb (synthesisRef h) || negb (isSpeaking h) then w
  else
    let h := set_cancelling true h in
    let h := set_index 0 (set_queue [] h) in
    let w := synthesis_cancel (set_hook w h) in
    let w := set_hook w (setIsSpeaking false (hk w)) in
    setTimeout ResetCancelling 50 w.

(** ** The event loop *)

Definition run_callback (cb : callback) (w : world) : world :=
  match cb with
  | SettleThenStart text => settle_then_start text w
  | NextChunk => speakNextChunk w
  | ResetCancelling => set_hook w (set_cancelling false (hk w))
  end.

(** The pending timer to run first: the earliest, and among equals
    the one set first.  Returns it with the timers left. *)
Fixpoint next_timer (ts : list (nat * callback))
  : option (nat * callback * list (nat * callback)) :=
  match ts with
  | [] => None
  | (d, cb) :: ts' =>
      match next_timer ts' with
      | Some (d', cb', rest) =>
          if d' <? d then Some (d', cb', (d, cb) :: rest)
          else Some (d, cb, ts')
      | None => Some (d, cb, ts')
      end
  end.

Inductive event : Type :=
| Call_speak (text : jsstring)
| Call_cancel
| Elapse (ms : nat)      (* time passes, no timer being due before its end *)
| Timer                  (* the first pending timer, now due, runs *)
| Dev_start              (* the device starts the oldest utterance it holds *)
| Dev_end                (* ... finishes it *)
| Dev_error.             (* ... reports an error on it *)

Definition drop_inflight (w : world) : world :=
  {| hk := hk w; now := now w; timers := timers w; device := device w;
     inflight := tl (inflight w) |}.

(** One turn of the event loop; [None] when the event cannot happen
    in [w]. *)
Definition step (e : event) (w : world) : option world :=
  match e with
  | Call_speak text => Some (speak text w)
  | Call_cancel => Some (cancel w)
  | Elapse ms =>
      match next_timer (timers w) with
      | Some (d, _, _) =>
          if d <? now w + ms then None
          else Some {| hk := hk w; now := now w + ms; timers := timers w;
                       device := device w; inflight := inflight w |}
      | None => Some {| hk := hk w; now := now w + ms; timers := timers w;
                        device := device w; inflight := inflight w |}
      end
  | Timer =>
      match next_timer (timers w) with
      | Some (d, cb, rest) =>
          if d <=? now w
          then Some (run_callback cb
                       {| hk := hk w; now := now w; timers := rest;
                          device := device w; inflight := inflight w |})
          else None
      | None => None
      end
  | Dev_start =>
      match inflight w with
      | [] => None
      | _ :: _ => Some (onstart w)
      end
  | Dev_end =>
      match inflight w with
      | [] => None
      | _ :: _ => Some (onend (drop_inflight w))
      end
  | Dev_error =>
      match inflight w with
      | [] => None
      | _ :: _ => Some (onerror (drop_inflight w))
      end
  end.

Fixpoint run (es : list event) (w : world) : option world :=
  match es with
  | [] => Some w
  | e :: es' =>
      match step e w with
      | Some w' => run es' w'
      | None => None
      end
  end.

(** The hook once the device and a voice are there, nothing said yet. *)
Definition idle_hook (v : voice) : hook :=
  {| isSpeaking := false; isSupported := true; synthesisRef := true;
     selectedVoiceRef := Some v; isInitializedRef := true;
     voicesLoadedRef := true; utteranceQueueRef := [];
     currentUtteranceIndexRef := 0; isCancellingRef := false |}.

Definition idle_world (v : voice) : world :=
  {| hk := idle_hook v; now := 0; timers := []; device := []; inflight := [] |}.

(** The texts handed to the device after its last cancel: what it
    goes on to vocalize. *)
Fixpoint spoken_after_cancel (calls : list device_call) (acc : list jsstring)
  : list jsstring :=
  match calls with
  | [] => rev acc
  | DevCancel :: calls' => spoken_after_cancel calls' []
  | DevSpeak u :: calls' => spoken_after_cancel calls' (text u :: acc)
  end.

End Speech.
Import Speech.

(* ================================================================== *)
(** * The specification's vocabulary *)
(* ================================================================== *)

Module Spec.

(** Empty or made of white space only. *)
Definition whitespace_only (s : jsstring) : bool := forallb is_space s.

(** No leading and no trailing white space. *)
Definition trimmed (s : jsstring) : bool :=
  match s with
  | [] => true
  | c :: _ => negb (is_space c) && negb (is_space (last s c))
  end.

(** At most one consecutive blank line: no run of three line feeds.
    [run] counts the line feeds just before [s]. *)
Fixpoint lf_runs_below3 (run : nat) (s : jsstring) : bool :=
  match s with
  | [] => true
  | c :: s' =>
      if (c =? LF)%N
      then (run <? 2) && lf_runs_below3 (S run) s'
      else lf_runs_below3 0 s'
  end.

(** An HTML tag: a [<] with a [>] somewhere after it. *)
Fixpoint has_tag (s : jsstring) : bool :=
  match s with
  | [] => false
  | c :: s' => ((c =? ch "<")%N && existsb (N.eqb (ch ">")) s') || has_tag s'
  end.

(** Two occurrences of the marker [x] on one line: the shape of
    emphasis.  [seen] tells that the line read so far holds one. *)
Fixpoint has_pair (x : N) (seen : bool) (s : jsstring) : bool :=
  match s with
  | [] => false
  | c :: s' =>
      if is_line_terminator c then has_pair x false s'
      else if (c =? x)%N then seen || has_pair x true s'
      else has_pair x seen s'
  end.

Definition has_emphasis (s : jsstring) : bool :=
  has_pair (ch "*") false s || has_pair (ch "_") false s.

(** A UTF-16 code unit. *)
Definition code_unit (c : N) : bool := (c <? 65536)%N.

(** The JSON text of the object whose one field, response, holds the
    string [s], as [JSON.stringify] writes it. *)
Definition response_json (s : jsstring) : jsstring :=
  lit "{" ++ quote (lit "response") ++ lit ":" ++ quote s ++ lit "}".

(** The candidate fields of a parsed object, in precedence order:
    a top-level key, or a key one level under [data]. *)
Inductive candidate : Type :=
| Top (k : jsstring)
| UnderData (k : jsstring).

Definition candidates : list candidate :=
  [Top (lit "output"); Top (lit "response"); Top (lit "message");
   Top (lit "text"); Top (lit "content"); Top (lit "result");
   Top (lit "answer"); Top (lit "data");
   UnderData (lit "response"); UnderData (lit "message"); UnderData (lit "text")].

(** The string a candidate holds in the object, if it holds one. *)
Definition string_at (ms : list (jsstring * value)) (c : candidate)
  : option jsstring :=
  match c with
  | Top k =>
      match lookup k ms with
      | Some (String_ s) => Some s
      | _ => None
      end
  | UnderData k =>
      match lookup (lit "data") ms with
      | Some (Object ms') =>
          match lookup k ms' with
          | Some (String_ s) => Some s
          | _ => None
          end
      | _ => None
      end
  end.

Definition found (o : option jsstring) : bool :=
  match o with Some _ => true | None => false end.

(** First string-typed match wins. *)
Fixpoint first_match (ms : list (jsstring * value)) (cs : list candidate)
  : option jsstring :=
  match cs with
  | [] => None
  | c :: cs' =>
      match string_at ms c with
      | Some s => Some s
      | None => first_match ms cs'
      end
  end.

(** Chunking as the specification words it: cut after every terminal
    mark, the mark staying with what precedes it; trim the segments
    and drop the empty ones; with no mark at all, the whole text,
    trimmed, is the one chunk.  [cur] is the segment being read,
    reversed. *)
Definition is_terminal (c : N) : bool := mem c terminal.

Fixpoint cut_after_terminal (cur : jsstring) (t : jsstring) : list jsstring :=
  match t with
  | [] => [rev cur]
  | c :: t' =>
      if is_terminal c then rev (c :: cur) :: cut_after_terminal [] t'
      else cut_after_terminal (c :: cur) t'
  end.

Definition chunking (t : jsstring) : list jsstring :=
  if existsb is_terminal t
  then List.filter (fun s => 0 <? List.length s)
         (List.map trim (cut_after_terminal [] t))
  else [trim t].

Definition not_terminal : N -> bool := cls_mem (CNoneOf terminal).

(** Empty, or ending with a code unit that is not white space. *)
Definition ends_clean (s : jsstring) : bool :=
  match s with
  | [] => true
  | c :: _ => negb (is_space (last s c))
  end.

Definition nonempty (s : jsstring) : bool := 0 <? List.length s.

(** The length of the sentence that starts at the head of [s]: the
    code units up to the first mark, the mark, and the white space
    after it. *)
Definition sentence_length (s : jsstring) : nat :=
  List.length (take_while not_terminal s)
  + match drop_while not_terminal s with
    | [] => 0
    | _ :: r => 1 + List.length (take_while is_space r)
    end.

(** Every terminal mark has, between the mark before it (or the start
    of the text) and itself, a code unit that is neither a mark nor
    white space.  [seen] tells that one has been read since the last
    mark. *)
Fixpoint marks_follow_text (seen : bool) (t : jsstring) : bool :=
  match t with
  | [] => true
  | c :: t' =>
      if is_terminal c then seen && marks_follow_text false t'
      else marks_follow_text (seen || negb (is_space c)) t'
  end.

Definition is_lf (c : N) : bool := (c =? LF)%N.

(** The pattern occurs somewhere in the string. *)
Definition occurs (r : regex) (s : jsstring) : bool :=
  match search r 0 s with Some _ => true | None => false end.

(** The offset of the first [x] of the line [s] starts with; the
    offset of the first [x] of [s]. *)
Fixpoint find_on_line (x : N) (s : jsstring) : option nat :=
  match s with
  | [] => None
  | c :: s' =>
      if (c =? x)%N then Some 0
      else if is_line_terminator c then None
      else option_map S (find_on_line x s')
  end.

Fixpoint find_char (x : N) (s : jsstring) : option nat :=
  match s with
  | [] => None
  | c :: s' => if (c =? x)%N then Some 0 else option_map S (find_char x s')
  end.

(** The code unit [x] occurs on the line [s] starts with. *)
Definition on_line_has (x : N) (s : jsstring) : bool :=
  match find_on_line x s with Some _ => true | None => false end.

(** A Markdown link: an opening square bracket, further on its line a
    closing one with an opening parenthesis right after it, and
    further on that line a closing parenthesis.  [has_target] reads
    what follows the opening bracket. *)
Fixpoint has_target (s : jsstring) : bool :=
  match s with
  | [] => false
  | c :: s' =>
      negb (is_line_terminator c)
      && ((c =? ch "]")%N
          && match s' with
             | d :: s'' => (d =? ch "(")%N && on_line_has (ch ")") s''
             | [] => false
             end
          || has_target s')
  end.

Fixpoint has_link (s : jsstring) : bool :=
  match s with
  | [] => false
  | c :: s' => (c =? ch "[")%N && has_target s' || has_link s'
  end.

(** Free of HTML and Markdown markup: no tag, no emphasis, no link. *)
Definition markup_free (s : jsstring) : bool :=
  negb (has_tag s) && negb (has_emphasis s) && negb (has_link s).

(** No escaped line feed and no escaped quote: no backslash followed
    by the letter n or by a double quote. *)
Definition escape_free (s : jsstring) : bool :=
  negb (includes s [BACKSLASH; ch "n"])
  && negb (includes s [BACKSLASH; DQUOTE]).

(** Plain text to the formatter: not empty, not starting like JSON nor
    with the label, and holding no escape. *)
Definition plain (s : jsstring) : bool :=
  nonempty s
  && negb (startsWith s (lit "{")) && negb (startsWith s (lit "["))
  && negb (startsWith s (lit "Response:"))
  && escape_free s.

(** [s.indexOf(p)]: where [p] first occurs in [s]. *)
Fixpoint indexOf (s p : jsstring) : option nat :=
  if startsWith s p then Some 0
  else match s with
       | [] => None
       | _ :: s' => option_map S (indexOf s' p)
       end.

(** An output field as it is written in JSON text: the key in double
    quotes, white space, a colon, white space, and the value [g] in
    double quotes. *)
Definition output_field (sp1 sp2 g : jsstring) : jsstring :=
  litq "'output'" ++ sp1 ++ [ch ":"] ++ sp2 ++ [DQUOTE] ++ g ++ [DQUOTE].

(** What [cleanHtmlAndFormatText] goes on to do with a text once the
    label and the output field have been dealt with, in the words of
    the specification: unescape, strip the markup, collapse the line
    feeds, trim. *)
Definition cleaned (t : jsstring) : jsstring :=
  trim (collapse_newlines (strip_markdown (strip_html (unescape t)))).

(** Every word of the pattern begins with [x]; ends with [x].  [only]
    tells that the class holds [x] alone ([x] not being a letter). *)
Definition only (x : N) (k : cclass) : bool :=
  match k with
  | CChar c => (c =? x)%N
  | CCharI c =>
      (c =? x)%N && (canon x =? x)%N && negb ((65 <=? x) && (x <=? 90))%N
  | _ => false
  end.

Fixpoint begins_with (x : N) (r : regex) : bool :=
  match r with
  | Chr k => only x k
  | Seq r1 _ => begins_with x r1
  | Alt r1 r2 => begins_with x r1 && begins_with x r2
  | Group r1 => begins_with x r1
  | _ => false
  end.

Fixpoint ends_with (x : N) (r : regex) : bool :=
  match r with
  | Chr k => only x k
  | Seq r1 r2 =>
      match r2 with
      | Eps => ends_with x r1
      | _ => ends_with x r2
      end
  | Alt r1 r2 => ends_with x r1 && ends_with x r2
  | Group r1 => ends_with x r1
  | _ => false
  end.

(** White-space normalized, as the formatter leaves a text: no run of
    three line feeds, nothing to trim at either end. *)
Definition whitespace_normalized (s : jsstring) : bool :=
  lf_runs_below3 0 s && trimmed s.

(** Sub-sequences: [subseq a b] when [a] is [b] with code units left
    out; [line_subseq a b] when none of those is a line terminator. *)
Inductive subseq : jsstring -> jsstring -> Prop :=
| subseq_nil : subseq [] []
| subseq_keep c a b : subseq a b -> subseq (c :: a) (c :: b)
| subseq_skip c a b : subseq a b -> subseq a (c :: b).

Inductive line_subseq : jsstring -> jsstring -> Prop :=
| line_subseq_nil : line_subseq [] []
| line_subseq_keep c a b : line_subseq a b -> line_subseq (c :: a) (c :: b)
| line_subseq_skip c a b :
    is_line_terminator c = false -> line_subseq a b -> line_subseq a (c :: b).

Definition on_one_line (s : jsstring) : bool :=
  forallb (fun c => negb (is_line_terminator c)) s.

(** Every word of the pattern lies on one line. *)
Definition class_on_line (k : cclass) : bool :=
  match k with
  | CChar c => negb (is_line_terminator c)
  | CDot => true
  | _ => false
  end.

Fixpoint on_line (r : regex) : bool :=
  match r with
  | Eps => true
  | Chr k => class_on_line k
  | Seq r1 r2 => on_line r1 && on_line r2
  | Alt r1 r2 => on_line r1 && on_line r2
  | Rep _ _ k => class_on_line k
  | Group r1 => on_line r1
  end.

(** The emphasis pattern of a single marker [x]: the marker, a lazy run
    within the line (group 1), the marker. *)
Definition marker (x : N) : regex :=
  str [x] +++ Group (LazyStar CDot) +++ str [x].

(** The words a pattern denotes. *)
Fixpoint matches (r : regex) (w : jsstring) : Prop :=
  match r with
  | Eps => w = []
  | Chr k => exists c, w = [c] /\ cls_mem k c = true
  | Seq r1 r2 => exists w1 w2, w = w1 ++ w2 /\ matches r1 w1 /\ matches r2 w2
  | Alt r1 r2 => matches r1 w \/ matches r2 w
  | Rep _ min k => min <= List.length w /\ forallb (cls_mem k) w = true
  | Group r1 => matches r1 w
  end.

(** The capture after a match of [n] code units of [s]: what it was
    before, or a piece of the match. *)
Definition cap_within (s : jsstring) (n : nat) (before after : option jsstring)
  : Prop :=
  after = before
  \/ exists i j, i + j <= n /\ after = Some (firstn j (skipn i s)).

End Spec.
Import Spec.

(* ================================================================== *)
(** * Worlds and texts for the worked examples *)
(* ================================================================== *)

Module Examples.

Definition google_fr : voice :=
  {| name := lit "Google francais"; voice_lang := lit "fr-FR";
     localService := false |}.

(** The first of two chunks is being vocalized. *)
Definition playing_first_of_two : world :=
  Eval vm_compute in
    match run [Call_speak (lit "One. Two."); Elapse 100; Timer; Dev_start]
              (idle_world google_fr) with
    | Some w => w
    | None => idle_world google_fr
    end.

Definition first_of_two : utterance :=
  make_utterance (Some google_fr) (AUDIBLE_PREFIX ++ lit "One.").

End Examples.
Import Examples.

(* ================================================================== *)
(** * useSpeechSynthesis: the choice of a voice, mounting and unmounting *)
(* ================================================================== *)

Module Voices.

Inductive gender : Type := Male | Female | Unknown.

Definition gender_eqb (a b : gender) : bool :=
  match a, b with
  | Male, Male | Female, Female | Unknown, Unknown => true
  | _, _ => false
  end.

(** [s.includes(w1) || s.includes(w2) || ...] *)
Definition includes_any (s : jsstring) (words : list jsstring) : bool :=
  existsb (includes s) words.

Definition female_words : list jsstring :=
  [lit "female"; lit "femme"; lit "woman"; lit "girl"].
Definition male_words : list jsstring :=
  [lit "male"; lit "homme"; lit "man"; lit "boy"].
Definition female_names : list jsstring :=
  [lit "audrey"; lit "aurelie"; lit "amelie"; lit "joana"; lit "louise";
   lit "virginie"; lit "marie"; lit "celine"; lit "elise"; lit "sophie"].
Definition male_names : list jsstring :=
  [lit "thomas"; lit "nicolas"; lit "jean"; lit "pierre"; lit "michel";
   lit "bernard"; lit "jacques"; lit "philippe"].

Section Selection.
(** [String.prototype.toLowerCase], left to the engine. *)
Variable toLowerCase : jsstring -> jsstring.

Definition determineGender (voice : voice) : gender :=
  let name := toLowerCase (name voice) in
  if includes_any name female_words then Female
  else if includes_any name male_words then Male
  else if includes_any name female_names then Female
  else if includes_any name male_names then Male
  else Unknown.

Definition getVoiceQualityScore (voice : voice) : Z :=
  let name := toLowerCase (name voice) in
  let score := 0%Z in
  let score := if includes name (lit "google") then (score + 100)%Z else score in
  let score := if includes name (lit "microsoft") then (score - 50)%Z else score in
  let score := if negb (localService voice) then (score + 20)%Z else score in
  let score :=
    if gender_eqb (determineGender voice) Female then (score + 30)%Z else score in
  if startsWith (voice_lang voice) (lit "fr") then (score + 25)%Z
  else if includes (voice_lang voice) (lit "fr") then (score + 10)%Z
  else score.

(** [scoredVoices.sort((a, b) => b.score - a.score)]: the sort is
    stable, so a voice goes before the voices after it that score no
    more than it does. *)
Fixpoint insert_scored (x : voice * Z) (l : list (voice * Z)) : list (voice * Z) :=
  match l with
  | [] => [x]
  | y :: l' =>
      if (snd y <=? snd x)%Z then x :: l else y :: insert_scored x l'
  end.

Definition sort_scored (l : list (voice * Z)) : list (voice * Z) :=
  fold_right insert_scored [] l.

(** The hook on its page: the playback controller in its environment,
    the voices seen last, whether [processVoices] listens to the
    device's voiceschanged event, and when the one deferred call of
    [processVoices] is due. *)
Record page : Type := {
  wd : world;
  voicesRef : list voice;
  onvoiceschanged : bool;
  deferred : option nat
}.

Definition set_world (p : page) (w : world) : page :=
  {| wd := w; voicesRef := voicesRef p; onvoiceschanged := onvoiceschanged p;
     deferred := deferred p |}.

Definition update_hook (f : hook -> hook) (p : page) : page :=
  set_world p (set_hook (wd p) (f (hk (wd p)))).

Definition set_voices (l : list voice) (p : page) : page :=
  {| wd := wd p; voicesRef := l; onvoiceschanged := onvoiceschanged p;
     deferred := deferred p |}.

Definition set_onvoiceschanged (b : bool) (p : page) : page :=
  {| wd := wd p; voicesRef := voicesRef p; onvoiceschanged := b;
     deferred := deferred p |}.

Definition set_deferred (d : option nat) (p : page) : page :=
  {| wd := wd p; voicesRef := voicesRef p; onvoiceschanged := onvoiceschanged p;
     deferred := d |}.

Definition set_selected (v : option voice) (h : hook) : hook :=
  {| isSpeaking := isSpeaking h; isSupported := isSupported h;
     synthesisRef := synthesisRef h; selectedVoiceRef := v;
     isInitializedRef := isInitializedRef h; voicesLoadedRef := voicesLoadedRef h;
     utteranceQueueRef := utteranceQueueRef h;
     currentUtteranceIndexRef := currentUtteranceIndexRef h;
     isCancellingRef := isCancellingRef h |}.

Definition set_loaded (b : bool) (h : hook) : hook :=
  {| isSpeaking := isSpeaking h; isSupported := isSupported h;
     synthesisRef := synthesisRef h; selectedVoiceRef := selectedVoiceRef h;
     isInitializedRef := isInitializedRef h; voicesLoadedRef := b;
     utteranceQueueRef := utteranceQueueRef h;
     currentUtteranceIndexRef := currentUtteranceIndexRef h;
     isCancellingRef := isCancellingRef h |}.

Definition set_synthesis (b : bool) (h : hook) : hook :=
  {| isSpeaking := isSpeaking h; isSupported := isSupported h;
     synthesisRef := b; selectedVoiceRef := selectedVoiceRef h;
     isInitializedRef := isInitializedRef h; voicesLoadedRef := voicesLoadedRef h;
     utteranceQueueRef := utteranceQueueRef h;
     currentUtteranceIndexRef := currentUtteranceIndexRef h;
     isCancellingRef := isCancellingRef h |}.

Definition setIsSupported (b : bool) (h : hook) : hook :=
  {| isSpeaking := isSpeaking h; isSupported := b;
     synthesisRef := synthesisRef h; selectedVoiceRef := selectedVoiceRef h;
     isInitializedRef := isInitializedRef h; voicesLoadedRef := voicesLoadedRef h;
     utteranceQueueRef := utteranceQueueRef h;
     currentUtteranceIndexRef := currentUtteranceIndexRef h;
     isCancellingRef := isCancellingRef h |}.

Definition set_initialized (b : bool) (h : hook) : hook :=
  {| isSpeaking := isSpeaking h; isSupported := isSupported h;
     synthesisRef := synthesisRef h; selectedVoiceRef := selectedVoiceRef h;
     isInitializedRef := b; voicesLoadedRef := voicesLoadedRef h;
     utteranceQueueRef := utteranceQueueRef h;
     currentUtteranceIndexRef := currentUtteranceIndexRef h;
     isCancellingRef := isCancellingRef h |}.

(** The voice [processVoices] settles on, among the voices the device
    lists. *)
Definition bestVoice (availableVoices : list voice) : option voice :=
  let frenchVoices :=
    List.filter (fun v => includes (voice_lang v) (lit "fr")) availableVoices in
  let scoredVoices :=
    sort_scored (List.map (fun v => (v, getVoiceQualityScore v)) frenchVoices) in
  let googleVoice :=
    List.find (fun v => includes (toLowerCase (name v)) (lit "google")
                        && includes (voice_lang v) (lit "fr")) frenchVoices in
  match googleVoice with
  | Some v => Some v
  | None =>
      match scoredVoices with
      | (v, _) :: _ => Some v
      | [] =>
          match List.find (fun v => startsWith (voice_lang v) (lit "fr"))
                  availableVoices with
          | Some v => Some v
          | None => hd_error availableVoices
          end
      end
  end.

(** [processVoices], [availableVoices] being what [getVoices()]
    returns at the time of the call. *)
Definition processVoices (availableVoices : list voice) (p : page) : page :=
  let h := hk (wd p) in
  if negb (synthesisRef h) then p
  else if List.length availableVoices =? 0 then p
  else if (List.length (voicesRef p) =? List.length availableVoices)
          && voicesLoadedRef h then p
  else
    let p := set_voices availableVoices p in
    let p := update_hook (set_selected (bestVoice availableVoices)) p in
    if negb (voicesLoadedRef (hk (wd p)))
    then update_hook (set_loaded true) p
    else p.

(** The browser at the time the hook mounts: whether it has
    [window.speechSynthesis], whether the device knows the
    voiceschanged event, and the voices it lists then. *)
Record window : Type := {
  speechSynthesis : bool;
  has_onvoiceschanged : bool;
  getVoices : list voice
}.

Definition initializeSpeechSynthesis (win : window) (p : page) : page :=
  let h := hk (wd p) in
  if negb (isInitializedRef h) && speechSynthesis win then
    let p := update_hook (set_synthesis true) p in
    let p := update_hook (setIsSupported true) p in
    let p := update_hook (set_initialized true) p in
    let p := processVoices (getVoices win) p in
    if has_onvoiceschanged win
    then set_onvoiceschanged true p
    else set_deferred (Some (now (wd p) + 100)) p
  else if negb (speechSynthesis win) then update_hook (setIsSupported false) p
  else p.

(** The device fires voiceschanged. *)
Definition voiceschanged (availableVoices : list voice) (p : page) : page :=
  if onvoiceschanged p then processVoices availableVoices p else p.

(** The deferred call of [processVoices] runs. *)
Definition run_deferred (availableVoices : list voice) (p : page) : page :=
  match deferred p with
  | Some _ => processVoices availableVoices (set_deferred None p)
  | None => p
  end.

(** The cleanup of the mount effect. *)
Definition cleanup (p : page) : page :=
  let p :=
    if synthesisRef (hk (wd p)) then
      let p := set_onvoiceschanged false p in
      let p := update_hook (set_cancelling true) p in
      set_world p (synthesis_cancel (wd p))
    else p in
  let p := update_hook (set_queue []) p in
  update_hook (set_index 0) p.

End Selection.

(** The hook before its mount effect has run. *)
Definition unmounted_hook : hook :=
  {| isSpeaking := false; isSupported := false; synthesisRef := false;
     selectedVoiceRef := None; isInitializedRef := false;
     voicesLoadedRef := false; utteranceQueueRef := [];
     currentUtteranceIndexRef := 0; isCancellingRef := false |}.

Definition unmounted : page :=
  {| wd := {| hk := unmounted_hook; now := 0; timers := []; device := [];
              inflight := [] |};
     voicesRef := []; onvoiceschanged := false; deferred := None |}.

(** Lower-casing of the letters A to Z: what [toLowerCase] does on a
    name written in ASCII. *)
Definition ascii_lower (s : jsstring) : jsstring :=
  List.map (fun c => if ((65 <=? c) && (c <=? 90))%N then (c + 32)%N else c) s.

End Voices.
Import Voices.

(* ================================================================== *)
(** * App: the conversations and the exchange with the webhook *)
(* ================================================================== *)

Module App.

(** A [Date] is held as its time value, in milliseconds. *)
Module Message.
Record t : Type := {
  id : jsstring;
  text : jsstring;
  isUser : bool;
  timestamp : N
}.
End Message.

Module Conversation.
Record t : Type := {
  id : jsstring;
  title : jsstring;
  messages : list Message.t;
  createdAt : N;
  updatedAt : N
}.
End Conversation.

Module ConversationState.
Record t : Type := {
  currentConversationId : jsstring;
  conversations : list Conversation.t;
  isRecording : bool;
  isProcessing : bool;
  error : option jsstring;
  selectedVoiceId : option jsstring
}.
End ConversationState.

(** A conversation with no message yet. *)
Definition fresh (id : jsstring) (createdAt updatedAt : N) : Conversation.t :=
  {| Conversation.id := id; Conversation.title := [];
     Conversation.messages := []; Conversation.createdAt := createdAt;
     Conversation.updatedAt := updatedAt |}.

(** The state [useState] starts from: [id1] and [id2] are what the two
    calls of [generateId] return, in that order. *)
Definition initial_state (id1 id2 : jsstring) (createdAt updatedAt : N)
  : ConversationState.t :=
  {| ConversationState.currentConversationId := id1;
     ConversationState.conversations := [fresh id2 createdAt updatedAt];
     ConversationState.isRecording := false;
     ConversationState.isProcessing := false;
     ConversationState.error := None;
     ConversationState.selectedVoiceId := None |}.

Definition set_conversations (l : list Conversation.t)
           (prev : ConversationState.t) : ConversationState.t :=
  {| ConversationState.currentConversationId :=
       ConversationState.currentConversationId prev;
     ConversationState.conversations := l;
     ConversationState.isRecording := ConversationState.isRecording prev;
     ConversationState.isProcessing := ConversationState.isProcessing prev;
     ConversationState.error := ConversationState.error prev;
     ConversationState.selectedVoiceId :=
       ConversationState.selectedVoiceId prev |}.

Definition set_current (id : jsstring) (prev : ConversationState.t)
  : ConversationState.t :=
  {| ConversationState.currentConversationId := id;
     ConversationState.conversations := ConversationState.conversations prev;
     ConversationState.isRecording := ConversationState.isRecording prev;
     ConversationState.isProcessing := ConversationState.isProcessing prev;
     ConversationState.error := ConversationState.error prev;
     ConversationState.selectedVoiceId :=
       ConversationState.selectedVoiceId prev |}.

(** [{ ...prev, isProcessing: b, error: e }] *)
Definition set_processing (b : bool) (e : option jsstring)
           (prev : ConversationState.t) : ConversationState.t :=
  {| ConversationState.currentConversationId :=
       ConversationState.currentConversationId prev;
     ConversationState.conversations := ConversationState.conversations prev;
     ConversationState.isRecording := ConversationState.isRecording prev;
     ConversationState.isProcessing := b;
     ConversationState.error := e;
     ConversationState.selectedVoiceId :=
       ConversationState.selectedVoiceId prev |}.

(** The conversation of the current id, or else one made up for the
    render, [createdAt] and [updatedAt] being what its two [new Date()]
    give. *)
Definition currentConversation (createdAt updatedAt : N)
           (state : ConversationState.t) : Conversation.t :=
  match List.find
          (fun c => str_eqb (Conversation.id c)
                      (ConversationState.currentConversationId state))
          (ConversationState.conversations state) with
  | Some c => c
  | None =>
      fresh (ConversationState.currentConversationId state) createdAt updatedAt
  end.

Definition updateConversation (updatedConversation : Conversation.t)
           (prev : ConversationState.t) : ConversationState.t :=
  set_conversations
    (List.map (fun c => if str_eqb (Conversation.id c)
                             (Conversation.id updatedConversation)
                        then updatedConversation else c)
       (ConversationState.conversations prev))
    prev.

(** The page: the conversations and the speech hook. *)
Record app : Type := {
  state : ConversationState.t;
  speech : world
}.

(** What a handler holds of the render that made it. *)
Record render : Type := {
  current : Conversation.t;
  speaking : bool;                   (* isSpeaking *)
  synthesisSupported : bool          (* isSpeechSynthesisSupported *)
}.

Definition rendered (createdAt updatedAt : N) (a : app) : render :=
  {| current := currentConversation createdAt updatedAt (state a);
     speaking := isSpeaking (hk (speech a));
     synthesisSupported := isSupported (hk (speech a)) |}.

(** The title a first message gives its conversation. *)
Definition title_of (text : jsstring) : jsstring :=
  if 30 <? List.length text then firstn 30 text ++ lit "..." else text.

(** [handleSendMessage] up to its [await]: the conversation with the
    user's message, as the handler keeps it, and the page.  [id] is
    what [generateId] returns, [timestamp] and [updatedAt] what the two
    [new Date()] give. *)
Definition handleSendMessage (r : render) (id : jsstring)
           (timestamp updatedAt : N) (text : jsstring) (a : app)
  : Conversation.t * app :=
  let userMessage :=
    {| Message.id := id; Message.text := text; Message.isUser := true;
       Message.timestamp := timestamp |} in
  let messages := Conversation.messages (current r) ++ [userMessage] in
  let title :=
    if (List.length (Conversation.messages (current r)) =? 0)
       && match Conversation.title (current r) with [] => true | _ => false end
    then title_of text
    else Conversation.title (current r) in
  let updatedConversation :=
    {| Conversation.id := Conversation.id (current r);
       Conversation.title := title;
       Conversation.messages := messages;
       Conversation.createdAt := Conversation.createdAt (current r);
       Conversation.updatedAt := updatedAt |} in
  let st := updateConversation updatedConversation (state a) in
  let st := set_processing true None st in
  let w := if speaking r then cancel (speech a) else speech a in
  (updatedConversation, {| state := st; speech := w |}).

Definition network_notice : jsstring :=
  lit "Network error: Unable to connect to the server. Please check your internet connection.".
Definition rejected_notice : jsstring :=
  lit "Server error: The request was rejected. Please try again later.".
Definition unavailable_notice : jsstring :=
  lit "Server error: The server is currently unavailable. Please try again later.".

Section Errors.

(** The message of an error the browser or the engine raises itself,
    such as the rejection of [fetch]. *)
Variable engine_message : error -> jsstring.

(** [error.message] *)
Definition message (e : error) : jsstring :=
  match e with
  | HttpError status =>
      lit "HTTP error! Status: "
      ++ lit (NilZero.string_of_uint (N.to_uint status))
  | _ => engine_message e
  end.

(** The notice the [catch] of [handleSendMessage] shows.  What is
    thrown there is always an [Error]. *)
Definition errorMessage (e : error) : jsstring :=
  let message := message e in
  if includes message (lit "Failed to fetch")
     || includes message (lit "NetworkError")
  then network_notice
  else if includes message (lit "HTTP error! Status: 4")
  then rejected_notice
  else if includes message (lit "HTTP error! Status: 5")
  then unavailable_notice
  else lit "Error: " ++ message.

(** [handleSendMessage] after its [await], [outcome] being what
    [sendMessageToWebhook] settled with. *)
Definition handleSendMessage_settled (r : render)
           (updatedConversation : Conversation.t)
           (id : jsstring) (timestamp updatedAt : N)
           (outcome : completion jsstring) (a : app) : app :=
  match outcome with
  | Normal response =>
      let agentMessage :=
        {| Message.id := id; Message.text := response; Message.isUser := false;
           Message.timestamp := timestamp |} in
      let finalConversation :=
        {| Conversation.id := Conversation.id updatedConversation;
           Conversation.title := Conversation.title updatedConversation;
           Conversation.messages :=
             Conversation.messages updatedConversation ++ [agentMessage];
           Conversation.createdAt := Conversation.createdAt updatedConversation;
           Conversation.updatedAt := updatedAt |} in
      let st := updateConversation finalConversation (state a) in
      let st := set_processing false (ConversationState.error st) st in
      let w := if synthesisSupported r then speak response (speech a)
               else speech a in
      {| state := st; speech := w |}
  | Throw e =>
      {| state := set_processing false (Some (errorMessage e)) (state a);
         speech := speech a |}
  end.

End Errors.

Definition handleReplayAudio (r : render) (message : Message.t) (a : app) : app :=
  if synthesisSupported r && negb (Message.isUser message) then
    let w := if speaking r then cancel (speech a) else speech a in
    {| state := state a; speech := speak (Message.text message) w |}
  else a.

Definition handleStopAudio (r : render) (a : app) : app :=
  if synthesisSupported r && speaking r
  then {| state := state a; speech := cancel (speech a) |}
  else a.

Definition handleNewConversation (newConversationId : jsstring)
           (createdAt updatedAt : N) (prev : ConversationState.t)
  : ConversationState.t :=
  set_current newConversationId
    (set_conversations
       (fresh newConversationId createdAt updatedAt
        :: ConversationState.conversations prev) prev).

Definition handleLoadConversation (conversationId : jsstring)
           (prev : ConversationState.t) : ConversationState.t :=
  set_current conversationId prev.

(** [confirmed] is the answer to [window.confirm].  (The handler also
    removes the two items of the local storage.) *)
Definition handleClearHistory (confirmed : bool) (newConversationId : jsstring)
           (createdAt updatedAt : N) (prev : ConversationState.t)
  : ConversationState.t :=
  if confirmed then
    set_current newConversationId
      (set_conversations [fresh newConversationId createdAt updatedAt] prev)
  else prev.

(** [handleSendMessage] from its call to its end, when nothing else
    touches the page while it awaits the webhook: [f] is what [fetch]
    gives, [id1], [timestamp1] and [updatedAt1] are read before the
    [await], [id2], [timestamp2] and [updatedAt2] after it. *)
Definition exchange (E : Engine) (engine_message : error -> jsstring)
           (r : render) (id1 : jsstring) (timestamp1 updatedAt1 : N)
           (id2 : jsstring) (timestamp2 updatedAt2 : N)
           (text : jsstring) (f : fetched) (a : app) : app :=
  let '(updatedConversation, a1) :=
    handleSendMessage r id1 timestamp1 updatedAt1 text a in
  handleSendMessage_settled engine_message r updatedConversation
    id2 timestamp2 updatedAt2 (sendMessageToWebhook E f) a1.

(** The current conversation is one of the stored ones. *)
Definition current_is_stored (st : ConversationState.t) : bool :=
  existsb (fun c => str_eqb (Conversation.id c)
                     (ConversationState.currentConversationId st))
    (ConversationState.conversations st).

End App.

(* ================================================================== *)
(** * The webhook module: the request *)
(* ================================================================== *)

Module Request.

(** The body [sendMessageToWebhook] posts: [JSON.stringify({ message })]. *)
Definition request_body (E : Engine) (message : jsstring) : jsstring :=
  stringify (number_toString E) (Object [(lit "message", String_ message)]).

End Request.
Import Request.

(* ================================================================== *)
(** * Notions for the properties of the playback and of the texts *)
(* ================================================================== *)

Module Notions.

(** What the device does with one chunk when nothing disturbs it: it
    starts the utterance and ends it; 50 ms later the timer set by
    [onend] runs. *)
Definition chunk_played : list event := [Dev_start; Dev_end; Elapse 50; Timer].

Fixpoint playing (n : nat) : list event :=
  match n with
  | O => []
  | S k => chunk_played ++ playing k
  end.

(** A call of [speak], its settle delay, and [n] chunks played. *)
Definition session (text : jsstring) (n : nat) : list event :=
  [Call_speak text; Elapse 100; Timer] ++ playing n.

(** The texts of a session's utterances: the chunks, the first with
    the audible prefix. *)
Definition session_texts (chunks : list jsstring) : list jsstring :=
  match chunks with
  | [] => []
  | chunk :: chunks' => (AUDIBLE_PREFIX ++ chunk) :: chunks'
  end.

(** The utterances handed to the device, oldest first. *)
Fixpoint handed (calls : list device_call) : list utterance :=
  match calls with
  | [] => []
  | DevSpeak u :: calls' => u :: handed calls'
  | DevCancel :: calls' => handed calls'
  end.

Definition is_settle (cb : callback) : bool :=
  match cb with SettleThenStart _ => true | _ => false end.

Definition is_call_speak (e : event) : bool :=
  match e with Call_speak _ => true | _ => false end.

(** The first of the scored voices that no other outscores. *)
Fixpoint first_max (l : list (voice * Z)) : option (voice * Z) :=
  match l with
  | [] => None
  | x :: l' =>
      match first_max l' with
      | Some y => if (snd x <? snd y)%Z then Some y else Some x
      | None => Some x
      end
  end.

Section VoiceKinds.
Variable toLowerCase : jsstring -> jsstring.

(** A French voice: its language tag holds fr.  A Google voice: a
    French voice whose lower-cased name holds google. *)
Definition french (v : voice) : bool := includes (voice_lang v) (lit "fr").
Definition google (v : voice) : bool :=
  includes (toLowerCase (name v)) (lit "google") && french v.
End VoiceKinds.

(** White space as the preprocessing for speech leaves it: every
    white-space code unit is a U+0020 with no white space next to it.
    [prev] tells that the code unit just read was white space. *)
Fixpoint single_spaced (prev : bool) (s : jsstring) : bool :=
  match s with
  | [] => true
  | c :: s' =>
      if is_space c
      then (c =? 32)%N && negb prev && single_spaced true s'
      else single_spaced false s'
  end.

(** The code units the preprocessing for speech takes out wherever
    they stand. *)
Definition markup_chars : list N :=
  [ch "#"; ch "*"; ch "_"; ch "~"; ch "`"].

Definition no_markup_char (c : N) : bool := negb (mem c markup_chars).

(** The patterns the preprocessing for speech replaces, the white
    space apart, in source order. *)
Definition speech_patterns : list regex :=
  [ Rep true 1 (CChar (ch "#"));
    str (lit "--") +++ Plus (CChar (ch "-"));
    str (lit "***");
    str (lit "...");
    Chr (CChar (ch "<")) +++ Plus (CNoneOf [ch ">"]) +++ Chr (CChar (ch ">"));
    Chr (COneOf [ch "*"; ch "_"; ch "~"; ch "`"]) ].

(** A code unit of a word: neither white space nor a terminal mark. *)
Definition of_a_word (c : N) : bool := negb (is_space c) && negb (is_terminal c).

(** At most one terminal mark, and then as the last code unit. *)
Definition one_sentence (c : jsstring) : bool :=
  forallb not_terminal (removelast c).

(** The least number of code units a match of the pattern holds. *)
Fixpoint min_length (r : regex) : nat :=
  match r with
  | Eps => 0
  | Chr _ => 1
  | Seq r1 r2 => min_length r1 + min_length r2
  | Alt r1 r2 => Nat.min (min_length r1) (min_length r2)
  | Rep _ n _ => n
  | Group r1 => min_length r1
  end.

(** A string of more than 20 code units. *)
Definition long_string (v : value) : bool :=
  match v with
  | String_ s => 20 <? List.length s
  | _ => false
  end.

(** What the hook holds of the device and of its voices: playback
    reads these and never writes them. *)
Definition voice_refs (h : hook) : bool * bool * option voice * bool * bool :=
  (isSupported h, synthesisRef h, selectedVoiceRef h, isInitializedRef h,
   voicesLoadedRef h).

(** What can happen to the hook on its page. *)
Inductive page_event : Type :=
| Mount (win : window)                (* the mount effect runs *)
| VoicesChanged (l : list voice)      (* the device fires voiceschanged *)
| Deferred (l : list voice)           (* the deferred [processVoices] runs *)
| Unmount                             (* the cleanup of the mount effect *)
| Playback (e : event).               (* a turn of the playback's event loop *)

Section Pages.
Variable toLowerCase : jsstring -> jsstring.

Definition page_step (ev : page_event) (p : page) : option page :=
  match ev with
  | Mount win => Some (initializeSpeechSynthesis toLowerCase win p)
  | VoicesChanged l => Some (voiceschanged toLowerCase l p)
  | Deferred l => Some (run_deferred toLowerCase l p)
  | Unmount => Some (cleanup p)
  | Playback e =>
      match step e (wd p) with
      | Some w => Some (set_world p w)
      | None => None
      end
  end.

Fixpoint page_run (evs : list page_event) (p : page) : option page :=
  match evs with
  | [] => Some p
  | ev :: evs' =>
      match page_step ev p with
      | Some p' => page_run evs' p'
      | None => None
      end
  end.
End Pages.

(** What holds of the hook on every page reached from the unmounted
    one. *)
Definition settled (p : page) : Prop :=
  (synthesisRef (hk (wd p)) = true -> isInitializedRef (hk (wd p)) = true)
  /\ (voicesLoadedRef (hk (wd p)) = true ->
      synthesisRef (hk (wd p)) = true
      /\ selectedVoiceRef (hk (wd p)) <> None).

(** A callback that clears the cancellation flag. *)
Definition clears_flag (cb : callback) : bool :=
  match cb with
  | SettleThenStart _ | ResetCancelling => true
  | NextChunk => false
  end.

(** The flag is set only while a timer that clears it is pending. *)
Definition flag_has_timer (w : world) : bool :=
  negb (isCancellingRef (hk w))
  || existsb (fun t => clears_flag (snd t)) (timers w).

(** Where a session stands that only its own callbacks, the device and
    [cancel] have touched: it has handed the device its first
    utterances, [sofar] of them, and either the last of these is with
    the device, or it has ended and the timer for the next is pending,
    or the session is over. *)
Inductive stage (us : list utterance) (sofar : nat) (w : world) : Prop :=
| With_device (u : utterance) :
    sofar = S (currentUtteranceIndexRef (hk w)) ->
    isCancellingRef (hk w) = false -> synthesisRef (hk w) = true ->
    utteranceQueueRef (hk w) = us ->
    nth_error us (currentUtteranceIndexRef (hk w)) = Some u ->
    inflight w = [u] -> timers w = [] ->
    stage us sofar w
| Between (d : nat) :
    sofar = currentUtteranceIndexRef (hk w) ->
    0 < sofar ->
    isCancellingRef (hk w) = false -> synthesisRef (hk w) = true ->
    utteranceQueueRef (hk w) = us ->
    inflight w = [] -> timers w = [(d, NextChunk)] ->
    stage us sofar w
| Over :
    utteranceQueueRef (hk w) = [] ->
    forallb (fun t => negb (is_settle (snd t))) (timers w) = true ->
    stage us sofar w.

(** Nothing is left to say: the queue is empty and no call of [speak]
    is in its settle delay. *)
Definition nothing_to_say (w : world) : bool :=
  match utteranceQueueRef (hk w) with [] => true | _ :: _ => false end
  && forallb (fun t => negb (is_settle (snd t))) (timers w).

(** The chunk at the cursor is with the device, the session is neither
    cancelled nor waiting on a timer. *)
Definition playing_at (w : world) (done : list utterance) (u : utterance)
           (rest : list utterance) : Prop :=
  isCancellingRef (hk w) = false
  /\ synthesisRef (hk w) = true
  /\ utteranceQueueRef (hk w) = done ++ u :: rest
  /\ currentUtteranceIndexRef (hk w) = List.length done
  /\ inflight w = [u]
  /\ timers w = [].

Definition idle (w : world) : Prop :=
  isSpeaking (hk w) = false
  /\ isCancellingRef (hk w) = false
  /\ utteranceQueueRef (hk w) = []
  /\ currentUtteranceIndexRef (hk w) = 0
  /\ inflight w = []
  /\ timers w = [].

End Notions.
Import Notions.

(* ================================================================== *)
(** * Voices and pages for the worked examples *)
(* ================================================================== *)

Module Samples.

Definition hortense : voice :=
  {| name := lit "Microsoft Hortense - French (France)";
     voice_lang := lit "fr-FR"; localService := true |}.

Definition amelie : voice :=
  {| name := lit "Amelie"; voice_lang := lit "fr-CA"; localService := true |}.

Definition thomas : voice :=
  {| name := lit "Thomas"; voice_lang := lit "fr-FR"; localService := true |}.

Definition samantha : voice :=
  {| name := lit "Samantha"; voice_lang := lit "en-US"; localService := true |}.

(** A page on which a conversation has just been started, the hook
    being idle and ready. *)
Definition new_page : App.app :=
  {| App.state :=
       App.handleNewConversation (lit "c1") 10 10
         (App.initial_state (lit "a") (lit "b") 0 0);
     App.speech := idle_world google_fr |}.

(** The page as it is first shown. *)
Definition first_page : App.app :=
  {| App.state := App.initial_state (lit "a") (lit "b") 0 0;
     App.speech := idle_world google_fr |}.

(** The page while the first of two chunks is being said. *)
Definition speaking_page : App.app :=
  {| App.state :=
       App.handleNewConversation (lit "c1") 10 10
         (App.initial_state (lit "a") (lit "b") 0 0);
     App.speech := playing_first_of_two |}.

Definition agent_message : App.Message.t :=
  {| App.Message.id := lit "m2"; App.Message.text := lit "Trois. Quatre.";
     App.Message.isUser := false; App.Message.timestamp := 30 |}.

Definition bonjour : fetched :=
  Responded {| ok := true; status := 200;
               body := litq "{'output': 'Bonjour !'}" |}.

End Samples.
Import Samples.

(* ================================================================== *)
(** * Strings: trimming *)
(* ================================================================== *)

Section StringFacts.

Lemma take_drop_while (p : N -> bool) (s : jsstring) :
  take_while p s ++ drop_while p s = s.
Proof.
  induction s as [|c s IH]; simpl; [reflexivity|].
  destruct (p c); simpl; [now rewrite IH | reflexivity].
Qed.

Lemma take_while_all (p : N -> bool) (s : jsstring) :
  forallb p (take_while p s) = true.
Proof.
  induction s as [|c s IH]; simpl; [reflexivity|].
  destruct (p c) eqn:Hc; simpl; [now rewrite Hc | reflexivity].
Qed.

Lemma drop_while_head (p : N -> bool) (s : jsstring) c r :
  drop_while p s = c :: r -> p c = false.
Proof.
  induction s as [|x s IH]; simpl; [discriminate|].
  destruct (p x) eqn:Hx; [exact IH|].
  intros H; injection H as -> _; exact Hx.
Qed.

Lemma drop_while_all (p : N -> bool) (s : jsstring) :
  forallb p s = true -> drop_while p s = [].
Proof.
  induction s as [|c s IH]; simpl; [reflexivity|].
  destruct (p c); simpl; [exact IH | discriminate].
Qed.

Lemma drop_while_app_all (p : N -> bool) (a s : jsstring) :
  forallb p a = true -> drop_while p (a ++ s) = drop_while p s.
Proof.
  induction a as [|c a IH]; simpl; [reflexivity|].
  destruct (p c); simpl; [exact IH | discriminate].
Qed.

Lemma drop_while_stop (p : N -> bool) (s : jsstring) c r :
  s = c :: r -> p c = false -> drop_while p s = s.
Proof. intros -> H; simpl; now rewrite H. Qed.

Lemma drop_while_length (p : N -> bool) (s : jsstring) :
  List.length (drop_while p s) <= List.length s.
Proof.
  induction s as [|c s IH]; simpl; [lia|].
  destruct (p c); simpl; lia.
Qed.

Lemma forallb_rev (p : N -> bool) (s : jsstring) :
  forallb p (rev s) = forallb p s.
Proof.
  induction s as [|c s IH]; simpl; [reflexivity|].
  rewrite forallb_app, IH; simpl. rewrite andb_true_r. apply andb_comm.
Qed.

(** [trimEnd] keeps everything up to the last code unit that is not
    white space. *)
Lemma trimEnd_snoc_keep (s : jsstring) c :
  is_space c = false -> trimEnd (s ++ [c]) = s ++ [c].
Proof.
  intros Hc. unfold trimEnd. rewrite rev_app_distr; simpl.
  rewrite Hc. simpl. now rewrite rev_involutive.
Qed.

Lemma trimEnd_app_space (s w : jsstring) :
  forallb is_space w = true -> trimEnd (s ++ w) = trimEnd s.
Proof.
  intros Hw. unfold trimEnd. rewrite rev_app_distr.
  rewrite drop_while_app_all; [reflexivity|].
  now rewrite forallb_rev.
Qed.

Lemma trimEnd_split (s : jsstring) :
  exists w, s = trimEnd s ++ w /\ forallb is_space w = true.
Proof.
  unfold trimEnd.
  exists (rev (take_while is_space (rev s))). split.
  - rewrite <- rev_app_distr, take_drop_while. now rewrite rev_involutive.
  - rewrite forallb_rev. apply take_while_all.
Qed.

Lemma trimEnd_last (s : jsstring) d :
  trimEnd s <> [] -> is_space (last (trimEnd s) d) = false.
Proof.
  unfold trimEnd. destruct (drop_while is_space (rev s)) as [|c r] eqn:E.
  - intros H; now elim H.
  - intros _. simpl. rewrite last_last. eapply drop_while_head; eauto.
Qed.

Lemma trimEnd_cons_keep (c : N) (s : jsstring) :
  is_space c = false -> trimEnd (c :: s) = c :: trimEnd s.
Proof.
  intros Hc.
  destruct (trimEnd_split s) as [w [Hs Hw]].
  destruct (trimEnd s) as [|x r] eqn:E.
  - simpl in Hs. subst s.
    change (c :: w) with ([c] ++ w). rewrite trimEnd_app_space by exact Hw.
    apply (trimEnd_snoc_keep []). exact Hc.
  - assert (Hl : is_space (last (x :: r) x) = false).
    { rewrite <- E. apply trimEnd_last. rewrite E. discriminate. }
    rewrite Hs at 1.
    change (c :: (x :: r) ++ w) with ((c :: x :: r) ++ w).
    rewrite trimEnd_app_space by exact Hw.
    destruct (@exists_last _ (x :: r)) as [r' [y Hy]]; [discriminate|].
    rewrite Hy in Hl |- *. rewrite last_last in Hl.
    change (c :: r' ++ [y]) with ((c :: r') ++ [y]).
    now apply trimEnd_snoc_keep.
Qed.

(** [trim s] is [s] without a white-space prefix and a white-space
    suffix. *)
Lemma trim_split (s : jsstring) :
  exists a b, s = a ++ trim s ++ b
              /\ forallb is_space a = true /\ forallb is_space b = true.
Proof.
  unfold trim, trimStart.
  destruct (trimEnd_split (drop_while is_space s)) as [w [H1 H2]].
  exists (take_while is_space s), w. split; [|split].
  - rewrite <- H1. symmetry. apply take_drop_while.
  - apply take_while_all.
  - exact H2.
Qed.

Lemma trim_whitespace_only (s : jsstring) :
  whitespace_only s = true -> trim s = [].
Proof.
  intros H. unfold trim, trimStart. now rewrite drop_while_all.
Qed.

Lemma trim_nil_whitespace_only (s : jsstring) :
  trim s = [] -> whitespace_only s = true.
Proof.
  intros H. destruct (trim_split s) as [a [b [E [Ha Hb]]]].
  rewrite H in E. simpl in E. subst s. unfold whitespace_only.
  rewrite forallb_app. now rewrite Ha, Hb.
Qed.

Lemma trim_app_space_l (w s : jsstring) :
  forallb is_space w = true -> trim (w ++ s) = trim s.
Proof.
  intros H. unfold trim, trimStart. now rewrite drop_while_app_all.
Qed.

Lemma trimStart_cons_keep c (s : jsstring) :
  is_space c = false -> trimStart (c :: s) = c :: s.
Proof. intros H. unfold trimStart. simpl. now rewrite H. Qed.

Lemma trim_cons_keep c (s : jsstring) :
  is_space c = false -> trim (c :: s) = c :: trimEnd s.
Proof.
  intros H. unfold trim. rewrite trimStart_cons_keep by exact H.
  now apply trimEnd_cons_keep.
Qed.

Lemma trim_app_space_r (s w : jsstring) :
  forallb is_space w = true -> trim (s ++ w) = trim s.
Proof.
  intros Hw. unfold trim, trimStart.
  induction s as [|c s IH]; simpl.
  - rewrite drop_while_all by exact Hw. reflexivity.
  - destruct (is_space c) eqn:Hc; [exact IH|].
    change (c :: s ++ w) with ((c :: s) ++ w).
    now apply trimEnd_app_space.
Qed.

(** The result of [trim] is trimmed. *)
Lemma trim_trimmed (s : jsstring) : trimmed (trim s) = true.
Proof.
  unfold trim, trimStart.
  destruct (drop_while is_space s) as [|c r] eqn:E.
  - reflexivity.
  - pose proof (drop_while_head _ _ _ _ E) as Hc.
    assert (Hl : is_space (last (trimEnd (c :: r)) c) = false).
    { apply trimEnd_last. rewrite trimEnd_cons_keep by exact Hc. discriminate. }
    rewrite trimEnd_cons_keep in Hl |- * by exact Hc.
    unfold trimmed. now rewrite Hc, Hl.
Qed.

Lemma trimmed_trim (s : jsstring) : trimmed s = true -> trim s = s.
Proof.
  destruct s as [|c r]; [reflexivity|].
  unfold trimmed. intros H. apply andb_true_iff in H. destruct H as [H1 H2].
  apply negb_true_iff in H1, H2.
  rewrite trim_cons_keep by exact H1. f_equal.
  destruct (@exists_last _ (c :: r)) as [r' [y Hy]]; [discriminate|].
  rewrite Hy in H2. rewrite last_last in H2.
  destruct r' as [|c' r'']; simpl in Hy.
  - injection Hy as -> ->. reflexivity.
  - injection Hy as -> ->. now apply trimEnd_snoc_keep.
Qed.

End StringFacts.

(* ================================================================== *)
(** * The matcher is sound for the words of a pattern *)
(* ================================================================== *)

Section MatcherFacts.

Lemma firstn_plus (n1 n2 : nat) (s : jsstring) :
  firstn (n1 + n2) s = firstn n1 s ++ firstn n2 (skipn n1 s).
Proof.
  revert s. induction n1 as [|n1 IH]; intros s; [reflexivity|].
  destruct s as [|c s]; simpl.
  - now rewrite firstn_nil.
  - now rewrite IH.
Qed.

Lemma rep_greedy_sound (k : cclass) (kt : kont) :
  forall s min pos cap res,
    rep_greedy k kt min pos s cap = Some res ->
    exists n, n <= List.length s /\ min <= n
              /\ forallb (cls_mem k) (firstn n s) = true
              /\ kt (pos + n) (skipn n s) cap = Some res.
Proof.
  induction s as [|c s IH]; intros min pos cap res H; simpl in H.
  - destruct min; [|discriminate].
    exists 0. rewrite Nat.add_0_r. simpl. auto.
  - destruct (cls_mem k c) eqn:Hc.
    + destruct (rep_greedy k kt (pred min) (S pos) s cap) as [r|] eqn:Hr.
      * injection H as <-. apply IH in Hr.
        destruct Hr as [n [H1 [H2 [H3 H4]]]].
        exists (S n). simpl. rewrite Hc, H3.
        replace (pos + S n) with (S pos + n) by lia.
        repeat split; auto; lia.
      * destruct min; [|discriminate].
        exists 0. rewrite Nat.add_0_r. simpl. repeat split; auto; lia.
    + destruct min; [|discriminate].
      exists 0. rewrite Nat.add_0_r. simpl. repeat split; auto; lia.
Qed.

Lemma rep_lazy_sound (k : cclass) (kt : kont) :
  forall s min pos cap res,
    rep_lazy k kt min pos s cap = Some res ->
    exists n, n <= List.length s /\ min <= n
              /\ forallb (cls_mem k) (firstn n s) = true
              /\ kt (pos + n) (skipn n s) cap = Some res.
Proof.
  induction s as [|c s IH]; intros min pos cap res H.
  - destruct min; simpl in H; [|discriminate].
    destruct (kt pos [] cap) as [r|] eqn:Hk; [|discriminate].
    injection H as <-. exists 0. rewrite Nat.add_0_r. simpl. auto.
  - destruct min as [|min]; simpl in H.
    + destruct (kt pos (c :: s) cap) as [r|] eqn:Hk.
      * injection H as <-. exists 0. rewrite Nat.add_0_r. simpl.
        repeat split; auto; lia.
      * destruct (cls_mem k c) eqn:Hc; [|discriminate].
        apply IH in H. destruct H as [n [H1 [H2 [H3 H4]]]].
        exists (S n). simpl. rewrite Hc, H3.
        replace (pos + S n) with (S pos + n) by lia.
        repeat split; auto; lia.
    + destruct (cls_mem k c) eqn:Hc; [|discriminate].
      apply IH in H. destruct H as [n [H1 [H2 [H3 H4]]]].
      exists (S n). simpl. rewrite Hc, H3.
      replace (pos + S n) with (S pos + n) by lia.
      repeat split; auto; lia.
Qed.

Lemma cap_within_refl s n cap : cap_within s n cap cap.
Proof. now left. Qed.

Lemma cap_within_trans s n1 n2 c0 c1 c2 :
  cap_within s n1 c0 c1 -> cap_within (skipn n1 s) n2 c1 c2 ->
  cap_within s (n1 + n2) c0 c2.
Proof.
  intros [->|[i [j [Hij ->]]]] [->|[i' [j' [Hij' ->]]]].
  - now left.
  - right. exists (n1 + i'), j'. split; [lia|].
    now rewrite skipn_skipn, (Nat.add_comm i' n1).
  - right. exists i, j. split; [lia|reflexivity].
  - right. exists (n1 + i'), j'. split; [lia|].
    now rewrite skipn_skipn, (Nat.add_comm i' n1).
Qed.

Lemma m_sound (r : regex) :
  forall kt pos s cap res,
    m r kt pos s cap = Some res ->
    exists n cap', n <= List.length s
                   /\ matches r (firstn n s)
                   /\ cap_within s n cap cap'
                   /\ kt (pos + n) (skipn n s) cap' = Some res.
Proof.
  induction r as [|k|r1 IH1 r2 IH2|r1 IH1 r2 IH2|g min k|r1 IH1];
    intros kt pos s cap res H; simpl in H.
  - exists 0, cap. rewrite Nat.add_0_r. simpl.
    repeat split; auto using cap_within_refl; lia.
  - destruct s as [|c s]; [discriminate|].
    destruct (cls_mem k c) eqn:Hc; [|discriminate].
    exists 1, cap. simpl. replace (pos + 1) with (S pos) by lia.
    repeat split; auto using cap_within_refl; try lia.
    exists c. auto.
  - apply IH1 in H. destruct H as [n1 [c1 [L1 [M1 [C1 H]]]]].
    apply IH2 in H. destruct H as [n2 [c2 [L2 [M2 [C2 H]]]]].
    rewrite length_skipn in L2.
    exists (n1 + n2), c2. repeat split.
    + lia.
    + exists (firstn n1 s), (firstn n2 (skipn n1 s)). repeat split; auto.
      apply firstn_plus.
    + eapply cap_within_trans; eauto.
    + now rewrite skipn_skipn, (Nat.add_comm n2 n1), <- Nat.add_assoc in H.
  - destruct (m r1 kt pos s cap) as [r|] eqn:H1.
    + injection H as <-. apply IH1 in H1.
      destruct H1 as [n [c' [L [M [C K]]]]].
      exists n, c'. repeat split; auto. now left.
    + apply IH2 in H. destruct H as [n [c' [L [M [C K]]]]].
      exists n, c'. repeat split; auto. now right.
  - destruct g.
    + apply rep_greedy_sound in H. destruct H as [n [L [Hm [Hall K]]]].
      exists n, cap. repeat split; auto using cap_within_refl.
      rewrite length_firstn. lia.
    + apply rep_lazy_sound in H. destruct H as [n [L [Hm [Hall K]]]].
      exists n, cap. repeat split; auto using cap_within_refl.
      rewrite length_firstn. lia.
  - apply IH1 in H. destruct H as [n [c' [L [M [C K]]]]].
    replace (pos + n - pos) with n in K by lia.
    exists n, (Some (firstn n s)). repeat split; auto.
    right. exists 0, n. split; [lia|reflexivity].
Qed.

(** A successful attempt: its length is within the input, the code
    units it covers are a word of the pattern, and group 1 is a piece
    of them. *)
Lemma match_here_sound (r : regex) (s : jsstring) n cap :
  match_here r s = Some (n, cap) ->
  n <= List.length s /\ matches r (firstn n s) /\ cap_within s n None cap.
Proof.
  unfold match_here. intros H. apply m_sound in H.
  destruct H as [n' [c' [L [M [C K]]]]]. simpl in K.
  injection K as <- <-. auto.
Qed.

(** ** Unfolding a global replacement *)

Lemma replace_from_skip (r : regex) f :
  forall s n, n <= List.length s ->
              replace_from r f n s = replace_from r f 0 (skipn n s).
Proof.
  induction s as [|c s IH]; intros n Hn.
  - simpl in Hn. assert (n = 0) by lia. subst. reflexivity.
  - destruct n as [|n]; [reflexivity|]. simpl in Hn. simpl.
    apply IH. lia.
Qed.

Lemma replace_all_nil (r : regex) f :
  replace_all r f [] =
  match match_here r [] with Some (_, cap) => f cap | None => [] end.
Proof. reflexivity. Qed.

Lemma replace_all_cons (r : regex) f c s :
  replace_all r f (c :: s) =
  match match_here r (c :: s) with
  | Some (O, cap) => f cap ++ c :: replace_all r f s
  | Some (S n, cap) => f cap ++ replace_all r f (skipn n s)
  | None => c :: replace_all r f s
  end.
Proof.
  unfold replace_all. simpl.
  destruct (match_here r (c :: s)) as [[[|n] cap]|] eqn:H; try reflexivity.
  apply match_here_sound in H. destruct H as [L _]. simpl in L.
  rewrite replace_from_skip by lia. reflexivity.
Qed.

(** Where the pattern is found nowhere, nothing is replaced. *)
Lemma replace_all_no_match (r : regex) f :
  forall s i, search r i s = None -> replace_all r f s = s.
Proof.
  induction s as [|c s IH]; intros i H; simpl in H.
  - rewrite replace_all_nil.
    destruct (match_here r []) as [[n cap]|]; [discriminate|reflexivity].
  - rewrite replace_all_cons.
    destruct (match_here r (c :: s)) as [[n cap]|]; [discriminate|].
    f_equal. eapply IH; eauto.
Qed.

Lemma matches_from_skip (r : regex) :
  forall s n, n <= List.length s ->
              matches_from r n s = matches_from r 0 (skipn n s).
Proof.
  induction s as [|c s IH]; intros n Hn.
  - simpl in Hn. assert (n = 0) by lia. subst. reflexivity.
  - destruct n as [|n]; [reflexivity|]. simpl in Hn. simpl.
    apply IH. lia.
Qed.

Lemma matches_from_cons (r : regex) c s :
  matches_from r 0 (c :: s) =
  match match_here r (c :: s) with
  | Some (O, _) => [] :: matches_from r 0 s
  | Some (S n, _) => firstn (S n) (c :: s) :: matches_from r 0 (skipn n s)
  | None => matches_from r 0 s
  end.
Proof.
  simpl.
  destruct (match_here r (c :: s)) as [[[|n] cap]|] eqn:H; try reflexivity.
  apply match_here_sound in H. destruct H as [L _]. simpl in L.
  rewrite matches_from_skip by lia. reflexivity.
Qed.

End MatcherFacts.

(* ================================================================== *)
(** * JSON.parse: the first code unit decides the kind of value *)
(* ================================================================== *)

Section ParseFacts.

Lemma parse_members_object :
  forall fuel s acc v r,
    parse_members fuel s acc = Ok (v, r) -> exists ms, v = Object ms.
Proof.
  induction fuel as [|f IH]; intros s acc v r H; simpl in H; [discriminate|].
  destruct (skip_ws s) as [|q r0]; [discriminate|].
  destruct (q =? 34)%N; [|discriminate].
  destruct (parse_chars r0 []) as [[k r1]|]; [|discriminate].
  destruct (skip_ws r1) as [|x r2]; [discriminate|].
  destruct (x =? 58)%N; [|discriminate].
  destruct (parse_value f r2) as [[v' r3]| |]; try discriminate.
  destruct (skip_ws r3) as [|y r4]; [discriminate|].
  destruct (y =? 44)%N; [eapply IH; eauto|].
  destruct (y =? 125)%N; [|discriminate].
  injection H as <- _. eauto.
Qed.

Lemma parse_elements_array :
  forall fuel s acc v r,
    parse_elements fuel s acc = Ok (v, r) -> exists l, v = Array l.
Proof.
  induction fuel as [|f IH]; intros s acc v r H; simpl in H; [discriminate|].
  destruct (parse_value f s) as [[v' r1]| |]; try discriminate.
  destruct (skip_ws r1) as [|x r2]; [discriminate|].
  destruct (x =? 44)%N; [eapply IH; eauto|].
  destruct (x =? 93)%N; [|discriminate].
  injection H as <- _. eauto.
Qed.

Lemma keyword_value w v s v' r :
  keyword w v s = Ok (v', r) -> v' = v.
Proof.
  unfold keyword. destruct (startsWith s w); [|discriminate].
  now intros [= <- _].
Qed.

(** What the text starts with, past its white space, when the value
    is an object or an array. *)
Lemma parse_value_head fuel s v r :
  parse_value fuel s = Ok (v, r) ->
  match v with
  | Object _ => exists r', skip_ws s = ch "{" :: r'
  | Array _ => exists r', skip_ws s = ch "[" :: r'
  | _ => True
  end.
Proof.
  destruct fuel as [|f]; simpl; [discriminate|].
  destruct (skip_ws s) as [|c r0]; [discriminate|].
  destruct (N.eqb_spec c 123) as [->|H1].
  { intros H.
    assert (exists ms, v = Object ms) as [ms ->].
    { destruct (skip_ws r0) as [|x r']; [discriminate|].
      destruct (x =? 125)%N.
      - injection H as <- _. eauto.
      - eapply parse_members_object; eauto. }
    eauto. }
  destruct (N.eqb_spec c 91) as [->|H2].
  { intros H.
    assert (exists l, v = Array l) as [l ->].
    { destruct (skip_ws r0) as [|x r']; [discriminate|].
      destruct (x =? 93)%N.
      - injection H as <- _. eauto.
      - eapply parse_elements_array; eauto. }
    eauto. }
  destruct (c =? 34)%N.
  { destruct (parse_chars r0 []) as [[str r']|]; [|discriminate].
    now intros [= <- _]. }
  destruct (c =? 116)%N.
  { intros H. apply keyword_value in H. now subst. }
  destruct (c =? 102)%N.
  { intros H. apply keyword_value in H. now subst. }
  destruct (c =? 110)%N.
  { intros H. apply keyword_value in H. now subst. }
  destruct (parse_number (c :: r0)) as [[l r']|]; [|discriminate].
  now intros [= <- _].
Qed.

Lemma is_ws_is_space c : is_ws c = true -> is_space c = true.
Proof.
  unfold is_ws. intros H.
  repeat (apply orb_true_iff in H; destruct H as [H|H]);
    apply N.eqb_eq in H; subst; reflexivity.
Qed.

Lemma skip_ws_trim s c r :
  skip_ws s = c :: r -> is_space c = false -> trim s = c :: trimEnd r.
Proof.
  intros H Hc. unfold skip_ws in H.
  rewrite <- (take_drop_while is_ws s), H.
  rewrite trim_app_space_l.
  - now apply trim_cons_keep.
  - pose proof (take_while_all is_ws s) as Hall.
    rewrite forallb_forall in Hall |- *.
    intros x Hx. apply is_ws_is_space. now apply Hall.
Qed.

Lemma parse_result text v :
  JSON.parse text = Normal v ->
  exists r, parse_value (2 * List.length text + 2) text = Ok (v, r).
Proof.
  unfold JSON.parse.
  destruct (parse_value _ text) as [[v' r]| |]; try discriminate.
  destruct (skip_ws r); [|discriminate].
  intros [= <-]. eauto.
Qed.

Lemma parse_object_brace text ms :
  JSON.parse text = Normal (Object ms) ->
  startsWith (trim text) (lit "{") = true.
Proof.
  intros H. apply parse_result in H. destruct H as [r H].
  apply parse_value_head in H. destruct H as [r' H].
  rewrite (skip_ws_trim _ _ _ H) by reflexivity. reflexivity.
Qed.

Lemma parse_array_bracket text l :
  JSON.parse text = Normal (Array l) ->
  startsWith (trim text) (lit "[") = true.
Proof.
  intros H. apply parse_result in H. destruct H as [r H].
  apply parse_value_head in H. destruct H as [r' H].
  rewrite (skip_ws_trim _ _ _ H) by reflexivity. reflexivity.
Qed.

End ParseFacts.

(* ================================================================== *)
(** * formatResponseText on parsed values *)
(* ================================================================== *)

Section FormatFacts.

Variable E : Engine.

Lemma has_string_top ms k :
  has_string E (Some (Object ms)) k = Normal (found (string_at ms (Top k))).
Proof.
  unfold has_string. simpl.
  destruct (lookup k ms) as [[]|]; reflexivity.
Qed.

Lemma clean_top ms k s :
  string_at ms (Top k) = Some s ->
  (v <- get (Some (Object ms)) k ;; clean_call v)
  = Normal (cleanHtmlAndFormatText s).
Proof.
  simpl.
  destruct (lookup k ms) as [[]|]; try discriminate.
  now intros [= <-].
Qed.

Lemma has_string_nested ms k :
  array_index k = None ->
  has_nested_string E (Some (Object ms)) k
  = Normal (found (string_at ms (UnderData k))).
Proof.
  intros Hk. unfold has_nested_string. simpl.
  destruct (lookup (lit "data") ms) as [[| b | l | s | l | ms']|]; simpl;
    try reflexivity.
  - destruct b; reflexivity.
  - destruct (number_truthy E l); reflexivity.
  - destruct s; reflexivity.
  - now rewrite Hk.
  - destruct (lookup k ms') as [[]|]; reflexivity.
Qed.

Lemma clean_nested ms k s :
  string_at ms (UnderData k) = Some s ->
  (d <- get (Some (Object ms)) (lit "data") ;; v <- get d k ;; clean_call v)
  = Normal (cleanHtmlAndFormatText s).
Proof.
  simpl.
  destruct (lookup (lit "data") ms) as [[| | | | |ms']|]; try discriminate.
  simpl.
  destruct (lookup k ms') as [[]|]; try discriminate.
  now intros [= <-].
Qed.

Lemma else_if_normal (A : Type) (b : bool) (x y : completion A) :
  else_if (Normal b) x y = if b then x else y.
Proof. reflexivity. Qed.

(** The else-if chain on an object, arm by arm. *)
Ltac arm_top k :=
  rewrite (has_string_top _ k), else_if_normal;
  let Hs := fresh "Hs" in
  destruct (string_at _ (Top k)) as [?s|] eqn:Hs; unfold found;
  [ rewrite (clean_top _ _ _ Hs) | ].

Ltac arm_nested k :=
  rewrite (has_string_nested _ k eq_refl), else_if_normal;
  let Hs := fresh "Hs" in
  destruct (string_at _ (UnderData k)) as [?s|] eqn:Hs; unfold found;
  [ rewrite (clean_nested _ _ _ Hs) | ].

(** What the body of the try block returns on an object. *)
Lemma try_body_object text ms :
  JSON.parse text = Normal (Object ms) ->
  try_body E text =
  Normal (Some
    match first_match ms candidates with
    | Some s => cleanHtmlAndFormatText s
    | None =>
        match first_long_string (List.map snd ms) with
        | Some s => cleanHtmlAndFormatText s
        | None => lit "Response: "
                  ++ cleanHtmlAndFormatText
                       (stringify (number_toString E) (Object ms))
        end
    end).
Proof.
  intros Hp. unfold try_body. rewrite Hp. unfold bind at 1. cbv beta zeta.
  change (is_string (Some (Object ms))) with false. cbv iota.
  unfold first_match, candidates.
  arm_top (lit "output"); [reflexivity|].
  arm_top (lit "response"); [reflexivity|].
  arm_top (lit "message"); [reflexivity|].
  arm_top (lit "text"); [reflexivity|].
  arm_top (lit "content"); [reflexivity|].
  arm_top (lit "result"); [reflexivity|].
  arm_top (lit "answer"); [reflexivity|].
  arm_top (lit "data"); [reflexivity|].
  arm_nested (lit "response"); [reflexivity|].
  arm_nested (lit "message"); [reflexivity|].
  arm_nested (lit "text"); [reflexivity|].
  unfold first_element_is_string. rewrite else_if_normal.
  change (truthy E (Some (Object ms)) && is_object (Some (Object ms))) with true.
  unfold for_in_values.
  destruct (first_long_string (List.map snd ms)); reflexivity.
Qed.

Lemma formatResponseText_object text ms :
  JSON.parse text = Normal (Object ms) ->
  formatResponseText E text =
  Normal
    match first_match ms candidates with
    | Some s => cleanHtmlAndFormatText s
    | None =>
        match first_long_string (List.map snd ms) with
        | Some s => cleanHtmlAndFormatText s
        | None => lit "Response: "
                  ++ cleanHtmlAndFormatText
                       (stringify (number_toString E) (Object ms))
        end
    end.
Proof.
  intros Hp. unfold formatResponseText.
  rewrite (parse_object_brace _ _ Hp). simpl orb. cbv iota.
  rewrite (try_body_object _ _ Hp). reflexivity.
Qed.

(** ... and on an array. *)
Lemma formatResponseText_array text l :
  JSON.parse text = Normal (Array l) ->
  formatResponseText E text =
  Normal
    match l with
    | String_ s :: _ => cleanHtmlAndFormatText s
    | _ =>
        match first_long_string l with
        | Some s => cleanHtmlAndFormatText s
        | None => lit "Response: "
                  ++ cleanHtmlAndFormatText
                       (stringify (number_toString E) (Array l))
        end
    end.
Proof.
  intros Hp. unfold formatResponseText.
  rewrite (parse_array_bracket _ _ Hp). rewrite orb_true_r. cbv iota.
  unfold try_body. rewrite Hp. simpl bind. cbv beta zeta.
  change (is_string (Some (Array l))) with false. cbv iota.
  unfold else_if, has_string, has_nested_string. simpl.
  destruct l as [|x l']; simpl; [reflexivity|].
  destruct x; simpl; try reflexivity;
    destruct (first_long_string l'); reflexivity.
Qed.

Lemma formatResponseText_parse_failure text e :
  JSON.parse text = Throw e ->
  formatResponseText E text = Normal (cleanHtmlAndFormatText text).
Proof.
  intros Hp. unfold formatResponseText, try_body. rewrite Hp. simpl.
  destruct (_ || _); reflexivity.
Qed.

Lemma formatResponseText_plain text :
  startsWith (trim text) (lit "{") = false ->
  startsWith (trim text) (lit "[") = false ->
  formatResponseText E text = Normal (cleanHtmlAndFormatText text).
Proof.
  intros H1 H2. unfold formatResponseText. now rewrite H1, H2.
Qed.

(** Once the text is parsed, nothing in the body of the try block
    throws: every property read is behind a guard that rules out
    [null] and [undefined], and [cleanHtmlAndFormatText] is only
    called on strings. *)
Lemma try_body_returns text v :
  JSON.parse text = Normal v -> exists r, try_body E text = Normal r.
Proof.
  intros Hp. destruct v as [| b | l | s0 | l | ms].
  - unfold try_body. rewrite Hp. eexists. reflexivity.
  - unfold try_body. rewrite Hp. destruct b; eexists; reflexivity.
  - unfold try_body. rewrite Hp.
    unfold bind at 1. cbv beta zeta.
    unfold else_if, has_string, has_nested_string. simpl.
    destruct (number_truthy E l); eexists; reflexivity.
  - unfold try_body. rewrite Hp. eexists. reflexivity.
  - unfold try_body. rewrite Hp.
    unfold bind at 1. cbv beta zeta.
    unfold else_if, has_string, has_nested_string. simpl.
    destruct l as [|x l']; simpl; [eexists; reflexivity|].
    destruct x; simpl; try (eexists; reflexivity);
      destruct (first_long_string l'); eexists; reflexivity.
  - rewrite (try_body_object _ _ Hp). eexists. reflexivity.
Qed.

Lemma formatResponseText_returns text :
  exists s, formatResponseText E text = Normal s.
Proof.
  unfold formatResponseText.
  destruct (_ || _); [|eauto].
  destruct (try_body E text) as [[s|]|e]; simpl; eauto.
Qed.

End FormatFacts.

(* ================================================================== *)
(** * JSON.parse never runs out of fuel *)
(* ================================================================== *)

Section FuelFacts.

Lemma skip_ws_length s : List.length (skip_ws s) <= List.length s.
Proof. apply drop_while_length. Qed.

Lemma skip_ws_cons s c r :
  skip_ws s = c :: r -> List.length r < List.length s.
Proof.
  intros H. pose proof (skip_ws_length s) as L. rewrite H in L.
  simpl in L. lia.
Qed.

Lemma parse_chars_shorter :
  forall n s, List.length s <= n ->
  forall acc v r, parse_chars s acc = Some (v, r) ->
                  List.length r < List.length s.
Proof.
  induction n as [|n IH]; intros s Hn acc v r H.
  - destruct s; [discriminate|simpl in Hn; lia].
  - destruct s as [|c s]; [discriminate|]. simpl in Hn. simpl in H.
    destruct (c =? 34)%N.
    { injection H as _ <-. simpl. lia. }
    destruct (c =? 92)%N.
    { destruct s as [|e s]; [discriminate|]. simpl in Hn.
      destruct (e =? 117)%N.
      - destruct s as [|h1 [|h2 [|h3 [|h4 s]]]]; try discriminate.
        destruct (hex4 h1 h2 h3 h4); [|discriminate].
        apply IH in H; simpl in *; lia.
      - destruct (simple_escape e); [|discriminate].
        apply IH in H; simpl in *; lia. }
    destruct (c <? 32)%N; [discriminate|].
    apply IH in H; simpl; lia.
Qed.

Lemma parse_frac_shorter s l r :
  parse_frac s = Some (l, r) -> List.length r <= List.length s.
Proof.
  unfold parse_frac. destruct s as [|c s]; [now intros [= _ <-]|].
  destruct (c =? 46)%N; [|now intros [= _ <-]].
  destruct (take_while is_digit s); [discriminate|].
  intros [= _ <-]. pose proof (drop_while_length is_digit s). simpl. lia.
Qed.

Lemma parse_exp_shorter s l r :
  parse_exp s = Some (l, r) -> List.length r <= List.length s.
Proof.
  unfold parse_exp. destruct s as [|c s]; [now intros [= _ <-]|].
  destruct ((c =? 101) || (c =? 69))%N; [|now intros [= _ <-]].
  destruct s as [|x s'].
  - simpl. discriminate.
  - destruct ((x =? 43) || (x =? 45))%N.
    + destruct (take_while is_digit s'); [discriminate|].
      intros [= _ <-]. pose proof (drop_while_length is_digit s'). simpl. lia.
    + destruct (take_while is_digit (x :: s')); [discriminate|].
      intros [= _ <-]. pose proof (drop_while_length is_digit (x :: s')).
      simpl in *. lia.
Qed.

Lemma parse_int_shorter s l r :
  parse_int s = Some (l, r) -> List.length r < List.length s.
Proof.
  unfold parse_int. destruct s as [|c s]; [discriminate|].
  destruct (c =? 48)%N; [intros [= _ <-]; simpl; lia|].
  destruct (is_digit c) eqn:Hd; [|discriminate].
  intros [= _ <-]. simpl. rewrite Hd.
  pose proof (drop_while_length is_digit s). simpl. lia.
Qed.

Lemma parse_number_shorter s l r :
  parse_number s = Some (l, r) -> List.length r < List.length s.
Proof.
  unfold parse_number.
  assert (Hs : forall s1 l r, 
    match parse_int s1 with
    | None => None
    | Some (i, s2) =>
        match parse_frac s2 with
        | None => None
        | Some (f, s3) =>
            match parse_exp s3 with
            | None => None
            | Some (e, s4) => Some (l ++ i ++ f ++ e, s4)
            end
        end
    end = Some (r : jsstring * jsstring) -> List.length (snd r) < List.length s1).
  { intros s1 l0 r0.
    destruct (parse_int s1) as [[i s2]|] eqn:Hi; [|discriminate].
    destruct (parse_frac s2) as [[f s3]|] eqn:Hf; [|discriminate].
    destruct (parse_exp s3) as [[e s4]|] eqn:He; [|discriminate].
    intros [= <-]. simpl.
    apply parse_int_shorter in Hi. apply parse_frac_shorter in Hf.
    apply parse_exp_shorter in He. lia. }
  destruct s as [|c s']; simpl.
  - discriminate.
  - destruct (c =? 45)%N; intros H; apply Hs in H; simpl in *; lia.
Qed.

Lemma keyword_shorter w v c s v' r :
  0 < List.length w -> keyword w v (c :: s) = Ok (v', r) ->
  List.length r < List.length (c :: s).
Proof.
  unfold keyword. intros Hw.
  destruct (startsWith (c :: s) w); [|discriminate].
  intros [= _ <-]. rewrite length_skipn.
  assert (0 < List.length (c :: s)) by (simpl; lia). lia.
Qed.

(** Every successful parse consumes input. *)
Lemma parse_shorter :
  forall fuel,
    (forall s v r, parse_value fuel s = Ok (v, r) ->
                   List.length r < List.length s)
    /\ (forall s acc v r, parse_elements fuel s acc = Ok (v, r) ->
                          List.length r < List.length s)
    /\ (forall s acc v r, parse_members fuel s acc = Ok (v, r) ->
                          List.length r < List.length s).
Proof.
  induction fuel as [|f [IHv [IHe IHm]]].
  - repeat split; intros; discriminate.
  - repeat split.
    + intros s v r H. simpl in H.
      destruct (skip_ws s) as [|c r0] eqn:Hs; [discriminate|].
      apply skip_ws_cons in Hs.
      destruct (c =? 123)%N.
      { destruct (skip_ws r0) as [|x r'] eqn:Hs'; [discriminate|].
        apply skip_ws_cons in Hs'.
        destruct (x =? 125)%N; [injection H as _ <-; lia|].
        apply IHm in H. lia. }
      destruct (c =? 91)%N.
      { destruct (skip_ws r0) as [|x r'] eqn:Hs'; [discriminate|].
        apply skip_ws_cons in Hs'.
        destruct (x =? 93)%N; [injection H as _ <-; lia|].
        apply IHe in H. lia. }
      destruct (c =? 34)%N.
      { destruct (parse_chars r0 []) as [[str r']|] eqn:Hc; [|discriminate].
        injection H as _ <-.
        apply (parse_chars_shorter (List.length r0)) in Hc; lia. }
      destruct (c =? 116)%N.
      { apply keyword_shorter in H; [simpl in H; lia | simpl; lia]. }
      destruct (c =? 102)%N.
      { apply keyword_shorter in H; [simpl in H; lia | simpl; lia]. }
      destruct (c =? 110)%N.
      { apply keyword_shorter in H; [simpl in H; lia | simpl; lia]. }
      destruct (parse_number (c :: r0)) as [[l r']|] eqn:Hn; [|discriminate].
      injection H as _ <-. apply parse_number_shorter in Hn. simpl in Hn. lia.
    + intros s acc v r H. simpl in H.
      destruct (parse_value f s) as [[v' r1]| |] eqn:Hv; try discriminate.
      apply IHv in Hv.
      destruct (skip_ws r1) as [|x r2] eqn:Hs; [discriminate|].
      apply skip_ws_cons in Hs.
      destruct (x =? 44)%N; [apply IHe in H; lia|].
      destruct (x =? 93)%N; [|discriminate].
      injection H as _ <-. lia.
    + intros s acc v r H. simpl in H.
      destruct (skip_ws s) as [|q r0] eqn:Hs; [discriminate|].
      apply skip_ws_cons in Hs.
      destruct (q =? 34)%N; [|discriminate].
      destruct (parse_chars r0 []) as [[k r1]|] eqn:Hc; [|discriminate].
      apply (parse_chars_shorter (List.length r0)) in Hc; [|lia].
      destruct (skip_ws r1) as [|x r2] eqn:Hs1; [discriminate|].
      apply skip_ws_cons in Hs1.
      destruct (x =? 58)%N; [|discriminate].
      destruct (parse_value f r2) as [[v' r3]| |] eqn:Hv; try discriminate.
      apply IHv in Hv.
      destruct (skip_ws r3) as [|y r4] eqn:Hs3; [discriminate|].
      apply skip_ws_cons in Hs3.
      destruct (y =? 44)%N; [apply IHm in H; lia|].
      destruct (y =? 125)%N; [|discriminate].
      injection H as _ <-. lia.
Qed.

Lemma keyword_fuel w v s : keyword w v s <> OutOfFuel.
Proof. unfold keyword. destruct (startsWith s w); discriminate. Qed.

Lemma parse_fuel_enough :
  forall fuel,
    (forall s, 2 * List.length s + 1 <= fuel ->
               parse_value fuel s <> OutOfFuel)
    /\ (forall s acc, 2 * List.length s + 2 <= fuel ->
                      parse_elements fuel s acc <> OutOfFuel)
    /\ (forall s acc, 2 * List.length s + 2 <= fuel ->
                      parse_members fuel s acc <> OutOfFuel).
Proof.
  induction fuel as [|f [IHv [IHe IHm]]].
  - repeat split; intros; lia.
  - repeat split.
    + intros s Hf. simpl.
      destruct (skip_ws s) as [|c r0] eqn:Hs; [discriminate|].
      apply skip_ws_cons in Hs.
      destruct (c =? 123)%N.
      { destruct (skip_ws r0) as [|x r'] eqn:Hs'; [discriminate|].
        destruct (x =? 125)%N; [discriminate|]. apply IHm. lia. }
      destruct (c =? 91)%N.
      { destruct (skip_ws r0) as [|x r'] eqn:Hs'; [discriminate|].
        destruct (x =? 93)%N; [discriminate|]. apply IHe. lia. }
      destruct (c =? 34)%N.
      { destruct (parse_chars r0 []) as [[str r']|]; discriminate. }
      destruct (c =? 116)%N; [apply keyword_fuel|].
      destruct (c =? 102)%N; [apply keyword_fuel|].
      destruct (c =? 110)%N; [apply keyword_fuel|].
      destruct (parse_number (c :: r0)) as [[l r']|]; discriminate.
    + intros s acc Hf. simpl.
      destruct (parse_value f s) as [[v' r1]| |] eqn:Hv.
      * apply (proj1 (parse_shorter f)) in Hv.
        destruct (skip_ws r1) as [|x r2] eqn:Hs; [discriminate|].
        apply skip_ws_cons in Hs.
        destruct (x =? 44)%N; [apply IHe; lia|].
        destruct (x =? 93)%N; discriminate.
      * discriminate.
      * exfalso. apply (IHv s); [lia|exact Hv].
    + intros s acc Hf. simpl.
      destruct (skip_ws s) as [|q r0] eqn:Hs; [discriminate|].
      apply skip_ws_cons in Hs.
      destruct (q =? 34)%N; [|discriminate].
      destruct (parse_chars r0 []) as [[k r1]|] eqn:Hc; [|discriminate].
      apply (parse_chars_shorter (List.length r0)) in Hc; [|lia].
      destruct (skip_ws r1) as [|x r2] eqn:Hs1; [discriminate|].
      apply skip_ws_cons in Hs1.
      destruct (x =? 58)%N; [|discriminate].
      destruct (parse_value f r2) as [[v' r3]| |] eqn:Hv.
      * apply (proj1 (parse_shorter f)) in Hv.
        destruct (skip_ws r3) as [|y r4] eqn:Hs3; [discriminate|].
        apply skip_ws_cons in Hs3.
        destruct (y =? 44)%N; [apply IHm; lia|].
        destruct (y =? 125)%N; discriminate.
      * discriminate.
      * exfalso. apply (IHv r2); [lia|exact Hv].
Qed.

(** The fuel [JSON.parse] starts with is enough for every text: the
    model never reports a stack overflow of its own. *)
Lemma parse_never_out_of_fuel text : JSON.parse text <> Throw RangeError.
Proof.
  unfold JSON.parse.
  destruct (parse_value (2 * List.length text + 2) text) as [[v r]| |] eqn:H.
  - destruct (skip_ws r); discriminate.
  - discriminate.
  - exfalso.
    apply (proj1 (parse_fuel_enough (2 * List.length text + 2)) text);
      [lia|exact H].
Qed.

End FuelFacts.

(* ================================================================== *)
(** * JSON.parse reads back what JSON.stringify writes of a string *)
(* ================================================================== *)

Section RoundTripFacts.

Lemma hex_digit_hex_char d :
  (d < 16)%N -> hex_digit (hex_char d) = Some d.
Proof.
  intros H.
  assert (C : (d = 0 \/ d = 1 \/ d = 2 \/ d = 3 \/ d = 4 \/ d = 5 \/ d = 6
               \/ d = 7 \/ d = 8 \/ d = 9 \/ d = 10 \/ d = 11 \/ d = 12
               \/ d = 13 \/ d = 14 \/ d = 15)%N) by lia.
  repeat (destruct C as [->|C]; [reflexivity|]). subst. reflexivity.
Qed.

Lemma hex4_unicode c :
  code_unit c = true ->
  hex4 (hex_char (c / 4096 mod 16)) (hex_char (c / 256 mod 16))
       (hex_char (c / 16 mod 16)) (hex_char (c mod 16)) = Some c.
Proof.
  unfold code_unit. intros H. apply N.ltb_lt in H.
  unfold hex4.
  rewrite !hex_digit_hex_char by (apply N.mod_lt; discriminate).
  f_equal. zify. Z.to_euclidean_division_equations. lia.
Qed.

Lemma parse_chars_quote :
  forall s paired acc rest,
    forallb code_unit s = true ->
    parse_chars (quote_chars paired s ++ 34%N :: rest) acc
    = Some (rev acc ++ s, rest).
Proof.
  induction s as [|c s IH]; intros paired acc rest Hs.
  - simpl. now rewrite app_nil_r.
  - simpl in Hs. apply andb_true_iff in Hs. destruct Hs as [Hc Hs].
    assert (Step : forall p,
               parse_chars (quote_chars p s ++ 34%N :: rest) (c :: acc)
               = Some (rev acc ++ c :: s, rest)).
    { intros p. rewrite IH by exact Hs. simpl. now rewrite <- app_assoc. }
    assert (Esc : forall p,
               parse_chars ((unicode_escape c ++ quote_chars p s) ++ 34%N :: rest) acc
               = Some (rev acc ++ c :: s, rest)).
    { intros p. unfold unicode_escape. cbn [app parse_chars N.eqb Pos.eqb].
      rewrite (hex4_unicode c Hc). apply Step. }
    cbn [quote_chars].
    destruct (N.eqb_spec c 8) as [->|_]; [apply Step|].
    destruct (N.eqb_spec c 9) as [->|_]; [apply Step|].
    destruct (N.eqb_spec c 10) as [->|_]; [apply Step|].
    destruct (N.eqb_spec c 12) as [->|_]; [apply Step|].
    destruct (N.eqb_spec c 13) as [->|_]; [apply Step|].
    destruct (N.eqb_spec c 34) as [->|N34]; [apply Step|].
    destruct (N.eqb_spec c 92) as [->|N92]; [apply Step|].
    destruct (c <? 32)%N eqn:L32; [apply Esc|].
    assert (Keep : forall p,
               parse_chars ((c :: quote_chars p s) ++ 34%N :: rest) acc
               = Some (rev acc ++ c :: s, rest)).
    { intros p. cbn [app parse_chars].
      rewrite (proj2 (N.eqb_neq c 34) N34), (proj2 (N.eqb_neq c 92) N92), L32.
      apply Step. }
    destruct (is_lead c).
    + destruct s as [|d s'].
      * change (unicode_escape c) with (unicode_escape c ++ quote_chars false []).
        apply Esc.
      * destruct (is_trail d); [apply Keep|apply Esc].
    + destruct (is_trail c); [destruct paired; [apply Keep|apply Esc]|apply Keep].
Qed.

Lemma parse_value_response_json (s : jsstring) (f : nat) :
  forallb code_unit s = true ->
  parse_value (S (S (S f))) (response_json s)
  = Ok (Object [(lit "response", String_ s)], []).
Proof.
  intros Hs. unfold response_json, quote.
  change (lit "{") with [123%N]. change (lit ":") with [58%N].
  change (lit "}") with [125%N].
  change (quote_chars false (lit "response"))
    with [114; 101; 115; 112; 111; 110; 115; 101]%N.
  change (lit "response") with [114; 101; 115; 112; 111; 110; 115; 101]%N.
  cbn [app]. rewrite <- app_assoc.
  cbn [parse_value parse_members skip_ws drop_while is_ws N.eqb Pos.eqb orb
       parse_chars simple_escape N.ltb N.compare Pos.compare Pos.compare_cont
       rev app].
  rewrite (parse_chars_quote s false [] [125%N] Hs).
  reflexivity.
Qed.

(** The JSON text of an object whose only field is a response
    parses to that object. *)
Lemma parse_response_json (s : jsstring) :
  forallb code_unit s = true ->
  JSON.parse (response_json s) = Normal (Object [(lit "response", String_ s)]).
Proof.
  intros Hs. unfold JSON.parse.
  assert (exists f, 2 * List.length (response_json s) + 2 = S (S (S f)))
    as [f ->].
  { exists (2 * List.length (response_json s) - 1).
    unfold response_json. rewrite length_app. simpl List.length. lia. }
  now rewrite (parse_value_response_json s f Hs).
Qed.

End RoundTripFacts.

(* ================================================================== *)
(** * Greedy repetition without backtracking *)
(* ================================================================== *)

Section GreedyFacts.

(** A greedy repetition whose longest run is accepted by what follows
    stops there. *)
Lemma rep_greedy_longest (k : cclass) (kt : kont) :
  forall s min pos cap res,
    min <= List.length (take_while (cls_mem k) s) ->
    kt (pos + List.length (take_while (cls_mem k) s))
       (drop_while (cls_mem k) s) cap = Some res ->
    rep_greedy k kt min pos s cap = Some res.
Proof.
  induction s as [|c s IH]; intros min pos cap res Hmin Hk; simpl in *.
  - assert (min = 0) by lia. subst. now rewrite Nat.add_0_r in Hk.
  - destruct (cls_mem k c) eqn:Hc; simpl in *.
    + rewrite (IH (pred min) (S pos) cap res); [reflexivity|lia|].
      now replace (S pos + List.length (take_while (cls_mem k) s))
        with (pos + S (List.length (take_while (cls_mem k) s))) by lia.
    + assert (min = 0) by lia. subst. now rewrite Nat.add_0_r in Hk.
Qed.

Lemma rep_greedy_short (k : cclass) (kt : kont) :
  forall s min pos cap,
    List.length (take_while (cls_mem k) s) < min ->
    rep_greedy k kt min pos s cap = None.
Proof.
  induction s as [|c s IH]; intros min pos cap Hmin; simpl in *.
  - destruct min; [lia|reflexivity].
  - destruct (cls_mem k c) eqn:Hc; simpl in *.
    + rewrite IH by lia. destruct min; [lia|reflexivity].
    + destruct min; [lia|reflexivity].
Qed.

(** The longest run is the only stop when what follows rejects every
    input that begins inside the class. *)
Lemma rep_greedy_exact (k : cclass) (kt : kont) :
  (forall pos c s cap, cls_mem k c = true -> kt pos (c :: s) cap = None) ->
  forall s min pos cap,
    min <= List.length (take_while (cls_mem k) s) ->
    rep_greedy k kt min pos s cap
    = kt (pos + List.length (take_while (cls_mem k) s))
         (drop_while (cls_mem k) s) cap.
Proof.
  intros Hrej.
  induction s as [|c s IH]; intros min pos cap Hmin; simpl in *.
  - assert (min = 0) by lia. subst. now rewrite Nat.add_0_r.
  - destruct (cls_mem k c) eqn:Hc; simpl in *.
    + rewrite IH by lia.
      replace (S pos + List.length (take_while (cls_mem k) s))
        with (pos + S (List.length (take_while (cls_mem k) s))) by lia.
      destruct (kt _ _ cap) as [r|] eqn:Hk; [reflexivity|].
      destruct min; [|reflexivity]. now apply Hrej.
    + assert (min = 0) by lia. subst. now rewrite Nat.add_0_r.
Qed.

End GreedyFacts.

(* ================================================================== *)
(** * splitIntoSentences *)
(* ================================================================== *)

Section SentenceFacts.

Lemma not_terminal_is_terminal c : not_terminal c = negb (is_terminal c).
Proof. reflexivity. Qed.

Lemma match_here_sentence (s : jsstring) :
  match_here re_sentence s =
  match take_while not_terminal s with
  | [] => None
  | _ :: _ => Some (sentence_length s, None)
  end.
Proof.
  unfold match_here, re_sentence, Plus, Opt, Star. simpl m.
  destruct (take_while not_terminal s) as [|c0 run0] eqn:Hrun.
  - apply rep_greedy_short. fold not_terminal. rewrite Hrun. simpl. lia.
  - apply rep_greedy_longest; fold not_terminal; rewrite Hrun; [simpl; lia|].
    unfold sentence_length. rewrite Hrun.
    destruct (drop_while not_terminal s) as [|p r] eqn:Hdrop.
    + simpl. now rewrite Nat.add_0_r.
    + pose proof (drop_while_head _ _ _ _ Hdrop) as Hp.
      rewrite not_terminal_is_terminal in Hp. apply negb_false_iff in Hp.
      unfold is_terminal in Hp.
      simpl in Hp. rewrite Hp.
      rewrite (rep_greedy_longest CSpace _ r 0 _ None
                 (S (0 + List.length (c0 :: run0))
                  + List.length (take_while is_space r), None));
        [|lia|reflexivity].
      f_equal. f_equal. simpl. lia.
Qed.

Lemma terminal_not_space c : is_terminal c = true -> is_space c = false.
Proof.
  unfold is_terminal. simpl. intros H.
  repeat (apply orb_true_iff in H; destruct H as [H|H]);
    try discriminate; apply N.eqb_eq in H; subst; reflexivity.
Qed.

Lemma space_not_terminal c : is_space c = true -> not_terminal c = true.
Proof.
  intros H. rewrite not_terminal_is_terminal.
  destruct (is_terminal c) eqn:Ht; [|reflexivity].
  apply terminal_not_space in Ht. congruence.
Qed.

(** The sentence at the head of [s] and what is left, when no mark
    follows the first run. *)
Lemma sentence_to_end s :
  drop_while not_terminal s = [] ->
  sentence_length s = List.length s /\ take_while not_terminal s = s.
Proof.
  intros H. pose proof (take_drop_while not_terminal s) as E.
  rewrite H, app_nil_r in E. unfold sentence_length. rewrite H, E.
  split; [lia|reflexivity].
Qed.

(** ... and when one does. *)
Lemma sentence_to_mark s p r :
  drop_while not_terminal s = p :: r ->
  firstn (sentence_length s) s
  = take_while not_terminal s ++ [p] ++ take_while is_space r
  /\ skipn (sentence_length s) s = drop_while is_space r.
Proof.
  intros H. pose proof (take_drop_while not_terminal s) as E.
  rewrite H in E. unfold sentence_length. rewrite H.
  set (run := take_while not_terminal s) in *.
  rewrite <- (take_drop_while is_space r) in E.
  set (ws := take_while is_space r) in *.
  clearbody run ws. subst s.
  replace (run ++ p :: ws ++ drop_while is_space r)
    with ((run ++ [p] ++ ws) ++ drop_while is_space r)
    by (now rewrite <- !app_assoc).
  replace (List.length run + (1 + List.length ws))
    with (List.length (run ++ [p] ++ ws) + 0)
    by (rewrite !length_app; simpl; lia).
  split.
  - rewrite firstn_app_2. simpl. now rewrite app_nil_r.
  - rewrite Nat.add_0_r, skipn_app, skipn_all, Nat.sub_diag. reflexivity.
Qed.

Lemma matches_from_sentence c s :
  matches_from re_sentence 0 (c :: s) =
  if is_terminal c then matches_from re_sentence 0 s
  else firstn (sentence_length (c :: s)) (c :: s)
       :: matches_from re_sentence 0 (skipn (sentence_length (c :: s)) (c :: s)).
Proof.
  rewrite matches_from_cons, match_here_sentence.
  simpl take_while. rewrite not_terminal_is_terminal.
  destruct (is_terminal c) eqn:Ht; simpl negb; cbv iota; [reflexivity|].
  assert (exists n, sentence_length (c :: s) = S n) as [n Hn].
  { unfold sentence_length. simpl take_while.
    rewrite not_terminal_is_terminal, Ht. simpl. eauto. }
  rewrite Hn. reflexivity.
Qed.

Lemma skipn_sentence_shorter c s :
  is_terminal c = false ->
  List.length (skipn (sentence_length (c :: s)) (c :: s)) < List.length (c :: s).
Proof.
  intros Ht. rewrite length_skipn.
  assert (0 < sentence_length (c :: s)).
  { unfold sentence_length. simpl take_while.
    rewrite not_terminal_is_terminal, Ht. simpl. lia. }
  simpl List.length. lia.
Qed.

Lemma last_default (l : jsstring) a b : l <> [] -> last l a = last l b.
Proof.
  induction l as [|x l IH]; intros H; [now elim H|].
  destruct l as [|y l]; [reflexivity|].
  change (last (y :: l) a = last (y :: l) b). apply IH. discriminate.
Qed.

Lemma ends_clean_tail c s : ends_clean (c :: s) = true -> ends_clean s = true.
Proof.
  destruct s as [|x s]; [reflexivity|].
  unfold ends_clean. intros H.
  change (last (c :: x :: s) c) with (last (x :: s) c) in H.
  now rewrite (last_default (x :: s) x c) by discriminate.
Qed.

Lemma ends_clean_skipn n : forall s, ends_clean s = true -> ends_clean (skipn n s) = true.
Proof.
  induction n as [|n IH]; intros s H; [exact H|].
  destruct s as [|c s]; [reflexivity|].
  simpl. apply IH. eapply ends_clean_tail; eauto.
Qed.

Lemma ends_clean_not_blank s :
  s <> [] -> ends_clean s = true -> trim s <> [].
Proof.
  intros Hs He Ht. apply trim_nil_whitespace_only in Ht.
  destruct s as [|c s]; [now elim Hs|].
  unfold ends_clean in He. apply negb_true_iff in He.
  unfold whitespace_only in Ht. rewrite forallb_forall in Ht.
  rewrite Ht in He; [discriminate|].
  destruct (@exists_last _ (c :: s)) as [s' [y Hy]]; [discriminate|].
  rewrite Hy, last_last. apply in_or_app. right. now left.
Qed.

Lemma trimmed_ends_clean s : trimmed s = true -> ends_clean s = true.
Proof.
  destruct s as [|c s]; [reflexivity|].
  unfold trimmed, ends_clean. intros H.
  apply andb_true_iff in H. tauto.
Qed.

Lemma contains_not_blank (a b : jsstring) p :
  is_space p = false -> trim (a ++ p :: b) <> [].
Proof.
  intros Hp Ht. apply trim_nil_whitespace_only in Ht.
  unfold whitespace_only in Ht. rewrite forallb_app in Ht.
  simpl in Ht. rewrite Hp in Ht. simpl in Ht.
  now rewrite andb_false_r in Ht.
Qed.

(** In a text that does not end with white space, every sentence has
    something left after trimming. *)
Lemma matches_not_blank :
  forall n s, List.length s <= n -> ends_clean s = true ->
              Forall (fun x => trim x <> []) (matches_from re_sentence 0 s).
Proof.
  induction n as [|n IH]; intros s Hn He.
  - destruct s; [|simpl in Hn; lia]. exact (Forall_nil _).
  - destruct s as [|c s]; [exact (Forall_nil _)|].
    rewrite matches_from_sentence.
    destruct (is_terminal c) eqn:Ht.
    + apply IH; [simpl in Hn; lia|]. eapply ends_clean_tail; eauto.
    + constructor.
      * destruct (drop_while not_terminal (c :: s)) as [|p r] eqn:Hd.
        -- destruct (sentence_to_end _ Hd) as [-> _].
           rewrite firstn_all. apply ends_clean_not_blank; [discriminate|exact He].
        -- destruct (sentence_to_mark _ _ _ Hd) as [-> _].
           apply contains_not_blank. apply terminal_not_space.
           apply drop_while_head in Hd.
           rewrite not_terminal_is_terminal in Hd.
           now apply negb_false_iff in Hd.
      * apply IH.
        -- pose proof (skipn_sentence_shorter c s Ht). lia.
        -- now apply ends_clean_skipn.
Qed.

Lemma filter_nonblank (l : list jsstring) :
  Forall (fun x => trim x <> []) l ->
  List.filter (fun s => 0 <? List.length s) (List.map trim l) = List.map trim l.
Proof.
  induction 1 as [|x l Hx Hl IH]; simpl; [reflexivity|].
  destruct (trim x) as [|c t] eqn:E; [now elim Hx|].
  simpl. now rewrite IH.
Qed.

(** A text without white space at its end yields at least one
    chunk. *)
Lemma splitIntoSentences_nonempty s :
  ends_clean s = true -> splitIntoSentences s <> [].
Proof.
  intros He. unfold splitIntoSentences, match_all.
  pose proof (matches_not_blank (List.length s) s (le_n _) He) as Hall.
  destruct (matches_from re_sentence 0 s) as [|x l]; [discriminate|].
  rewrite filter_nonblank by exact Hall. discriminate.
Qed.

End SentenceFacts.


(* ================================================================== *)
(** * splitIntoSentences against the chunking of the specification *)
(* ================================================================== *)

Section ChunkingFacts.

Lemma cut_run (run : jsstring) :
  forall cur r,
    forallb not_terminal run = true ->
    cut_after_terminal cur (run ++ r) = cut_after_terminal (rev run ++ cur) r.
Proof.
  induction run as [|x run IH]; intros cur r H; [reflexivity|].
  simpl in H. apply andb_true_iff in H. destruct H as [Hx Hr].
  rewrite not_terminal_is_terminal in Hx. apply negb_true_iff in Hx.
  simpl. rewrite Hx, IH by exact Hr. now rewrite <- app_assoc.
Qed.

Lemma cut_mark cur p r :
  is_terminal p = true ->
  cut_after_terminal cur (p :: r) = rev (p :: cur) :: cut_after_terminal [] r.
Proof. intros H. simpl. now rewrite H. Qed.

Lemma marks_after_run (run : jsstring) :
  forall ok p r,
    forallb not_terminal run = true -> is_terminal p = true ->
    marks_follow_text ok (run ++ p :: r) = true ->
    marks_follow_text false r = true.
Proof.
  induction run as [|x run IH]; intros ok p r Hrun Hp H; simpl in H.
  - rewrite Hp in H. apply andb_true_iff in H. tauto.
  - simpl in Hrun. apply andb_true_iff in Hrun. destruct Hrun as [Hx Hr].
    rewrite not_terminal_is_terminal in Hx. apply negb_true_iff in Hx.
    rewrite Hx in H. eapply IH; eauto.
Qed.

Lemma marks_after_space (ws : jsstring) :
  forall r, forallb is_space ws = true ->
            marks_follow_text false (ws ++ r) = marks_follow_text false r.
Proof.
  induction ws as [|x ws IH]; intros r H; [reflexivity|].
  simpl in H. apply andb_true_iff in H. destruct H as [Hx Hr].
  simpl. pose proof (space_not_terminal x Hx) as Hn.
  rewrite not_terminal_is_terminal in Hn. apply negb_true_iff in Hn.
  rewrite Hn, Hx. simpl. now apply IH.
Qed.

Lemma forallb_space_not_terminal (ws : jsstring) :
  forallb is_space ws = true -> forallb not_terminal ws = true.
Proof.
  rewrite !forallb_forall. intros H x Hx. apply space_not_terminal. auto.
Qed.

Lemma split_as_cut :
  forall n t, List.length t <= n ->
  forall cur,
    forallb is_space cur = true ->
    marks_follow_text false t = true ->
    List.filter (fun s => 0 <? List.length s)
      (List.map trim (matches_from re_sentence 0 t))
    = List.filter (fun s => 0 <? List.length s)
        (List.map trim (cut_after_terminal cur t)).
Proof.
  induction n as [|n IH]; intros t Hn cur Hcur Hm.
  - destruct t; [|simpl in Hn; lia].
    simpl. rewrite trim_whitespace_only; [reflexivity|].
    unfold whitespace_only. now rewrite forallb_rev.
  - destruct t as [|c s].
    { simpl. rewrite trim_whitespace_only; [reflexivity|].
      unfold whitespace_only. now rewrite forallb_rev. }
    assert (Ht : is_terminal c = false).
    { simpl in Hm. destruct (is_terminal c); [discriminate|reflexivity]. }
    rewrite matches_from_sentence, Ht.
    pose proof (take_drop_while not_terminal (c :: s)) as E.
    pose proof (take_while_all not_terminal (c :: s)) as Hrun.
    destruct (drop_while not_terminal (c :: s)) as [|p r] eqn:Hd.
    + destruct (sentence_to_end _ Hd) as [-> Htw].
      rewrite firstn_all, skipn_all.
      rewrite <- (app_nil_r (c :: s)) at 2.
      rewrite cut_run by (now rewrite <- Htw).
      simpl cut_after_terminal. simpl List.map.
      change (rev s ++ [c]) with (rev (c :: s)).
      rewrite rev_app_distr, rev_involutive.
      rewrite trim_app_space_l by (now rewrite forallb_rev).
      reflexivity.
    + destruct (sentence_to_mark _ _ _ Hd) as [-> ->].
      pose proof (drop_while_head _ _ _ _ Hd) as Hp.
      rewrite not_terminal_is_terminal in Hp. apply negb_false_iff in Hp.
      set (run := take_while not_terminal (c :: s)) in *.
      set (ws := take_while is_space r).
      assert (Hws : forallb is_space ws = true) by apply take_while_all.
      clearbody run. rewrite <- E.
      rewrite cut_run by exact Hrun.
      rewrite (cut_mark _ _ _ Hp).
      replace (cut_after_terminal [] r)
        with (cut_after_terminal (rev ws ++ []) (drop_while is_space r)).
      2:{ rewrite <- cut_run by (now apply forallb_space_not_terminal).
          unfold ws. now rewrite take_drop_while. }
      rewrite !map_cons.
      assert (T1 : trim (run ++ [p] ++ ws) = trim (run ++ [p])).
      { rewrite (app_assoc run [p] ws).
        apply (trim_app_space_r (run ++ [p]) ws Hws). }
      assert (T2 : trim (rev (p :: rev run ++ cur)) = trim (run ++ [p])).
      { change (rev (p :: rev run ++ cur)) with (rev (rev run ++ cur) ++ [p]).
        rewrite rev_app_distr, rev_involutive, <- app_assoc.
        apply (trim_app_space_l (rev cur) (run ++ [p])).
        now rewrite forallb_rev. }
      rewrite T1, T2.
      simpl List.filter.
      destruct (0 <? List.length (trim (run ++ [p]))); [f_equal|];
        apply IH.
      all: try (rewrite app_nil_r; now rewrite forallb_rev).
      all: try (pose proof (skipn_sentence_shorter c s Ht) as L;
                rewrite (proj2 (sentence_to_mark _ _ _ Hd)) in L; lia).
      all: rewrite <- E in Hm;
           apply (marks_after_run run false p r Hrun Hp) in Hm;
           rewrite <- (take_drop_while is_space r) in Hm;
           now rewrite marks_after_space in Hm by apply take_while_all.
Qed.

Lemma no_terminal_run (t : jsstring) :
  existsb is_terminal t = false -> forallb not_terminal t = true.
Proof.
  induction t as [|c t IH]; simpl; [reflexivity|].
  rewrite not_terminal_is_terminal.
  destruct (is_terminal c); simpl; [discriminate|exact IH].
Qed.

(** With no terminal mark, the trimmed text is the one chunk. *)
Lemma split_no_terminal (t : jsstring) :
  trimmed t = true -> existsb is_terminal t = false ->
  splitIntoSentences t = [trim t].
Proof.
  intros Htr Hno. destruct t as [|c s]; [reflexivity|].
  pose proof (no_terminal_run _ Hno) as Hrun.
  pose proof (drop_while_all _ _ Hrun) as Hd.
  unfold splitIntoSentences, match_all.
  assert (Ht : is_terminal c = false).
  { simpl in Hno. now apply orb_false_iff in Hno. }
  rewrite matches_from_sentence, Ht.
  destruct (sentence_to_end _ Hd) as [-> _].
  rewrite firstn_all, skipn_all. simpl List.map.
  rewrite (trimmed_trim _ Htr). reflexivity.
Qed.

(** Where every mark follows a word, the chunks are those of the
    specification. *)
Lemma split_is_chunking (t : jsstring) :
  trimmed t = true -> marks_follow_text false t = true ->
  splitIntoSentences t = chunking t.
Proof.
  intros Htr Hm. unfold chunking.
  destruct (existsb is_terminal t) eqn:Hex.
  - unfold splitIntoSentences, match_all.
    destruct t as [|c s]; [discriminate|].
    assert (Ht : is_terminal c = false).
    { simpl in Hm. destruct (is_terminal c); [discriminate|reflexivity]. }
    pose proof (split_as_cut (List.length (c :: s)) (c :: s) (le_n _) []
                  eq_refl Hm) as H.
    rewrite matches_from_sentence, Ht in H |- *. exact H.
  - now apply split_no_terminal.
Qed.

End ChunkingFacts.

(* ================================================================== *)
(** * The playback controller *)
(* ================================================================== *)

Section PlaybackFacts.

Lemma processTextForSpeech_ends_clean raw :
  ends_clean (processTextForSpeech raw) = true.
Proof.
  unfold processTextForSpeech. apply trimmed_ends_clean, trim_trimmed.
Qed.

(** Preprocessed text always yields a first chunk. *)
Lemma chunks_of_processed raw :
  exists chunk chunks,
    splitIntoSentences (processTextForSpeech raw) = chunk :: chunks.
Proof.
  pose proof (splitIntoSentences_nonempty _ (processTextForSpeech_ends_clean raw)) as H.
  destruct (splitIntoSentences (processTextForSpeech raw)) as [|c l];
    [now elim H | eauto].
Qed.

Lemma ready_parts h :
  ready h = true ->
  synthesisRef h = true /\ exists v, selectedVoiceRef h = Some v.
Proof.
  unfold ready. intros H.
  repeat (apply andb_true_iff in H; destruct H as [H ?]).
  split; [assumption|].
  destruct (selectedVoiceRef h) as [v|]; [eauto|discriminate].
Qed.

(** A call of [speak] on a ready hook with no timer pending, the
    settle delay, and the timer: the new session is built from the
    text and its first chunk goes to the device. *)
Lemma speak_starts_session (w : world) (text : jsstring) :
  ready (hk w) = true -> blank text = false -> timers w = [] ->
  exists w2 chunk chunks,
    run [Call_speak text; Elapse 100; Timer] w = Some w2
    /\ splitIntoSentences (processTextForSpeech text) = chunk :: chunks
    /\ isCancellingRef (hk w2) = false
    /\ isSpeaking (hk w2) = true
    /\ currentUtteranceIndexRef (hk w2) = 0
    /\ utteranceQueueRef (hk w2)
       = make_utterance (selectedVoiceRef (hk w)) (AUDIBLE_PREFIX ++ chunk)
         :: List.map (make_utterance (selectedVoiceRef (hk w))) chunks
    /\ device w2
       = device w ++ [DevCancel;
                      DevSpeak (make_utterance (selectedVoiceRef (hk w))
                                  (AUDIBLE_PREFIX ++ chunk))]
    /\ timers w2 = [].
Proof.
  intros Hready Hblank Htimers.
  destruct (chunks_of_processed text) as [chunk [chunks Hc]].
  destruct (ready_parts _ Hready) as [Hsyn [v Hv]].
  destruct w as [h t0 ts dev infl]. simpl in *. subst ts.
  eexists. exists chunk, chunks.
  unfold run, step, speak. cbn [hk now timers device inflight].
  rewrite Hblank, Hready. cbn [negb].
  unfold setTimeout, synthesis_cancel, set_hook.
  cbn [hk now timers device inflight app next_timer].
  rewrite Nat.ltb_irrefl.
  cbn [hk now timers device inflight app next_timer].
  rewrite Nat.leb_refl.
  unfold run_callback, settle_then_start, set_hook.
  cbn [hk now timers device inflight].
  rewrite Hc.
  unfold speakNextChunk, set_hook.
  destruct h as [sp su syn sel ini vl q idx canc].
  cbn in Hsyn, Hv |- *. subst syn sel.
  cbn. split; [reflexivity|]. cbn. rewrite <- app_assoc.
  repeat split; reflexivity.
Qed.

End PlaybackFacts.

(* ================================================================== *)
(** * The claims on the playback controller *)
(* ================================================================== *)

(** C1 (code defect).  [speak("A.")] followed 10 ms later by
    [speak("B.")], before anything of A was said: the settle timer of
    the superseded call is neither cleared nor guarded by the
    cancellation flag.  When it fires it clears the flag, builds A's
    queue and hands A's chunk to the device, after the cancel issued by
    [speak("B.")]; B's chunk is queued behind it, so the device
    vocalizes both; and when it reports the end of A's chunk, the flag
    being clear, the handler advances the cursor of B's session. *)
Theorem C1_superseded_settle_timer_speaks (v : voice) :
  exists w w',
    run [Call_speak (lit "A."); Elapse 10; Call_speak (lit "B."); Elapse 90; Timer]
        (idle_world v) = Some w
    /\ device w
       = [DevCancel; DevCancel;
          DevSpeak (make_utterance (Some v) (AUDIBLE_PREFIX ++ lit "A."))]
    /\ isCancellingRef (hk w) = false
    /\ run [Elapse 10; Timer; Dev_end] w = Some w'
    /\ spoken_after_cancel (device w') []
       = [AUDIBLE_PREFIX ++ lit "A."; AUDIBLE_PREFIX ++ lit "B."]
    /\ List.map text (utteranceQueueRef (hk w')) = [AUDIBLE_PREFIX ++ lit "B."]
    /\ currentUtteranceIndexRef (hk w') = 1.
Proof.
  eexists. eexists. split; [vm_compute; reflexivity|].
  split; [reflexivity|]. split; [reflexivity|].
  split; [vm_compute; reflexivity|].
  repeat split; reflexivity.
Qed.

(** C10 (amended).  A string that does not end with white space, and
    so every string [processTextForSpeech] returns, yields at least one
    chunk; where the sentence pattern finds no match the string itself
    is the one chunk, untrimmed and unfiltered, the empty string
    included.  A text that is not blank and that preprocessing reduces
    to the empty string, such as three asterisks, gives a session of
    one chunk, the empty one, which goes to the device under the
    audible prefix. *)
Theorem C10_at_least_one_chunk :
  (forall s, ends_clean s = true -> 1 <= List.length (splitIntoSentences s))
  /\ (forall raw, 1 <= List.length (splitIntoSentences (processTextForSpeech raw)))
  /\ (forall s, match_all re_sentence s = None -> splitIntoSentences s = [s])
  /\ splitIntoSentences [] = [[]]
  /\ (forall w text,
        ready (hk w) = true -> blank text = false -> timers w = [] ->
        processTextForSpeech text = [] ->
        exists w2,
          run [Call_speak text; Elapse 100; Timer] w = Some w2
          /\ utteranceQueueRef (hk w2)
             = [make_utterance (selectedVoiceRef (hk w)) (AUDIBLE_PREFIX ++ [])]
          /\ device w2
             = device w ++ [DevCancel;
                            DevSpeak (make_utterance (selectedVoiceRef (hk w))
                                        (AUDIBLE_PREFIX ++ []))])
  /\ blank (lit "***") = false
  /\ processTextForSpeech (lit "***") = [].
Proof.
  assert (A : forall s, ends_clean s = true ->
                        1 <= List.length (splitIntoSentences s)).
  { intros s H. pose proof (splitIntoSentences_nonempty s H) as Hne.
    destruct (splitIntoSentences s); [now elim Hne | simpl; lia]. }
  split; [exact A|].
  split; [intros raw; apply A, processTextForSpeech_ends_clean|].
  split; [intros s H; unfold splitIntoSentences; now rewrite H|].
  split; [reflexivity|].
  split; [|split; reflexivity].
  intros w text Hready Hblank Hts Hempty.
  destruct (speak_starts_session w text Hready Hblank Hts)
    as [w2 [chunk [chunks [H1 [H2 [_ [_ [_ [H6 [H7 _]]]]]]]]]].
  rewrite Hempty in H2. injection H2 as <- <-.
  exists w2. repeat split; assumption.
Qed.

Lemma C10_at_least_one_chunk_witness :
  1 <= List.length (splitIntoSentences (lit "One. Two."))
  /\ exists w2,
       run [Call_speak (lit "***"); Elapse 100; Timer] (idle_world google_fr)
       = Some w2
       /\ List.map text (utteranceQueueRef (hk w2)) = [AUDIBLE_PREFIX].
Proof.
  destruct C10_at_least_one_chunk as [A [_ [_ [_ [B _]]]]].
  split; [apply A; reflexivity|].
  destruct (B (idle_world google_fr) (lit "***") eq_refl eq_refl eq_refl eq_refl)
    as [w2 [H1 [H2 _]]].
  exists w2. split; [exact H1|]. rewrite H2. reflexivity.
Defined.

(** C10, as stated, fails on a string of white space: the one match is
    trimmed to nothing and filtered out, and no chunk is left. *)
Lemma C10_blank_string_gives_no_chunk :
  splitIntoSentences (lit " ") = [].
Proof. reflexivity. Qed.

(* ================================================================== *)
(** * The claims on chunking *)
(* ================================================================== *)

(** C6 (amended).  On a trimmed text in which every terminal mark has,
    since the mark before it or the start of the text, a code unit
    that is neither a mark nor white space, the chunks are those of
    the specification: the text cut after every mark, the mark kept
    with what precedes it, the segments trimmed and the empty ones
    dropped.  A trimmed text with no mark yields the one chunk equal
    to the trimmed text, and the sample text yields its three
    sentences. *)
Theorem C6_chunks_of_well_punctuated_text :
  (forall t, trimmed t = true -> marks_follow_text false t = true ->
             splitIntoSentences t = chunking t)
  /\ (forall t, trimmed t = true -> existsb is_terminal t = false ->
                splitIntoSentences t = [trim t])
  /\ splitIntoSentences (lit "Hello world. How are you? Fine!")
     = [lit "Hello world."; lit "How are you?"; lit "Fine!"].
Proof.
  split; [exact split_is_chunking|].
  split; [exact split_no_terminal|].
  reflexivity.
Qed.

Lemma C6_chunks_of_well_punctuated_text_witness :
  splitIntoSentences (lit "Bonjour ! Vous allez bien ? Oui.")
  = chunking (lit "Bonjour ! Vous allez bien ? Oui.")
  /\ splitIntoSentences (lit "no mark here") = [trim (lit "no mark here")].
Proof.
  destruct C6_chunks_of_well_punctuated_text as [A [B _]].
  split.
  - apply A; reflexivity.
  - apply B; reflexivity.
Defined.

(** C6, as stated, fails where a mark follows another mark: the second
    one is neither kept with the preceding segment nor in a chunk of
    its own; it belongs to no chunk at all. *)
Lemma C6_second_mark_is_lost :
  trimmed (lit "Hi!!") = true
  /\ processTextForSpeech (lit "Hi!!") = lit "Hi!!"
  /\ splitIntoSentences (lit "Hi!!") = [lit "Hi!"]
  /\ chunking (lit "Hi!!") = [lit "Hi!"; lit "!"]
  /\ concat (splitIntoSentences (lit "Hi!!")) <> lit "Hi!!".
Proof.
  repeat split; try reflexivity. discriminate.
Qed.

(* ================================================================== *)
(** * The claims on the shape of the response *)
(* ================================================================== *)

(** C2.  On a text that parses as a JSON object, [formatResponseText]
    returns the cleaning of the first candidate, in the order output,
    response, message, text, content, result, answer, data,
    data.response, data.message, data.text, that holds a string.  So
    it does on every text that parses to an object with the one field
    response, the JSON text of such an object for one; and of output
    and response, output wins. *)
Theorem C2_first_string_candidate_wins (E : Engine) :
  (forall text ms s,
     JSON.parse text = Normal (Object ms) ->
     first_match ms candidates = Some s ->
     formatResponseText E text = Normal (cleanHtmlAndFormatText s))
  /\ (forall text s,
        JSON.parse text = Normal (Object [(lit "response", String_ s)]) ->
        formatResponseText E text = Normal (cleanHtmlAndFormatText s))
  /\ (forall s,
        forallb code_unit s = true ->
        formatResponseText E (response_json s)
        = Normal (cleanHtmlAndFormatText s))
  /\ formatResponseText E (litq "{'output': 'A', 'response': 'B'}")
     = Normal (cleanHtmlAndFormatText (lit "A")).
Proof.
  assert (A : forall text ms s,
             JSON.parse text = Normal (Object ms) ->
             first_match ms candidates = Some s ->
             formatResponseText E text = Normal (cleanHtmlAndFormatText s)).
  { intros text ms s Hp Hm.
    rewrite (formatResponseText_object E _ _ Hp), Hm. reflexivity. }
  split; [exact A|]. split; [|split].
  - intros text s Hp. apply (A _ _ _ Hp). reflexivity.
  - intros s Hs. apply (A _ _ _ (parse_response_json s Hs)). reflexivity.
  - apply (A _ [(lit "output", String_ (lit "A"));
                (lit "response", String_ (lit "B"))]); reflexivity.
Qed.

Lemma C2_first_string_candidate_wins_witness :
  formatResponseText small_integers
    (litq "{'status': 200, 'data': {'message': 'Hi'}, 'text': 'Hello'}")
  = Normal (cleanHtmlAndFormatText (lit "Hello"))
  /\ formatResponseText small_integers (litq " {'response' : 'Bonjour'} ")
     = Normal (cleanHtmlAndFormatText (lit "Bonjour"))
  /\ formatResponseText small_integers (response_json (litq "dit: 'oui'"))
     = Normal (cleanHtmlAndFormatText (litq "dit: 'oui'")).
Proof.
  destruct (C2_first_string_candidate_wins small_integers) as [A [B [C _]]].
  split; [|split].
  - apply (A _ [(lit "status", Number (lit "200"));
                (lit "data", Object [(lit "message", String_ (lit "Hi"))]);
                (lit "text", String_ (lit "Hello"))]); reflexivity.
  - apply B. reflexivity.
  - apply C. reflexivity.
Defined.

(** C3.  [formatResponseText] returns a string on every input and
    never throws; once the text is parsed, not even the body of its
    try block does.  On a text [JSON.parse] rejects, and on a text that
    does not start like JSON, it is the cleaning of the text; on an
    object of unknown shape, with no candidate and no string longer
    than 20 code units, it is the labelled rendering of the object; on
    an array it is the cleaning of its first element when that is a
    string, of its first long string otherwise, or the labelled
    rendering. *)
Theorem C3_formatResponseText_total (E : Engine) :
  (forall text, exists s, formatResponseText E text = Normal s)
  /\ (forall text v,
        JSON.parse text = Normal v -> exists r, try_body E text = Normal r)
  /\ (forall text e,
        JSON.parse text = Throw e ->
        formatResponseText E text = Normal (cleanHtmlAndFormatText text))
  /\ (forall text,
        startsWith (trim text) (lit "{") = false ->
        startsWith (trim text) (lit "[") = false ->
        formatResponseText E text = Normal (cleanHtmlAndFormatText text))
  /\ (forall text ms,
        JSON.parse text = Normal (Object ms) ->
        first_match ms candidates = None ->
        first_long_string (List.map snd ms) = None ->
        formatResponseText E text
        = Normal (lit "Response: "
                  ++ cleanHtmlAndFormatText
                       (stringify (number_toString E) (Object ms))))
  /\ (forall text l,
        JSON.parse text = Normal (Array l) ->
        formatResponseText E text =
        Normal
          match l with
          | String_ s :: _ => cleanHtmlAndFormatText s
          | _ =>
              match first_long_string l with
              | Some s => cleanHtmlAndFormatText s
              | None => lit "Response: "
                        ++ cleanHtmlAndFormatText
                             (stringify (number_toString E) (Array l))
              end
          end).
Proof.
  split; [apply formatResponseText_returns|].
  split; [apply try_body_returns|].
  split; [apply formatResponseText_parse_failure|].
  split; [apply formatResponseText_plain|].
  split; [|apply formatResponseText_array].
  intros text ms Hp Hm Hl.
  rewrite (formatResponseText_object E _ _ Hp), Hm, Hl. reflexivity.
Qed.

Lemma C3_formatResponseText_total_witness :
  formatResponseText small_integers (litq "{'output': 'Hello")
  = Normal (cleanHtmlAndFormatText (litq "{'output': 'Hello"))
  /\ formatResponseText small_integers (lit "just text")
     = Normal (cleanHtmlAndFormatText (lit "just text"))
  /\ formatResponseText small_integers (litq "{'code': 7, 'tags': ['a']}")
     = Normal (lit "Response: "
               ++ cleanHtmlAndFormatText (litq "{'code':7,'tags':['a']}"))
  /\ formatResponseText small_integers (litq "[1, 'two']")
     = Normal (lit "Response: " ++ cleanHtmlAndFormatText (litq "[1,'two']")).
Proof.
  destruct (C3_formatResponseText_total small_integers) as [_ [_ [A [B [C D]]]]].
  split; [apply (A _ SyntaxError); reflexivity|].
  split; [apply B; reflexivity|].
  split.
  - apply (C _ [(lit "code", Number (lit "7"));
                (lit "tags", Array [String_ (lit "a")])]); reflexivity.
  - apply (D _ [Number (lit "1"); String_ (lit "two")]). reflexivity.
Defined.

(** C4.  On a body that is empty or made of white space only, the
    formatter answers the fixed notice, which is not the empty
    string. *)
Theorem C4_blank_body_gives_notice (E : Engine) (raw : jsstring) :
  whitespace_only raw = true ->
  format E raw = Normal empty_response_notice /\ empty_response_notice <> [].
Proof.
  intros H. split; [|discriminate].
  unfold format, sendMessageToWebhook. cbn [ok body negb try_catch].
  rewrite (trim_whitespace_only _ H). cbn.
  destruct raw; reflexivity.
Qed.

Lemma C4_blank_body_gives_notice_witness :
  format small_integers [32; 10; 9; 160]%N = Normal empty_response_notice
  /\ empty_response_notice <> [].
Proof.
  apply (C4_blank_body_gives_notice small_integers [32; 10; 9; 160]%N).
  reflexivity.
Defined.

(* ================================================================== *)
(** * Cleaning leaves clean text alone *)
(* ================================================================== *)

Section CleanTextFacts.

Lemma occurs_false_replace (r : regex) f (s : jsstring) :
  occurs r s = false -> replace_all r f s = s.
Proof.
  unfold occurs. destruct (search r 0 s) eqn:H; [discriminate|].
  intros _. eapply replace_all_no_match; eauto.
Qed.

Lemma replace_chain_id (rules : list (regex * jsstring)) (s : jsstring) :
  forallb (fun r => negb (occurs r s)) (List.map fst rules) = true ->
  replace_chain rules s = s.
Proof.
  unfold replace_chain.
  induction rules as [|[r t] rules IH]; simpl; [reflexivity|].
  intros H. apply andb_true_iff in H. destruct H as [H1 H2].
  apply negb_true_iff in H1.
  rewrite (occurs_false_replace _ _ _ H1). now apply IH.
Qed.

Lemma match_here_newlines3 (s : jsstring) :
  match_here re_newlines3 s =
  if 3 <=? List.length (take_while is_lf s)
  then Some (List.length (take_while is_lf s), None)
  else None.
Proof.
  unfold match_here, re_newlines3. simpl m.
  change (cls_mem (CChar LF)) with is_lf.
  destruct (Nat.leb_spec 3 (List.length (take_while is_lf s))) as [H|H].
  - apply rep_greedy_longest; [exact H|reflexivity].
  - apply rep_greedy_short. exact H.
Qed.

Lemma lf_runs_tail run c s :
  lf_runs_below3 run (c :: s) = true ->
  exists run', lf_runs_below3 run' s = true.
Proof.
  simpl. destruct (c =? LF)%N.
  - intros H. apply andb_true_iff in H. destruct H as [_ H]. eauto.
  - eauto.
Qed.

Lemma lf_runs_three run s :
  3 <= List.length (take_while is_lf s) -> lf_runs_below3 run s = false.
Proof.
  intros H.
  destruct s as [|a s]; [simpl in H; lia|].
  simpl in H |- *. unfold is_lf in H at 1.
  destruct (a =? LF)%N; [|simpl in H; lia].
  destruct s as [|b s]; [simpl in H; lia|].
  simpl in H |- *. unfold is_lf in H at 1.
  destruct (b =? LF)%N; [|simpl in H; lia].
  destruct s as [|c s]; [simpl in H; lia|].
  simpl in H |- *. unfold is_lf in H at 1.
  destruct (c =? LF)%N; [|simpl in H; lia].
  destruct run as [|[|run]]; reflexivity.
Qed.

Lemma lf_runs_no_match :
  forall s run i, lf_runs_below3 run s = true -> search re_newlines3 i s = None.
Proof.
  induction s as [|c s IH]; intros run i H.
  - reflexivity.
  - simpl search. rewrite match_here_newlines3.
    destruct (Nat.leb_spec 3 (List.length (take_while is_lf (c :: s)))) as [L|L].
    + rewrite (lf_runs_three run _ L) in H. discriminate.
    + destruct (lf_runs_tail _ _ _ H) as [run' H']. eapply IH; eauto.
Qed.

Lemma lf_runs_collapse (s : jsstring) :
  lf_runs_below3 0 s = true -> collapse_newlines s = s.
Proof.
  intros H. unfold collapse_newlines.
  apply (replace_all_no_match _ _ s 0). exact (lf_runs_no_match s 0 0 H).
Qed.

Lemma format_nonblank (E : Engine) (x : jsstring) :
  nonempty x = true -> trimmed x = true ->
  format E x = formatResponseText E x.
Proof.
  intros Hne Htr. unfold format, sendMessageToWebhook.
  cbn [ok body negb].
  rewrite (trimmed_trim _ Htr).
  destruct x as [|c x]; [discriminate|]. cbn.
  destruct (formatResponseText E (c :: x)); reflexivity.
Qed.

End CleanTextFacts.

(* ================================================================== *)
(** * The output field of broken JSON *)
(* ================================================================== *)

Section OutputFacts.

Lemma match_here_output_prefix (s : jsstring) n cap :
  match_here re_output s = Some (n, cap) ->
  startsWith s (litq "'output'") = true.
Proof.
  unfold match_here, re_output. cbn [litq lit List.map list_ascii_of_string str m].
  intros H.
  repeat (destruct s as [|?c s]; [discriminate|];
          cbn [cls_mem] in H;
          match type of H with
          | (if (?a =? ?b)%N then _ else _) = _ =>
              destruct (N.eqb_spec a b) as [->|]; [|discriminate]
          end).
  reflexivity.
Qed.

Lemma search_output_includes :
  forall s i r, search re_output i s = Some r ->
                includes s (litq "'output'") = true.
Proof.
  induction s as [|c s IH]; intros i r H.
  - simpl in H. destruct (match_here re_output []) as [[n cap]|] eqn:E;
      [|discriminate].
    apply match_here_output_prefix in E. discriminate.
  - simpl search in H.
    destruct (match_here re_output (c :: s)) as [[n cap]|] eqn:E.
    + apply match_here_output_prefix in E.
      change (includes (c :: s) (litq "'output'"))
        with (startsWith (c :: s) (litq "'output'")
              || includes s (litq "'output'")).
      now rewrite E.
    + apply IH in H.
      change (includes (c :: s) (litq "'output'"))
        with (startsWith (c :: s) (litq "'output'")
              || includes s (litq "'output'")).
      rewrite H. apply orb_true_r.
Qed.

End OutputFacts.

(* ================================================================== *)
(** * Sub-sequences *)
(* ================================================================== *)

Section SubseqFacts.

Lemma subseq_refl (s : jsstring) : subseq s s.
Proof. induction s; constructor; assumption. Qed.

Lemma subseq_nil_l (s : jsstring) : subseq [] s.
Proof. induction s; constructor; assumption. Qed.

Lemma subseq_app a1 b1 a2 b2 :
  subseq a1 b1 -> subseq a2 b2 -> subseq (a1 ++ a2) (b1 ++ b2).
Proof. induction 1; intros; simpl; try constructor; auto. Qed.

Lemma subseq_trans a b c : subseq a b -> subseq b c -> subseq a c.
Proof.
  intros Hab Hbc. revert a Hab.
  induction Hbc as [|x b c Hbc IH|x b c Hbc IH]; intros a Hab.
  - exact Hab.
  - inversion Hab; subst; constructor; auto.
  - constructor. auto.
Qed.

Lemma subseq_skipn n (s : jsstring) : subseq (skipn n s) s.
Proof.
  revert s. induction n as [|n IH]; intros s; [apply subseq_refl|].
  destruct s as [|c s]; [constructor|]. simpl. constructor. apply IH.
Qed.

Lemma existsb_subseq (p : N -> bool) a b :
  subseq a b -> existsb p a = true -> existsb p b = true.
Proof.
  induction 1 as [|c a b H IH|c a b H IH]; simpl; intros E.
  - exact E.
  - apply orb_true_iff in E. apply orb_true_iff. tauto.
  - rewrite IH by exact E. apply orb_true_r.
Qed.

Lemma has_tag_subseq a b : subseq a b -> has_tag a = true -> has_tag b = true.
Proof.
  induction 1 as [|c a b H IH|c a b H IH]; simpl; intros E.
  - exact E.
  - apply orb_true_iff in E. destruct E as [E|E].
    + apply andb_true_iff in E. destruct E as [E1 E2].
      rewrite E1, (existsb_subseq _ _ _ H E2). reflexivity.
    + rewrite IH by exact E. apply orb_true_r.
  - rewrite IH by exact E. apply orb_true_r.
Qed.

Lemma lf_runs_mono s :
  forall run run', run' <= run ->
                   lf_runs_below3 run s = true -> lf_runs_below3 run' s = true.
Proof.
  induction s as [|c s IH]; intros run run' L; simpl; [auto|].
  destruct (c =? LF)%N; [|auto].
  intros H. apply andb_true_iff in H. destruct H as [H1 H2].
  apply Nat.ltb_lt in H1. apply andb_true_iff. split.
  - apply Nat.ltb_lt. lia.
  - apply (IH (S run)); [lia|exact H2].
Qed.

Lemma lf_runs_app_l a : forall run b,
  lf_runs_below3 run (a ++ b) = true -> lf_runs_below3 run a = true.
Proof.
  induction a as [|c a IH]; intros run b; simpl; [auto|].
  destruct (c =? LF)%N; [|apply IH].
  intros H. apply andb_true_iff in H. destruct H as [H1 H2].
  rewrite H1. simpl. eapply IH; eauto.
Qed.

Lemma lf_runs_app_r a : forall run b,
  lf_runs_below3 run (a ++ b) = true -> lf_runs_below3 0 b = true.
Proof.
  induction a as [|c a IH]; intros run b; simpl.
  - apply lf_runs_mono. lia.
  - destruct (c =? LF)%N; [|apply IH].
    intros H. apply andb_true_iff in H. destruct H as [_ H2].
    eapply IH; eauto.
Qed.

(** ** Within a line *)

Lemma line_subseq_subseq a b : line_subseq a b -> subseq a b.
Proof. induction 1; constructor; assumption. Qed.

Lemma line_subseq_refl (s : jsstring) : line_subseq s s.
Proof. induction s; constructor; assumption. Qed.

Lemma line_subseq_nil_l (s : jsstring) :
  on_one_line s = true -> line_subseq [] s.
Proof.
  induction s as [|c s IH]; simpl; intros H; [constructor|].
  apply andb_true_iff in H. destruct H as [H1 H2].
  apply negb_true_iff in H1. constructor; auto.
Qed.

Lemma line_subseq_app a1 b1 a2 b2 :
  line_subseq a1 b1 -> line_subseq a2 b2 -> line_subseq (a1 ++ a2) (b1 ++ b2).
Proof. induction 1; intros; simpl; try constructor; auto. Qed.

Lemma line_subseq_trans a b c :
  line_subseq a b -> line_subseq b c -> line_subseq a c.
Proof.
  intros Hab Hbc. revert a Hab.
  induction Hbc as [|x b c Hbc IH|x b c Hx Hbc IH]; intros a Hab.
  - exact Hab.
  - inversion Hab; subst; constructor; auto.
  - constructor; auto.
Qed.

Lemma on_one_line_firstn n (s : jsstring) :
  on_one_line s = true -> on_one_line (firstn n s) = true.
Proof.
  unfold on_one_line. rewrite <- (firstn_skipn n s) at 1.
  rewrite forallb_app. intros H. apply andb_true_iff in H. tauto.
Qed.

Lemma on_one_line_skipn n (s : jsstring) :
  on_one_line s = true -> on_one_line (skipn n s) = true.
Proof.
  unfold on_one_line. rewrite <- (firstn_skipn n s) at 1.
  rewrite forallb_app. intros H. apply andb_true_iff in H. tauto.
Qed.

Lemma line_subseq_firstn n (s : jsstring) :
  on_one_line s = true -> line_subseq (firstn n s) s.
Proof.
  intros H. rewrite <- (firstn_skipn n s) at 2.
  rewrite <- (app_nil_r (firstn n s)) at 1.
  apply line_subseq_app; [apply line_subseq_refl|].
  apply line_subseq_nil_l. now apply on_one_line_skipn.
Qed.

Lemma line_subseq_skipn n (s : jsstring) :
  on_one_line s = true -> line_subseq (skipn n s) s.
Proof.
  intros H. rewrite <- (firstn_skipn n s) at 2.
  change (skipn n s) with ([] ++ skipn n s) at 1.
  apply line_subseq_app; [|apply line_subseq_refl].
  apply line_subseq_nil_l. now apply on_one_line_firstn.
Qed.

(** A piece of a match that lies on one line. *)
Lemma line_subseq_piece (t : jsstring) i j m :
  i + j <= m -> on_one_line (firstn m t) = true ->
  line_subseq (firstn j (skipn i t)) (firstn m t).
Proof.
  intros L H.
  rewrite firstn_skipn_comm.
  replace (firstn (i + j) t) with (firstn (i + j) (firstn m t))
    by (rewrite firstn_firstn; f_equal; lia).
  eapply line_subseq_trans.
  - apply line_subseq_skipn. now apply on_one_line_firstn.
  - now apply line_subseq_firstn.
Qed.

(** ** Pairs of a marker *)

Lemma has_pair_seen x s :
  forall seen, has_pair x seen s = true -> has_pair x true s = true.
Proof.
  induction s as [|c s IH]; intros seen; simpl; [auto|].
  destruct (is_line_terminator c); [auto|].
  destruct (c =? x)%N; [reflexivity|]. apply IH.
Qed.

Lemma has_pair_line_subseq x a b :
  line_subseq a b ->
  forall seen, has_pair x seen a = true -> has_pair x seen b = true.
Proof.
  induction 1 as [|c a b H IH|c a b Hc H IH]; intros seen; simpl.
  - auto.
  - destruct (is_line_terminator c); [apply IH|].
    destruct (c =? x)%N; [|apply IH].
    intros E. apply orb_true_iff in E. apply orb_true_iff.
    destruct E as [E|E]; [now left|right; now apply IH].
  - rewrite Hc. intros E. apply IH in E.
    destruct (c =? x)%N; [|exact E].
    apply orb_true_iff. right. eapply has_pair_seen; eauto.
Qed.

Lemma has_pair_app_l x a : forall seen b,
  has_pair x seen a = true -> has_pair x seen (a ++ b) = true.
Proof.
  induction a as [|c a IH]; intros seen b; simpl; [discriminate|].
  destruct (is_line_terminator c); [apply IH|].
  destruct (c =? x)%N; [|apply IH].
  intros E. apply orb_true_iff in E. apply orb_true_iff.
  destruct E as [E|E]; [now left|right; now apply IH].
Qed.

(** White space before a line neither holds nor hides a marker that is
    not white space. *)
Lemma has_pair_space_l x a : forall b,
  is_space x = false -> forallb is_space a = true ->
  has_pair x false (a ++ b) = has_pair x false b.
Proof.
  induction a as [|c a IH]; intros b Hx Ha; simpl; [reflexivity|].
  simpl in Ha. apply andb_true_iff in Ha. destruct Ha as [Hc Ha].
  destruct (is_line_terminator c); [now apply IH|].
  destruct (N.eqb_spec c x) as [->|_]; [congruence|].
  now apply IH.
Qed.

End SubseqFacts.

(* ================================================================== *)
(** * What a global replacement keeps *)
(* ================================================================== *)

Section ReplaceFacts.

(** Induction along the matches of a global replacement. *)
Lemma replace_all_ind (r : regex) (f : option jsstring -> jsstring)
      (P : jsstring -> jsstring -> Prop) :
  P [] (replace_all r f []) ->
  (forall c s,
      match_here r (c :: s) = None ->
      P s (replace_all r f s) -> P (c :: s) (c :: replace_all r f s)) ->
  (forall c s cap,
      match_here r (c :: s) = Some (0, cap) ->
      P s (replace_all r f s) -> P (c :: s) (f cap ++ c :: replace_all r f s)) ->
  (forall c s n cap,
      match_here r (c :: s) = Some (S n, cap) -> n <= List.length s ->
      P (skipn n s) (replace_all r f (skipn n s)) ->
      P (c :: s) (f cap ++ replace_all r f (skipn n s))) ->
  forall s, P s (replace_all r f s).
Proof.
  intros Hnil Hnone Hzero Hsome.
  assert (H : forall n s, List.length s <= n -> P s (replace_all r f s)).
  { induction n as [|n IH]; intros s L.
    - destruct s; [exact Hnil|simpl in L; lia].
    - destruct s as [|c s]; [exact Hnil|]. simpl in L.
      rewrite replace_all_cons.
      destruct (match_here r (c :: s)) as [[[|k] cap]|] eqn:E.
      + apply Hzero; [exact E|]. apply IH. lia.
      + pose proof (proj1 (match_here_sound _ _ _ _ E)) as Lk. simpl in Lk.
        apply Hsome; [exact E|lia|]. apply IH. rewrite length_skipn. lia.
      + apply Hnone; [exact E|]. apply IH. lia. }
  intros s. apply (H (List.length s)). lia.
Qed.

(** Deleting the matches leaves a sub-sequence. *)
Lemma replace_by_nothing_subseq (r : regex) (s : jsstring) :
  subseq (replace_all r (by_str []) s) s.
Proof.
  apply (replace_all_ind r (by_str [])
           (fun s out => subseq out s)).
  - rewrite replace_all_nil. destruct (match_here r []) as [[n cap]|]; constructor.
  - intros. now constructor.
  - intros. simpl. now constructor.
  - intros c s' n cap _ _ IH. simpl. constructor.
    eapply subseq_trans; [exact IH|apply subseq_skipn].
Qed.

Lemma class_on_line_sound k c :
  class_on_line k = true -> cls_mem k c = true -> is_line_terminator c = false.
Proof.
  destruct k; simpl; try discriminate.
  - intros H E. apply N.eqb_eq in E. subst. now apply negb_true_iff in H.
  - intros _ E. now apply negb_true_iff in E.
Qed.

Lemma forallb_class_on_line k w :
  class_on_line k = true -> forallb (cls_mem k) w = true -> on_one_line w = true.
Proof.
  intros Hk. unfold on_one_line. induction w as [|c w IH]; simpl; [auto|].
  intros H. apply andb_true_iff in H. destruct H as [H1 H2].
  rewrite (class_on_line_sound k c Hk H1). simpl. auto.
Qed.

Lemma matches_on_line (r : regex) :
  on_line r = true -> forall w, matches r w -> on_one_line w = true.
Proof.
  induction r as [|k|r1 IH1 r2 IH2|r1 IH1 r2 IH2|g mn k|r1 IH1];
    simpl; intros Hr w Hw.
  - now subst.
  - destruct Hw as [c [-> Hc]]. unfold on_one_line. simpl.
    now rewrite (class_on_line_sound k c Hr Hc).
  - apply andb_true_iff in Hr. destruct Hr as [H1 H2].
    destruct Hw as [w1 [w2 [-> [M1 M2]]]].
    unfold on_one_line. rewrite forallb_app.
    apply andb_true_iff. split; [now apply IH1|now apply IH2].
  - apply andb_true_iff in Hr. destruct Hr as [H1 H2].
    destruct Hw as [M|M]; [now apply IH1|now apply IH2].
  - destruct Hw as [_ Hall]. eapply forallb_class_on_line; eauto.
  - now apply IH1.
Qed.

(** Replacing each match by its group 1: when the pattern stays on one
    line, the result is the text with code units of single lines left
    out. *)
Lemma replace_by_group1_line_subseq (r : regex) (s : jsstring) :
  on_line r = true -> line_subseq (replace_all r by_group1 s) s.
Proof.
  intros Hr.
  assert (Hpiece : forall t n cap,
             match_here r t = Some (n, cap) ->
             line_subseq (by_group1 cap) (firstn n t)).
  { intros t n cap E. apply match_here_sound in E.
    destruct E as [_ [M C]].
    pose proof (matches_on_line r Hr _ M) as Hline.
    destruct C as [->|[i [j [L ->]]]]; simpl.
    - now apply line_subseq_nil_l.
    - now apply line_subseq_piece. }
  apply (replace_all_ind r by_group1 (fun s out => line_subseq out s)).
  - rewrite replace_all_nil.
    destruct (match_here r []) as [[n cap]|] eqn:E; [|constructor].
    apply Hpiece in E. now rewrite firstn_nil in E.
  - intros. now constructor.
  - intros c s' cap E IH. apply Hpiece in E. simpl in E.
    change (c :: s') with ([] ++ c :: s').
    apply line_subseq_app; [exact E|]. now constructor.
  - intros c s' n cap E _ IH. apply Hpiece in E.
    rewrite <- (firstn_skipn (S n) (c :: s')).
    apply line_subseq_app; [exact E|exact IH].
Qed.

Lemma trim_subseq (s : jsstring) : subseq (trim s) s.
Proof.
  destruct (trim_split s) as [a [b [E _]]].
  rewrite E at 2.
  change (trim s) with ([] ++ trim s).
  apply subseq_app; [apply subseq_nil_l|].
  rewrite <- (app_nil_r (trim s)) at 1.
  apply subseq_app; [apply subseq_refl|apply subseq_nil_l].
Qed.

Lemma has_pair_trim x (s : jsstring) :
  is_space x = false ->
  has_pair x false (trim s) = true -> has_pair x false s = true.
Proof.
  intros Hx H. destruct (trim_split s) as [a [b [E [Ha _]]]].
  rewrite E, (has_pair_space_l x a _ Hx Ha).
  now apply has_pair_app_l.
Qed.

Lemma lf_runs_trim (s : jsstring) :
  lf_runs_below3 0 s = true -> lf_runs_below3 0 (trim s) = true.
Proof.
  intros H. destruct (trim_split s) as [a [b [E _]]].
  rewrite E in H. apply lf_runs_app_r in H. now apply lf_runs_app_l in H.
Qed.

End ReplaceFacts.

(* ================================================================== *)
(** * The last HTML pattern leaves no tag *)
(* ================================================================== *)

Section TagFacts.

Lemma find_char_run x (s : jsstring) :
  find_char x s =
  match drop_while (cls_mem (CNoneOf [x])) s with
  | [] => None
  | _ :: _ => Some (List.length (take_while (cls_mem (CNoneOf [x])) s))
  end.
Proof.
  induction s as [|c s IH]; simpl; [reflexivity|].
  destruct (c =? x)%N; simpl; [reflexivity|].
  rewrite IH. destruct (drop_while _ s); reflexivity.
Qed.

Lemma find_char_none x (s : jsstring) :
  find_char x s = None -> existsb (N.eqb x) s = false.
Proof.
  induction s as [|c s IH]; simpl; [reflexivity|].
  rewrite (N.eqb_sym x c). destruct (c =? x)%N; [discriminate|].
  destruct (find_char x s); [discriminate|]. intros _. now apply IH.
Qed.

Lemma match_here_any_tag c (s : jsstring) :
  match_here re_any_tag (c :: s) =
  if (c =? ch "<")%N then
    match find_char (ch ">") s with
    | Some j => Some (S (S j), None)
    | None => None
    end
  else None.
Proof.
  unfold match_here, re_any_tag, Star. cbn [m cls_mem].
  destruct (c =? ch "<")%N; [|reflexivity].
  rewrite rep_greedy_exact.
  - rewrite find_char_run.
    destruct (drop_while (cls_mem (CNoneOf [ch ">"])) s) as [|y t] eqn:E;
      [reflexivity|].
    apply drop_while_head in E. cbn [cls_mem mem] in E.
    rewrite orb_false_r in E. apply negb_false_iff in E. now rewrite E.
  - intros pos y t cap Hy. cbn [cls_mem mem] in Hy.
    rewrite orb_false_r in Hy. apply negb_true_iff in Hy. now rewrite Hy.
  - lia.
Qed.

Lemma any_tag_removed (s : jsstring) :
  has_tag (replace_all re_any_tag (by_str []) s) = false.
Proof.
  apply (replace_all_ind re_any_tag (by_str [])
           (fun s out => has_tag out = false)).
  - reflexivity.
  - intros c s' E IH. simpl. rewrite IH, orb_false_r.
    rewrite match_here_any_tag in E.
    change (ch "<") with 60%N in E. change (ch ">") with 62%N in E.
    destruct (c =? 60)%N; [|reflexivity]. simpl.
    destruct (find_char 62 s') eqn:F; [discriminate|].
    apply find_char_none in F.
    destruct (existsb (N.eqb 62) (replace_all re_any_tag (by_str []) s'))
      eqn:X; [|reflexivity].
    apply (existsb_subseq _ _ _ (replace_by_nothing_subseq re_any_tag s')) in X.
    congruence.
  - intros c s' cap E _. rewrite match_here_any_tag in E.
    destruct (c =? ch "<")%N; [|discriminate].
    destruct (find_char (ch ">") s'); discriminate.
  - intros c s' n cap _ _ IH. exact IH.
Qed.

End TagFacts.

(* ================================================================== *)
(** * The single-marker patterns leave no pair on a line *)
(* ================================================================== *)

Section MarkerFacts.

Lemma rep_lazy_find x (s0 : jsstring) p0 (kt : kont) :
  (forall pos t cap,
      kt pos t cap =
      match t with
      | y :: _ => if (y =? x)%N
                  then Some (S pos, Some (firstn (pos - p0) s0)) else None
      | [] => None
      end) ->
  forall s pos cap,
    rep_lazy CDot kt 0 pos s cap =
    match find_on_line x s with
    | Some j => Some (S (pos + j), Some (firstn (pos + j - p0) s0))
    | None => None
    end.
Proof.
  intros Hk. induction s as [|c s IH]; intros pos cap; simpl.
  - now rewrite Hk.
  - rewrite Hk. destruct (c =? x)%N.
    + now rewrite Nat.add_0_r.
    + cbn [cls_mem]. destruct (is_line_terminator c); simpl; [reflexivity|].
      rewrite IH. destruct (find_on_line x s) as [j|]; cbn [option_map];
        [|reflexivity].
      now replace (S pos + j) with (pos + S j) by lia.
Qed.

Lemma match_here_marker x c (s : jsstring) :
  match_here (marker x) (c :: s) =
  if (c =? x)%N then
    match find_on_line x s with
    | Some j => Some (S (S j), Some (firstn j s))
    | None => None
    end
  else None.
Proof.
  unfold match_here, marker, LazyStar. cbn [str m cls_mem].
  destruct (c =? x)%N; [|reflexivity].
  rewrite (rep_lazy_find x s 1).
  - destruct (find_on_line x s) as [j|]; [|reflexivity].
    now replace (1 + j - 1) with j by lia.
  - intros pos t cap. destruct t as [|y t]; [reflexivity|].
    destruct (y =? x)%N; reflexivity.
Qed.

Lemma match_here_marker_nil x : match_here (marker x) [] = None.
Proof. reflexivity. Qed.

Lemma find_on_line_prefix x : forall (s : jsstring) j,
  find_on_line x s = Some j ->
  forall seen r, has_pair x seen (firstn j s ++ r) = has_pair x seen r.
Proof.
  induction s as [|c s IH]; intros j; simpl; [discriminate|].
  destruct (c =? x)%N eqn:Hc; [now intros [= <-]|].
  destruct (is_line_terminator c) eqn:Ht; [discriminate|].
  destruct (find_on_line x s) as [k|] eqn:F; [|discriminate].
  intros [= <-] seen r. simpl. rewrite Ht, Hc. now apply IH.
Qed.

Lemma marker_pairs_removed x (s : jsstring) :
  is_line_terminator x = false ->
  forall seen, (seen = true -> find_on_line x s = None) ->
               has_pair x seen (replace_all (marker x) by_group1 s) = false.
Proof.
  intros Hx.
  apply (replace_all_ind (marker x) by_group1
           (fun s out => forall seen,
                (seen = true -> find_on_line x s = None) ->
                has_pair x seen out = false)).
  - intros seen _. reflexivity.
  - intros c s' E IH seen Hseen. rewrite match_here_marker in E.
    simpl. simpl in Hseen.
    destruct (is_line_terminator c) eqn:Ht.
    + apply IH. discriminate.
    + destruct (c =? x)%N eqn:Hc.
      * destruct seen; [now specialize (Hseen eq_refl)|].
        simpl. apply IH. intros _.
        destruct (find_on_line x s'); [discriminate|reflexivity].
      * apply IH. intros Hs. specialize (Hseen Hs).
        destruct (find_on_line x s'); [discriminate|reflexivity].
  - intros c s' cap E _. rewrite match_here_marker in E.
    destruct (c =? x)%N; [|discriminate].
    destruct (find_on_line x s'); discriminate.
  - intros c s' n cap E _ IH seen Hseen. rewrite match_here_marker in E.
    simpl in Hseen.
    destruct (c =? x)%N eqn:Hc; [|discriminate].
    destruct seen; [now specialize (Hseen eq_refl)|].
    destruct (find_on_line x s') as [j|] eqn:F; [|discriminate].
    injection E as <- <-. simpl by_group1.
    rewrite (find_on_line_prefix x s' j F).
    apply IH. discriminate.
Qed.

End MarkerFacts.

(* ================================================================== *)
(** * Collapsing the line feeds *)
(* ================================================================== *)

Section NewlineFacts.

Lemma skipn_take_while (p : N -> bool) (s : jsstring) :
  skipn (List.length (take_while p s)) s = drop_while p s.
Proof.
  induction s as [|c s IH]; simpl; [reflexivity|].
  destruct (p c); simpl; [exact IH|reflexivity].
Qed.

Lemma take_while_drop_while (p : N -> bool) (s : jsstring) :
  take_while p (drop_while p s) = [].
Proof.
  induction s as [|c s IH]; simpl; [reflexivity|].
  destruct (p c) eqn:E; [exact IH|]. simpl. now rewrite E.
Qed.

Lemma newlines3_not_empty (t : jsstring) cap :
  match_here re_newlines3 t <> Some (0, cap).
Proof.
  rewrite match_here_newlines3.
  destruct (Nat.leb_spec 3 (List.length (take_while is_lf t))) as [L|L];
    [|discriminate].
  intros [= E _]. lia.
Qed.

Lemma collapse_step c (s : jsstring) n cap :
  match_here re_newlines3 (c :: s) = Some (S n, cap) ->
  3 <= S n
  /\ S n = List.length (take_while is_lf (c :: s))
  /\ skipn n s = drop_while is_lf (c :: s).
Proof.
  rewrite match_here_newlines3.
  destruct (Nat.leb_spec 3 (List.length (take_while is_lf (c :: s)))) as [L|L];
    [|discriminate].
  intros [= E _].
  change (List.length (take_while is_lf (c :: s)) = S n) in E.
  split; [lia|]. split; [now rewrite E|].
  change (skipn n s) with (skipn (S n) (c :: s)).
  rewrite <- E. apply skipn_take_while.
Qed.

Lemma collapsed_runs (s : jsstring) :
  forall run,
    run = 0 \/ run + List.length (take_while is_lf s) <= 2 ->
    lf_runs_below3 run (collapse_newlines s) = true.
Proof.
  unfold collapse_newlines.
  apply (replace_all_ind re_newlines3 (by_str [LF; LF])
           (fun s out => forall run,
                run = 0 \/ run + List.length (take_while is_lf s) <= 2 ->
                lf_runs_below3 run out = true)).
  - intros run _. reflexivity.
  - intros c s' E IH run Hrun. rewrite match_here_newlines3 in E.
    destruct (Nat.leb_spec 3 (List.length (take_while is_lf (c :: s')))) as [L|L];
      [discriminate|].
    assert (Hc : is_lf c = (c =? LF)%N) by reflexivity.
    cbn [take_while] in L, Hrun. rewrite Hc in L, Hrun.
    cbn [lf_runs_below3].
    destruct (c =? LF)%N; cbn [List.length] in L, Hrun.
    + apply andb_true_iff. split; [apply Nat.ltb_lt; lia|].
      apply IH. lia.
    + apply IH. now left.
  - intros c s' cap E _. now apply newlines3_not_empty in E.
  - intros c s' n cap E _ IH run Hrun.
    destruct (collapse_step _ _ _ _ E) as [L [E1 E2]].
    destruct Hrun as [->|Hrun]; [|lia].
    simpl. apply IH. right. rewrite E2, take_while_drop_while. simpl. lia.
Qed.

Lemma collapse_subseq (s : jsstring) : subseq (collapse_newlines s) s.
Proof.
  unfold collapse_newlines.
  apply (replace_all_ind re_newlines3 (by_str [LF; LF])
           (fun s out => subseq out s)).
  - constructor.
  - intros. now constructor.
  - intros c s' cap E _. now apply newlines3_not_empty in E.
  - intros c s' n cap E _ IH.
    pose proof (match_here_sound _ _ _ _ E) as [_ [[L M] _]].
    rewrite <- (firstn_skipn (S n) (c :: s')).
    apply subseq_app; [|exact IH].
    destruct (firstn (S n) (c :: s')) as [|a [|b w]]; simpl in L; try lia.
    simpl in M. apply andb_true_iff in M. destruct M as [Ma M].
    apply andb_true_iff in M. destruct M as [Mb _].
    apply N.eqb_eq in Ma, Mb. subst.
    simpl. constructor. constructor. apply subseq_nil_l.
Qed.

Lemma has_pair_lf_run x (w : jsstring) :
  w <> [] -> forallb is_lf w = true ->
  forall seen r, has_pair x seen (w ++ r) = has_pair x false r.
Proof.
  induction w as [|c w IH]; intros Hw Hall seen r; [now elim Hw|].
  simpl in Hall. apply andb_true_iff in Hall. destruct Hall as [Hc Hall].
  apply N.eqb_eq in Hc. subst c. simpl.
  destruct w as [|d w]; [reflexivity|].
  apply IH; [discriminate|exact Hall].
Qed.

Lemma collapse_pairs x (s : jsstring) :
  forall seen, has_pair x seen (collapse_newlines s) = true ->
               has_pair x seen s = true.
Proof.
  unfold collapse_newlines.
  apply (replace_all_ind re_newlines3 (by_str [LF; LF])
           (fun s out => forall seen, has_pair x seen out = true ->
                                      has_pair x seen s = true)).
  - auto.
  - intros c s' _ IH seen. simpl.
    destruct (is_line_terminator c); [apply IH|].
    destruct (c =? x)%N; [|apply IH].
    intros H. apply orb_true_iff in H. apply orb_true_iff.
    destruct H as [H|H]; [now left|right; now apply IH].
  - intros c s' cap E _. now apply newlines3_not_empty in E.
  - intros c s' n cap E _ IH seen H.
    destruct (collapse_step _ _ _ _ E) as [L [E1 E2]].
    change (has_pair x false (replace_all re_newlines3 (by_str [LF; LF])
                                (skipn n s')) = true) in H.
    apply IH in H. rewrite E2 in H.
    rewrite <- (take_drop_while is_lf (c :: s')).
    rewrite has_pair_lf_run; [exact H| |apply take_while_all].
    intros Hnil. rewrite Hnil in E1. simpl in E1. lia.
Qed.

End NewlineFacts.

(* ================================================================== *)
(** * What every formatted text satisfies *)
(* ================================================================== *)

Section FormattedTextFacts.

Lemma strip_html_no_tag (t : jsstring) : has_tag (strip_html t) = false.
Proof.
  unfold strip_html, replace_chain, html_rules. cbn [fold_left fst snd].
  apply any_tag_removed.
Qed.

Ltac group1_step :=
  eapply line_subseq_trans;
  [apply replace_by_group1_line_subseq; reflexivity|].

Lemma strip_markdown_line_subseq (t : jsstring) :
  line_subseq (strip_markdown t) t.
Proof.
  unfold strip_markdown, markdown_rules. cbn [fold_left].
  do 5 group1_step. apply line_subseq_refl.
Qed.

Lemma strip_markdown_no_star (t : jsstring) :
  has_pair (ch "*") false (strip_markdown t) = false.
Proof.
  unfold strip_markdown, markdown_rules. cbn [fold_left].
  destruct (has_pair _ _ _) eqn:H; [|reflexivity].
  eapply has_pair_line_subseq in H.
  2:{ do 3 group1_step. apply line_subseq_refl. }
  change re_italic_star with (marker (ch "*")) in H.
  rewrite marker_pairs_removed in H; [discriminate|reflexivity|discriminate].
Qed.

Lemma strip_markdown_no_underscore (t : jsstring) :
  has_pair (ch "_") false (strip_markdown t) = false.
Proof.
  unfold strip_markdown, markdown_rules. cbn [fold_left].
  destruct (has_pair _ _ _) eqn:H; [|reflexivity].
  eapply has_pair_line_subseq in H.
  2:{ do 1 group1_step. apply line_subseq_refl. }
  change re_italic_underscore with (marker (ch "_")) in H.
  rewrite marker_pairs_removed in H; [discriminate|reflexivity|discriminate].
Qed.

(** The text [cleanHtmlAndFormatText] returns. *)
Lemma clean_invariant (x : jsstring) :
  has_tag (cleanHtmlAndFormatText x) = false
  /\ has_emphasis (cleanHtmlAndFormatText x) = false
  /\ lf_runs_below3 0 (cleanHtmlAndFormatText x) = true
  /\ trimmed (cleanHtmlAndFormatText x) = true.
Proof.
  unfold cleanHtmlAndFormatText.
  set (t := unescape (extract_output (strip_label x))).
  repeat split.
  - destruct (has_tag _) eqn:H; [|reflexivity].
    apply (has_tag_subseq _ _ (trim_subseq _)) in H.
    apply (has_tag_subseq _ _ (collapse_subseq _)) in H.
    apply (has_tag_subseq _ _
             (line_subseq_subseq _ _ (strip_markdown_line_subseq _))) in H.
    now rewrite strip_html_no_tag in H.
  - unfold has_emphasis. apply orb_false_iff. split.
    + destruct (has_pair _ _ _) eqn:H; [|reflexivity].
      apply has_pair_trim in H; [|reflexivity].
      apply collapse_pairs in H.
      now rewrite strip_markdown_no_star in H.
    + destruct (has_pair _ _ _) eqn:H; [|reflexivity].
      apply has_pair_trim in H; [|reflexivity].
      apply collapse_pairs in H.
      now rewrite strip_markdown_no_underscore in H.
  - apply lf_runs_trim. apply collapsed_runs. now left.
  - apply trim_trimmed.
Qed.

Lemma trimmed_last (y : jsstring) c d :
  trimmed (c :: y) = true -> is_space (last (c :: y) d) = false.
Proof.
  unfold trimmed. intros H. apply andb_true_iff in H. destruct H as [_ H].
  apply negb_true_iff in H.
  now rewrite (last_default (c :: y) d c) by discriminate.
Qed.

(** ... and the same text under the label of the fallback. *)
Lemma labelled_invariant (y : jsstring) :
  has_tag y = false -> has_emphasis y = false ->
  lf_runs_below3 0 y = true -> trimmed y = true ->
  has_tag (lit "Response: " ++ y) = false
  /\ has_emphasis (lit "Response: " ++ y) = false
  /\ lf_runs_below3 0 (lit "Response: " ++ y) = true
  /\ (trimmed (lit "Response: " ++ y) = true
      \/ lit "Response: " ++ y = lit "Response: ").
Proof.
  intros H1 H2 H3 H4. repeat split.
  - simpl. exact H1.
  - unfold has_emphasis in *. simpl. exact H2.
  - simpl. exact H3.
  - destruct y as [|c y]; [now right|left].
    unfold trimmed. cbn [lit List.map list_ascii_of_string app].
    change (is_space (N_of_ascii "R")) with false. cbn [negb andb].
    apply negb_true_iff.
    change (last (N_of_ascii "R" :: ?l) _) with (last l (N_of_ascii "R")).
    repeat match goal with
           | |- context [last (?a :: ?b :: ?l) ?d] =>
               change (last (a :: b :: l) d) with (last (b :: l) d)
           end.
    now apply trimmed_last.
Qed.

Variable E : Engine.

Ltac shape :=
  intros [= <-]; eexists; first [left; reflexivity | right; reflexivity].

Lemma try_body_shape (text s : jsstring) :
  try_body E text = Normal (Some s) ->
  exists y, s = cleanHtmlAndFormatText y
            \/ s = lit "Response: " ++ cleanHtmlAndFormatText y.
Proof.
  destruct (JSON.parse text) as [v|e] eqn:Hp.
  2:{ unfold try_body. rewrite Hp. discriminate. }
  destruct v as [| b | l | s0 | l | ms].
  - unfold try_body. rewrite Hp. discriminate.
  - unfold try_body. rewrite Hp. destruct b; discriminate.
  - unfold try_body. rewrite Hp.
    unfold bind at 1. cbv beta zeta.
    unfold else_if, has_string, has_nested_string. simpl.
    destruct (number_truthy E l); discriminate.
  - unfold try_body. rewrite Hp. simpl. shape.
  - unfold try_body. rewrite Hp.
    unfold bind at 1. cbv beta zeta.
    unfold else_if, has_string, has_nested_string. simpl.
    destruct l as [|x l']; simpl; [shape|].
    destruct x; simpl; try shape;
      destruct (first_long_string l'); shape.
  - rewrite (try_body_object E _ _ Hp).
    destruct (first_match ms candidates); [shape|].
    destruct (first_long_string (List.map snd ms)); shape.
Qed.

Lemma formatResponseText_shape (text : jsstring) :
  exists y,
    formatResponseText E text = Normal (cleanHtmlAndFormatText y)
    \/ formatResponseText E text
       = Normal (lit "Response: " ++ cleanHtmlAndFormatText y).
Proof.
  unfold formatResponseText.
  destruct (_ || _); [|exists text; left; reflexivity].
  destruct (try_body E text) as [[s|]|e] eqn:T; simpl.
  - destruct (try_body_shape _ _ T) as [y [->| ->]]; exists y;
      [left|right]; reflexivity.
  - exists text. left. reflexivity.
  - exists text. left. reflexivity.
Qed.

Lemma formatResponseText_invariant (text : jsstring) :
  exists s,
    formatResponseText E text = Normal s
    /\ has_tag s = false
    /\ has_emphasis s = false
    /\ lf_runs_below3 0 s = true
    /\ (trimmed s = true \/ s = lit "Response: ").
Proof.
  destruct (formatResponseText_shape text) as [y [H|H]];
    destruct (clean_invariant y) as [H1 [H2 [H3 H4]]].
  - exists (cleanHtmlAndFormatText y). repeat split; auto.
  - exists (lit "Response: " ++ cleanHtmlAndFormatText y).
    split; [exact H|]. now apply labelled_invariant.
Qed.

End FormattedTextFacts.

(** C8 (amended).  Whatever the body, what [format] returns holds no
    HTML tag (no opening angle bracket with a closing one after it), no
    two asterisks and no two underscores on one line (the shape of
    Markdown emphasis), no run of three line feeds, and no white space
    at either end unless it is the bare label of the stringified
    fallback.  Link syntax can remain, and white space inside the text,
    runs of line feeds apart, is left as it is. *)
Theorem C8_formatted_text_invariant (E : Engine) (raw : jsstring) :
  exists s,
    format E raw = Normal s
    /\ has_tag s = false
    /\ has_emphasis s = false
    /\ lf_runs_below3 0 s = true
    /\ (trimmed s = true \/ s = lit "Response: ").
Proof.
  unfold format, sendMessageToWebhook. cbn [ok body negb try_catch].
  destruct (_ || _).
  - exists empty_response_notice. repeat split; try reflexivity. now left.
  - destruct (formatResponseText_invariant E raw) as [s [H R]].
    exists s. split; [|exact R]. now rewrite H.
Qed.

(** C8, as stated, fails on a link nested in the text of a link: the
    inner one is collapsed and the outer one is left.  White space
    inside the text is not collapsed either, and the labelled fallback
    can end with a space. *)
Lemma C8_nested_link_is_left :
  format small_integers (lit "[[a](b)](c)") = Normal (lit "[a](c)")
  /\ occurs re_link (lit "[a](c)") = true
  /\ format small_integers (lit "a   b") = Normal (lit "a   b")
  /\ format small_integers (litq "{'a':{'output':'<b>'}}")
     = Normal (lit "Response: ")
  /\ trimmed (lit "Response: ") = false.
Proof. repeat split; reflexivity. Qed.

(* ================================================================== *)
(** * The words of the markup patterns *)
(* ================================================================== *)

Section ShapeFacts.

(** Where a pattern occurs, one of its words lies in the text. *)
Lemma occurs_word (r : regex) (s : jsstring) :
  occurs r s = true ->
  exists a w b, s = a ++ w ++ b /\ matches r w.
Proof.
  unfold occurs.
  destruct (search r 0 s) as [[[i n] cap]|] eqn:H; [|discriminate].
  intros _. revert H. generalize 0 as i0.
  induction s as [|c s IH]; intros i0 H; cbn [search] in H.
  - destruct (match_here r []) as [[n' cap']|] eqn:E; [|discriminate].
    apply match_here_sound in E. destruct E as [_ [M _]].
    exists [], (firstn n' []), []. split; [now rewrite firstn_nil|exact M].
  - destruct (match_here r (c :: s)) as [[n' cap']|] eqn:E.
    + apply match_here_sound in E. destruct E as [_ [M _]].
      exists [], (firstn n' (c :: s)), (skipn n' (c :: s)). split; [|exact M].
      now rewrite app_nil_l, firstn_skipn.
    + apply IH in H. destruct H as (a & w & b & -> & M).
      exists (c :: a), w, b. split; [reflexivity|exact M].
Qed.

Lemma only_mem (x : N) (k : cclass) (c : N) :
  only x k = true -> cls_mem k c = true -> c = x.
Proof.
  destruct k as [y|y| | | | |]; cbn [only cls_mem]; try discriminate.
  - intros Hx Hc. apply N.eqb_eq in Hx, Hc. congruence.
  - intros Hx Hc.
    apply andb_true_iff in Hx. destruct Hx as [Hx Hu].
    apply andb_true_iff in Hx. destruct Hx as [Hx Hl].
    apply N.eqb_eq in Hx, Hl, Hc. subst y. rewrite Hl in Hc.
    apply negb_true_iff in Hu. unfold canon in Hc.
    destruct ((97 <=? c) && (c <=? 122))%N eqn:E; [|exact Hc].
    apply andb_true_iff in E. destruct E as [E1 E2].
    apply N.leb_le in E1, E2.
    assert (H : ((65 <=? x) && (x <=? 90))%N = true).
    { apply andb_true_iff. split; apply N.leb_le; lia. }
    congruence.
Qed.

Lemma begins_with_word (x : N) (r : regex) :
  begins_with x r = true ->
  forall w, matches r w -> exists w', w = x :: w'.
Proof.
  induction r as [|k|r1 IH1 r2 IH2|r1 IH1 r2 IH2|g min k|r1 IH1];
    cbn [begins_with matches]; try discriminate.
  - intros Hk w [c [-> Hc]]. rewrite (only_mem _ _ _ Hk Hc). now exists [].
  - intros H w (w1 & w2 & -> & M1 & _).
    destruct (IH1 H _ M1) as [w' ->]. now exists (w' ++ w2).
  - intros H w [M|M]; apply andb_true_iff in H; destruct H; eauto.
  - intros H w M. eauto.
Qed.

Lemma ends_with_word (x : N) (r : regex) :
  ends_with x r = true ->
  forall w, matches r w -> exists w', w = w' ++ [x].
Proof.
  induction r as [|k|r1 IH1 r2 IH2|r1 IH1 r2 IH2|g min k|r1 IH1];
    cbn [ends_with matches]; try discriminate.
  - intros Hk w [c [-> Hc]]. rewrite (only_mem _ _ _ Hk Hc). now exists [].
  - intros H w (w1 & w2 & -> & M1 & M2).
    destruct r2 as [|k2|r3 r4|r3 r4|g2 min2 k2|r3].
    + cbn [matches] in M2. subst w2. rewrite app_nil_r. eauto.
    + destruct (IH2 H _ M2) as [w' ->]. exists (w1 ++ w'). now rewrite app_assoc.
    + destruct (IH2 H _ M2) as [w' ->]. exists (w1 ++ w'). now rewrite app_assoc.
    + destruct (IH2 H _ M2) as [w' ->]. exists (w1 ++ w'). now rewrite app_assoc.
    + destruct (IH2 H _ M2) as [w' ->]. exists (w1 ++ w'). now rewrite app_assoc.
    + destruct (IH2 H _ M2) as [w' ->]. exists (w1 ++ w'). now rewrite app_assoc.
  - intros H w [M|M]; apply andb_true_iff in H; destruct H; eauto.
  - intros H w M. eauto.
Qed.

Lemma str_word (p w : jsstring) : matches (str p) w -> w = p.
Proof.
  revert w. induction p as [|x p IH]; intros w; cbn [str matches].
  - auto.
  - intros (w1 & w2 & -> & [c [-> Hc]] & M2).
    cbn [cls_mem] in Hc. apply N.eqb_eq in Hc. subst c.
    now rewrite (IH _ M2).
Qed.

Lemma dots_on_one_line (g : bool) (w : jsstring) :
  matches (Rep g 0 CDot) w -> on_one_line w = true.
Proof. cbn [matches]. now intros [_ H]. Qed.

(** ** Tags *)

Lemma has_tag_intro (a w b : jsstring) :
  existsb (N.eqb (ch ">")) w = true ->
  has_tag (a ++ ch "<" :: w ++ b) = true.
Proof.
  intros H. induction a as [|c a IH]; cbn [app has_tag].
  - rewrite N.eqb_refl, existsb_app, H. reflexivity.
  - rewrite IH. apply orb_true_r.
Qed.

Lemma tag_pattern_absent (r : regex) (s : jsstring) :
  begins_with (ch "<") r = true -> ends_with (ch ">") r = true ->
  has_tag s = false -> occurs r s = false.
Proof.
  intros Hb He Ht. destruct (occurs r s) eqn:Ho; [|reflexivity].
  destruct (occurs_word _ _ Ho) as (a & w & b & -> & M).
  destruct (begins_with_word _ _ Hb _ M) as [w1 E1].
  destruct (ends_with_word _ _ He _ M) as [w2 E2].
  assert (Hw : existsb (N.eqb (ch ">")) w1 = true).
  { destruct w2 as [|c w2].
    - rewrite E1 in E2. discriminate.
    - rewrite E1 in E2. injection E2 as _ ->.
      rewrite existsb_app. cbn [existsb]. rewrite N.eqb_refl.
      now rewrite orb_true_r. }
  subst w. cbn [app] in Ht. now rewrite (has_tag_intro a w1 b Hw) in Ht.
Qed.

Lemma html_patterns_are_tags :
  forallb (fun r => begins_with (ch "<") r && ends_with (ch ">") r)
    (List.map fst html_rules) = true.
Proof. vm_compute. reflexivity. Qed.

Lemma strip_html_fixed (s : jsstring) :
  has_tag s = false -> strip_html s = s.
Proof.
  intros Ht. unfold strip_html. apply replace_chain_id.
  apply forallb_forall. intros r Hr. apply negb_true_iff.
  pose proof html_patterns_are_tags as H.
  rewrite forallb_forall in H. specialize (H r Hr).
  apply andb_true_iff in H. destruct H as [Hb He].
  now apply tag_pattern_absent.
Qed.

(** ** Emphasis *)

Lemma has_pair_second (x : N) (u v : jsstring) :
  is_line_terminator x = false -> on_one_line u = true ->
  has_pair x true (u ++ x :: v) = true.
Proof.
  intros Hx. induction u as [|c u IH]; cbn [app has_pair on_one_line forallb].
  - intros _. now rewrite Hx, N.eqb_refl.
  - intros H. apply andb_true_iff in H. destruct H as [Hc Hu].
    apply negb_true_iff in Hc. rewrite Hc.
    destruct (c =? x)%N; [reflexivity|]. now apply IH.
Qed.

Lemma has_pair_intro (x : N) (a u v : jsstring) :
  is_line_terminator x = false -> on_one_line u = true ->
  forall seen, has_pair x seen (a ++ x :: u ++ x :: v) = true.
Proof.
  intros Hx Hu. induction a as [|c a IH]; intros seen; cbn [app has_pair].
  - rewrite Hx, N.eqb_refl, (has_pair_second x u v Hx Hu). apply orb_true_r.
  - destruct (is_line_terminator c); [apply IH|].
    destruct (c =? x)%N; [|apply IH]. rewrite IH. apply orb_true_r.
Qed.

Lemma marker_absent (x : N) (s : jsstring) :
  is_line_terminator x = false -> has_pair x false s = false ->
  occurs (marker x) s = false.
Proof.
  intros Hx Hp. destruct (occurs _ s) eqn:Ho; [|reflexivity].
  destruct (occurs_word _ _ Ho) as (a & w & b & -> & M).
  unfold marker in M.
  destruct M as (w1 & w2 & -> & M1 & w3 & w4 & -> & M3 & M4).
  apply str_word in M1, M4. subst w1 w4.
  cbn [matches] in M3. destruct M3 as [_ M3].
  rewrite <- !app_assoc in Hp. cbn [app] in Hp.
  now rewrite (has_pair_intro x a w3 b Hx M3) in Hp.
Qed.

Lemma bold_absent (x : N) (s : jsstring) :
  is_line_terminator x = false -> has_pair x false s = false ->
  occurs (str [x; x] +++ Group (LazyStar CDot) +++ str [x; x]) s = false.
Proof.
  intros Hx Hp. destruct (occurs _ s) eqn:Ho; [|reflexivity].
  destruct (occurs_word _ _ Ho) as (a & w & b & -> & M).
  destruct M as (w1 & w2 & -> & M1 & w3 & w4 & -> & M3 & M4).
  apply str_word in M1, M4. subst w1 w4.
  rewrite <- !app_assoc in Hp. cbn [app] in Hp.
  pose proof (has_pair_intro x a [] (w3 ++ x :: x :: b) Hx eq_refl false) as P.
  cbn [app] in P. congruence.
Qed.

(** ** Links *)

Lemma on_line_has_intro (x : N) (u v : jsstring) :
  on_one_line u = true -> on_line_has x (u ++ x :: v) = true.
Proof.
  unfold on_line_has.
  induction u as [|c u IH]; cbn [app find_on_line on_one_line forallb].
  - intros _. now rewrite N.eqb_refl.
  - intros H. apply andb_true_iff in H. destruct H as [Hc Hu].
    apply negb_true_iff in Hc. rewrite Hc.
    destruct (c =? x)%N; [reflexivity|]. specialize (IH Hu).
    destruct (find_on_line x (u ++ x :: v)); [reflexivity|discriminate].
Qed.

Lemma has_target_intro (u1 u2 b : jsstring) :
  on_one_line u1 = true -> on_one_line u2 = true ->
  has_target (u1 ++ ch "]" :: ch "(" :: u2 ++ ch ")" :: b) = true.
Proof.
  intros H1 H2.
  induction u1 as [|c u1 IH]; cbn [app has_target].
  - rewrite !N.eqb_refl, (on_line_has_intro _ u2 b H2). reflexivity.
  - cbn [on_one_line forallb] in H1.
    apply andb_true_iff in H1. destruct H1 as [Hc H1].
    rewrite Hc, (IH H1). cbn [andb]. apply orb_true_r.
Qed.

Lemma has_link_intro (a u1 u2 b : jsstring) :
  on_one_line u1 = true -> on_one_line u2 = true ->
  has_link (a ++ ch "[" :: u1 ++ ch "]" :: ch "(" :: u2 ++ ch ")" :: b) = true.
Proof.
  intros H1 H2. induction a as [|c a IH]; cbn [app has_link].
  - now rewrite N.eqb_refl, (has_target_intro u1 u2 b H1 H2).
  - rewrite IH. apply orb_true_r.
Qed.

Lemma link_absent (s : jsstring) :
  has_link s = false -> occurs re_link s = false.
Proof.
  intros Hl. destruct (occurs _ s) eqn:Ho; [|reflexivity].
  destruct (occurs_word _ _ Ho) as (a & w & b & -> & M).
  unfold re_link in M.
  destruct M as (w1 & w2 & -> & M1 & w3 & w4 & -> & M3
                 & w5 & w6 & -> & M5 & w7 & w8 & -> & M7 & M8).
  apply str_word in M1, M5, M8. subst w1 w5 w8.
  cbn [matches] in M3. destruct M3 as [_ M3].
  apply dots_on_one_line in M7.
  change (lit "[") with [ch "["] in Hl.
  change (lit "](") with [ch "]"; ch "("] in Hl.
  change (lit ")") with [ch ")"] in Hl.
  rewrite <- !app_assoc in Hl. cbn [app] in Hl.
  now rewrite (has_link_intro a w3 w7 b M3 M7) in Hl.
Qed.

Lemma strip_markdown_fixed (s : jsstring) :
  has_emphasis s = false -> has_link s = false -> strip_markdown s = s.
Proof.
  intros He Hl. unfold has_emphasis in He. apply orb_false_iff in He.
  destruct He as [Hs Hu].
  unfold strip_markdown, markdown_rules. cbn [fold_left].
  change re_bold_stars
    with (str [ch "*"; ch "*"] +++ Group (LazyStar CDot) +++ str [ch "*"; ch "*"]).
  rewrite (occurs_false_replace _ _ _ (bold_absent (ch "*") s eq_refl Hs)).
  change re_italic_star with (marker (ch "*")).
  rewrite (occurs_false_replace _ _ _ (marker_absent (ch "*") s eq_refl Hs)).
  change re_bold_underscores
    with (str [ch "_"; ch "_"] +++ Group (LazyStar CDot) +++ str [ch "_"; ch "_"]).
  rewrite (occurs_false_replace _ _ _ (bold_absent (ch "_") s eq_refl Hu)).
  change re_italic_underscore with (marker (ch "_")).
  rewrite (occurs_false_replace _ _ _ (marker_absent (ch "_") s eq_refl Hu)).
  apply occurs_false_replace, link_absent, Hl.
Qed.

(** ** Escapes *)

Lemma startsWith_app (p b : jsstring) : startsWith (p ++ b) p = true.
Proof.
  induction p as [|x p IH]; [reflexivity|]. cbn [app startsWith].
  now rewrite N.eqb_refl, IH.
Qed.

Lemma includes_intro (a p b : jsstring) : includes (a ++ p ++ b) p = true.
Proof.
  induction a as [|c a IH]; cbn [app].
  - destruct (p ++ b) eqn:E; cbn [includes]; rewrite <- E, startsWith_app;
      reflexivity.
  - cbn [includes]. rewrite IH. apply orb_true_r.
Qed.

Lemma str_absent (p s : jsstring) :
  includes s p = false -> occurs (str p) s = false.
Proof.
  intros Hi. destruct (occurs _ s) eqn:Ho; [|reflexivity].
  destruct (occurs_word _ _ Ho) as (a & w & b & -> & M).
  apply str_word in M. subst w. now rewrite includes_intro in Hi.
Qed.

Lemma unescape_fixed (s : jsstring) : escape_free s = true -> unescape s = s.
Proof.
  unfold escape_free. intros H. apply andb_true_iff in H.
  destruct H as [Hn Hq]. apply negb_true_iff in Hn, Hq.
  unfold unescape, re_escaped_newline, re_escaped_quote.
  rewrite (occurs_false_replace _ _ _ (str_absent _ _ Hn)).
  apply occurs_false_replace, str_absent, Hq.
Qed.

(** ** Clean text is left as it is *)

Lemma markup_free_parts (s : jsstring) :
  markup_free s = true ->
  has_tag s = false /\ has_emphasis s = false /\ has_link s = false.
Proof.
  unfold markup_free. intros H.
  apply andb_true_iff in H. destruct H as [H Hl].
  apply andb_true_iff in H. destruct H as [Ht He].
  apply negb_true_iff in Ht, He, Hl. auto.
Qed.

Lemma cleaned_fixed (x : jsstring) :
  markup_free x = true -> whitespace_normalized x = true ->
  escape_free x = true -> cleaned x = x.
Proof.
  intros Hm Hw He. destruct (markup_free_parts _ Hm) as (Ht & Hp & Hl).
  unfold whitespace_normalized in Hw. apply andb_true_iff in Hw.
  destruct Hw as [Hlf Htr]. unfold cleaned.
  rewrite (unescape_fixed _ He), (strip_html_fixed _ Ht),
    (strip_markdown_fixed _ Hp Hl), (lf_runs_collapse _ Hlf).
  apply trimmed_trim, Htr.
Qed.

Lemma plain_parts (s : jsstring) :
  plain s = true ->
  nonempty s = true /\ startsWith s (lit "{") = false
  /\ startsWith s (lit "[") = false
  /\ startsWith s (lit "Response:") = false /\ escape_free s = true.
Proof.
  unfold plain. intros H.
  repeat (apply andb_true_iff in H; destruct H as [H ?]).
  repeat match goal with
         | X : negb _ = true |- _ => apply negb_true_iff in X
         end.
  auto.
Qed.

(** On plain text with nothing to strip, collapse or trim,
    [cleanHtmlAndFormatText] is the identity. *)
Lemma clean_fixed (x : jsstring) :
  plain x = true -> markup_free x = true -> whitespace_normalized x = true ->
  cleanHtmlAndFormatText x = x.
Proof.
  intros Hp Hm Hw. destruct (plain_parts _ Hp) as (_ & Hb & _ & Hl & He).
  assert (Htr : trimmed x = true).
  { unfold whitespace_normalized in Hw. apply andb_true_iff in Hw. tauto. }
  change (cleanHtmlAndFormatText x)
    with (cleaned (extract_output (strip_label x))).
  unfold strip_label, extract_output.
  rewrite Hl, (trimmed_trim _ Htr), Hb. cbn [andb].
  now apply cleaned_fixed.
Qed.

Lemma format_fixes_plain (E : Engine) (x : jsstring) :
  plain x = true -> markup_free x = true -> whitespace_normalized x = true ->
  format E x = Normal x.
Proof.
  intros Hp Hm Hw. destruct (plain_parts _ Hp) as (Hne & Hb1 & Hb2 & _ & _).
  assert (Htr : trimmed x = true).
  { unfold whitespace_normalized in Hw. apply andb_true_iff in Hw. tauto. }
  rewrite (format_nonblank E x Hne Htr).
  rewrite formatResponseText_plain by (now rewrite (trimmed_trim _ Htr)).
  now rewrite clean_fixed.
Qed.

(** What [format] returns, whatever the body. *)
Lemma format_invariant (E : Engine) (raw s : jsstring) :
  format E raw = Normal s ->
  has_tag s = false /\ has_emphasis s = false
  /\ lf_runs_below3 0 s = true
  /\ (trimmed s = true \/ s = lit "Response: ").
Proof.
  unfold format, sendMessageToWebhook. cbn [ok body negb try_catch].
  destruct (_ || _).
  - intros [= <-]. repeat split; try reflexivity. now left.
  - destruct (formatResponseText_invariant E raw) as [s' [H R]].
    rewrite H. now intros [= <-].
Qed.

End ShapeFacts.

(** C7 (amended).  Plain text (not empty, not starting like JSON nor
    with the label [Response:], holding no backslash followed by n or
    by a double quote) that is free of markup (no tag: an opening angle
    bracket with a closing one after it; no emphasis: two asterisks or
    two underscores on one line; no link: an opening square bracket
    followed on its line by a closing one, an opening parenthesis and a
    closing one) and white-space normalized (no run of three line
    feeds, nothing to trim) is returned by [format] as it is, so
    formatting it twice is formatting it once.  And whatever the input,
    when what [format] returns is plain and holds no link, formatting
    that again changes nothing: this covers an input with a single
    label, with escapes, or with markup. *)
Theorem C7_format_fixes_clean_text (E : Engine) (x : jsstring) :
  (plain x = true -> markup_free x = true -> whitespace_normalized x = true ->
   format E x = Normal x
   /\ (y <- format E x ;; format E y) = format E x)
  /\ (forall y,
        format E x = Normal y -> plain y = true -> has_link y = false ->
        format E y = Normal y
        /\ (z <- format E x ;; format E z) = format E x).
Proof.
  split.
  - intros Hp Hm Hw.
    pose proof (format_fixes_plain E x Hp Hm Hw) as H.
    split; [exact H|]. rewrite H. cbn [bind]. exact H.
  - intros y Hy Hp Hl.
    destruct (format_invariant E x y Hy) as (Ht & He & Hlf & Htr).
    assert (H : format E y = Normal y).
    { apply format_fixes_plain; [exact Hp| |].
      - unfold markup_free. now rewrite Ht, He, Hl.
      - unfold whitespace_normalized. rewrite Hlf. cbn [andb].
        destruct Htr as [Htr| ->]; [exact Htr|].
        destruct (plain_parts _ Hp) as (_ & _ & _ & Hlab & _). discriminate. }
    split; [exact H|]. rewrite Hy. cbn [bind]. exact H.
Qed.

Lemma C7_format_fixes_clean_text_witness :
  (format small_integers (lit "a < b, c_d and 2*3: see [1] (below)")
   = Normal (lit "a < b, c_d and 2*3: see [1] (below)")
   /\ (y <- format small_integers (lit "a < b, c_d and 2*3: see [1] (below)") ;;
       format small_integers y)
      = format small_integers (lit "a < b, c_d and 2*3: see [1] (below)"))
  /\ (format small_integers (lit "Hello you") = Normal (lit "Hello you")
      /\ (z <- format small_integers
                 (lit "Response: <p>Hello **you**</p>") ;;
          format small_integers z)
         = format small_integers (lit "Response: <p>Hello **you**</p>")).
Proof.
  split.
  - apply (proj1 (C7_format_fixes_clean_text small_integers
                    (lit "a < b, c_d and 2*3: see [1] (below)")));
      vm_compute; reflexivity.
  - apply (proj2 (C7_format_fixes_clean_text small_integers
                    (lit "Response: <p>Hello **you**</p>"))
             (lit "Hello you"));
      vm_compute; reflexivity.
Defined.

(** C7, as stated, fails on clean plain text that starts with the label
    twice: each pass strips one label.  It fails as well on the bare
    label, which is formatted to the empty string and that to the
    notice of an empty response. *)
Lemma C7_label_is_stripped_once_a_pass :
  nonempty (lit "Response:Response: hi") = true
  /\ markup_free (lit "Response:Response: hi") = true
  /\ whitespace_normalized (lit "Response:Response: hi") = true
  /\ format small_integers (lit "Response:Response: hi")
     = Normal (lit "Response: hi")
  /\ format small_integers (lit "Response: hi") = Normal (lit "hi")
  /\ (y <- format small_integers (lit "Response:Response: hi") ;;
      format small_integers y)
     <> format small_integers (lit "Response:Response: hi")
  /\ format small_integers (lit "Response:") = Normal []
  /\ format small_integers [] = Normal empty_response_notice.
Proof.
  repeat split; try reflexivity. discriminate.
Qed.

(* ================================================================== *)
(** * The output field of broken JSON *)
(* ================================================================== *)

Section OutputFieldFacts.

Lemma take_drop_app_stop (p : N -> bool) (a : jsstring) c r :
  forallb p a = true -> p c = false ->
  take_while p (a ++ c :: r) = a /\ drop_while p (a ++ c :: r) = c :: r.
Proof.
  intros Ha Hc. induction a as [|x a IH]; cbn [app take_while drop_while].
  - now rewrite Hc.
  - cbn [forallb] in Ha. apply andb_true_iff in Ha. destruct Ha as [Hx Ha].
    rewrite Hx. destruct (IH Ha) as [-> ->]. auto.
Qed.

(** A greedy star stops at the first code unit outside its class when
    what follows accepts the input from there. *)
Lemma star_then (k : cclass) (kt : kont) (a : jsstring) c r pos cap res :
  forallb (cls_mem k) a = true -> cls_mem k c = false ->
  kt (pos + List.length a) (c :: r) cap = Some res ->
  rep_greedy k kt 0 pos (a ++ c :: r) cap = Some res.
Proof.
  intros Ha Hc Hk. destruct (take_drop_app_stop _ a c r Ha Hc) as [Et Ed].
  apply rep_greedy_longest; [lia|]. now rewrite Et, Ed.
Qed.

Lemma no_quote_class (g : jsstring) :
  existsb (N.eqb DQUOTE) g = false ->
  forallb (cls_mem (CNoneOf [DQUOTE])) g = true.
Proof.
  induction g as [|c g IH]; [reflexivity|]. cbn [existsb forallb cls_mem mem].
  intros H. apply orb_false_iff in H. destruct H as [Hc Hg].
  rewrite N.eqb_sym in Hc. rewrite Hc, (IH Hg). reflexivity.
Qed.

(** The pattern matches an output field, whatever follows it, and
    captures its value. *)
Lemma match_here_output_field (sp1 sp2 g post : jsstring) :
  whitespace_only sp1 = true -> whitespace_only sp2 = true ->
  existsb (N.eqb DQUOTE) g = false ->
  match_here re_output (output_field sp1 sp2 g ++ post)
  = Some (List.length (output_field sp1 sp2 g), Some g).
Proof.
  intros H1 H2 Hg. unfold match_here, re_output, output_field, Star.
  change (litq "'output'") with [34; 111; 117; 116; 112; 117; 116; 34]%N.
  change (ch ":") with 58%N. unfold DQUOTE.
  rewrite <- !app_assoc. cbn [app str m cls_mem N.eqb Pos.eqb].
  apply star_then; [exact H1|reflexivity|].
  cbn [m cls_mem N.eqb Pos.eqb].
  apply star_then; [exact H2|reflexivity|].
  cbn [m cls_mem N.eqb Pos.eqb].
  apply star_then; [exact (no_quote_class g Hg)|reflexivity|].
  cbn [m cls_mem N.eqb Pos.eqb].
  apply f_equal. apply f_equal2.
  - cbn [List.length]. repeat (rewrite length_app; cbn [List.length]). lia.
  - apply f_equal.
    match goal with
    | |- context [firstn ?n _] => replace n with (List.length g + 0) by lia
    end.
    rewrite firstn_app_2. cbn [firstn]. apply app_nil_r.
Qed.

Lemma search_here (r : regex) (i : nat) (s : jsstring) n cap :
  match_here r s = Some (n, cap) -> search r i s = Some (i, n, cap).
Proof. intros H. destruct s; cbn [search]; now rewrite H. Qed.

(** The search passes over what precedes the first occurrence of the
    key. *)
Lemma search_output_skips (pre rest : jsstring) :
  indexOf (pre ++ rest) (litq "'output'") = Some (List.length pre) ->
  forall i, search re_output i (pre ++ rest)
            = search re_output (i + List.length pre) rest.
Proof.
  induction pre as [|c pre IH]; intros H i.
  - cbn [app List.length]. now rewrite Nat.add_0_r.
  - cbn [app indexOf List.length] in H |- *.
    destruct (startsWith (c :: pre ++ rest) (litq "'output'")) eqn:Es;
      [discriminate|].
    destruct (indexOf (pre ++ rest) (litq "'output'")) as [j|] eqn:Ej;
      [|discriminate].
    cbn [option_map] in H. injection H as ->.
    cbn [search].
    destruct (match_here re_output (c :: pre ++ rest)) as [[n cap]|] eqn:E.
    + apply match_here_output_prefix in E. congruence.
    + rewrite (IH eq_refl (S i)). f_equal. lia.
Qed.

Section Field.

Variables pre sp1 sp2 g post : jsstring.

Hypothesis first_key :
  indexOf (pre ++ output_field sp1 sp2 g ++ post) (litq "'output'")
  = Some (List.length pre).
Hypothesis space1 : whitespace_only sp1 = true.
Hypothesis space2 : whitespace_only sp2 = true.
Hypothesis no_quote : existsb (N.eqb DQUOTE) g = false.

Lemma output_field_found :
  search re_output 0 (pre ++ output_field sp1 sp2 g ++ post)
  = Some (List.length pre, List.length (output_field sp1 sp2 g), Some g).
Proof.
  rewrite (search_output_skips _ _ first_key 0).
  apply search_here.
  now apply match_here_output_field.
Qed.

Lemma extract_output_value :
  startsWith (trim (pre ++ output_field sp1 sp2 g ++ post)) (lit "{") = true ->
  nonempty g = true ->
  extract_output (pre ++ output_field sp1 sp2 g ++ post) = unescape g.
Proof.
  intros Hb Hg. unfold extract_output.
  rewrite Hb, (search_output_includes _ _ _ output_field_found),
    output_field_found.
  cbn [andb]. destruct g as [|c g']; [discriminate|]. reflexivity.
Qed.

Lemma extract_output_empty :
  g = [] ->
  extract_output (pre ++ output_field sp1 sp2 g ++ post)
  = pre ++ output_field sp1 sp2 g ++ post.
Proof.
  intros Hg. unfold extract_output.
  destruct (_ && _); [|reflexivity].
  rewrite output_field_found, Hg. reflexivity.
Qed.

Lemma field_not_blank :
  whitespace_only (pre ++ output_field sp1 sp2 g ++ post) = false.
Proof.
  unfold whitespace_only, output_field.
  change (litq "'output'") with [34; 111; 117; 116; 112; 117; 116; 34]%N.
  rewrite forallb_app. cbn [app forallb].
  change (is_space 34) with false. cbn [andb]. apply andb_false_r.
Qed.

End Field.

Lemma bracket_not_brace (s : jsstring) :
  startsWith s (lit "[") = true -> startsWith s (lit "{") = false.
Proof.
  destruct s as [|c s]; [discriminate|].
  change (lit "[") with [91%N]. change (lit "{") with [123%N].
  cbn [startsWith]. rewrite !andb_true_r.
  intros H. apply N.eqb_eq in H. now subst c.
Qed.

Lemma extract_output_bracket (text : jsstring) :
  startsWith (trim text) (lit "[") = true -> extract_output text = text.
Proof.
  intros H. unfold extract_output. now rewrite (bracket_not_brace _ H).
Qed.

Lemma format_not_blank (E : Engine) (x : jsstring) :
  whitespace_only x = false -> format E x = formatResponseText E x.
Proof.
  intros Hx. unfold format, sendMessageToWebhook. cbn [ok body negb].
  destruct x as [|c x]; [discriminate|].
  unfold str_eqb. destruct (list_eq_dec N.eq_dec (trim (c :: x)) []) as [Et|_].
  - apply trim_nil_whitespace_only in Et. congruence.
  - cbn [orb]. destruct (formatResponseText E (c :: x)); reflexivity.
Qed.

Lemma clean_without_label (text : jsstring) :
  startsWith text (lit "Response:") = false ->
  cleanHtmlAndFormatText text = cleaned (extract_output text).
Proof.
  intros Hl.
  change (cleanHtmlAndFormatText text)
    with (cleaned (extract_output (strip_label text))).
  unfold strip_label. now rewrite Hl.
Qed.

End OutputFieldFacts.



(* ================================================================== *)
(** * Playback never writes the refs of the device and of the voices *)
(* ================================================================== *)

Section RefsFacts.

Lemma speakNextChunk_keeps_refs (w : world) :
  voice_refs (hk (speakNextChunk w)) = voice_refs (hk w).
Proof.
  unfold speakNextChunk.
  destruct (isCancellingRef (hk w)); [reflexivity|].
  destruct (negb (synthesisRef (hk w)) || _); [reflexivity|].
  destruct (nth_error _ _); reflexivity.
Qed.

Lemma step_keeps_refs (e : event) (w w' : world) :
  step e w = Some w' -> voice_refs (hk w') = voice_refs (hk w).
Proof.
  destruct e as [text| |ms| | | |]; unfold step.
  - intros [= <-]. unfold speak.
    destruct (blank text); [reflexivity|].
    destruct (negb (ready (hk w))); reflexivity.
  - intros [= <-]. unfold cancel.
    destruct (negb (synthesisRef (hk w)) || negb (isSpeaking (hk w)));
      reflexivity.
  - destruct (next_timer (timers w)) as [[[d cb] rest]|].
    + destruct (d <? now w + ms); [discriminate|]. now intros [= <-].
    + now intros [= <-].
  - destruct (next_timer (timers w)) as [[[d cb] rest]|]; [|discriminate].
    destruct (d <=? now w); [|discriminate]. intros [= <-].
    destruct cb as [text| |]; unfold run_callback.
    + unfold settle_then_start.
      destruct (splitIntoSentences (processTextForSpeech text)); [reflexivity|].
      rewrite speakNextChunk_keeps_refs. reflexivity.
    + rewrite speakNextChunk_keeps_refs. reflexivity.
    + reflexivity.
  - destruct (inflight w); [discriminate|]. now intros [= <-].
  - destruct (inflight w); [discriminate|]. intros [= <-].
    unfold onend. cbn [hk drop_inflight].
    destruct (isCancellingRef (hk w)); reflexivity.
  - destruct (inflight w); [discriminate|]. intros [= <-].
    unfold onerror. cbn [hk drop_inflight].
    destruct (isCancellingRef (hk w)); reflexivity.
Qed.

Lemma run_keeps_refs (es : list event) :
  forall w w', run es w = Some w' -> voice_refs (hk w') = voice_refs (hk w).
Proof.
  induction es as [|e es IH]; intros w w' H.
  - now injection H as <-.
  - cbn [run] in H. destruct (step e w) as [w1|] eqn:Hs; [|discriminate].
    rewrite (IH _ _ H). exact (step_keeps_refs _ _ _ Hs).
Qed.

Lemma ready_of_refs (h h' : hook) :
  voice_refs h' = voice_refs h -> ready h' = ready h.
Proof. unfold voice_refs, ready. intros [= _ -> -> -> ->]. reflexivity. Qed.

End RefsFacts.

(* ================================================================== *)
(** * Playback: a session from its first chunk to its last *)
(* ================================================================== *)

Section SessionFacts.

Lemma update_same (l : list utterance) :
  forall i u, nth_error l i = Some u -> update l i u = l.
Proof.
  induction l as [|y l IH]; intros [|i] u H; cbn in *; try discriminate.
  - now injection H as ->.
  - now rewrite IH.
Qed.

Lemma nth_error_middle (done : list utterance) u rest :
  nth_error (done ++ u :: rest) (List.length done) = Some u.
Proof. induction done as [|d done IH]; [reflexivity | exact IH]. Qed.

Lemma playing_S n : playing (S n) = chunk_played ++ playing n.
Proof. reflexivity. Qed.

Lemma run_app (es1 es2 : list event) :
  forall w, run (es1 ++ es2) w =
            match run es1 w with Some w' => run es2 w' | None => None end.
Proof.
  induction es1 as [|e es1 IH]; intros w; [reflexivity|].
  cbn [app run]. destruct (step e w) as [w1|]; [apply IH | reflexivity].
Qed.

Lemma run_cons e es w :
  run (e :: es) w = match step e w with Some w' => run es w' | None => None end.
Proof. reflexivity. Qed.

Lemma run_step e es w w' :
  step e w = Some w' -> run (e :: es) w = run es w'.
Proof. intros H. cbn [run]. now rewrite H. Qed.

Lemma run_nil w : run [] w = Some w.
Proof. reflexivity. Qed.

Lemma step_dev_start h t0 ts dev u infl :
  step Dev_start {| hk := h; now := t0; timers := ts; device := dev;
                    inflight := u :: infl |}
  = Some {| hk := setIsSpeaking true h; now := t0; timers := ts; device := dev;
            inflight := u :: infl |}.
Proof. reflexivity. Qed.

Lemma step_dev_end h t0 ts dev u infl :
  step Dev_end {| hk := h; now := t0; timers := ts; device := dev;
                  inflight := u :: infl |}
  = Some (onend {| hk := h; now := t0; timers := ts; device := dev;
                   inflight := infl |}).
Proof. reflexivity. Qed.

Lemma step_dev_error h t0 ts dev u infl :
  step Dev_error {| hk := h; now := t0; timers := ts; device := dev;
                    inflight := u :: infl |}
  = Some (onerror {| hk := h; now := t0; timers := ts; device := dev;
                     inflight := infl |}).
Proof. reflexivity. Qed.

Lemma step_elapse_single h t0 d cb dev infl ms :
  t0 + ms <= d ->
  step (Elapse ms)
       {| hk := h; now := t0; timers := [(d, cb)]; device := dev;
          inflight := infl |}
  = Some {| hk := h; now := t0 + ms; timers := [(d, cb)]; device := dev;
            inflight := infl |}.
Proof.
  intros H. unfold step. cbn [timers next_timer now hk device inflight].
  destruct (d <? t0 + ms) eqn:E; [apply Nat.ltb_lt in E; lia | reflexivity].
Qed.

Lemma step_timer_single h t0 d cb dev infl :
  d <= t0 ->
  step Timer
       {| hk := h; now := t0; timers := [(d, cb)]; device := dev;
          inflight := infl |}
  = Some (run_callback cb
            {| hk := h; now := t0; timers := []; device := dev;
               inflight := infl |}).
Proof.
  intros H. unfold step. cbn [timers next_timer now hk device inflight].
  destruct (d <=? t0) eqn:E; [reflexivity | apply Nat.leb_gt in E; lia].
Qed.

Lemma chunk_played_next (w : world) done u u' rest :
  playing_at w done u (u' :: rest) ->
  exists w',
    run chunk_played w = Some w'
    /\ playing_at w' (done ++ [u]) u' rest
    /\ device w' = device w ++ [DevSpeak u']
    /\ selectedVoiceRef (hk w') = selectedVoiceRef (hk w).
Proof.
  intros (Hc & Hs & Hq & Hi & Hf & Ht).
  destruct w as [h t0 ts dev infl].
  destruct h as [sp su syn sel ini vl q idx canc].
  cbn in Hc, Hs, Hq, Hi, Hf, Ht. subst.
  eexists. split.
  - unfold chunk_played.
    rewrite (run_step _ _ _ _ (step_dev_start _ _ _ _ _ _)). unfold setIsSpeaking.
    cbn [isCancellingRef
         isSpeaking isSupported synthesisRef selectedVoiceRef isInitializedRef
         voicesLoadedRef utteranceQueueRef currentUtteranceIndexRef].
    rewrite (run_step _ _ _ _ (step_dev_end _ _ _ _ _ _)).
    unfold onend, set_hook, setTimeout, set_index.
    cbn [hk now timers device inflight isCancellingRef app
         isSpeaking isSupported synthesisRef selectedVoiceRef isInitializedRef
         voicesLoadedRef utteranceQueueRef currentUtteranceIndexRef].
    rewrite (run_step _ _ _ _ (step_elapse_single _ _ _ _ _ _ 50 (Nat.le_refl _))).
    rewrite (run_step _ _ _ _ (step_timer_single _ _ _ _ _ _ (Nat.le_refl _))).
    rewrite run_nil.
    unfold run_callback, speakNextChunk, set_hook.
    cbn [hk now timers device inflight isCancellingRef
         isSpeaking isSupported synthesisRef selectedVoiceRef isInitializedRef
         voicesLoadedRef utteranceQueueRef currentUtteranceIndexRef negb orb].
    replace (List.length (done ++ u :: u' :: rest)
             <=? S (List.length done)) with false.
    2:{ symmetry. apply Nat.leb_gt. rewrite length_app. cbn. lia. }
    replace (done ++ u :: u' :: rest) with ((done ++ [u]) ++ u' :: rest)
      by (now rewrite <- app_assoc).
    replace (S (List.length done)) with (List.length (done ++ [u]))
      by (rewrite length_app; cbn; lia).
    rewrite nth_error_middle.
    replace (List.length (done ++ [u]) =? 0) with false.
    2:{ symmetry. apply Nat.eqb_neq. rewrite length_app. cbn. lia. }
    rewrite update_same by apply nth_error_middle.
    reflexivity.
  - cbn. repeat split; try reflexivity.
Qed.

Lemma chunk_played_last (w : world) done u :
  playing_at w done u [] ->
  exists w',
    run chunk_played w = Some w'
    /\ idle w'
    /\ device w' = device w
    /\ selectedVoiceRef (hk w') = selectedVoiceRef (hk w).
Proof.
  intros (Hc & Hs & Hq & Hi & Hf & Ht).
  destruct w as [h t0 ts dev infl].
  destruct h as [sp su syn sel ini vl q idx canc].
  cbn in Hc, Hs, Hq, Hi, Hf, Ht. subst.
  eexists. split.
  - unfold chunk_played.
    rewrite (run_step _ _ _ _ (step_dev_start _ _ _ _ _ _)). unfold setIsSpeaking.
    cbn [isCancellingRef
         isSpeaking isSupported synthesisRef selectedVoiceRef isInitializedRef
         voicesLoadedRef utteranceQueueRef currentUtteranceIndexRef].
    rewrite (run_step _ _ _ _ (step_dev_end _ _ _ _ _ _)).
    unfold onend, set_hook, setTimeout, set_index.
    cbn [hk now timers device inflight isCancellingRef app
         isSpeaking isSupported synthesisRef selectedVoiceRef isInitializedRef
         voicesLoadedRef utteranceQueueRef currentUtteranceIndexRef].
    rewrite (run_step _ _ _ _ (step_elapse_single _ _ _ _ _ _ 50 (Nat.le_refl _))).
    rewrite (run_step _ _ _ _ (step_timer_single _ _ _ _ _ _ (Nat.le_refl _))).
    rewrite run_nil.
    unfold run_callback, speakNextChunk, set_hook.
    cbn [hk now timers device inflight isCancellingRef
         isSpeaking isSupported synthesisRef selectedVoiceRef isInitializedRef
         voicesLoadedRef utteranceQueueRef currentUtteranceIndexRef negb orb].
    replace (List.length (done ++ [u]) <=? S (List.length done)) with true.
    2:{ symmetry. apply Nat.leb_le. rewrite length_app. cbn. lia. }
    reflexivity.
  - cbn. repeat split; reflexivity.
Qed.

(** From the chunk at the cursor to the end of the queue. *)
Lemma playing_to_the_end (rest : list utterance) :
  forall w done u,
    playing_at w done u rest ->
    exists w',
      run (playing (S (List.length rest))) w = Some w'
      /\ idle w'
      /\ device w' = device w ++ List.map DevSpeak rest
      /\ selectedVoiceRef (hk w') = selectedVoiceRef (hk w).
Proof.
  induction rest as [|u' rest IH]; intros w done u H.
  - destruct (chunk_played_last _ _ _ H) as (w' & Hr & Hidle & Hd & Hv).
    exists w'. cbn [List.length playing]. rewrite app_nil_r.
    cbn [List.map]. rewrite app_nil_r. auto.
  - destruct (chunk_played_next _ _ _ _ _ H) as (w1 & Hr & H1 & Hd1 & Hv1).
    destruct (IH _ _ _ H1) as (w' & Hr' & Hidle & Hd & Hv).
    exists w'. split; [|split; [assumption|split]].
    + change (List.length (u' :: rest)) with (S (List.length rest)).
      rewrite playing_S, run_app, Hr. exact Hr'.
    + rewrite Hd, Hd1, <- app_assoc. reflexivity.
    + congruence.
Qed.

End SessionFacts.

Section SessionStart.

(** [speak] on a ready hook with no timer pending and nothing with the
    device: after the settle delay the first chunk is with the
    device. *)
Lemma speak_hands_first_chunk (w : world) (text : jsstring) :
  ready (hk w) = true -> blank text = false -> timers w = [] ->
  inflight w = [] ->
  exists w2 chunk chunks,
    run [Call_speak text; Elapse 100; Timer] w = Some w2
    /\ splitIntoSentences (processTextForSpeech text) = chunk :: chunks
    /\ playing_at w2 []
         (make_utterance (selectedVoiceRef (hk w)) (AUDIBLE_PREFIX ++ chunk))
         (List.map (make_utterance (selectedVoiceRef (hk w))) chunks)
    /\ isSpeaking (hk w2) = true
    /\ device w2
       = device w ++ [DevCancel;
                      DevSpeak (make_utterance (selectedVoiceRef (hk w))
                                  (AUDIBLE_PREFIX ++ chunk))]
    /\ selectedVoiceRef (hk w2) = selectedVoiceRef (hk w).
Proof.
  intros Hready Hblank Htimers Hinfl.
  destruct (chunks_of_processed text) as [chunk [chunks Hc]].
  destruct (ready_parts _ Hready) as [Hsyn [v Hv]].
  destruct w as [h t0 ts dev infl].
  cbn in Htimers, Hinfl, Hready, Hsyn, Hv. subst ts infl.
  eexists. exists chunk, chunks.
  split; [|split; [exact Hc|]].
  - unfold run, step, speak. cbn [hk now timers device inflight].
    rewrite Hblank, Hready. cbn [negb].
    unfold setTimeout, synthesis_cancel, set_hook.
    cbn [hk now timers device inflight app next_timer].
    rewrite Nat.ltb_irrefl.
    cbn [hk now timers device inflight app next_timer].
    rewrite Nat.leb_refl.
    unfold run_callback, settle_then_start, set_hook.
    cbn [hk now timers device inflight].
    rewrite Hc.
    unfold speakNextChunk, set_hook.
    destruct h as [sp su syn sel ini vl q idx canc].
    cbn in Hsyn, Hv |- *. subst syn sel.
    cbn. reflexivity.
  - destruct h as [sp su syn sel ini vl q idx canc].
    cbn in Hsyn, Hv. subst syn sel.
    unfold playing_at. cbn. rewrite <- app_assoc.
    repeat split; reflexivity.
Qed.

End SessionStart.

(** C9.  A device error on a chunk, the cancellation flag being clear:
    the hook reports idle, the queue is emptied and the cursor reset;
    nothing more is handed to the device and no timer is set, and a
    [speakNextChunk] still to come finds the queue empty, so no later
    chunk of the session is played.  A later [speak], on a ready hook
    and the device holding nothing else, starts a fresh session and
    plays it to its end: after its cancel the device is handed every
    chunk of the new text, in order, and the hook ends idle and
    ready. *)
Theorem C9_device_error_ends_session (w : world) (u : utterance)
        (rest : list utterance) :
  inflight w = u :: rest ->
  isCancellingRef (hk w) = false ->
  exists w1,
    step Dev_error w = Some w1
    /\ isSpeaking (hk w1) = false
    /\ utteranceQueueRef (hk w1) = []
    /\ List.length (utteranceQueueRef (hk w1)) = 0
    /\ currentUtteranceIndexRef (hk w1) = 0
    /\ device w1 = device w
    /\ timers w1 = timers w
    /\ inflight w1 = rest
    /\ device (speakNextChunk w1) = device w
    /\ (forall text,
          rest = [] -> ready (hk w) = true -> blank text = false ->
          timers w = [] ->
          exists w2 us,
            run (session text
                   (List.length
                      (splitIntoSentences (processTextForSpeech text)))) w1
            = Some w2
            /\ device w2 = device w ++ DevCancel :: List.map DevSpeak us
            /\ List.map Speech.text us
               = session_texts (splitIntoSentences (processTextForSpeech text))
            /\ Forall (fun x => utt_voice x = selectedVoiceRef (hk w)) us
            /\ idle w2
            /\ ready (hk w2) = true).
Proof.
  intros Hin Hflag.
  destruct w as [h t0 ts dev infl]. cbn [inflight hk] in Hin, Hflag. subst infl.
  exists {| hk := stop_and_clear h; now := t0; timers := ts; device := dev;
            inflight := rest |}.
  split.
  { unfold step. cbn [inflight]. unfold onerror, drop_inflight.
    cbn [hk]. rewrite Hflag. reflexivity. }
  do 7 (split; [reflexivity|]).
  split.
  { unfold speakNextChunk. cbn. rewrite Hflag.
    destruct (synthesisRef h); reflexivity. }
  cbn [hk timers device].
  intros text Hrest Hready Hblank Hts. subst rest ts.
  set (w1 := {| hk := stop_and_clear h; now := t0; timers := [];
                device := dev; inflight := [] |}).
  assert (Hready1 : ready (hk w1) = true) by (destruct h; exact Hready).
  assert (Hsel : selectedVoiceRef (hk w1) = selectedVoiceRef h)
    by (destruct h; reflexivity).
  destruct (speak_hands_first_chunk w1 text Hready1 Hblank eq_refl eq_refl)
    as (w2 & chunk & chunks & Hrun & Hc & Hplay & _ & Hdev & _).
  destruct (playing_to_the_end _ _ _ _ Hplay) as (w' & Hrun' & Hidle & Hdev' & _).
  exists w'.
  exists (make_utterance (selectedVoiceRef h) (AUDIBLE_PREFIX ++ chunk)
          :: List.map (make_utterance (selectedVoiceRef h)) chunks).
  rewrite Hc. rewrite Hsel in *.
  assert (Hall : run (session text (List.length (chunk :: chunks))) w1 = Some w').
  { unfold session. rewrite run_app, Hrun.
    cbn [List.length]. rewrite length_map in Hrun'. exact Hrun'. }
  repeat split; try apply Hidle.
  - exact Hall.
  - rewrite Hdev', Hdev, <- app_assoc. reflexivity.
  - cbn [List.map session_texts Speech.text make_utterance]. f_equal.
    rewrite map_map. cbn [Speech.text make_utterance]. apply map_id.
  - constructor; [reflexivity|]. apply Forall_forall. intros x Hx.
    apply in_map_iff in Hx. destruct Hx as [c [<- _]]. reflexivity.
  - rewrite (ready_of_refs _ _ (run_keeps_refs _ _ _ Hall)). exact Hready1.
Qed.

Lemma C9_device_error_ends_session_witness :
  inflight playing_first_of_two = [first_of_two]
  /\ isCancellingRef (hk playing_first_of_two) = false
  /\ exists w1,
       step Dev_error playing_first_of_two = Some w1
       /\ isSpeaking (hk w1) = false
       /\ utteranceQueueRef (hk w1) = []
       /\ currentUtteranceIndexRef (hk w1) = 0
       /\ device w1 = device playing_first_of_two
       /\ timers w1 = timers playing_first_of_two
       /\ inflight w1 = []
       /\ exists w2 us,
            run (session (lit "Three. Four.") 2) w1 = Some w2
            /\ device w2
               = device playing_first_of_two
                 ++ DevCancel :: List.map DevSpeak us
            /\ List.map Speech.text us
               = [AUDIBLE_PREFIX ++ lit "Three."; lit "Four."]
            /\ idle w2
            /\ ready (hk w2) = true.
Proof.
  split; [reflexivity|]. split; [reflexivity|].
  destruct (C9_device_error_ends_session playing_first_of_two first_of_two []
              eq_refl eq_refl)
    as (w1 & H1 & H2 & H3 & _ & H5 & H6 & H7 & H8 & _ & H10).
  exists w1. do 7 (split; [assumption|]).
  destruct (H10 (lit "Three. Four.") eq_refl eq_refl eq_refl eq_refl)
    as (w2 & us & R1 & R2 & R3 & _ & R5 & R6).
  exists w2, us.
  split; [exact R1|]. split; [exact R2|]. split; [exact R3|].
  split; [exact R5|exact R6].
Defined.

(** X1.  A session that nothing disturbs.  [speak(text)] on a ready
    hook with no timer pending and nothing with the device, the settle
    delay of 100 ms, and then, for every chunk of the preprocessed
    text, the device starting and ending the utterance and the 50 ms
    timer of [onend]: the device has been asked to cancel once and then
    handed one utterance a chunk, in order, all with the selected
    voice, the first saying the audible prefix and its chunk and the
    others their chunk; at the end the hook is idle again, its queue
    empty and its cursor at 0, with no timer left, and still ready:
    the next call of [speak] finds it as the first did. *)
Theorem session_plays_every_chunk (w : world) (text : jsstring) :
  ready (hk w) = true -> blank text = false -> timers w = [] ->
  inflight w = [] ->
  exists w' us,
    run (session text
           (List.length (splitIntoSentences (processTextForSpeech text)))) w
    = Some w'
    /\ device w' = device w ++ DevCancel :: List.map DevSpeak us
    /\ List.map Speech.text us
       = session_texts (splitIntoSentences (processTextForSpeech text))
    /\ Forall (fun u => utt_voice u = selectedVoiceRef (hk w)) us
    /\ idle w'
    /\ ready (hk w') = true.
Proof.
  intros Hready Hblank Htimers Hinfl.
  destruct (speak_hands_first_chunk w text Hready Hblank Htimers Hinfl)
    as (w2 & chunk & chunks & Hrun & Hc & Hplay & _ & Hdev & _).
  destruct (playing_to_the_end _ _ _ _ Hplay) as (w' & Hrun' & Hidle & Hdev' & _).
  exists w'.
  exists (make_utterance (selectedVoiceRef (hk w)) (AUDIBLE_PREFIX ++ chunk)
          :: List.map (make_utterance (selectedVoiceRef (hk w))) chunks).
  rewrite Hc.
  assert (Hall : run (session text (List.length (chunk :: chunks))) w = Some w').
  { unfold session. rewrite run_app, Hrun.
    cbn [List.length]. rewrite length_map in Hrun'. exact Hrun'. }
  repeat split; try apply Hidle.
  - exact Hall.
  - rewrite Hdev', Hdev, <- app_assoc. reflexivity.
  - cbn [List.map session_texts Speech.text make_utterance]. f_equal.
    rewrite map_map. cbn [Speech.text make_utterance]. apply map_id.
  - constructor; [reflexivity|]. apply Forall_forall. intros u Hu.
    apply in_map_iff in Hu. destruct Hu as [c [<- _]]. reflexivity.
  - rewrite (ready_of_refs _ _ (run_keeps_refs _ _ _ Hall)). exact Hready.
Qed.

Lemma session_plays_every_chunk_witness :
  exists w' us,
    run (session (lit "One. Two.") 2) (idle_world google_fr) = Some w'
    /\ device w' = DevCancel :: List.map DevSpeak us
    /\ List.map Speech.text us = [AUDIBLE_PREFIX ++ lit "One."; lit "Two."]
    /\ Forall (fun u => utt_voice u = Some google_fr) us
    /\ idle w'
    /\ ready (hk w') = true.
Proof.
  exact (session_plays_every_chunk (idle_world google_fr) (lit "One. Two.")
           eq_refl eq_refl eq_refl eq_refl).
Defined.

(* ================================================================== *)
(** * Playback: once stopped, nothing more is said *)
(* ================================================================== *)

Section SilenceFacts.

Lemma handed_app (a b : list device_call) :
  handed (a ++ b) = handed a ++ handed b.
Proof.
  induction a as [|[u|] a IH]; cbn [app handed]; [reflexivity| |exact IH].
  now rewrite IH.
Qed.

Lemma next_timer_forallb (P : nat * callback -> bool) :
  forall ts d cb rest,
    next_timer ts = Some (d, cb, rest) ->
    forallb P ts = true ->
    P (d, cb) = true /\ forallb P rest = true.
Proof.
  induction ts as [|[d0 cb0] ts IH]; intros d cb rest H Hall; [discriminate|].
  cbn [next_timer] in H. cbn [forallb] in Hall.
  apply andb_true_iff in Hall. destruct Hall as [H0 Hts].
  destruct (next_timer ts) as [[[d' cb'] rest']|] eqn:E.
  - destruct (IH _ _ _ eq_refl Hts) as [Hp Hr].
    destruct (d' <? d0).
    + injection H as <- <- <-. cbn [forallb]. now rewrite H0, Hr.
    + injection H as <- <- <-. auto.
  - injection H as <- <- <-. auto.
Qed.

Lemma forallb_snoc (A : Type) (P : A -> bool) l x :
  forallb P (l ++ [x]) = forallb P l && P x.
Proof. rewrite forallb_app. cbn. now rewrite andb_true_r. Qed.

(** One turn of the event loop, other than a call of [speak], when
    nothing is left to say: nothing is handed to the device, and
    nothing is left to say afterwards. *)
Lemma silent_step (e : event) (w w' : world) :
  nothing_to_say w = true -> is_call_speak e = false ->
  step e w = Some w' ->
  handed (device w') = handed (device w) /\ nothing_to_say w' = true.
Proof.
  intros Hq He Hs.
  destruct w as [h t0 ts dev infl].
  destruct h as [sp su syn sel ini vl q idx canc].
  unfold nothing_to_say in Hq. cbn [hk utteranceQueueRef timers] in Hq.
  destruct q as [|u q]; [|discriminate]. cbn [andb] in Hq.
  destruct e as [text| |ms| | | |]; [discriminate| | | | | |].
  - (* cancel *)
    injection Hs as <-. unfold cancel. cbn [hk synthesisRef isSpeaking].
    destruct (negb syn || negb sp).
    + split; [reflexivity|]. unfold nothing_to_say. now cbn.
    + unfold nothing_to_say. cbn. rewrite handed_app, app_nil_r.
      rewrite forallb_snoc, Hq. auto.
  - (* time passes *)
    unfold step in Hs. cbn [timers now hk device inflight] in Hs.
    destruct (next_timer ts) as [[[d cb] rest]|].
    + destruct (d <? t0 + ms); [discriminate|]. injection Hs as <-.
      split; [reflexivity|]. unfold nothing_to_say. now cbn.
    + injection Hs as <-.
      split; [reflexivity|]. unfold nothing_to_say. now cbn.
  - (* a timer *)
    unfold step in Hs. cbn [timers now hk device inflight] in Hs.
    destruct (next_timer ts) as [[[d cb] rest]|] eqn:E; [|discriminate].
    destruct (next_timer_forallb _ _ _ _ _ E Hq) as [Hcb Hrest].
    destruct (d <=? t0); [|discriminate]. injection Hs as <-.
    destruct cb as [text| |]; [discriminate| |].
    + unfold run_callback, speakNextChunk, nothing_to_say. cbn.
      destruct canc; cbn; [auto|].
      rewrite orb_true_r. cbn. auto.
    + unfold nothing_to_say. cbn. auto.
  - (* the device starts an utterance *)
    unfold step in Hs. cbn [inflight] in Hs.
    destruct infl; [discriminate|]. injection Hs as <-.
    unfold nothing_to_say. cbn. auto.
  - (* the device ends an utterance *)
    unfold step in Hs. cbn [inflight] in Hs.
    destruct infl; [discriminate|]. injection Hs as <-.
    unfold nothing_to_say, onend. cbn.
    destruct canc; cbn; [auto|]. rewrite forallb_snoc, Hq. auto.
  - (* the device reports an error *)
    unfold step in Hs. cbn [inflight] in Hs.
    destruct infl; [discriminate|]. injection Hs as <-.
    unfold nothing_to_say, onerror. cbn.
    destruct canc; cbn; auto.
Qed.

Lemma silent_run (es : list event) :
  forall w w',
    nothing_to_say w = true -> existsb is_call_speak es = false ->
    run es w = Some w' ->
    handed (device w') = handed (device w) /\ nothing_to_say w' = true.
Proof.
  induction es as [|e es IH]; intros w w' Hq He Hr.
  - injection Hr as <-. auto.
  - cbn [existsb] in He. apply orb_false_iff in He. destruct He as [He Hes].
    cbn [run] in Hr. destruct (step e w) as [w1|] eqn:Hs; [|discriminate].
    destruct (silent_step _ _ _ Hq He Hs) as [Hd1 Hq1].
    destruct (IH _ _ Hq1 Hes Hr) as [Hd Hq'].
    split; [congruence | assumption].
Qed.

Lemma nothing_to_say_queue w :
  nothing_to_say w = true -> utteranceQueueRef (hk w) = [].
Proof.
  unfold nothing_to_say. destruct (utteranceQueueRef (hk w)); [auto|discriminate].
Qed.

End SilenceFacts.

(** X2.  [cancel] is final.  When [cancel()] is called on a hook that
    reports speaking, and no call of [speak] is waiting in its settle
    delay, the queue is emptied and the device is asked to cancel; from
    then on, whatever the device reports and whichever timers run, in
    any order, nothing more is handed to the device until [speak] is
    called again, and the queue stays empty. *)
Theorem cancel_is_final (w w' : world) (es : list event) :
  synthesisRef (hk w) = true -> isSpeaking (hk w) = true ->
  forallb (fun t => negb (is_settle (snd t))) (timers w) = true ->
  existsb is_call_speak es = false ->
  run es (cancel w) = Some w' ->
  device (cancel w) = device w ++ [DevCancel]
  /\ handed (device w') = handed (device w)
  /\ utteranceQueueRef (hk w') = [].
Proof.
  intros Hsyn Hsp Ht Hes Hr.
  assert (Hc : device (cancel w) = device w ++ [DevCancel]).
  { unfold cancel. rewrite Hsyn, Hsp. reflexivity. }
  assert (Hq : nothing_to_say (cancel w) = true).
  { unfold cancel, nothing_to_say. rewrite Hsyn, Hsp. cbn.
    now rewrite forallb_snoc, Ht. }
  destruct (silent_run _ _ _ Hq Hes Hr) as [Hd Hq'].
  split; [exact Hc|]. split.
  - rewrite Hd, Hc, handed_app. cbn. apply app_nil_r.
  - now apply nothing_to_say_queue.
Qed.

(** The first of two chunks is being said; [cancel]; the device
    reports the end of the interrupted utterance only after the flag
    has been reset, so that [onend] sets a timer for the next chunk. *)
Lemma cancel_is_final_witness :
  exists w',
    run [Elapse 50; Timer; Dev_end; Elapse 50; Timer]
        (cancel playing_first_of_two) = Some w'
    /\ device (cancel playing_first_of_two)
       = device playing_first_of_two ++ [DevCancel]
    /\ handed (device w') = handed (device playing_first_of_two)
    /\ utteranceQueueRef (hk w') = [].
Proof.
  eexists. split; [vm_compute; reflexivity|].
  apply (cancel_is_final playing_first_of_two _
           [Elapse 50; Timer; Dev_end; Elapse 50; Timer]);
    vm_compute; reflexivity.
Defined.

(* ================================================================== *)
(** * Mounting, the voices, unmounting *)
(* ================================================================== *)

(** X3.  Unmounting is final.  The cleanup of the mount effect sets
    the cancellation flag, asks the device to cancel, stops listening
    to voiceschanged and empties the queue.  When no call of [speak]
    is waiting in its settle delay at that time, nothing more is ever
    handed to the device afterwards, whatever the device reports and
    whichever timers run, and the queue stays empty.  (The cleanup
    clears no timer: a settle timer still pending would run.) *)
Theorem unmount_is_final (p : page) (w' : world) (es : list event) :
  synthesisRef (hk (wd p)) = true ->
  forallb (fun t => negb (is_settle (snd t))) (timers (wd p)) = true ->
  existsb is_call_speak es = false ->
  run es (wd (cleanup p)) = Some w' ->
  device (wd (cleanup p)) = device (wd p) ++ [DevCancel]
  /\ isCancellingRef (hk (wd (cleanup p))) = true
  /\ onvoiceschanged (cleanup p) = false
  /\ timers (wd (cleanup p)) = timers (wd p)
  /\ handed (device w') = handed (device (wd p))
  /\ utteranceQueueRef (hk w') = [].
Proof.
  intros Hsyn Ht Hes Hr.
  assert (Hc : device (wd (cleanup p)) = device (wd p) ++ [DevCancel]).
  { unfold cleanup. rewrite Hsyn. reflexivity. }
  assert (Hq : nothing_to_say (wd (cleanup p)) = true).
  { unfold cleanup, nothing_to_say. rewrite Hsyn. cbn. exact Ht. }
  destruct (silent_run _ _ _ Hq Hes Hr) as [Hd Hq'].
  split; [exact Hc|].
  split; [unfold cleanup; rewrite Hsyn; reflexivity|].
  split; [unfold cleanup; rewrite Hsyn; reflexivity|].
  split; [unfold cleanup; rewrite Hsyn; reflexivity|].
  split.
  - rewrite Hd, Hc, handed_app. cbn. apply app_nil_r.
  - now apply nothing_to_say_queue.
Qed.

Lemma unmount_is_final_witness :
  exists w',
    run [Dev_start; Dev_end; Elapse 50]
        (wd (cleanup {| wd := playing_first_of_two; voicesRef := [google_fr];
                        onvoiceschanged := true; deferred := None |}))
    = Some w'
    /\ device (wd (cleanup {| wd := playing_first_of_two;
                              voicesRef := [google_fr];
                              onvoiceschanged := true; deferred := None |}))
       = device playing_first_of_two ++ [DevCancel]
    /\ isCancellingRef
         (hk (wd (cleanup {| wd := playing_first_of_two;
                             voicesRef := [google_fr];
                             onvoiceschanged := true; deferred := None |})))
       = true
    /\ onvoiceschanged
         (cleanup {| wd := playing_first_of_two; voicesRef := [google_fr];
                     onvoiceschanged := true; deferred := None |})
       = false
    /\ timers (wd (cleanup {| wd := playing_first_of_two;
                              voicesRef := [google_fr];
                              onvoiceschanged := true; deferred := None |}))
       = timers playing_first_of_two
    /\ handed (device w') = handed (device playing_first_of_two)
    /\ utteranceQueueRef (hk w') = [].
Proof.
  eexists. split; [vm_compute; reflexivity|].
  apply (unmount_is_final
           {| wd := playing_first_of_two; voicesRef := [google_fr];
              onvoiceschanged := true; deferred := None |} _
           [Dev_start; Dev_end; Elapse 50]);
    vm_compute; reflexivity.
Defined.

Section VoiceFacts.

Variable toLowerCase : jsstring -> jsstring.

Lemma startsWith_includes (s p : jsstring) :
  startsWith s p = true -> includes s p = true.
Proof. intros H. destruct s; cbn [includes]; now rewrite H. Qed.

Lemma find_filter (A : Type) (f p : A -> bool) (l : list A) :
  List.find p (List.filter f l) = List.find (fun x => f x && p x) l.
Proof.
  induction l as [|x l IH]; [reflexivity|].
  cbn [List.filter List.find]. destruct (f x); cbn [andb List.find]; [|exact IH].
  destruct (p x); [reflexivity | exact IH].
Qed.

Lemma find_ext (A : Type) (p q : A -> bool) (l : list A) :
  (forall x, p x = q x) -> List.find p l = List.find q l.
Proof.
  intros H. induction l as [|x l IH]; [reflexivity|].
  cbn [List.find]. now rewrite H, IH.
Qed.

Lemma find_first (A : Type) (p : A -> bool) (before after : list A) x :
  forallb (fun y => negb (p y)) before = true -> p x = true ->
  List.find p (before ++ x :: after) = Some x.
Proof.
  intros Hb Hx. induction before as [|y before IH]; cbn [app List.find].
  - now rewrite Hx.
  - cbn [forallb] in Hb. apply andb_true_iff in Hb. destruct Hb as [Hy Hb].
    apply negb_true_iff in Hy. rewrite Hy. now apply IH.
Qed.

Lemma find_none (A : Type) (p : A -> bool) (l : list A) :
  forallb (fun y => negb (p y)) l = true -> List.find p l = None.
Proof.
  induction l as [|y l IH]; [reflexivity|]. cbn [forallb List.find].
  intros H. apply andb_true_iff in H. destruct H as [Hy Hl].
  apply negb_true_iff in Hy. rewrite Hy. now apply IH.
Qed.

Lemma filter_none (A : Type) (f : A -> bool) (l : list A) :
  forallb (fun y => negb (f y)) l = true -> List.filter f l = [].
Proof.
  induction l as [|y l IH]; [reflexivity|]. cbn [forallb List.filter].
  intros H. apply andb_true_iff in H. destruct H as [Hy Hl].
  apply negb_true_iff in Hy. rewrite Hy. now apply IH.
Qed.

(** The head of the sorted list is the first of the highest scores. *)
Lemma hd_insert_scored x l :
  hd_error (insert_scored x l) =
  match hd_error l with
  | Some y => if (snd y <=? snd x)%Z then Some x else Some y
  | None => Some x
  end.
Proof.
  destruct l as [|y l]; [reflexivity|]. cbn [insert_scored hd_error].
  destruct (snd y <=? snd x)%Z; reflexivity.
Qed.

Lemma hd_sort_scored l : hd_error (sort_scored l) = first_max l.
Proof.
  induction l as [|x l IH]; [reflexivity|].
  unfold sort_scored in *. cbn [fold_right first_max].
  rewrite hd_insert_scored, IH.
  destruct (first_max l) as [y|]; [|reflexivity].
  destruct (snd y <=? snd x)%Z eqn:E1, (snd x <? snd y)%Z eqn:E2;
    try reflexivity; lia.
Qed.

Lemma first_max_bound l :
  forall x, first_max l = Some x ->
            In x l /\ forall y, In y l -> (snd y <= snd x)%Z.
Proof.
  induction l as [|z l IH]; intros x H; [discriminate|].
  cbn [first_max] in H.
  destruct (first_max l) as [m|] eqn:E.
  - destruct (IH _ eq_refl) as [Hin Hmax].
    destruct (snd z <? snd m)%Z eqn:Ez; injection H as <-.
    + split; [now right|]. intros y [<-|Hy]; [lia | auto].
    + split; [now left|]. intros y [<-|Hy]; [lia|].
      specialize (Hmax _ Hy). lia.
  - injection H as <-. destruct l as [|z' l].
    + split; [now left|]. intros y [<-|[]]. lia.
    + cbn [first_max] in E. destruct (first_max l) as [m|];
        [destruct (snd z' <? snd m)%Z|]; discriminate.
Qed.

Lemma first_max_first (before after : list (voice * Z)) x :
  (forall y, In y before -> (snd y < snd x)%Z) ->
  (forall y, In y after -> (snd y <= snd x)%Z) ->
  first_max (before ++ x :: after) = Some x.
Proof.
  intros Hb Ha.
  assert (Hx : first_max (x :: after) = Some x).
  { cbn [first_max]. destruct (first_max after) as [m|] eqn:E; [|reflexivity].
    destruct (first_max_bound _ _ E) as [Hin _]. specialize (Ha _ Hin).
    destruct (snd x <? snd m)%Z eqn:E'; [lia | reflexivity]. }
  induction before as [|y before IH]; [exact Hx|].
  cbn [app first_max]. rewrite IH by (intros; apply Hb; now right).
  assert (snd y < snd x)%Z by (apply Hb; now left).
  destruct (snd y <? snd x)%Z eqn:E; [reflexivity | lia].
Qed.

Lemma in_insert_scored x y l :
  In y (insert_scored x l) -> y = x \/ In y l.
Proof.
  induction l as [|z l IH]; cbn [insert_scored].
  - intros [<-|[]]. now left.
  - destruct (snd z <=? snd x)%Z.
    + intros [<-|H]; [now left | now right].
    + intros [<-|H]; [right; now left|].
      destruct (IH H) as [->|H']; [now left | right; now right].
Qed.

Lemma in_sort_scored y l : In y (sort_scored l) -> In y l.
Proof.
  induction l as [|x l IH]; [intros []|].
  unfold sort_scored in *. cbn [fold_right]. intros H.
  destruct (in_insert_scored _ _ _ H) as [->|H']; [now left | right; auto].
Qed.

Lemma filter_app_cons (A : Type) (f : A -> bool) before x after :
  f x = true ->
  List.filter f (before ++ x :: after)
  = List.filter f before ++ x :: List.filter f after.
Proof.
  intros H. rewrite filter_app. cbn [List.filter]. now rewrite H.
Qed.

Lemma bestVoice_of_find (l : list voice) :
  bestVoice toLowerCase l =
  match List.find (google toLowerCase) l with
  | Some v => Some v
  | None =>
      match first_max (List.map (fun v => (v, getVoiceQualityScore toLowerCase v))
                         (List.filter french l)) with
      | Some (v, _) => Some v
      | None =>
          match List.find (fun v => startsWith (voice_lang v) (lit "fr")) l with
          | Some v => Some v
          | None => hd_error l
          end
      end
  end.
Proof.
  unfold bestVoice. rewrite find_filter.
  rewrite (find_ext _ _ (google toLowerCase)).
  2:{ intros v. unfold google, french.
      destruct (includes (voice_lang v) (lit "fr")); cbn; [|now rewrite andb_false_r].
      now rewrite andb_true_r. }
  destruct (List.find (google toLowerCase) l); [reflexivity|].
  rewrite <- hd_sort_scored.
  destruct (sort_scored _) as [|[v s] r]; reflexivity.
Qed.

End VoiceFacts.

(** X4.  Which voice [processVoices] settles on.  The first French
    voice of the device's list whose lower-cased name holds google is
    taken, whatever the scores.  With no such voice, the French voice
    with the highest quality score is taken, the first in the list
    among equals.  With no French voice at all the first voice of the
    list is taken: the search for a language tag starting with fr can
    find nothing then. *)
Theorem bestVoice_choice (toLowerCase : jsstring -> jsstring) (l : list voice) :
  (forall before g after,
      l = before ++ g :: after ->
      google toLowerCase g = true ->
      forallb (fun v => negb (google toLowerCase v)) before = true ->
      bestVoice toLowerCase l = Some g)
  /\ (forall before v after,
        forallb (fun v => negb (google toLowerCase v)) l = true ->
        l = before ++ v :: after ->
        french v = true ->
        (forall x, In x before -> french x = true ->
                   (getVoiceQualityScore toLowerCase x
                    < getVoiceQualityScore toLowerCase v)%Z) ->
        (forall x, In x after -> french x = true ->
                   (getVoiceQualityScore toLowerCase x
                    <= getVoiceQualityScore toLowerCase v)%Z) ->
        bestVoice toLowerCase l = Some v)
  /\ (forallb (fun v => negb (french v)) l = true ->
      bestVoice toLowerCase l = hd_error l).
Proof.
  split; [|split].
  - intros before g after -> Hg Hb.
    rewrite bestVoice_of_find, find_first; auto.
  - intros before v after Hng -> Hv Hbefore Hafter.
    rewrite bestVoice_of_find, find_none by exact Hng.
    rewrite filter_app_cons by exact Hv.
    rewrite map_app. cbn [List.map].
    rewrite first_max_first; [reflexivity| |].
    + intros y Hy. apply in_map_iff in Hy. destruct Hy as [x [<- Hx]].
      apply filter_In in Hx. destruct Hx as [Hx Hf]. cbn [snd]. auto.
    + intros y Hy. apply in_map_iff in Hy. destruct Hy as [x [<- Hx]].
      apply filter_In in Hx. destruct Hx as [Hx Hf]. cbn [snd]. auto.
  - intros Hnf. rewrite bestVoice_of_find.
    rewrite find_none.
    2:{ rewrite forallb_forall in Hnf |- *. intros v Hv.
        specialize (Hnf _ Hv). unfold google. apply negb_true_iff in Hnf.
        now rewrite Hnf, andb_false_r. }
    rewrite filter_none by exact Hnf. cbn [List.map first_max].
    rewrite find_none; [reflexivity|].
    rewrite forallb_forall in Hnf |- *. intros v Hv.
    specialize (Hnf _ Hv). apply negb_true_iff in Hnf. apply negb_true_iff.
    destruct (startsWith (voice_lang v) (lit "fr")) eqn:E; [|reflexivity].
    apply startsWith_includes in E. unfold french in Hnf. congruence.
Qed.

Lemma bestVoice_choice_witness :
  bestVoice ascii_lower [hortense; google_fr; samantha] = Some google_fr
  /\ bestVoice ascii_lower [hortense; thomas; amelie; samantha] = Some amelie
  /\ bestVoice ascii_lower [samantha; hortense] = Some hortense
  /\ bestVoice ascii_lower [samantha] = Some samantha.
Proof.
  split; [|split; [|split]].
  - apply (proj1 (bestVoice_choice ascii_lower [hortense; google_fr; samantha])
             [hortense] google_fr [samantha]); reflexivity.
  - apply (proj1 (proj2 (bestVoice_choice ascii_lower
                           [hortense; thomas; amelie; samantha]))
             [hortense; thomas] amelie [samantha]); try reflexivity.
    + intros x [<-|[<-|[]]] _; vm_compute; reflexivity.
    + intros x [<-|[]]; vm_compute; discriminate.
  - apply (proj1 (proj2 (bestVoice_choice ascii_lower [samantha; hortense]))
             [samantha] hortense []); try reflexivity.
    + intros x [<-|[]]; vm_compute; discriminate.
    + intros x [].
  - apply (proj2 (proj2 (bestVoice_choice ascii_lower [samantha]))).
    reflexivity.
Defined.

Section VoiceListFacts.

Variable toLowerCase : jsstring -> jsstring.

Lemma first_max_none l : first_max l = None -> l = [].
Proof.
  destruct l as [|x l]; [reflexivity|]. cbn [first_max].
  destruct (first_max l) as [m|]; [destruct (snd x <? snd m)%Z|]; discriminate.
Qed.

Lemma filter_nil_existsb (A : Type) (f : A -> bool) (l : list A) :
  List.filter f l = [] -> existsb f l = false.
Proof.
  induction l as [|x l IH]; [reflexivity|]. cbn [List.filter existsb].
  destruct (f x); [discriminate | exact IH].
Qed.

Lemma bestVoice_listed_one (l : list voice) v :
  bestVoice toLowerCase l = Some v ->
  In v l /\ (existsb french l = true -> french v = true).
Proof.
  rewrite bestVoice_of_find.
  destruct (List.find (google toLowerCase) l) as [g|] eqn:Eg.
  - intros [= <-]. apply find_some in Eg. destruct Eg as [Hin Hg].
    split; [exact Hin|]. intros _. unfold google in Hg.
    now apply andb_true_iff in Hg.
  - destruct (first_max _) as [[b s]|] eqn:Em.
    + intros [= <-]. destruct (first_max_bound _ _ Em) as [Hin _].
      apply in_map_iff in Hin. destruct Hin as [x [[= <- _] Hx]].
      apply filter_In in Hx. destruct Hx as [Hx Hf]. auto.
    + apply first_max_none in Em. apply map_eq_nil in Em.
      apply filter_nil_existsb in Em. rewrite Em.
      intros H. split; [|discriminate].
      remember (fun v0 : voice => startsWith (voice_lang v0) (lit "fr")) as p.
      destruct (List.find p l) as [x|] eqn:Ef.
      * injection H as H. subst x. now apply find_some in Ef.
      * destruct l as [|x l]; [discriminate|]. cbn [hd_error] in H.
        injection H as H. subst x. now left.
Qed.

Lemma bestVoice_none (l : list voice) :
  bestVoice toLowerCase l = None -> l = [].
Proof.
  rewrite bestVoice_of_find.
  destruct (List.find (google toLowerCase) l); [discriminate|].
  destruct (first_max _) as [[b s]|]; [discriminate|].
  destruct (List.find _ l); [discriminate|].
  destruct l; [reflexivity | discriminate].
Qed.

End VoiceListFacts.

(** X5.  [processVoices] always settles on a voice the device lists:
    [bestVoice] is [null] for the empty list only, and the voice it
    gives is one of the list; when the list has a French voice (one
    whose language tag holds fr) the voice taken is French. *)
Theorem bestVoice_is_listed (toLowerCase : jsstring -> jsstring) (l : list voice) :
  (bestVoice toLowerCase l = None <-> l = [])
  /\ (forall v, bestVoice toLowerCase l = Some v ->
                In v l /\ (existsb french l = true -> french v = true)).
Proof.
  split.
  - split; [apply bestVoice_none | now intros ->].
  - apply bestVoice_listed_one.
Qed.

Lemma bestVoice_is_listed_witness :
  In amelie [hortense; thomas; amelie; samantha]
  /\ (existsb french [hortense; thomas; amelie; samantha] = true ->
      french amelie = true).
Proof.
  exact (proj2 (bestVoice_is_listed ascii_lower
                  [hortense; thomas; amelie; samantha]) amelie eq_refl).
Defined.

Section MountFacts.

Variable toLowerCase : jsstring -> jsstring.

(** [processVoices] on a hook that holds the device and has loaded no
    voice yet. *)
Lemma processVoices_first (available : list voice) (p : page) :
  synthesisRef (hk (wd p)) = true ->
  voicesLoadedRef (hk (wd p)) = false ->
  available <> [] ->
  processVoices toLowerCase available p
  = update_hook (set_loaded true)
      (update_hook (set_selected (bestVoice toLowerCase available))
         (set_voices available p)).
Proof.
  intros Hs Hl Ha. unfold processVoices. rewrite Hs, Hl. cbn [negb].
  destruct available as [|v l]; [now elim Ha|].
  cbn [List.length Nat.eqb]. rewrite andb_false_r.
  cbn [update_hook set_voices set_world wd hk set_hook set_selected
       voicesLoadedRef].
  rewrite Hl. reflexivity.
Qed.

Lemma processVoices_none (p : page) : processVoices toLowerCase [] p = p.
Proof.
  unfold processVoices. destruct (negb (synthesisRef (hk (wd p)))); reflexivity.
Qed.

Lemma ready_after_first (available : list voice) (p : page) :
  synthesisRef (hk (wd p)) = true ->
  isInitializedRef (hk (wd p)) = true ->
  voicesLoadedRef (hk (wd p)) = false ->
  available <> [] ->
  ready (hk (wd (processVoices toLowerCase available p))) = true
  /\ selectedVoiceRef (hk (wd (processVoices toLowerCase available p)))
     = bestVoice toLowerCase available
  /\ voicesRef (processVoices toLowerCase available p) = available.
Proof.
  intros Hs Hi Hl Ha. rewrite processVoices_first by assumption.
  unfold ready. cbn. rewrite Hs, Hi. cbn.
  destruct (bestVoice toLowerCase available) eqn:E; [auto|].
  apply bestVoice_none in E. contradiction.
Qed.

End MountFacts.

(** X6.  Mounting.  In a browser without [window.speechSynthesis] the
    hook reports that speech is not supported and stays unready.  In a
    browser with it the hook reports support; when the device lists
    voices at that time the hook is ready at once, with the voice
    [bestVoice] gives.  When it lists none the hook is not ready, and a
    call of [speak] is dropped, not deferred; the voices are taken
    later, from the voiceschanged event when the device knows it, else
    from the one deferred call of [processVoices], 100 ms after the
    mount; if the list is still empty at that call nothing will load
    the voices any more. *)
Theorem mounting (toLowerCase : jsstring -> jsstring) (win : window) :
  (speechSynthesis win = false ->
   isSupported (hk (wd (initializeSpeechSynthesis toLowerCase win unmounted)))
   = false
   /\ ready (hk (wd (initializeSpeechSynthesis toLowerCase win unmounted)))
      = false)
  /\ (speechSynthesis win = true ->
      isSupported (hk (wd (initializeSpeechSynthesis toLowerCase win unmounted)))
      = true)
  /\ (speechSynthesis win = true -> getVoices win <> [] ->
      ready (hk (wd (initializeSpeechSynthesis toLowerCase win unmounted)))
      = true
      /\ selectedVoiceRef
           (hk (wd (initializeSpeechSynthesis toLowerCase win unmounted)))
         = bestVoice toLowerCase (getVoices win))
  /\ (speechSynthesis win = true -> getVoices win = [] ->
      let p := initializeSpeechSynthesis toLowerCase win unmounted in
      ready (hk (wd p)) = false
      /\ (forall text, speak text (wd p) = wd p)
      /\ onvoiceschanged p = has_onvoiceschanged win
      /\ deferred p = (if has_onvoiceschanged win then None else Some 100)
      /\ (forall l, l <> [] -> has_onvoiceschanged win = true ->
            ready (hk (wd (voiceschanged toLowerCase l p))) = true
            /\ selectedVoiceRef (hk (wd (voiceschanged toLowerCase l p)))
               = bestVoice toLowerCase l)
      /\ (forall l, l <> [] -> has_onvoiceschanged win = false ->
            ready (hk (wd (run_deferred toLowerCase l p))) = true
            /\ selectedVoiceRef (hk (wd (run_deferred toLowerCase l p)))
               = bestVoice toLowerCase l)
      /\ (has_onvoiceschanged win = false ->
          ready (hk (wd (run_deferred toLowerCase [] p))) = false
          /\ onvoiceschanged (run_deferred toLowerCase [] p) = false
          /\ deferred (run_deferred toLowerCase [] p) = None)).
Proof.
  split; [|split; [|split]].
  - intros H. unfold initializeSpeechSynthesis. rewrite H. cbn. auto.
  - intros H. unfold initializeSpeechSynthesis. rewrite H.
    cbn [unmounted wd hk unmounted_hook isInitializedRef negb andb].
    destruct (getVoices win) as [|v l] eqn:Ev.
    + rewrite processVoices_none. destruct (has_onvoiceschanged win); reflexivity.
    + rewrite processVoices_first; try reflexivity; try discriminate.
      destruct (has_onvoiceschanged win); reflexivity.
  - intros H Hv. unfold initializeSpeechSynthesis. rewrite H.
    cbn [unmounted wd hk unmounted_hook isInitializedRef negb andb].
    match goal with
    | |- context [processVoices _ _ ?q] =>
        destruct (ready_after_first toLowerCase (getVoices win) q
                    eq_refl eq_refl eq_refl Hv) as (Hr & Hs & _)
    end.
    destruct (has_onvoiceschanged win); cbn [set_onvoiceschanged set_deferred wd];
      auto.
  - intros H Hv p. subst p. unfold initializeSpeechSynthesis. rewrite H, Hv.
    cbn [unmounted wd hk unmounted_hook isInitializedRef negb andb].
    rewrite processVoices_none.
    split; [destruct (has_onvoiceschanged win); reflexivity|].
    split; [intros text; unfold speak; destruct (blank text); [reflexivity|];
            destruct (has_onvoiceschanged win); reflexivity|].
    split; [destruct (has_onvoiceschanged win); reflexivity|].
    split; [destruct (has_onvoiceschanged win); reflexivity|].
    split; [|split].
    + intros l Hl Hh. rewrite Hh. unfold voiceschanged.
      cbn [set_onvoiceschanged onvoiceschanged].
      match goal with
      | |- context [processVoices _ _ ?q] =>
          destruct (ready_after_first toLowerCase l q
                      eq_refl eq_refl eq_refl Hl) as (Hr & Hs & _)
      end.
      auto.
    + intros l Hl Hh. rewrite Hh. unfold run_deferred.
      cbn [set_deferred deferred].
      match goal with
      | |- context [processVoices _ _ ?q] =>
          destruct (ready_after_first toLowerCase l q
                      eq_refl eq_refl eq_refl Hl) as (Hr & Hs & _)
      end.
      auto.
    + intros Hh. rewrite Hh. unfold run_deferred.
      cbn [set_deferred deferred]. rewrite processVoices_none. cbn. auto.
Qed.

Lemma mounting_witness :
  ready (hk (wd (initializeSpeechSynthesis ascii_lower
                   {| speechSynthesis := true; has_onvoiceschanged := true;
                      getVoices := [hortense; google_fr] |} unmounted)))
  = true
  /\ selectedVoiceRef
       (hk (wd (initializeSpeechSynthesis ascii_lower
                  {| speechSynthesis := true; has_onvoiceschanged := true;
                     getVoices := [hortense; google_fr] |} unmounted)))
     = bestVoice ascii_lower [hortense; google_fr].
Proof.
  apply (proj1 (proj2 (proj2 (mounting ascii_lower
                  {| speechSynthesis := true; has_onvoiceschanged := true;
                     getVoices := [hortense; google_fr] |})))).
  - reflexivity.
  - discriminate.
Defined.

(* ================================================================== *)
(** * The text handed to speech *)
(* ================================================================== *)

Section SpeechTextFacts.

Lemma forallb_skipn (p : N -> bool) n : forall (s : jsstring),
  forallb p s = true -> forallb p (skipn n s) = true.
Proof.
  induction n as [|n IH]; intros [|c s] H; cbn [skipn]; auto.
  cbn [forallb] in H. apply andb_true_iff in H. apply IH, H.
Qed.

(** Replacing matches by a fixed string brings in no code unit but
    those of that string. *)
Lemma replace_keeps (p : N -> bool) (r : regex) (rep s : jsstring) :
  forallb p rep = true -> forallb p s = true ->
  forallb p (replace_all r (by_str rep) s) = true.
Proof.
  intros Hrep. revert s.
  apply (replace_all_ind r (by_str rep)
           (fun s out => forallb p s = true -> forallb p out = true));
    cbv beta.
  - intros _. rewrite replace_all_nil.
    destruct (match_here r []) as [[n cap]|]; [exact Hrep | reflexivity].
  - intros c s _ IH H. cbn [forallb] in H |- *.
    apply andb_true_iff in H. destruct H as [Hc Hs].
    now rewrite Hc, IH.
  - intros c s cap _ IH H. cbn [forallb] in H.
    apply andb_true_iff in H. destruct H as [Hc Hs].
    rewrite forallb_app. change (by_str rep cap) with rep. rewrite Hrep. cbn [forallb andb].
    now rewrite Hc, IH.
  - intros c s n cap _ _ IH H. cbn [forallb] in H.
    apply andb_true_iff in H. destruct H as [Hc Hs].
    rewrite forallb_app. change (by_str rep cap) with rep. rewrite Hrep. cbn [andb].
    apply IH, forallb_skipn, Hs.
Qed.

(** When the pattern matches wherever a code unit of the class
    stands, and never the empty string, none is left. *)
Lemma replace_removes (k : cclass) (r : regex) (rep : jsstring) :
  (forall c s, match_here r (c :: s) = None -> cls_mem k c = false) ->
  (forall c s cap, match_here r (c :: s) <> Some (0, cap)) ->
  forallb (fun c => negb (cls_mem k c)) rep = true ->
  forall s, forallb (fun c => negb (cls_mem k c))
              (replace_all r (by_str rep) s) = true.
Proof.
  intros Hnone Hzero Hrep.
  apply (replace_all_ind r (by_str rep)
           (fun _ out => forallb (fun c => negb (cls_mem k c)) out = true));
    cbv beta.
  - rewrite replace_all_nil.
    destruct (match_here r []) as [[n cap]|]; [exact Hrep | reflexivity].
  - intros c s Hm IH. cbn [forallb]. now rewrite (Hnone _ _ Hm), IH.
  - intros c s cap Hm _. now elim (Hzero _ _ _ Hm).
  - intros c s n cap _ _ IH. rewrite forallb_app.
    change (by_str rep cap) with rep. now rewrite Hrep, IH.
Qed.

Lemma match_here_plus (k : cclass) (s : jsstring) :
  match_here (Plus k) s =
  if 1 <=? List.length (take_while (cls_mem k) s)
  then Some (List.length (take_while (cls_mem k) s), None)
  else None.
Proof.
  unfold match_here, Plus. cbn [m].
  destruct (1 <=? List.length (take_while (cls_mem k) s)) eqn:E.
  - apply Nat.leb_le in E. now apply rep_greedy_longest.
  - apply Nat.leb_gt in E. now apply rep_greedy_short.
Qed.

Lemma match_here_plus_cons (k : cclass) c (s : jsstring) :
  match_here (Plus k) (c :: s) =
  if cls_mem k c
  then Some (S (List.length (take_while (cls_mem k) s)), None)
  else None.
Proof.
  rewrite match_here_plus. cbn [take_while].
  destruct (cls_mem k c); reflexivity.
Qed.

Lemma match_here_chr (k : cclass) c (s : jsstring) :
  match_here (Chr k) (c :: s) = if cls_mem k c then Some (1, None) else None.
Proof. reflexivity. Qed.

Lemma single_spaced_mono (s : jsstring) :
  single_spaced true s = true -> single_spaced false s = true.
Proof.
  destruct s as [|c s]; [auto|]. cbn [single_spaced].
  destruct (is_space c); [|auto]. cbn [negb]. now rewrite andb_false_r.
Qed.

Lemma single_spaced_any (s : jsstring) prev :
  single_spaced prev s = true -> single_spaced false s = true.
Proof. destruct prev; [apply single_spaced_mono | auto]. Qed.

Lemma single_spaced_app_r (a : jsstring) :
  forall prev b, single_spaced prev (a ++ b) = true ->
                 single_spaced false b = true.
Proof.
  induction a as [|c a IH]; intros prev b H; cbn [app] in H.
  - eapply single_spaced_any, H.
  - cbn [single_spaced] in H. destruct (is_space c).
    + apply andb_true_iff in H. destruct H as [_ H]. eapply IH, H.
    + eapply IH, H.
Qed.

Lemma single_spaced_app_l (a : jsstring) :
  forall prev b, single_spaced prev (a ++ b) = true ->
                 single_spaced prev a = true.
Proof.
  induction a as [|c a IH]; intros prev b H; [reflexivity|].
  cbn [app single_spaced] in H |- *. destruct (is_space c).
  - apply andb_true_iff in H. destruct H as [H1 H]. rewrite H1.
    eapply IH, H.
  - eapply IH, H.
Qed.

Lemma single_spaced_trim (s : jsstring) :
  single_spaced false s = true -> single_spaced false (trim s) = true.
Proof.
  intros H. destruct (trim_split s) as (a & b & Hs & _ & _).
  rewrite Hs in H. apply single_spaced_app_r in H.
  eapply single_spaced_app_l, H.
Qed.

Lemma forallb_subseq (p : N -> bool) (a b : jsstring) :
  subseq a b -> forallb p b = true -> forallb p a = true.
Proof.
  induction 1 as [|c a b _ IH|c a b _ IH]; cbn [forallb]; intros H; auto.
  - apply andb_true_iff in H. destruct H as [Hc Hb]. now rewrite Hc, IH.
  - apply andb_true_iff in H. destruct H as [_ Hb]. auto.
Qed.

Lemma space_runs_collapsed (s : jsstring) :
  single_spaced false (replace_all (Plus CSpace) (by_str (lit " ")) s) = true
  /\ (match s with c :: _ => is_space c = false | [] => True end ->
      single_spaced true (replace_all (Plus CSpace) (by_str (lit " ")) s) = true).
Proof.
  revert s.
  apply (replace_all_ind (Plus CSpace) (by_str (lit " "))
           (fun s out =>
              single_spaced false out = true
              /\ (match s with c :: _ => is_space c = false | [] => True end ->
                  single_spaced true out = true)));
    cbv beta.
  - rewrite replace_all_nil. cbn. auto.
  - intros c s Hm [IH _]. rewrite match_here_plus_cons in Hm.
    cbn [cls_mem] in Hm. destruct (is_space c) eqn:Ec; [discriminate|].
    cbn [single_spaced]. rewrite Ec. auto.
  - intros c s cap Hm _. rewrite match_here_plus_cons in Hm.
    destruct (cls_mem CSpace c); discriminate.
  - intros c s n cap Hm Hn [_ IH]. rewrite match_here_plus_cons in Hm.
    cbn [cls_mem] in Hm. destruct (is_space c) eqn:Ec; [|discriminate].
    injection Hm as Hlen _. subst n.
    change (cls_mem CSpace) with is_space in *.
    rewrite skipn_take_while in IH |- *.
    assert (Hd : single_spaced true
                   (replace_all (Plus CSpace) (by_str (lit " "))
                      (drop_while is_space s)) = true).
    { apply IH. destruct (drop_while is_space s) as [|d r] eqn:Ed; [exact I|].
      eapply drop_while_head, Ed. }
    split.
    + change (by_str (lit " ") cap) with [32%N]. cbn [app single_spaced].
      exact Hd.
    + intros H. cbv beta iota in H. congruence.
Qed.

Lemma single_spaced_head (s : jsstring) :
  single_spaced true s = true ->
  match s with c :: _ => is_space c = false | [] => True end.
Proof.
  destruct s as [|c s]; [auto|]. cbn [single_spaced].
  destruct (is_space c); [|auto]. cbn [negb]. now rewrite andb_false_r.
Qed.

(** White space that is already single is left as it is. *)
Lemma space_runs_fixed (s : jsstring) :
  forall prev, single_spaced prev s = true ->
               replace_all (Plus CSpace) (by_str (lit " ")) s = s.
Proof.
  induction s as [|c s IH]; intros prev H; [reflexivity|].
  rewrite replace_all_cons, match_here_plus_cons. cbn [cls_mem].
  cbn [single_spaced] in H. destruct (is_space c) eqn:Ec.
  - apply andb_true_iff in H. destruct H as [H Hs].
    apply andb_true_iff in H. destruct H as [Hc _].
    apply N.eqb_eq in Hc. subst c.
    pose proof (single_spaced_head _ Hs) as Hh.
    change (cls_mem CSpace) with is_space.
    assert (Ht : take_while is_space s = []).
    { destruct s as [|d s]; [reflexivity|]. cbn [take_while]. now rewrite Hh. }
    rewrite Ht. cbn [List.length skipn].
    change (by_str (lit " ") None) with [32%N]. cbn [app].
    rewrite (IH _ Hs). reflexivity.
  - now rewrite (IH _ H).
Qed.

End SpeechTextFacts.

Section SpeechNormalForm.

Lemma sharp_removed (s : jsstring) :
  forallb (fun c => negb (cls_mem (CChar (ch "#")) c))
    (replace_all (Rep true 1 (CChar (ch "#"))) (by_str (lit " ")) s) = true.
Proof.
  apply replace_removes.
  - intros c r H. change (Rep true 1 (CChar (ch "#"))) with (Plus (CChar (ch "#"))) in H.
    rewrite match_here_plus_cons in H.
    destruct (cls_mem (CChar (ch "#")) c); [discriminate | reflexivity].
  - intros c r cap H. change (Rep true 1 (CChar (ch "#"))) with (Plus (CChar (ch "#"))) in H.
    rewrite match_here_plus_cons in H.
    destruct (cls_mem (CChar (ch "#")) c); discriminate.
  - reflexivity.
Qed.

Lemma emphasis_removed (s : jsstring) :
  forallb (fun c => negb (cls_mem (COneOf [ch "*"; ch "_"; ch "~"; ch "`"]) c))
    (replace_all (Chr (COneOf [ch "*"; ch "_"; ch "~"; ch "`"]))
       (by_str (lit " ")) s) = true.
Proof.
  apply replace_removes.
  - intros c r H. rewrite match_here_chr in H.
    destruct (cls_mem _ c); [discriminate | reflexivity].
  - intros c r cap H. rewrite match_here_chr in H.
    destruct (cls_mem _ c); discriminate.
  - reflexivity.
Qed.

Lemma no_markup_char_split (s : jsstring) :
  forallb (fun c => negb (cls_mem (CChar (ch "#")) c)) s = true ->
  forallb (fun c => negb (cls_mem (COneOf [ch "*"; ch "_"; ch "~"; ch "`"]) c)) s
  = true ->
  forallb no_markup_char s = true.
Proof.
  intros H1 H2. rewrite forallb_forall in *. intros c Hc.
  specialize (H1 _ Hc). specialize (H2 _ Hc).
  unfold no_markup_char, markup_chars. cbn [mem cls_mem] in *.
  apply negb_true_iff in H1, H2. apply negb_true_iff.
  now rewrite H1, H2.
Qed.

End SpeechNormalForm.

(** X7.  What [processTextForSpeech] returns, whatever the text: it
    has no leading and no trailing white space; every white-space code
    unit in it is a single U+0020 between two other code units; and it
    holds none of the code units # * _ ~ and backquote. *)
Theorem processTextForSpeech_normal_form (raw : jsstring) :
  trimmed (processTextForSpeech raw) = true
  /\ single_spaced false (processTextForSpeech raw) = true
  /\ forallb no_markup_char (processTextForSpeech raw) = true.
Proof.
  unfold processTextForSpeech. split; [apply trim_trimmed|]. split.
  - apply single_spaced_trim, space_runs_collapsed.
  - eapply forallb_subseq; [apply trim_subseq|].
    apply no_markup_char_split.
    + do 6 (apply replace_keeps; [reflexivity|]). apply sharp_removed.
    + apply replace_keeps; [reflexivity|]. apply emphasis_removed.
Qed.

(** X8.  Text that is already plain is spoken as written:
    [processTextForSpeech] returns unchanged a text in which none of
    the patterns it replaces occurs (a run of #, a run of three or more
    hyphens, three asterisks, three full stops, a tag, one of * _ ~
    and backquote), whose white space is single U+0020 between other
    code units, and which has no leading or trailing white space. *)
Theorem processTextForSpeech_fixes_plain_text (t : jsstring) :
  forallb (fun r => negb (occurs r t)) speech_patterns = true ->
  single_spaced false t = true ->
  trimmed t = true ->
  processTextForSpeech t = t.
Proof.
  intros H Hs Ht. unfold speech_patterns in H. cbn [forallb] in H.
  repeat (apply andb_true_iff in H; destruct H as [?H H]).
  repeat match goal with
         | X : negb _ = true |- _ => apply negb_true_iff in X
         end.
  unfold processTextForSpeech.
  repeat match goal with
         | X : occurs ?r t = false |- _ =>
             rewrite (occurs_false_replace r _ t X); clear X
         end.
  rewrite (space_runs_fixed _ _ Hs). now apply trimmed_trim.
Qed.

Lemma processTextForSpeech_fixes_plain_text_witness :
  processTextForSpeech (lit "Bonjour ! Il fait 20 - 22 degres, non ?")
  = lit "Bonjour ! Il fait 20 - 22 degres, non ?".
Proof.
  apply processTextForSpeech_fixes_plain_text; vm_compute; reflexivity.
Defined.

(* ================================================================== *)
(** * The chunks of a text *)
(* ================================================================== *)

Section ChunkFacts.

Lemma filter_word_spaces (a : jsstring) :
  forallb is_space a = true -> List.filter of_a_word a = [].
Proof.
  induction a as [|c a IH]; [reflexivity|]. cbn [forallb List.filter].
  intros H. apply andb_true_iff in H. destruct H as [Hc Ha].
  unfold of_a_word at 1. rewrite Hc. cbn [negb andb]. auto.
Qed.

Lemma filter_word_trim (x : jsstring) :
  List.filter of_a_word (trim x) = List.filter of_a_word x.
Proof.
  destruct (trim_split x) as (a & b & Hx & Ha & Hb).
  rewrite Hx at 2. rewrite !filter_app.
  now rewrite (filter_word_spaces _ Ha), (filter_word_spaces _ Hb), app_nil_r.
Qed.

Lemma filter_word_chunks (ms : list jsstring) :
  List.filter of_a_word
    (concat (List.filter (fun s => 0 <? List.length s) (List.map trim ms)))
  = List.filter of_a_word (concat ms).
Proof.
  induction ms as [|x ms IH]; [reflexivity|].
  cbn [List.map List.filter concat]. rewrite filter_app, <- IH.
  rewrite <- (filter_word_trim x).
  destruct (trim x) as [|c r]; [reflexivity|].
  cbn [List.length Nat.ltb Nat.leb concat]. now rewrite filter_app.
Qed.

Lemma filter_word_matches :
  forall n s, List.length s <= n ->
              List.filter of_a_word (concat (matches_from re_sentence 0 s))
              = List.filter of_a_word s.
Proof.
  induction n as [|n IH]; intros s Hn.
  - destruct s; [reflexivity | cbn in Hn; lia].
  - destruct s as [|c s]; [reflexivity|].
    rewrite matches_from_sentence.
    destruct (is_terminal c) eqn:Ht.
    + rewrite IH by (cbn in Hn; lia). cbn [List.filter].
      unfold of_a_word at 2. rewrite Ht, andb_false_r. reflexivity.
    + cbn [concat]. rewrite filter_app, IH.
      * rewrite <- filter_app. now rewrite firstn_skipn.
      * pose proof (skipn_sentence_shorter c s Ht). lia.
Qed.

Lemma no_match_all_marks (s : jsstring) :
  matches_from re_sentence 0 s = [] -> forallb is_terminal s = true.
Proof.
  induction s as [|c s IH]; [reflexivity|].
  rewrite matches_from_sentence. cbn [forallb].
  destruct (is_terminal c); [exact IH | discriminate].
Qed.

Lemma removelast_snoc (x : jsstring) p : removelast (x ++ [p]) = x.
Proof. now rewrite removelast_app, app_nil_r by discriminate. Qed.

Lemma forallb_removelast (q : N -> bool) (x : jsstring) :
  forallb q x = true -> forallb q (removelast x) = true.
Proof.
  induction x as [|c x IH]; [auto|]. cbn [forallb removelast].
  intros H. apply andb_true_iff in H. destruct H as [Hc Hx].
  destruct x as [|d x]; [reflexivity|]. cbn [forallb].
  rewrite Hc. cbn [andb]. apply IH, Hx.
Qed.

Lemma trimStart_snoc (run : jsstring) p :
  is_space p = false ->
  exists run', trimStart (run ++ [p]) = run' ++ [p] /\ subseq run' run.
Proof.
  intros Hp. induction run as [|c run [run' [E S]]].
  - exists []. split; [|constructor]. unfold trimStart. cbn. now rewrite Hp.
  - unfold trimStart in *. cbn [app drop_while]. destruct (is_space c).
    + exists run'. split; [exact E | now constructor].
    + exists (c :: run). split; [reflexivity | apply subseq_refl].
Qed.

(** The trimmed match of the sentence pattern at the head of a text
    that starts with no mark holds at most one mark, at its end. *)
Lemma sentence_one_mark c s :
  is_terminal c = false ->
  one_sentence (trim (firstn (sentence_length (c :: s)) (c :: s))) = true.
Proof.
  intros Ht. unfold one_sentence.
  destruct (drop_while not_terminal (c :: s)) as [|p r] eqn:Hd.
  - destruct (sentence_to_end _ Hd) as [-> Hrun]. rewrite firstn_all.
    apply forallb_removelast.
    eapply forallb_subseq; [apply trim_subseq|].
    rewrite <- Hrun. apply take_while_all.
  - destruct (sentence_to_mark _ _ _ Hd) as [-> _].
    assert (Hp : is_space p = false).
    { apply terminal_not_space. apply drop_while_head in Hd.
      rewrite not_terminal_is_terminal in Hd. now apply negb_false_iff in Hd. }
    rewrite app_assoc, trim_app_space_r by apply take_while_all.
    unfold trim.
    destruct (trimStart_snoc (take_while not_terminal (c :: s)) p Hp)
      as (run' & -> & Hsub).
    rewrite trimEnd_snoc_keep by exact Hp. rewrite removelast_snoc.
    eapply forallb_subseq; [exact Hsub | apply take_while_all].
Qed.

Lemma matches_one_mark :
  forall n s, List.length s <= n ->
              Forall (fun x => one_sentence (trim x) = true)
                (matches_from re_sentence 0 s).
Proof.
  induction n as [|n IH]; intros s Hn.
  - destruct s; [constructor | cbn in Hn; lia].
  - destruct s as [|c s]; [constructor|].
    rewrite matches_from_sentence.
    destruct (is_terminal c) eqn:Ht.
    + apply IH. cbn in Hn. lia.
    + constructor; [now apply sentence_one_mark|].
      apply IH. pose proof (skipn_sentence_shorter c s Ht). lia.
Qed.

Lemma chunks_shape (ms : list jsstring) :
  Forall (fun x => one_sentence (trim x) = true) ms ->
  Forall (fun c => c <> [] /\ trimmed c = true /\ one_sentence c = true)
    (List.filter (fun s => 0 <? List.length s) (List.map trim ms)).
Proof.
  induction 1 as [|x ms Hx _ IH]; [constructor|].
  cbn [List.map List.filter].
  destruct (trim x) as [|c r] eqn:E; [exact IH|].
  cbn [List.length Nat.ltb Nat.leb]. constructor; [|exact IH].
  split; [discriminate|]. split; [|exact Hx].
  rewrite <- E. apply trim_trimmed.
Qed.

End ChunkFacts.

(** X9.  The chunks of a text lose no word.  The code units of the
    chunks [splitIntoSentences] gives, in order, are those of the text
    but for white space and terminal marks: what is neither is kept,
    once, in its place.  And either the text holds nothing but terminal
    marks and is itself the one chunk, or every chunk is non-empty,
    has no leading or trailing white space, and holds at most one
    terminal mark, as its last code unit. *)
Theorem chunks_keep_every_word (t : jsstring) :
  List.filter of_a_word (concat (splitIntoSentences t))
  = List.filter of_a_word t
  /\ ((splitIntoSentences t = [t] /\ forallb is_terminal t = true)
      \/ Forall (fun c => c <> [] /\ trimmed c = true /\ one_sentence c = true)
           (splitIntoSentences t)).
Proof.
  unfold splitIntoSentences, match_all.
  pose proof (filter_word_matches _ t (le_n _)) as Hw.
  pose proof (matches_one_mark _ t (le_n _)) as Hm.
  destruct (matches_from re_sentence 0 t) as [|x l] eqn:E.
  - split; [cbn [concat]; now rewrite app_nil_r|].
    left. split; [reflexivity | now apply no_match_all_marks].
  - split; [now rewrite filter_word_chunks|].
    right. now apply chunks_shape.
Qed.

(* ================================================================== *)
(** * The formatter: length, the guard, the fallbacks *)
(* ================================================================== *)

Section LengthFacts.

Lemma matches_min_length (r : regex) :
  forall w, matches r w -> min_length r <= List.length w.
Proof.
  induction r as [|k|r1 IH1 r2 IH2|r1 IH1 r2 IH2|g n k|r IH]; intros w H;
    cbn [matches min_length] in *.
  - subst. cbn. lia.
  - destruct H as [c [-> _]]. cbn. lia.
  - destruct H as (w1 & w2 & -> & H1 & H2). rewrite length_app.
    specialize (IH1 _ H1). specialize (IH2 _ H2). lia.
  - destruct H as [H|H]; [specialize (IH1 _ H) | specialize (IH2 _ H)]; lia.
  - tauto.
  - auto.
Qed.

Lemma match_here_min_length (r : regex) (s : jsstring) n cap :
  match_here r s = Some (n, cap) -> min_length r <= n.
Proof.
  intros H. destruct (match_here_sound _ _ _ _ H) as (Hn & Hm & _).
  apply matches_min_length in Hm. rewrite length_firstn in Hm. lia.
Qed.

Lemma match_here_group_length (r : regex) (s : jsstring) n cap :
  match_here r s = Some (n, cap) -> List.length (by_group1 cap) <= n.
Proof.
  intros H. destruct (match_here_sound _ _ _ _ H) as (_ & _ & [->|Hc]).
  - cbn. lia.
  - destruct Hc as (i & j & Hij & ->). cbn [by_group1].
    rewrite length_firstn. lia.
Qed.

(** When what replaces a match is no longer than the match, the text
    does not grow. *)
Lemma replace_no_longer (r : regex) (f : option jsstring -> jsstring) :
  (forall s n cap, match_here r s = Some (n, cap) -> List.length (f cap) <= n) ->
  forall s, List.length (replace_all r f s) <= List.length s.
Proof.
  intros Hf.
  apply (replace_all_ind r f (fun s out => List.length out <= List.length s));
    cbv beta.
  - rewrite replace_all_nil.
    destruct (match_here r []) as [[n cap]|] eqn:E; [|cbn; lia].
    pose proof (Hf _ _ _ E) as H1.
    destruct (match_here_sound _ _ _ _ E) as (H2 & _). cbn in H2. lia.
  - intros c s _ IH. cbn [List.length]. lia.
  - intros c s cap E IH. rewrite length_app. cbn [List.length].
    pose proof (Hf _ _ _ E). lia.
  - intros c s n cap E Hn IH. rewrite length_app. cbn [List.length].
    pose proof (Hf _ _ _ E). rewrite length_skipn in IH. lia.
Qed.

Lemma replace_by_str_no_longer (r : regex) (rep s : jsstring) :
  List.length rep <= min_length r ->
  List.length (replace_all r (by_str rep) s) <= List.length s.
Proof.
  intros H. apply replace_no_longer. intros t n cap E.
  apply match_here_min_length in E. unfold by_str. lia.
Qed.

Lemma replace_by_group1_no_longer (r : regex) (s : jsstring) :
  List.length (replace_all r by_group1 s) <= List.length s.
Proof. apply replace_no_longer, match_here_group_length. Qed.

Lemma subseq_length (a b : jsstring) :
  subseq a b -> List.length a <= List.length b.
Proof. induction 1; cbn [List.length]; lia. Qed.

Lemma trim_no_longer (s : jsstring) : List.length (trim s) <= List.length s.
Proof. apply subseq_length, trim_subseq. Qed.

Lemma search_suffix (r : regex) :
  forall s i j n cap,
    search r i s = Some (j, n, cap) ->
    exists pre s', s = pre ++ s' /\ match_here r s' = Some (n, cap).
Proof.
  induction s as [|c s IH]; intros i j n cap H; cbn [search] in H.
  - destruct (match_here r []) as [[n' cap']|] eqn:E; [|discriminate].
    injection H as _ <- <-. exists [], []. auto.
  - destruct (match_here r (c :: s)) as [[n' cap']|] eqn:E.
    + injection H as _ <- <-. exists [], (c :: s). auto.
    + destruct (IH _ _ _ _ H) as (pre & s' & -> & Hm).
      exists (c :: pre), s'. auto.
Qed.

Lemma replace_chain_no_longer (rules : list (regex * jsstring)) :
  forallb (fun rule => List.length (snd rule) <=? min_length (fst rule)) rules
  = true ->
  forall s, List.length (replace_chain rules s) <= List.length s.
Proof.
  unfold replace_chain.
  induction rules as [|[r rep] rules IH]; intros H s; cbn [fold_left]; [lia|].
  cbn [forallb fst snd] in H. apply andb_true_iff in H. destruct H as [H1 H2].
  apply Nat.leb_le in H1.
  etransitivity; [apply IH, H2|]. cbn [fst snd].
  now apply replace_by_str_no_longer.
Qed.

Lemma unescape_no_longer (s : jsstring) :
  List.length (unescape s) <= List.length s.
Proof.
  unfold unescape.
  etransitivity; [apply replace_by_str_no_longer; cbn; lia|].
  apply replace_by_str_no_longer. cbn. lia.
Qed.

Lemma strip_label_no_longer (s : jsstring) :
  List.length (strip_label s) <= List.length s.
Proof.
  unfold strip_label. destruct (startsWith s (lit "Response:")); [|lia].
  etransitivity; [apply trim_no_longer|].
  unfold substring_from. rewrite length_skipn. lia.
Qed.

Lemma extract_output_no_longer (s : jsstring) :
  List.length (extract_output s) <= List.length s.
Proof.
  unfold extract_output.
  destruct (startsWith (trim s) (lit "{") && includes s (litq "'output'"));
    [|lia].
  destruct (search re_output 0 s) as [[[i n] [[|c g]|]]|] eqn:E; try lia.
  destruct (search_suffix _ _ _ _ _ _ E) as (pre & s' & -> & Hm).
  pose proof (match_here_group_length _ _ _ _ Hm) as Hg.
  destruct (match_here_sound _ _ _ _ Hm) as (Hn & _).
  cbn [by_group1] in Hg.
  etransitivity; [apply (unescape_no_longer (c :: g))|].
  rewrite length_app. lia.
Qed.

Lemma strip_markdown_no_longer (s : jsstring) :
  List.length (strip_markdown s) <= List.length s.
Proof.
  unfold strip_markdown, markdown_rules. cbn [fold_left].
  repeat (etransitivity; [apply replace_by_group1_no_longer|]). lia.
Qed.

End LengthFacts.

(** X10.  Cleaning never makes a text longer: every step of
    [cleanHtmlAndFormatText] replaces what it matches by something no
    longer, so the text it returns has at most as many code units as
    the text it is given. *)
Theorem cleanHtmlAndFormatText_no_longer (text : jsstring) :
  List.length (cleanHtmlAndFormatText text) <= List.length text.
Proof.
  unfold cleanHtmlAndFormatText.
  etransitivity; [apply trim_no_longer|].
  etransitivity; [apply replace_by_str_no_longer; cbn; lia|].
  etransitivity; [apply strip_markdown_no_longer|].
  etransitivity; [apply replace_chain_no_longer; reflexivity|].
  etransitivity; [apply unescape_no_longer|].
  etransitivity; [apply extract_output_no_longer|].
  apply strip_label_no_longer.
Qed.

Section GuardFacts.

Variable E : Engine.

Lemma digit_not_space c : is_digit c = true -> is_space c = false.
Proof.
  unfold is_digit. intros H. apply andb_true_iff in H. destruct H as [H1 H2].
  apply N.leb_le in H1, H2.
  assert (c = 48 \/ c = 49 \/ c = 50 \/ c = 51 \/ c = 52 \/ c = 53 \/ c = 54
          \/ c = 55 \/ c = 56 \/ c = 57)%N as Hc by lia.
  repeat (destruct Hc as [->|Hc]; [reflexivity|]). now subst.
Qed.

Lemma parse_number_head c r l r' :
  parse_number (c :: r) = Some (l, r') -> is_space c = false.
Proof.
  unfold parse_number. destruct (c =? 45)%N eqn:E45.
  - apply N.eqb_eq in E45. now subst.
  - unfold parse_int. destruct (c =? 48)%N eqn:E48.
    + apply N.eqb_eq in E48. now subst.
    + destruct (is_digit c) eqn:Ed; [intros _; now apply digit_not_space|].
      discriminate.
Qed.

(** What a text parses to when it starts, white space apart, with a
    brace or a bracket: an object or an array. *)
Lemma parse_value_guarded fuel s v r :
  parse_value fuel s = Ok (v, r) ->
  startsWith (trim s) (lit "{") || startsWith (trim s) (lit "[") = true ->
  (exists ms, v = Object ms) \/ (exists l, v = Array l).
Proof.
  destruct fuel as [|f]; [discriminate|]. cbn [parse_value].
  destruct (skip_ws s) as [|c s1] eqn:Es; [discriminate|].
  destruct (c =? 123)%N eqn:E1.
  { intros H _. left. destruct (skip_ws s1) as [|x r1]; [discriminate|].
    destruct (x =? 125)%N; [injection H as <- _; eauto|].
    eapply parse_members_object, H. }
  destruct (c =? 91)%N eqn:E2.
  { intros H _. right. destruct (skip_ws s1) as [|x r1]; [discriminate|].
    destruct (x =? 93)%N; [injection H as <- _; eauto|].
    eapply parse_elements_array, H. }
  intros H G. exfalso.
  assert (Hc : is_space c = false).
  { destruct (c =? 34)%N eqn:E3; [apply N.eqb_eq in E3; now subst|].
    destruct (c =? 116)%N eqn:E4; [apply N.eqb_eq in E4; now subst|].
    destruct (c =? 102)%N eqn:E5; [apply N.eqb_eq in E5; now subst|].
    destruct (c =? 110)%N eqn:E6; [apply N.eqb_eq in E6; now subst|].
    destruct (parse_number (c :: s1)) as [[l r']|] eqn:En; [|discriminate].
    eapply parse_number_head, En. }
  rewrite (skip_ws_trim _ _ _ Es Hc) in G.
  change (lit "{") with [123%N] in G. change (lit "[") with [91%N] in G.
  cbn [startsWith] in G. rewrite E1, E2 in G. discriminate.
Qed.

Lemma parse_guarded text v :
  JSON.parse text = Normal v ->
  startsWith (trim text) (lit "{") || startsWith (trim text) (lit "[") = true ->
  (exists ms, v = Object ms) \/ (exists l, v = Array l).
Proof.
  intros H G. destruct (parse_result _ _ H) as [r Hr].
  eapply parse_value_guarded; eauto.
Qed.

End GuardFacts.

(** X11.  Behind its guard [formatResponseText] meets objects and
    arrays only.  The text is parsed only when, white space apart, it
    starts with a brace or a bracket, and what such a text parses to is
    an object or an array.  So the first arm of the chain (a parsed
    value that is a string) is never taken, and a successful parse
    always returns from inside the [try] block: the block is never left
    without a return.  A text that is a JSON string literal is
    therefore cleaned as it is, quotes and escapes included. *)
Theorem parsed_value_is_object_or_array (E : Engine) (text : jsstring) :
  (forall v,
      startsWith (trim text) (lit "{") || startsWith (trim text) (lit "[") = true ->
      JSON.parse text = Normal v ->
      ((exists ms, v = Object ms) \/ (exists l, v = Array l))
      /\ is_string (Some v) = false
      /\ exists s, try_body E text = Normal (Some s))
  /\ (startsWith (trim text) (litq "'") = true ->
      formatResponseText E text = Normal (cleanHtmlAndFormatText text)).
Proof.
  split.
  - intros v G H. pose proof (parse_guarded _ _ H G) as Hv.
    split; [exact Hv|]. split.
    + destruct Hv as [[ms ->]|[l ->]]; reflexivity.
    + destruct Hv as [[ms ->]|[l ->]].
      * rewrite (try_body_object E _ _ H). eauto.
      * unfold try_body. rewrite H. unfold bind at 1. cbv beta zeta.
        unfold else_if, has_string, has_nested_string. simpl.
        destruct l as [|x l']; simpl; [eexists; reflexivity|].
        destruct x; simpl; try (eexists; reflexivity);
          destruct (first_long_string l'); eexists; reflexivity.
  - intros Hq. apply formatResponseText_plain.
    + destruct (trim text) as [|c r]; [discriminate|].
      change (litq "'") with [34%N] in Hq. cbn [startsWith] in Hq |- *.
      apply andb_true_iff in Hq. destruct Hq as [Hq _].
      apply N.eqb_eq in Hq. now subst.
    + destruct (trim text) as [|c r]; [discriminate|].
      change (litq "'") with [34%N] in Hq. cbn [startsWith] in Hq |- *.
      apply andb_true_iff in Hq. destruct Hq as [Hq _].
      apply N.eqb_eq in Hq. now subst.
Qed.

Lemma parsed_value_is_object_or_array_witness :
  (exists s, try_body small_integers (litq " {'a': 1}") = Normal (Some s))
  /\ formatResponseText small_integers (litq "'Bonjour'")
     = Normal (cleanHtmlAndFormatText (litq "'Bonjour'")).
Proof.
  split.
  - apply (proj1 (parsed_value_is_object_or_array small_integers
                    (litq " {'a': 1}"))
             (Object [(lit "a", Number (lit "1"))])); reflexivity.
  - apply (proj2 (parsed_value_is_object_or_array small_integers
                    (litq "'Bonjour'"))). reflexivity.
Defined.

Section LongStringFacts.

Lemma first_long_string_first (before after : list value) (s : jsstring) :
  forallb (fun v => negb (long_string v)) before = true ->
  20 < List.length s ->
  first_long_string (before ++ String_ s :: after) = Some s.
Proof.
  intros Hb Hs. induction before as [|v before IH]; cbn [app first_long_string].
  - apply Nat.ltb_lt in Hs. now rewrite Hs.
  - cbn [forallb] in Hb. apply andb_true_iff in Hb. destruct Hb as [Hv Hb].
    destruct v; try (now apply IH).
    cbn [long_string] in Hv. apply negb_true_iff in Hv. rewrite Hv.
    now apply IH.
Qed.

End LongStringFacts.

(** X12.  The fallback on a long string.  When the parsed object has
    no string under any of the candidate fields, the first of its
    properties, in property order, that is a string of more than 20
    code units is cleaned and returned; strings of 20 code units or
    fewer and values that are not strings are passed over.  The same
    holds of a parsed array whose first element is not a string. *)
Theorem first_long_string_wins (E : Engine) (text : jsstring) :
  (forall ms before k s after,
      JSON.parse text = Normal (Object ms) ->
      first_match ms candidates = None ->
      ms = before ++ (k, String_ s) :: after ->
      forallb (fun kv => negb (long_string (snd kv))) before = true ->
      20 < List.length s ->
      formatResponseText E text = Normal (cleanHtmlAndFormatText s))
  /\ (forall l before s after,
        JSON.parse text = Normal (Array l) ->
        is_string (hd_error l) = false ->
        l = before ++ String_ s :: after ->
        forallb (fun v => negb (long_string v)) before = true ->
        20 < List.length s ->
        formatResponseText E text = Normal (cleanHtmlAndFormatText s)).
Proof.
  split.
  - intros ms before k s after Hp Hc -> Hb Hs.
    rewrite (formatResponseText_object E _ _ Hp), Hc.
    rewrite map_app. cbn [List.map snd].
    rewrite first_long_string_first; [reflexivity| |exact Hs].
    rewrite forallb_forall in Hb |- *. intros v Hv.
    apply in_map_iff in Hv. destruct Hv as [kv [<- Hkv]]. auto.
  - intros l before s after Hp Hh -> Hb Hs.
    rewrite (formatResponseText_array E _ _ Hp).
    rewrite first_long_string_first by assumption.
    destruct before as [|v before]; cbn [app hd_error is_string] in Hh |- *;
      [discriminate|].
    destruct v; try reflexivity. discriminate.
Qed.

Lemma first_long_string_wins_witness :
  formatResponseText small_integers
    (litq "{'id': 7, 'lang': 'fr', 'reply': 'Voici la reponse attendue.'}")
  = Normal (cleanHtmlAndFormatText (lit "Voici la reponse attendue."))
  /\ formatResponseText small_integers
       (litq "[7, 'court', 'Voici la reponse attendue.']")
     = Normal (cleanHtmlAndFormatText (lit "Voici la reponse attendue.")).
Proof.
  split.
  - apply (proj1 (first_long_string_wins small_integers _)
             [(lit "id", Number (lit "7")); (lit "lang", String_ (lit "fr"));
              (lit "reply", String_ (lit "Voici la reponse attendue."))]
             [(lit "id", Number (lit "7")); (lit "lang", String_ (lit "fr"))]
             (lit "reply") (lit "Voici la reponse attendue.") []);
      try reflexivity. vm_compute. lia.
  - apply (proj2 (first_long_string_wins small_integers _)
             [Number (lit "7"); String_ (lit "court");
              String_ (lit "Voici la reponse attendue.")]
             [Number (lit "7"); String_ (lit "court")]
             (lit "Voici la reponse attendue.") []);
      try reflexivity. vm_compute. lia.
Defined.

Section RequestFacts.

Variable E : Engine.

Lemma request_body_text (message : jsstring) :
  request_body E message
  = [123; 34; 109; 101; 115; 115; 97; 103; 101; 34; 58; 34]%N
    ++ quote_chars false message ++ [34; 125]%N.
Proof.
  unfold request_body. cbn [stringify List.map join fst snd].
  unfold quote.
  change (lit "{") with [123%N]. change (lit ":") with [58%N].
  change (lit "}") with [125%N].
  change (quote_chars false (lit "message"))
    with [109; 101; 115; 115; 97; 103; 101]%N.
  cbn [app]. rewrite <- !app_assoc. reflexivity.
Qed.

Lemma parse_value_request_body (message : jsstring) (f : nat) :
  forallb code_unit message = true ->
  parse_value (S (S (S f))) (request_body E message)
  = Ok (Object [(lit "message", String_ message)], []).
Proof.
  intros Hs. rewrite request_body_text.
  cbn [app parse_value parse_members skip_ws drop_while is_ws N.eqb Pos.eqb orb
       parse_chars simple_escape N.ltb N.compare Pos.compare Pos.compare_cont
       rev].
  rewrite (parse_chars_quote message false [] [125%N] Hs).
  reflexivity.
Qed.

End RequestFacts.

(** X13.  The request loses nothing of the message.  The body
    [sendMessageToWebhook] posts, [JSON.stringify({ message })], is a
    JSON text that parses back to an object whose one field, message,
    holds the message, code unit for code unit: quotes, backslashes,
    control characters and lone surrogates included. *)
Theorem request_body_round_trip (E : Engine) (message : jsstring) :
  forallb code_unit message = true ->
  JSON.parse (request_body E message)
  = Normal (Object [(lit "message", String_ message)]).
Proof.
  intros Hs. unfold JSON.parse.
  assert (exists f, 2 * List.length (request_body E message) + 2 = S (S (S f)))
    as [f ->].
  { exists (2 * List.length (request_body E message) - 1).
    rewrite request_body_text, length_app. cbn [List.length]. lia. }
  now rewrite (parse_value_request_body E message f Hs).
Qed.

Lemma request_body_round_trip_witness :
  JSON.parse (request_body small_integers
                (litq "Dis 'oui'" ++ [92; 10; 55357; 7]%N))
  = Normal (Object [(lit "message",
                     String_ (litq "Dis 'oui'" ++ [92; 10; 55357; 7]%N))]).
Proof.
  apply request_body_round_trip. reflexivity.
Defined.

(* ================================================================== *)
(** * App: failures of the exchange *)
(* ================================================================== *)

Section NoticeFacts.

Lemma range_check (P : N -> bool) (lo : N) (n : nat) :
  forallb (fun k => P (lo + N.of_nat k)%N) (seq 0 n) = true ->
  forall x, (lo <= x < lo + N.of_nat n)%N -> P x = true.
Proof.
  intros H x Hx. rewrite forallb_forall in H.
  specialize (H (N.to_nat (x - lo))).
  replace (lo + N.of_nat (N.to_nat (x - lo)))%N with x in H by lia.
  apply H. apply in_seq. lia.
Qed.

Lemma str_eqb_eq (a b : jsstring) : str_eqb a b = true -> a = b.
Proof. unfold str_eqb. destruct (list_eq_dec N.eq_dec a b); [auto|discriminate]. Qed.

Lemma str_eqb_refl (a : jsstring) : str_eqb a a = true.
Proof. unfold str_eqb. destruct (list_eq_dec N.eq_dec a a); [auto|contradiction]. Qed.

End NoticeFacts.

(** X14.  What the user is told when the webhook answers with an HTTP
    error.  A response that is not ok makes [sendMessageToWebhook]
    throw an error whose message ends with the status, and the [catch]
    of [handleSendMessage] turns it into a notice by the first digit of
    that status: the request was rejected for 400 to 499, the server is
    unavailable for 500 to 599, and for 300 to 399 the message itself
    after the word Error. *)
Theorem http_error_notice (E : Engine) (engine_message : error -> jsstring)
        (r : response) :
  ok r = false ->
  sendMessageToWebhook E (Responded r) = Throw (HttpError (status r))
  /\ ((400 <= status r < 500)%N ->
      App.errorMessage engine_message (HttpError (status r))
      = App.rejected_notice)
  /\ ((500 <= status r < 600)%N ->
      App.errorMessage engine_message (HttpError (status r))
      = App.unavailable_notice)
  /\ ((300 <= status r < 400)%N ->
      App.errorMessage engine_message (HttpError (status r))
      = lit "Error: " ++ App.message engine_message (HttpError (status r))).
Proof.
  intros Hok. split; [|split; [|split]].
  - unfold sendMessageToWebhook. rewrite Hok. reflexivity.
  - intros Hs. apply str_eqb_eq.
    apply (range_check
             (fun s => str_eqb (App.errorMessage engine_message (HttpError s))
                         (App.rejected_notice))
             400 100); [vm_compute; reflexivity | lia].
  - intros Hs. apply str_eqb_eq.
    apply (range_check
             (fun s => str_eqb (App.errorMessage engine_message (HttpError s))
                         (App.unavailable_notice))
             500 100); [vm_compute; reflexivity | lia].
  - intros Hs. apply str_eqb_eq.
    apply (range_check
             (fun s => str_eqb (App.errorMessage engine_message (HttpError s))
                         (lit "Error: "
                          ++ App.message engine_message (HttpError s)))
             300 100); [vm_compute; reflexivity | lia].
Qed.

Lemma http_error_notice_witness :
  sendMessageToWebhook small_integers
    (Responded {| ok := false; status := 404; body := lit "Not Found" |})
  = Throw (HttpError 404)
  /\ App.errorMessage (fun _ => lit "Failed to fetch") (HttpError 404)
     = App.rejected_notice
  /\ App.errorMessage (fun _ => lit "Failed to fetch") (HttpError 503)
     = App.unavailable_notice
  /\ App.errorMessage (fun _ => lit "Failed to fetch") (HttpError 304)
     = lit "Error: HTTP error! Status: 304".
Proof.
  split; [|split; [|split]].
  - apply (http_error_notice small_integers (fun _ => lit "Failed to fetch")
             {| ok := false; status := 404; body := lit "Not Found" |}).
    reflexivity.
  - apply (proj1 (proj2 (http_error_notice small_integers
                           (fun _ => lit "Failed to fetch")
                           {| ok := false; status := 404; body := [] |}
                           eq_refl))).
    cbn [status]. lia.
  - apply (proj1 (proj2 (proj2 (http_error_notice small_integers
                           (fun _ => lit "Failed to fetch")
                           {| ok := false; status := 503; body := [] |}
                           eq_refl)))).
    cbn [status]. lia.
  - apply (proj2 (proj2 (proj2 (http_error_notice small_integers
                           (fun _ => lit "Failed to fetch")
                           {| ok := false; status := 304; body := [] |}
                           eq_refl)))).
    cbn [status]. lia.
Defined.

(* ================================================================== *)
(** * App: the conversations *)
(* ================================================================== *)

Section ConversationFacts.

Import App.

Lemma update_ids (c : Conversation.t) (l : list Conversation.t) :
  List.map Conversation.id
    (List.map (fun x => if str_eqb (Conversation.id x) (Conversation.id c)
                        then c else x) l)
  = List.map Conversation.id l.
Proof.
  induction l as [|x l IH]; [reflexivity|]. cbn [List.map]. rewrite IH.
  destruct (str_eqb (Conversation.id x) (Conversation.id c)) eqn:Ex;
    [|reflexivity].
  apply str_eqb_eq in Ex. now rewrite Ex.
Qed.

Lemma update_absent (c : Conversation.t) (l : list Conversation.t) :
  existsb (fun x => str_eqb (Conversation.id x) (Conversation.id c)) l = false ->
  List.map (fun x => if str_eqb (Conversation.id x) (Conversation.id c)
                     then c else x) l = l.
Proof.
  induction l as [|x l IH]; [reflexivity|]. cbn [existsb List.map].
  intros H. apply orb_false_iff in H. destruct H as [Hx Hl].
  now rewrite Hx, IH.
Qed.

Lemma update_found (c : Conversation.t) (l : list Conversation.t) :
  existsb (fun x => str_eqb (Conversation.id x) (Conversation.id c)) l = true ->
  List.find (fun x => str_eqb (Conversation.id x) (Conversation.id c))
    (List.map (fun x => if str_eqb (Conversation.id x) (Conversation.id c)
                        then c else x) l)
  = Some c.
Proof.
  induction l as [|x l IH]; [discriminate|]. cbn [existsb List.map List.find].
  destruct (str_eqb (Conversation.id x) (Conversation.id c)) eqn:Ex.
  - intros _. now rewrite str_eqb_refl.
  - cbn [orb]. rewrite Ex. exact IH.
Qed.

Lemma existsb_ids (k : jsstring) (l l' : list Conversation.t) :
  List.map Conversation.id l = List.map Conversation.id l' ->
  existsb (fun x => str_eqb (Conversation.id x) k) l
  = existsb (fun x => str_eqb (Conversation.id x) k) l'.
Proof.
  revert l'. induction l as [|x l IH]; intros [|x' l'] H; try discriminate;
    [reflexivity|].
  cbn [List.map] in H. injection H as Hx Hl. cbn [existsb].
  now rewrite Hx, (IH _ Hl).
Qed.

Lemma find_none_existsb (A : Type) (p : A -> bool) (l : list A) :
  existsb p l = false -> List.find p l = None.
Proof.
  induction l as [|x l IH]; [reflexivity|]. cbn [existsb List.find].
  intros H. apply orb_false_iff in H. destruct H as [Hx Hl].
  now rewrite Hx, IH.
Qed.

Lemma find_existsb (A : Type) (p : A -> bool) (l : list A) :
  existsb p l = true -> exists x, List.find p l = Some x /\ p x = true.
Proof.
  induction l as [|x l IH]; [discriminate|]. cbn [existsb List.find].
  destruct (p x) eqn:Hx; [eauto|]. exact IH.
Qed.

End ConversationFacts.

(** X15.  [updateConversation] works by id.  It keeps the number, the
    order and the ids of the stored conversations; the conversations
    whose id is not that of the updated one are left as they are; when
    some stored conversation has that id, looking the id up afterwards
    gives the updated conversation; and when none has it, the state is
    left unchanged: the update is dropped. *)
Theorem updateConversation_by_id (c : App.Conversation.t)
        (prev : App.ConversationState.t) :
  List.map App.Conversation.id
    (App.ConversationState.conversations (App.updateConversation c prev))
  = List.map App.Conversation.id (App.ConversationState.conversations prev)
  /\ (forall x,
        In x (App.ConversationState.conversations prev) ->
        str_eqb (App.Conversation.id x) (App.Conversation.id c) = false ->
        In x (App.ConversationState.conversations (App.updateConversation c prev)))
  /\ (existsb (fun x => str_eqb (App.Conversation.id x) (App.Conversation.id c))
              (App.ConversationState.conversations prev) = true ->
      List.find (fun x => str_eqb (App.Conversation.id x) (App.Conversation.id c))
        (App.ConversationState.conversations (App.updateConversation c prev))
      = Some c)
  /\ (existsb (fun x => str_eqb (App.Conversation.id x) (App.Conversation.id c))
              (App.ConversationState.conversations prev) = false ->
      App.updateConversation c prev = prev).
Proof.
  unfold App.updateConversation, App.set_conversations.
  cbn [App.ConversationState.conversations].
  split; [apply update_ids|]. split; [|split].
  - intros x Hx Hne. apply in_map_iff. exists x. now rewrite Hne.
  - apply update_found.
  - intros H. rewrite (update_absent _ _ H). now destruct prev.
Qed.

Lemma updateConversation_by_id_witness :
  App.updateConversation (App.fresh (lit "b") 3 4)
    (App.initial_state (lit "a") (lit "c") 1 2)
  = App.initial_state (lit "a") (lit "c") 1 2
  /\ List.find (fun x => str_eqb (App.Conversation.id x) (lit "c"))
       (App.ConversationState.conversations
          (App.updateConversation (App.fresh (lit "c") 3 4)
             (App.initial_state (lit "a") (lit "c") 1 2)))
     = Some (App.fresh (lit "c") 3 4).
Proof.
  split.
  - apply (proj2 (proj2 (proj2 (updateConversation_by_id
             (App.fresh (lit "b") 3 4)
             (App.initial_state (lit "a") (lit "c") 1 2))))).
    reflexivity.
  - apply (proj1 (proj2 (proj2 (updateConversation_by_id
             (App.fresh (lit "c") 3 4)
             (App.initial_state (lit "a") (lit "c") 1 2))))).
    reflexivity.
Defined.

Section ExchangeFacts.

Import App.

Lemma current_found (createdAt updatedAt : N) (st : ConversationState.t) :
  current_is_stored st = true ->
  Conversation.id (currentConversation createdAt updatedAt st)
  = ConversationState.currentConversationId st
  /\ In (currentConversation createdAt updatedAt st)
        (ConversationState.conversations st).
Proof.
  unfold current_is_stored, currentConversation. intros H.
  destruct (find_existsb _ _ _ H) as (x & Hf & Hx). rewrite Hf.
  apply str_eqb_eq in Hx. split; [exact Hx|].
  now apply find_some in Hf.
Qed.

Lemma current_fresh (createdAt updatedAt : N) (st : ConversationState.t) :
  current_is_stored st = false ->
  currentConversation createdAt updatedAt st
  = fresh (ConversationState.currentConversationId st) createdAt updatedAt.
Proof.
  unfold current_is_stored, currentConversation. intros H.
  now rewrite (find_none_existsb _ _ _ H).
Qed.

Lemma title_of_length (text : jsstring) : List.length (title_of text) <= 33.
Proof.
  unfold title_of. destruct (30 <? List.length text) eqn:E.
  - rewrite length_app, length_firstn.
    change (List.length (lit "...")) with 3. lia.
  - apply Nat.ltb_ge in E. lia.
Qed.

End ExchangeFacts.

(** X16.  An exchange is recorded.  When the current conversation is
    one of the stored ones and the webhook answers, [handleSendMessage]
    leaves it with its former messages followed by the user's message
    and the agent's, whose text is what [sendMessageToWebhook]
    returned.  The first message of a conversation without title gives
    it its title, the text itself or its first 30 code units followed
    by three full stops, never more than 33 code units; otherwise the
    title is kept.  At the end the page is no longer processing and
    shows no error, ongoing speech has been cancelled, and the answer
    has been handed to [speak] when speech synthesis is supported. *)
Theorem exchange_is_recorded (E : Engine) (engine_message : error -> jsstring)
        (a : App.app) (createdAt updatedAt : N)
        (id1 : jsstring) (timestamp1 updatedAt1 : N)
        (id2 : jsstring) (timestamp2 updatedAt2 : N)
        (text response : jsstring) (f : fetched) :
  App.current_is_stored (App.state a) = true ->
  sendMessageToWebhook E f = Normal response ->
  let cur := App.currentConversation createdAt updatedAt (App.state a) in
  let a' := App.exchange E engine_message (App.rendered createdAt updatedAt a)
              id1 timestamp1 updatedAt1 id2 timestamp2 updatedAt2 text f a in
  forall createdAt' updatedAt',
    let cur' := App.currentConversation createdAt' updatedAt' (App.state a') in
    App.Conversation.messages cur'
    = App.Conversation.messages cur
      ++ [ {| App.Message.id := id1; App.Message.text := text;
              App.Message.isUser := true;
              App.Message.timestamp := timestamp1 |};
           {| App.Message.id := id2; App.Message.text := response;
              App.Message.isUser := false;
              App.Message.timestamp := timestamp2 |} ]
    /\ App.Conversation.title cur'
       = (if (List.length (App.Conversation.messages cur) =? 0)
             && match App.Conversation.title cur with [] => true | _ => false end
          then App.title_of text else App.Conversation.title cur)
    /\ List.length (App.title_of text) <= 33
    /\ App.Conversation.id cur' = App.Conversation.id cur
    /\ App.ConversationState.isProcessing (App.state a') = false
    /\ App.ConversationState.error (App.state a') = None
    /\ App.speech a'
       = (let w := if isSpeaking (hk (App.speech a))
                   then cancel (App.speech a) else App.speech a in
          if isSupported (hk (App.speech a)) then speak response w else w).
Proof.
  intros Hst Hout cur a' c' u' cur'.
  destruct (current_found createdAt updatedAt _ Hst) as [Hid Hin].
  fold cur in Hid, Hin.
  subst cur' a'. unfold App.exchange, App.handleSendMessage.
  rewrite Hout. unfold App.handleSendMessage_settled.
  cbn [App.state App.speech App.rendered App.current App.speaking
       App.synthesisSupported App.Conversation.id App.Conversation.title
       App.Conversation.messages App.Conversation.createdAt
       App.Conversation.updatedAt].
  fold cur.
  match goal with
  | |- context [App.updateConversation ?fin
                  (App.set_processing true None (App.updateConversation ?upd _))] =>
      set (final := fin); set (updated := upd)
  end.
  assert (Hfound :
    App.currentConversation c' u'
      (App.set_processing false
         (App.ConversationState.error
            (App.updateConversation final
               (App.set_processing true None
                  (App.updateConversation updated (App.state a)))))
         (App.updateConversation final
            (App.set_processing true None
               (App.updateConversation updated (App.state a)))))
    = final).
  { unfold App.currentConversation, App.updateConversation,
      App.set_processing, App.set_conversations.
    cbn [App.ConversationState.currentConversationId
         App.ConversationState.conversations].
    rewrite <- Hid.
    change (App.Conversation.id cur) with (App.Conversation.id final).
    rewrite update_found; [reflexivity|].
    change (App.Conversation.id final) with (App.Conversation.id updated).
    rewrite (existsb_ids _ _ _ (update_ids updated _)).
    change (App.Conversation.id updated) with (App.Conversation.id cur).
    rewrite Hid. exact Hst. }
  rewrite Hfound. subst final updated.
  cbn [App.Conversation.id App.Conversation.title App.Conversation.messages].
  rewrite <- app_assoc. cbn [app].
  repeat split; try reflexivity. apply title_of_length.
Qed.

Lemma exchange_is_recorded_witness :
  App.Conversation.messages
    (App.currentConversation 0 0
       (App.state
          (App.exchange small_integers (fun _ => lit "Failed to fetch")
             (App.rendered 0 0 new_page) (lit "m1") 20 21 (lit "m2") 30 31
             (lit "Salut") bonjour new_page)))
  = [ {| App.Message.id := lit "m1"; App.Message.text := lit "Salut";
         App.Message.isUser := true; App.Message.timestamp := 20 |};
      {| App.Message.id := lit "m2"; App.Message.text := lit "Bonjour !";
         App.Message.isUser := false; App.Message.timestamp := 30 |} ].
Proof.
  apply (exchange_is_recorded small_integers (fun _ => lit "Failed to fetch")
           new_page 0 0 (lit "m1") 20 21 (lit "m2") 30 31
           (lit "Salut") (lit "Bonjour !") bonjour);
    vm_compute; reflexivity.
Defined.

Section LostFacts.

Import App.

Lemma update_unstored (c : Conversation.t) (st : ConversationState.t) :
  Conversation.id c = ConversationState.currentConversationId st ->
  current_is_stored st = false ->
  updateConversation c st = st.
Proof.
  intros Hid Hst. unfold current_is_stored in Hst. rewrite <- Hid in Hst.
  unfold updateConversation, set_conversations.
  rewrite (update_absent _ _ Hst). now destruct st.
Qed.

End LostFacts.

(** X17.  An exchange in a conversation that is not stored is lost.
    When no stored conversation has the current id, the conversation
    shown is one made up for the render, and [handleSendMessage] updates
    the stored conversations by that id: they are left as they are,
    whatever the webhook answers, and the conversation shown afterwards
    still has no message.  This is the case of the state the page
    starts from whenever the two ids it generates differ; once
    [handleNewConversation] or a confirmed [handleClearHistory] has
    run, the current conversation is stored, and it stays so through
    the exchanges. *)
Theorem unstored_exchange_is_lost (E : Engine) (engine_message : error -> jsstring) :
  (forall a createdAt updatedAt id1 timestamp1 updatedAt1 id2 timestamp2
          updatedAt2 text f,
      App.current_is_stored (App.state a) = false ->
      let a' := App.exchange E engine_message (App.rendered createdAt updatedAt a)
                  id1 timestamp1 updatedAt1 id2 timestamp2 updatedAt2 text f a in
      App.ConversationState.conversations (App.state a')
      = App.ConversationState.conversations (App.state a)
      /\ forall createdAt' updatedAt',
           App.Conversation.messages
             (App.currentConversation createdAt' updatedAt' (App.state a'))
           = [])
  /\ (forall id1 id2 createdAt updatedAt,
        id1 <> id2 ->
        App.current_is_stored (App.initial_state id1 id2 createdAt updatedAt)
        = false)
  /\ (forall id createdAt updatedAt prev,
        App.current_is_stored
          (App.handleNewConversation id createdAt updatedAt prev) = true)
  /\ (forall id createdAt updatedAt prev,
        App.current_is_stored
          (App.handleClearHistory true id createdAt updatedAt prev) = true)
  /\ (forall a createdAt updatedAt id1 timestamp1 updatedAt1 id2 timestamp2
             updatedAt2 text f,
        App.current_is_stored
          (App.state
             (App.exchange E engine_message (App.rendered createdAt updatedAt a)
                id1 timestamp1 updatedAt1 id2 timestamp2 updatedAt2 text f a))
        = App.current_is_stored (App.state a)).
Proof.
  split; [|split; [|split; [|split]]].
  - intros a c u id1 t1 u1 id2 t2 u2 text f Hst a'.
    assert (Hc : App.ConversationState.conversations (App.state a')
                 = App.ConversationState.conversations (App.state a)).
    { subst a'. unfold App.exchange, App.handleSendMessage.
      cbn [App.rendered App.current App.speaking App.synthesisSupported].
      rewrite (current_fresh c u _ Hst).
      rewrite update_unstored by (try reflexivity; exact Hst).
      destruct (sendMessageToWebhook E f) as [response|e];
        unfold App.handleSendMessage_settled; cbn [App.state]; [|reflexivity].
      rewrite update_unstored; [reflexivity|reflexivity|exact Hst]. }
    split; [exact Hc|]. intros c' u'.
    assert (Hs' : App.current_is_stored (App.state a') = false).
    { unfold App.current_is_stored in *. rewrite Hc.
      replace (App.ConversationState.currentConversationId (App.state a'))
        with (App.ConversationState.currentConversationId (App.state a));
        [exact Hst|].
      subst a'. unfold App.exchange, App.handleSendMessage.
      destruct (sendMessageToWebhook E f); reflexivity. }
    now rewrite (current_fresh c' u' _ Hs').
  - intros id1 id2 c u Hne. unfold App.current_is_stored, App.initial_state.
    cbn. rewrite orb_false_r. unfold str_eqb.
    destruct (list_eq_dec N.eq_dec id2 id1); [congruence | reflexivity].
  - intros id c u prev. unfold App.current_is_stored, App.handleNewConversation.
    cbn. now rewrite str_eqb_refl.
  - intros id c u prev. unfold App.current_is_stored, App.handleClearHistory.
    cbn. now rewrite str_eqb_refl.
  - intros a c u id1 t1 u1 id2 t2 u2 text f.
    unfold App.current_is_stored, App.exchange, App.handleSendMessage.
    destruct (sendMessageToWebhook E f) as [response|e];
      unfold App.handleSendMessage_settled, App.updateConversation,
        App.set_processing, App.set_conversations;
      cbn [App.state App.ConversationState.currentConversationId
           App.ConversationState.conversations].
    + erewrite existsb_ids; [|apply update_ids].
      erewrite existsb_ids; [|apply update_ids]. reflexivity.
    + erewrite existsb_ids; [|apply update_ids]. reflexivity.
Qed.

Lemma unstored_exchange_is_lost_witness :
  App.ConversationState.conversations
    (App.state
       (App.exchange small_integers (fun _ => lit "Failed to fetch")
          (App.rendered 0 0 first_page) (lit "m1") 20 21 (lit "m2") 30 31
          (lit "Salut") bonjour first_page))
  = App.ConversationState.conversations (App.state first_page)
  /\ App.current_is_stored (App.initial_state (lit "a") (lit "b") 0 0) = false.
Proof.
  split.
  - apply (proj1 (unstored_exchange_is_lost small_integers
                    (fun _ => lit "Failed to fetch"))
             first_page 0%N 0%N (lit "m1") 20%N 21%N (lit "m2") 30%N 31%N
             (lit "Salut") bonjour).
    reflexivity.
  - apply (proj1 (proj2 (unstored_exchange_is_lost small_integers
                           (fun _ => lit "Failed to fetch")))).
    discriminate.
Defined.

(** X18.  A failed exchange keeps the question.  When the current
    conversation is stored and the webhook call fails,
    [handleSendMessage] leaves the conversation with its former
    messages followed by the user's message alone, shows the notice
    made from the error, stops processing, and hands nothing to
    [speak]: the device is given no utterance.  A rejected [fetch]
    whose message holds Failed to fetch or NetworkError gives the
    network notice; any other message is shown after the word
    Error. *)
Theorem failed_exchange_keeps_the_question
        (E : Engine) (engine_message : error -> jsstring)
        (a : App.app) (createdAt updatedAt : N)
        (id1 : jsstring) (timestamp1 updatedAt1 : N)
        (id2 : jsstring) (timestamp2 updatedAt2 : N)
        (text : jsstring) (f : fetched) (e : error) :
  App.current_is_stored (App.state a) = true ->
  sendMessageToWebhook E f = Throw e ->
  let cur := App.currentConversation createdAt updatedAt (App.state a) in
  let a' := App.exchange E engine_message (App.rendered createdAt updatedAt a)
              id1 timestamp1 updatedAt1 id2 timestamp2 updatedAt2 text f a in
  (forall createdAt' updatedAt',
      App.Conversation.messages
        (App.currentConversation createdAt' updatedAt' (App.state a'))
      = App.Conversation.messages cur
        ++ [ {| App.Message.id := id1; App.Message.text := text;
                App.Message.isUser := true;
                App.Message.timestamp := timestamp1 |} ])
  /\ App.ConversationState.error (App.state a')
     = Some (App.errorMessage engine_message e)
  /\ App.ConversationState.isProcessing (App.state a') = false
  /\ App.speech a'
     = (if isSpeaking (hk (App.speech a))
        then cancel (App.speech a) else App.speech a)
  /\ handed (device (App.speech a')) = handed (device (App.speech a))
  /\ (f = Rejected -> e = NetworkError)
  /\ (includes (engine_message NetworkError) (lit "Failed to fetch")
      || includes (engine_message NetworkError) (lit "NetworkError") = true ->
      App.errorMessage engine_message NetworkError
      = App.network_notice).
Proof.
  intros Hst Hout cur a'.
  destruct (current_found createdAt updatedAt _ Hst) as [Hid Hin].
  fold cur in Hid, Hin.
  subst a'. unfold App.exchange, App.handleSendMessage.
  rewrite Hout. unfold App.handleSendMessage_settled.
  cbn [App.state App.speech App.rendered App.current App.speaking
       App.synthesisSupported App.Conversation.id App.Conversation.title
       App.Conversation.messages App.Conversation.createdAt
       App.Conversation.updatedAt].
  fold cur.
  split; [|split; [reflexivity|split; [reflexivity|split; [reflexivity|split;
          [|split]]]]].
  - intros c' u'.
    match goal with
    | |- context [App.updateConversation ?upd _] => set (updated := upd)
    end.
    assert (Hfound :
      App.currentConversation c' u'
        (App.set_processing false
           (Some (App.errorMessage engine_message e))
           (App.set_processing true None
              (App.updateConversation updated (App.state a))))
      = updated).
    { unfold App.currentConversation, App.updateConversation,
        App.set_processing, App.set_conversations.
      cbn [App.ConversationState.currentConversationId
           App.ConversationState.conversations].
      rewrite <- Hid.
      change (App.Conversation.id cur) with (App.Conversation.id updated).
      rewrite update_found; [reflexivity|].
      change (App.Conversation.id updated) with (App.Conversation.id cur).
      rewrite Hid. exact Hst. }
    rewrite Hfound. reflexivity.
  - destruct (isSpeaking (hk (App.speech a))) eqn:Hsp; [|reflexivity].
    unfold cancel. rewrite Hsp.
    destruct (synthesisRef (hk (App.speech a))); [|reflexivity].
    cbn. rewrite handed_app. cbn. apply app_nil_r.
  - intros ->. cbn in Hout. now injection Hout as <-.
  - intros Hn. unfold App.errorMessage. cbn [App.message]. now rewrite Hn.
Qed.

Lemma failed_exchange_keeps_the_question_witness :
  App.Conversation.messages
    (App.currentConversation 0 0
       (App.state
          (App.exchange small_integers (fun _ => lit "Failed to fetch")
             (App.rendered 0 0 new_page) (lit "m1") 20 21 (lit "m2") 30 31
             (lit "Salut") Rejected new_page)))
  = [ {| App.Message.id := lit "m1"; App.Message.text := lit "Salut";
         App.Message.isUser := true; App.Message.timestamp := 20 |} ]
  /\ App.ConversationState.error
       (App.state
          (App.exchange small_integers (fun _ => lit "Failed to fetch")
             (App.rendered 0 0 new_page) (lit "m1") 20 21 (lit "m2") 30 31
             (lit "Salut") Rejected new_page))
     = Some (App.errorMessage (fun _ => lit "Failed to fetch") NetworkError).
Proof.
  split.
  - apply (proj1 (failed_exchange_keeps_the_question small_integers
                    (fun _ => lit "Failed to fetch") new_page 0 0
                    (lit "m1") 20 21 (lit "m2") 30 31 (lit "Salut") Rejected
                    NetworkError eq_refl eq_refl)).
  - apply (proj1 (proj2 (failed_exchange_keeps_the_question small_integers
                    (fun _ => lit "Failed to fetch") new_page 0 0
                    (lit "m1") 20 21 (lit "m2") 30 31 (lit "Salut") Rejected
                    NetworkError eq_refl eq_refl))).
Defined.

(* ================================================================== *)
(** * App: saying another message while one is being said *)
(* ================================================================== *)

Section ReplayFacts.

Lemma next_timer_two t (cb1 cb2 : callback) :
  next_timer [(t + 50, cb1); (t + 100, cb2)]
  = Some (t + 50, cb1, [(t + 100, cb2)]).
Proof.
  cbn [next_timer].
  destruct (t + 100 <? t + 50) eqn:E; [apply Nat.ltb_lt in E; lia | reflexivity].
Qed.

Lemma step_elapse_ok (w : world) d cb rest ms :
  next_timer (timers w) = Some (d, cb, rest) -> now w + ms <= d ->
  step (Elapse ms) w
  = Some {| hk := hk w; now := now w + ms; timers := timers w;
            device := device w; inflight := inflight w |}.
Proof.
  intros Hn Hd. unfold step. rewrite Hn.
  destruct (d <? now w + ms) eqn:E; [apply Nat.ltb_lt in E; lia | reflexivity].
Qed.

Lemma step_timer_ok (w : world) d cb rest :
  next_timer (timers w) = Some (d, cb, rest) -> d <= now w ->
  step Timer w
  = Some (run_callback cb
            {| hk := hk w; now := now w; timers := rest; device := device w;
               inflight := inflight w |}).
Proof.
  intros Hn Hd. unfold step. rewrite Hn.
  destruct (d <=? now w) eqn:E; [reflexivity | apply Nat.leb_gt in E; lia].
Qed.

(** The device reports on the interrupted utterance, by its end or by
    an error, before the cancellation flag is reset. *)
Lemma interrupted_then_started (w : world) (report : event)
      done u rest (text : jsstring) :
  report = Dev_end \/ report = Dev_error ->
  playing_at w done u rest ->
  isSpeaking (hk w) = true -> ready (hk w) = true -> blank text = false ->
  exists w2 chunk chunks,
    run [report; Elapse 50; Timer; Elapse 50; Timer] (speak text (cancel w))
    = Some w2
    /\ splitIntoSentences (processTextForSpeech text) = chunk :: chunks
    /\ playing_at w2 []
         (make_utterance (selectedVoiceRef (hk w)) (AUDIBLE_PREFIX ++ chunk))
         (List.map (make_utterance (selectedVoiceRef (hk w))) chunks)
    /\ device w2
       = device w ++ [DevCancel; DevCancel;
                      DevSpeak (make_utterance (selectedVoiceRef (hk w))
                                  (AUDIBLE_PREFIX ++ chunk))].
Proof.
  intros Hrep (Hc & Hs & Hq & Hi & Hf & Ht) Hsp Hready Hblank.
  destruct (chunks_of_processed text) as [chunk [chunks Hch]].
  destruct (ready_parts _ Hready) as [_ [v Hv]].
  destruct w as [h t0 ts dev infl].
  destruct h as [sp su syn sel ini vl q idx canc].
  cbn in Hc, Hs, Hq, Hi, Hf, Ht, Hsp, Hv. subst.
  assert (Hr : ready {| isSpeaking := false; isSupported := su;
                        synthesisRef := true; selectedVoiceRef := Some v;
                        isInitializedRef := ini; voicesLoadedRef := vl;
                        utteranceQueueRef := []; currentUtteranceIndexRef := 0;
                        isCancellingRef := true |} = true) by exact Hready.
  eexists. exists chunk, chunks. split; [|split; [exact Hch|]].
  - unfold cancel.
    cbn [hk synthesisRef isSpeaking negb orb].
    unfold set_cancelling, set_index, set_queue, synthesis_cancel, set_hook,
      setIsSpeaking, setTimeout.
    cbn [hk now timers device inflight isCancellingRef app
         isSpeaking isSupported synthesisRef selectedVoiceRef isInitializedRef
         voicesLoadedRef utteranceQueueRef currentUtteranceIndexRef].
    unfold speak. cbn [hk]. rewrite Hblank, Hr. cbn [negb].
    unfold set_cancelling, synthesis_cancel, set_hook, setTimeout.
    cbn [hk now timers device inflight isCancellingRef app
         isSpeaking isSupported synthesisRef selectedVoiceRef isInitializedRef
         voicesLoadedRef utteranceQueueRef currentUtteranceIndexRef].
    assert (Hstep :
      step report
        {| hk := {| isSpeaking := false; isSupported := su;
                    synthesisRef := true; selectedVoiceRef := Some v;
                    isInitializedRef := ini; voicesLoadedRef := vl;
                    utteranceQueueRef := []; currentUtteranceIndexRef := 0;
                    isCancellingRef := true |};
           now := t0;
           timers := [(t0 + 50, ResetCancelling);
                      (t0 + 100, SettleThenStart text)];
           device := (dev ++ [DevCancel]) ++ [DevCancel];
           inflight := [u] |}
      = Some
        {| hk := {| isSpeaking := false; isSupported := su;
                    synthesisRef := true; selectedVoiceRef := Some v;
                    isInitializedRef := ini; voicesLoadedRef := vl;
                    utteranceQueueRef := []; currentUtteranceIndexRef := 0;
                    isCancellingRef := true |};
           now := t0;
           timers := [(t0 + 50, ResetCancelling);
                      (t0 + 100, SettleThenStart text)];
           device := (dev ++ [DevCancel]) ++ [DevCancel];
           inflight := [] |}).
    { destruct Hrep as [->| ->]; reflexivity. }
    rewrite (run_step _ _ _ _ Hstep).
    erewrite run_step;
      [|eapply step_elapse_ok; [apply next_timer_two | cbn [now]; lia]].
    cbn [hk now timers device inflight].
    erewrite run_step;
      [|eapply step_timer_ok; [apply next_timer_two | cbn [now]; lia]].
    cbn [hk now timers device inflight run_callback].
    unfold set_hook, set_cancelling.
    cbn [hk now timers device inflight isCancellingRef
         isSpeaking isSupported synthesisRef selectedVoiceRef isInitializedRef
         voicesLoadedRef utteranceQueueRef currentUtteranceIndexRef].
    erewrite run_step; [|apply step_elapse_single; lia].
    erewrite run_step; [|apply step_timer_single; lia].
    rewrite run_nil.
    unfold run_callback, settle_then_start, set_hook.
    cbn [hk now timers device inflight].
    rewrite Hch.
    unfold speakNextChunk, set_hook. cbn. reflexivity.
  - unfold playing_at. cbn. rewrite <- !app_assoc.
    repeat split; reflexivity.
Qed.

End ReplayFacts.



(* ================================================================== *)
(** * Readiness *)
(* ================================================================== *)

Section ReadinessFacts.

Variable toLowerCase : jsstring -> jsstring.

Lemma settled_refs (p p' : page) :
  voice_refs (hk (wd p')) = voice_refs (hk (wd p)) -> settled p -> settled p'.
Proof.
  unfold voice_refs, settled. intros [= _ -> -> -> ->]. auto.
Qed.

Lemma processVoices_settled (l : list voice) (p : page) :
  settled p -> settled (processVoices toLowerCase l p).
Proof.
  intros Hp. pose proof Hp as [H1 H2]. unfold processVoices.
  destruct (synthesisRef (hk (wd p))) eqn:Hs; cbn [negb]; [|exact Hp].
  destruct l as [|v l]; [exact Hp|]. cbn [List.length Nat.eqb].
  destruct (_ && _); [exact Hp|].
  assert (Hb : bestVoice toLowerCase (v :: l) <> None).
  { intros E. apply bestVoice_none in E. discriminate. }
  destruct (voicesLoadedRef (hk (wd p))) eqn:Hl;
    unfold settled; cbn; rewrite ?Hl; cbn; rewrite ?Hs; auto.
Qed.

Lemma page_step_settled (ev : page_event) (p p' : page) :
  page_step toLowerCase ev p = Some p' -> settled p -> settled p'.
Proof.
  destruct ev as [win|l|l| |e]; cbn [page_step].
  - intros [= <-] Hp. unfold initializeSpeechSynthesis.
    destruct (negb (isInitializedRef (hk (wd p))) && speechSynthesis win) eqn:E.
    + apply andb_true_iff in E. destruct E as [Hi _].
      apply negb_true_iff in Hi.
      assert (Hq : settled
                     (update_hook (set_initialized true)
                        (update_hook (setIsSupported true)
                           (update_hook (set_synthesis true) p)))).
      { destruct Hp as [H1 H2]. unfold settled. cbn. split; [auto|].
        intros Hl. destruct (H2 Hl) as [Hs Hv]. specialize (H1 Hs). congruence. }
      apply (processVoices_settled (getVoices win)) in Hq.
      destruct (has_onvoiceschanged win); exact Hq.
    + destruct (negb (speechSynthesis win)); exact Hp.
  - intros [= <-] Hp. unfold voiceschanged.
    destruct (onvoiceschanged p); [now apply processVoices_settled | exact Hp].
  - intros [= <-] Hp. unfold run_deferred.
    destruct (deferred p); [|exact Hp].
    apply processVoices_settled. exact Hp.
  - intros [= <-] Hp. unfold cleanup.
    destruct (synthesisRef (hk (wd p))) eqn:Hs; exact Hp.
  - destruct (step e (wd p)) as [w|] eqn:Hs; [|discriminate].
    intros [= <-]. apply settled_refs. cbn [set_world wd].
    exact (step_keeps_refs _ _ _ Hs).
Qed.

Lemma page_run_settled (evs : list page_event) :
  forall p p', page_run toLowerCase evs p = Some p' -> settled p -> settled p'.
Proof.
  induction evs as [|ev evs IH]; intros p p' H Hp.
  - now injection H as <-.
  - cbn [page_run] in H.
    destruct (page_step toLowerCase ev p) as [p1|] eqn:Hs; [|discriminate].
    eapply IH; [exact H|]. eapply page_step_settled; eauto.
Qed.

Lemma processVoices_keeps_loaded (l : list voice) (p : page) :
  voicesLoadedRef (hk (wd p)) = true ->
  voicesLoadedRef (hk (wd (processVoices toLowerCase l p))) = true.
Proof.
  intros Hl. unfold processVoices.
  destruct (negb (synthesisRef (hk (wd p)))); [exact Hl|].
  destruct (List.length l =? 0); [exact Hl|].
  rewrite Hl, andb_true_r.
  destruct (List.length (voicesRef p) =? List.length l); [exact Hl|].
  cbn. rewrite Hl. cbn. exact Hl.
Qed.

Lemma loaded_kept_step (ev : page_event) (p p' : page) :
  page_step toLowerCase ev p = Some p' ->
  voicesLoadedRef (hk (wd p)) = true -> voicesLoadedRef (hk (wd p')) = true.
Proof.
  destruct ev as [win|l|l| |e]; cbn [page_step].
  - intros [= <-] Hl. unfold initializeSpeechSynthesis.
    destruct (negb (isInitializedRef (hk (wd p))) && speechSynthesis win).
    + assert (Hq : voicesLoadedRef
                     (hk (wd (processVoices toLowerCase (getVoices win)
                                (update_hook (set_initialized true)
                                   (update_hook (setIsSupported true)
                                      (update_hook (set_synthesis true) p))))))
                   = true)
        by (apply processVoices_keeps_loaded; exact Hl).
      destruct (has_onvoiceschanged win); exact Hq.
    + destruct (negb (speechSynthesis win)); exact Hl.
  - intros [= <-] Hl. unfold voiceschanged.
    destruct (onvoiceschanged p);
      [now apply processVoices_keeps_loaded | exact Hl].
  - intros [= <-] Hl. unfold run_deferred.
    destruct (deferred p); [|exact Hl].
    apply processVoices_keeps_loaded. exact Hl.
  - intros [= <-] Hl. unfold cleanup.
    destruct (synthesisRef (hk (wd p))); exact Hl.
  - destruct (step e (wd p)) as [w|] eqn:Hs; [|discriminate].
    intros [= <-] Hl. apply step_keeps_refs in Hs.
    unfold voice_refs in Hs. cbn [set_world wd]. congruence.
Qed.

End ReadinessFacts.

Section ReadinessRuns.

Variable toLowerCase : jsstring -> jsstring.

Lemma loaded_kept_run (evs : list page_event) :
  forall p p', page_run toLowerCase evs p = Some p' ->
               voicesLoadedRef (hk (wd p)) = true ->
               voicesLoadedRef (hk (wd p')) = true.
Proof.
  induction evs as [|ev evs IH]; intros p p' H Hl.
  - now injection H as <-.
  - cbn [page_run] in H.
    destruct (page_step toLowerCase ev p) as [p1|] eqn:Hs; [|discriminate].
    eapply IH; [exact H|]. eapply loaded_kept_step; eauto.
Qed.

Lemma settled_ready (p : page) :
  settled p -> ready (hk (wd p)) = voicesLoadedRef (hk (wd p)).
Proof.
  intros [H1 H2]. unfold ready.
  destruct (voicesLoadedRef (hk (wd p))) eqn:Hl.
  - destruct (H2 eq_refl) as [Hs Hv]. rewrite Hs, (H1 Hs). cbn.
    destruct (selectedVoiceRef (hk (wd p))); [reflexivity | now elim Hv].
  - now rewrite andb_false_r.
Qed.

Lemma settled_unmounted : settled unmounted.
Proof. split; cbn; [discriminate | discriminate]. Qed.

End ReadinessRuns.

(** X20.  Readiness.  Whatever happens to the hook from the time it
    is created (the mount effect, voiceschanged events, the deferred
    call of [processVoices], the turns of the playback's event loop,
    the cleanup), it is ready, in the sense of the test [speak] makes,
    exactly when its voices are marked as loaded: a loaded hook always
    holds the device, is initialized and has a voice selected.  And
    once ready it stays ready. *)
Theorem ready_when_loaded (toLowerCase : jsstring -> jsstring)
        (evs : list page_event) (p : page) :
  page_run toLowerCase evs unmounted = Some p ->
  ready (hk (wd p)) = voicesLoadedRef (hk (wd p))
  /\ forall evs' p',
       page_run toLowerCase evs' p = Some p' ->
       ready (hk (wd p)) = true -> ready (hk (wd p')) = true.
Proof.
  intros Hrun.
  pose proof (page_run_settled toLowerCase _ _ _ Hrun settled_unmounted) as Hp.
  split; [now apply settled_ready|].
  intros evs' p' Hrun' Hr.
  pose proof (page_run_settled toLowerCase _ _ _ Hrun' Hp) as Hp'.
  rewrite (settled_ready _ Hp) in Hr. rewrite (settled_ready _ Hp').
  eapply loaded_kept_run; eauto.
Qed.

Lemma ready_when_loaded_witness :
  exists p,
    page_run ascii_lower
      [Mount {| speechSynthesis := true; has_onvoiceschanged := true;
                getVoices := [] |};
       Playback (Call_speak (lit "Trop tot."));
       VoicesChanged [hortense; google_fr];
       Playback (Call_speak (lit "Bonjour."));
       Unmount] unmounted = Some p
    /\ ready (hk (wd p)) = voicesLoadedRef (hk (wd p)).
Proof.
  eexists. split; [vm_compute; reflexivity|].
  apply (ready_when_loaded ascii_lower
           [Mount {| speechSynthesis := true; has_onvoiceschanged := true;
                     getVoices := [] |};
            Playback (Call_speak (lit "Trop tot."));
            VoicesChanged [hortense; google_fr];
            Playback (Call_speak (lit "Bonjour."));
            Unmount]).
  vm_compute. reflexivity.
Defined.

(* ================================================================== *)
(** * Playback: a call of speak during a session *)
(* ================================================================== *)

Section SupersedeFacts.

Lemma superseded_then_started (w : world) (report : event) (d1 d2 : nat)
      done u rest (text : jsstring) :
  report = Dev_end \/ report = Dev_error ->
  d1 + d2 = 100 ->
  playing_at w done u rest ->
  ready (hk w) = true -> blank text = false ->
  exists w2 chunk chunks,
    run [Call_speak text; Elapse d1; report; Elapse d2; Timer] w = Some w2
    /\ splitIntoSentences (processTextForSpeech text) = chunk :: chunks
    /\ playing_at w2 []
         (make_utterance (selectedVoiceRef (hk w)) (AUDIBLE_PREFIX ++ chunk))
         (List.map (make_utterance (selectedVoiceRef (hk w))) chunks)
    /\ device w2
       = device w ++ [DevCancel;
                      DevSpeak (make_utterance (selectedVoiceRef (hk w))
                                  (AUDIBLE_PREFIX ++ chunk))].
Proof.
  intros Hrep Hd (Hc & Hs & Hq & Hi & Hf & Ht) Hready Hblank.
  destruct (chunks_of_processed text) as [chunk [chunks Hch]].
  destruct (ready_parts _ Hready) as [_ [v Hv]].
  destruct w as [h t0 ts dev infl].
  destruct h as [sp su syn sel ini vl q idx canc].
  cbn in Hc, Hs, Hq, Hi, Hf, Ht, Hv. subst. cbn [hk] in Hready.
  eexists. exists chunk, chunks. split; [|split; [exact Hch|]].
  - rewrite (run_step _ _ _ _ (eq_refl : step (Call_speak text) _ = Some _)).
    unfold speak. cbn [hk]. rewrite Hblank, Hready. cbn [negb].
    unfold set_cancelling, synthesis_cancel, set_hook, setTimeout.
    cbn [hk now timers device inflight isCancellingRef app
         isSpeaking isSupported synthesisRef selectedVoiceRef isInitializedRef
         voicesLoadedRef utteranceQueueRef currentUtteranceIndexRef].
    erewrite run_step; [|apply step_elapse_single; lia].
    assert (Hstep : forall h0 t1 ts1 dev1,
      isCancellingRef h0 = true ->
      step report
        {| hk := h0; now := t1; timers := ts1; device := dev1; inflight := [u] |}
      = Some {| hk := setIsSpeaking false h0; now := t1; timers := ts1;
                device := dev1; inflight := [] |}).
    { intros h0 t1 ts1 dev1 Hflag.
      destruct Hrep as [->| ->]; unfold step; cbn [inflight];
        unfold onend, onerror, drop_inflight; cbn [hk inflight tl];
        rewrite Hflag; reflexivity. }
    erewrite run_step; [|apply Hstep; reflexivity].
    unfold setIsSpeaking.
    cbn [isCancellingRef
         isSpeaking isSupported synthesisRef selectedVoiceRef isInitializedRef
         voicesLoadedRef utteranceQueueRef currentUtteranceIndexRef].
    erewrite run_step; [|apply step_elapse_single; lia].
    erewrite run_step; [|apply step_timer_single; lia].
    rewrite run_nil.
    unfold run_callback, settle_then_start, set_hook.
    cbn [hk now timers device inflight].
    rewrite Hch.
    unfold speakNextChunk, set_hook. cbn. reflexivity.
  - unfold playing_at. cbn. rewrite <- !app_assoc.
    repeat split; reflexivity.
Qed.

End SupersedeFacts.

(** X21.  Superseding a session that is playing.  When [speak] is
    called while a chunk of an earlier session is with the device and
    no timer is pending, and the device reports on the interrupted
    utterance (by its end or by an error) within the 100 ms of the
    settle delay, the report is ignored, the earlier queue is replaced,
    and the new session plays from its first chunk to its last: after
    the cancel the device is handed the chunks of the new text only,
    and nothing of what was left of the earlier session. *)
Theorem speak_supersedes_playing (w : world) (report : event) (d1 d2 : nat)
        (done : list utterance) (u : utterance) (rest : list utterance)
        (text : jsstring) :
  report = Dev_end \/ report = Dev_error ->
  d1 + d2 = 100 ->
  playing_at w done u rest ->
  ready (hk w) = true -> blank text = false ->
  exists w' us,
    run ([Call_speak text; Elapse d1; report; Elapse d2; Timer]
         ++ playing (List.length
                       (splitIntoSentences (processTextForSpeech text)))) w
    = Some w'
    /\ device w' = device w ++ DevCancel :: List.map DevSpeak us
    /\ List.map Speech.text us
       = session_texts (splitIntoSentences (processTextForSpeech text))
    /\ idle w'.
Proof.
  intros Hrep Hd Hplay Hready Hblank.
  destruct (superseded_then_started _ report d1 d2 _ _ _ _ Hrep Hd Hplay
              Hready Hblank)
    as (w2 & chunk & chunks & Hrun & Hc & Hplay2 & Hdev).
  destruct (playing_to_the_end _ _ _ _ Hplay2) as (w' & Hrun' & Hidle & Hdev' & _).
  exists w'.
  exists (make_utterance (selectedVoiceRef (hk w)) (AUDIBLE_PREFIX ++ chunk)
          :: List.map (make_utterance (selectedVoiceRef (hk w))) chunks).
  rewrite Hc. repeat split; try apply Hidle.
  - rewrite run_app, Hrun. cbn [List.length].
    rewrite length_map in Hrun'. exact Hrun'.
  - rewrite Hdev', Hdev, <- app_assoc. reflexivity.
  - cbn [List.map session_texts Speech.text make_utterance]. f_equal.
    rewrite map_map. cbn [Speech.text make_utterance]. apply map_id.
Qed.

Lemma speak_supersedes_playing_witness :
  exists w' us,
    run ([Call_speak (lit "Trois. Quatre."); Elapse 30; Dev_end; Elapse 70; Timer]
         ++ playing 2) playing_first_of_two
    = Some w'
    /\ device w' = device playing_first_of_two ++ DevCancel :: List.map DevSpeak us
    /\ List.map Speech.text us
       = [AUDIBLE_PREFIX ++ lit "Trois."; lit "Quatre."]
    /\ idle w'.
Proof.
  apply (speak_supersedes_playing playing_first_of_two Dev_end 30 70
           [] first_of_two [make_utterance (Some google_fr) (lit "Two.")]
           (lit "Trois. Quatre.")
           (or_introl eq_refl) eq_refl
           ltac:(repeat split; reflexivity) eq_refl eq_refl).
Defined.

(** X22.  [cancel] does nothing before the new session has started.
    [cancel] acts only on a hook that reports speaking, and [speak]
    raises that report when its settle delay is over, not before.  So
    a call of [cancel] during the settle delay of a call of [speak] on
    a hook that is silent leaves the call standing: at the end of the
    delay the first chunk goes to the device all the same, with the
    other chunks queued behind it. *)
Theorem cancel_before_start_is_ignored (w : world) (text : jsstring)
        (d1 d2 : nat) :
  ready (hk w) = true -> blank text = false -> timers w = [] ->
  inflight w = [] -> isSpeaking (hk w) = false ->
  d1 + d2 = 100 ->
  cancel (speak text w) = speak text w
  /\ exists w2 u rest,
       run [Call_speak text; Elapse d1; Call_cancel; Elapse d2; Timer] w
       = Some w2
       /\ device w2 = device w ++ [DevCancel; DevSpeak u]
       /\ List.map Speech.text (u :: rest)
          = session_texts (splitIntoSentences (processTextForSpeech text))
       /\ playing_at w2 [] u rest
       /\ isSpeaking (hk w2) = true.
Proof.
  intros Hready Hblank Htimers Hinfl Hsp Hd.
  destruct (chunks_of_processed text) as [chunk [chunks Hc]].
  destruct (ready_parts _ Hready) as [_ [v Hv]].
  destruct w as [h t0 ts dev infl].
  destruct h as [sp su syn sel ini vl q idx canc].
  cbn in Htimers, Hinfl, Hsp, Hv. subst. cbn [hk] in Hready.
  assert (Hcancel :
    forall t1,
      cancel {| hk := {| isSpeaking := false; isSupported := su;
                         synthesisRef := syn; selectedVoiceRef := Some v;
                         isInitializedRef := ini; voicesLoadedRef := vl;
                         utteranceQueueRef := q; currentUtteranceIndexRef := idx;
                         isCancellingRef := true |};
                now := t1; timers := [(t0 + 100, SettleThenStart text)];
                device := dev ++ [DevCancel]; inflight := [] |}
      = {| hk := {| isSpeaking := false; isSupported := su;
                    synthesisRef := syn; selectedVoiceRef := Some v;
                    isInitializedRef := ini; voicesLoadedRef := vl;
                    utteranceQueueRef := q; currentUtteranceIndexRef := idx;
                    isCancellingRef := true |};
           now := t1; timers := [(t0 + 100, SettleThenStart text)];
           device := dev ++ [DevCancel]; inflight := [] |}).
  { intros t1. unfold cancel. cbn [hk synthesisRef isSpeaking negb].
    now rewrite orb_true_r. }
  assert (Hspeak :
    speak text
      {| hk := {| isSpeaking := false; isSupported := su;
                  synthesisRef := syn; selectedVoiceRef := Some v;
                  isInitializedRef := ini; voicesLoadedRef := vl;
                  utteranceQueueRef := q; currentUtteranceIndexRef := idx;
                  isCancellingRef := canc |};
         now := t0; timers := []; device := dev; inflight := [] |}
    = {| hk := {| isSpeaking := false; isSupported := su;
                  synthesisRef := syn; selectedVoiceRef := Some v;
                  isInitializedRef := ini; voicesLoadedRef := vl;
                  utteranceQueueRef := q; currentUtteranceIndexRef := idx;
                  isCancellingRef := true |};
         now := t0; timers := [(t0 + 100, SettleThenStart text)];
         device := dev ++ [DevCancel]; inflight := [] |}).
  { unfold speak. cbn [hk]. rewrite Hblank, Hready. reflexivity. }
  split; [rewrite Hspeak; apply Hcancel|].
  assert (Hsyn : syn = true).
  { unfold ready in Hready. cbn in Hready. now destruct syn. }
  subst syn.
  eexists.
  exists (make_utterance (Some v) (AUDIBLE_PREFIX ++ chunk)),
         (List.map (make_utterance (Some v)) chunks).
  split; [|split; [|split]].
  - rewrite (run_step _ _ _ _ (eq_refl : step (Call_speak text) _ = Some _)).
    rewrite Hspeak.
    erewrite run_step; [|apply step_elapse_single; lia].
    rewrite (run_step _ _ _ _ (eq_refl : step Call_cancel _ = Some _)).
    rewrite Hcancel.
    erewrite run_step; [|apply step_elapse_single; lia].
    erewrite run_step; [|apply step_timer_single; lia].
    rewrite run_nil.
    unfold run_callback, settle_then_start, set_hook.
    cbn [hk now timers device inflight].
    rewrite Hc.
    unfold speakNextChunk, set_hook. cbn. reflexivity.
  - cbn. now rewrite <- app_assoc.
  - rewrite Hc. cbn [List.map session_texts Speech.text make_utterance].
    f_equal. rewrite map_map. cbn [Speech.text make_utterance]. apply map_id.
  - unfold playing_at. cbn. repeat split; reflexivity.
Qed.

Lemma cancel_before_start_is_ignored_witness :
  cancel (speak (lit "One. Two.") (idle_world google_fr))
  = speak (lit "One. Two.") (idle_world google_fr)
  /\ exists w2 u rest,
       run [Call_speak (lit "One. Two."); Elapse 40; Call_cancel; Elapse 60;
            Timer] (idle_world google_fr)
       = Some w2
       /\ device w2 = [DevCancel; DevSpeak u]
       /\ List.map Speech.text (u :: rest)
          = session_texts
              (splitIntoSentences (processTextForSpeech (lit "One. Two.")))
       /\ playing_at w2 [] u rest
       /\ isSpeaking (hk w2) = true.
Proof.
  apply (cancel_before_start_is_ignored (idle_world google_fr)
           (lit "One. Two.") 40 60); reflexivity.
Defined.

(* ================================================================== *)
(** * Playback: what holds of every run *)
(* ================================================================== *)

Section FlagFacts.

Lemma next_timer_existsb (P : nat * callback -> bool) :
  forall ts d cb rest,
    next_timer ts = Some (d, cb, rest) ->
    existsb P ts = P (d, cb) || existsb P rest.
Proof.
  induction ts as [|[d0 cb0] ts IH]; intros d cb rest H; [discriminate|].
  cbn [next_timer] in H. cbn [existsb].
  destruct (next_timer ts) as [[[d' cb'] rest']|] eqn:E.
  - rewrite (IH _ _ _ eq_refl).
    destruct (d' <? d0); injection H as <- <- <-; cbn [existsb].
    + destruct (P (d0, cb0)), (P (d', cb')); reflexivity.
    + now rewrite (IH _ _ _ eq_refl).
  - injection H as <- <- <-. reflexivity.
Qed.

Lemma speakNextChunk_flag (w : world) :
  isCancellingRef (hk (speakNextChunk w)) = isCancellingRef (hk w)
  /\ timers (speakNextChunk w) = timers w.
Proof.
  unfold speakNextChunk.
  destruct (isCancellingRef (hk w)) eqn:Hc; [cbn; auto|].
  destruct (negb (synthesisRef (hk w)) || _); [auto|].
  destruct (nth_error _ _); auto.
Qed.

Lemma settle_then_start_flag (text : jsstring) (w : world) :
  isCancellingRef (hk (settle_then_start text w)) = false.
Proof.
  unfold settle_then_start.
  destruct (splitIntoSentences (processTextForSpeech text)); [reflexivity|].
  now rewrite (proj1 (speakNextChunk_flag _)).
Qed.

Lemma flag_step (e : event) (w w' : world) :
  flag_has_timer w = true -> step e w = Some w' -> flag_has_timer w' = true.
Proof.
  unfold flag_has_timer. intros Hw.
  destruct e as [text| |ms| | | |]; unfold step.
  - intros [= <-]. unfold speak.
    destruct (blank text); [exact Hw|].
    destruct (negb (ready (hk w))); [exact Hw|].
    cbn. rewrite existsb_app. cbn. now rewrite !orb_true_r.
  - intros [= <-]. unfold cancel.
    destruct (negb (synthesisRef (hk w)) || negb (isSpeaking (hk w)));
      [exact Hw|].
    cbn. rewrite existsb_app. cbn. now rewrite !orb_true_r.
  - destruct (next_timer (timers w)) as [[[d cb] rest]|].
    + destruct (d <? now w + ms); [discriminate|]. now intros [= <-].
    + now intros [= <-].
  - destruct (next_timer (timers w)) as [[[d cb] rest]|] eqn:E; [|discriminate].
    destruct (d <=? now w); [|discriminate]. intros [= <-].
    rewrite (next_timer_existsb _ _ _ _ _ E) in Hw.
    destruct cb as [text| |]; unfold run_callback.
    + now rewrite settle_then_start_flag.
    + destruct (speakNextChunk_flag
                  {| hk := hk w; now := now w; timers := rest;
                     device := device w; inflight := inflight w |}) as [-> ->].
      exact Hw.
    + reflexivity.
  - destruct (inflight w); [discriminate|]. now intros [= <-].
  - destruct (inflight w); [discriminate|]. intros [= <-].
    unfold onend. cbn [hk drop_inflight timers].
    destruct (isCancellingRef (hk w)) eqn:Hc.
    + cbn. cbn in Hw. now rewrite Hc.
    + cbn. now rewrite Hc.
  - destruct (inflight w); [discriminate|]. intros [= <-].
    unfold onerror. cbn [hk drop_inflight timers].
    destruct (isCancellingRef (hk w)) eqn:Hc.
    + cbn. cbn in Hw. now rewrite Hc.
    + cbn. now rewrite Hc.
Qed.

End FlagFacts.

(** X23.  The cancellation flag is never stuck.  Whatever calls of
    [speak] and [cancel], device reports and timers follow one another
    from the idle hook, the flag is set only while a timer that clears
    it is pending, the settle timer of [speak] or the reset timer of
    [cancel]: playback is never muted for good. *)
Theorem flag_is_never_stuck (v : voice) (es : list event) (w : world) :
  run es (idle_world v) = Some w ->
  isCancellingRef (hk w) = true ->
  existsb (fun t => clears_flag (snd t)) (timers w) = true.
Proof.
  assert (H : forall es w0 w1,
             flag_has_timer w0 = true -> run es w0 = Some w1 ->
             flag_has_timer w1 = true).
  { clear. induction es as [|e es IH]; intros w0 w1 H0 Hr.
    - now injection Hr as <-.
    - cbn [run] in Hr. destruct (step e w0) as [w2|] eqn:Hs; [|discriminate].
      eapply IH; [|exact Hr]. eapply flag_step; eauto. }
  intros Hr Hc. specialize (H es (idle_world v) w eq_refl Hr).
  unfold flag_has_timer in H. now rewrite Hc in H.
Qed.

Lemma flag_is_never_stuck_witness :
  exists w,
    run [Call_speak (lit "One. Two."); Elapse 100; Timer; Dev_start;
         Call_cancel; Call_speak (lit "Three.")] (idle_world google_fr)
    = Some w
    /\ isCancellingRef (hk w) = true
    /\ existsb (fun t => clears_flag (snd t)) (timers w) = true.
Proof.
  eexists. split; [vm_compute; reflexivity|]. split; [reflexivity|].
  apply (flag_is_never_stuck google_fr
           [Call_speak (lit "One. Two."); Elapse 100; Timer; Dev_start;
            Call_cancel; Call_speak (lit "Three.")]);
    vm_compute; reflexivity.
Defined.

Section OrderFacts.

Lemma firstn_S_nth (us : list utterance) :
  forall i u, nth_error us i = Some u -> firstn (S i) us = firstn i us ++ [u].
Proof.
  induction us as [|x us IH]; intros [|i] u H; cbn in H; try discriminate.
  - injection H as ->. reflexivity.
  - cbn [firstn app]. now rewrite <- (IH _ _ H).
Qed.

Lemma nothing_to_say_parts (w : world) :
  nothing_to_say w = true ->
  utteranceQueueRef (hk w) = []
  /\ forallb (fun t => negb (is_settle (snd t))) (timers w) = true.
Proof.
  unfold nothing_to_say. intros H. apply andb_true_iff in H.
  destruct H as [Hq Ht]. split; [|exact Ht].
  destruct (utteranceQueueRef (hk w)); [reflexivity | discriminate].
Qed.

Lemma nothing_to_say_of_parts (w : world) :
  utteranceQueueRef (hk w) = [] ->
  forallb (fun t => negb (is_settle (snd t))) (timers w) = true ->
  nothing_to_say w = true.
Proof. unfold nothing_to_say. intros -> ->. reflexivity. Qed.

(** One turn of the event loop, other than a call of [speak], takes a
    session from a stage to a stage; what has been handed to the device
    is always an initial segment of the session's utterances. *)
Lemma stage_step (us : list utterance) (base : list utterance)
      (e : event) (k : nat) (w w' : world) :
  stage us k w -> handed (device w) = base ++ firstn k us ->
  is_call_speak e = false -> step e w = Some w' ->
  exists k', k <= k' /\ stage us k' w'
             /\ handed (device w') = base ++ firstn k' us.
Proof.
  intros Hst Hh He Hs.
  destruct Hst as [u Hk Hc Hsyn Hq Hn Hi Ht | d Hk Hpos Hc Hsyn Hq Hi Ht | Hq Ht].
  - (* the utterance is with the device *)
    destruct w as [h t0 ts dev infl].
    destruct h as [sp su syn sel ini vl q idx canc].
    cbn in Hk, Hc, Hsyn, Hq, Hn, Hi, Ht, Hh. subst.
    destruct e as [text| |ms| | | |]; [discriminate| | | | | |].
    + injection Hs as <-. unfold cancel. cbn [hk synthesisRef isSpeaking negb orb].
      destruct sp; cbn [negb].
      * exists (S idx). split; [lia|]. split.
        -- apply Over; [reflexivity|]. reflexivity.
        -- cbn. rewrite handed_app. cbn. now rewrite app_nil_r.
      * exists (S idx). split; [lia|]. split; [|exact Hh].
        now apply (With_device _ _ _ u).
    + cbn in Hs. injection Hs as <-.
      exists (S idx). split; [lia|]. split; [|exact Hh]. now apply (With_device _ _ _ u).
    + discriminate.
    + cbn in Hs. injection Hs as <-.
      exists (S idx). split; [lia|]. split; [|exact Hh]. now apply (With_device _ _ _ u).
    + cbn in Hs. injection Hs as <-.
      exists (S idx). split; [lia|]. split; [|exact Hh].
      apply (Between _ _ _ (t0 + 50)); cbn; auto. lia.
    + cbn in Hs. injection Hs as <-.
      exists (S idx). split; [lia|]. split; [|exact Hh].
      apply Over; reflexivity.
  - (* the timer for the next utterance is pending *)
    destruct w as [h t0 ts dev infl].
    destruct h as [sp su syn sel ini vl q idx canc].
    cbn in Hk, Hc, Hsyn, Hq, Hi, Ht, Hh. subst.
    destruct e as [text| |ms| | | |]; [discriminate| | | | | |];
      try discriminate.
    + injection Hs as <-. unfold cancel. cbn [hk synthesisRef isSpeaking negb orb].
      destruct sp; cbn [negb].
      * exists idx. split; [lia|]. split.
        -- apply Over; reflexivity.
        -- cbn. rewrite handed_app. cbn. now rewrite app_nil_r.
      * exists idx. split; [lia|]. split; [|exact Hh].
        now apply (Between _ _ _ d).
    + unfold step in Hs. cbn [timers next_timer now] in Hs.
      destruct (d <? t0 + ms); [discriminate|]. injection Hs as <-.
      exists idx. split; [lia|]. split; [|exact Hh]. now apply (Between _ _ _ d).
    + unfold step in Hs. cbn [timers next_timer now] in Hs.
      destruct (d <=? t0); [|discriminate]. injection Hs as <-.
      unfold run_callback, speakNextChunk.
      cbn [hk isCancellingRef synthesisRef negb orb utteranceQueueRef
           currentUtteranceIndexRef].
      destruct (List.length us <=? idx) eqn:El.
      * exists idx. split; [lia|]. split; [|exact Hh]. apply Over; reflexivity.
      * apply Nat.leb_gt in El.
        destruct (nth_error us idx) as [u'|] eqn:En;
          [|apply nth_error_None in En; lia].
        assert (Ez : (idx =? 0) = false) by (apply Nat.eqb_neq; lia).
        rewrite Ez. rewrite (update_same _ _ _ En).
        exists (S idx). split; [lia|]. split.
        -- apply (With_device _ _ _ u'); cbn; auto.
        -- rewrite (firstn_S_nth _ _ _ En).
           unfold synthesis_speak, set_hook. cbn [device].
           rewrite handed_app, Hh. cbn [handed]. now rewrite app_assoc.
  - (* the session is over *)
    pose proof (nothing_to_say_of_parts _ Hq Ht) as Hn.
    destruct (silent_step _ _ _ Hn He Hs) as [Hd Hn'].
    destruct (nothing_to_say_parts _ Hn') as [Hq' Ht'].
    exists k. split; [lia|]. split; [now apply Over | congruence].
Qed.

Lemma stage_run (us : list utterance) (base : list utterance)
      (es : list event) :
  forall k w w',
    stage us k w -> handed (device w) = base ++ firstn k us ->
    existsb is_call_speak es = false -> run es w = Some w' ->
    exists k', k <= k' /\ stage us k' w'
               /\ handed (device w') = base ++ firstn k' us.
Proof.
  induction es as [|e es IH]; intros k w w' Hst Hh He Hr.
  - injection Hr as <-. eauto.
  - cbn [existsb] in He. apply orb_false_iff in He. destruct He as [He Hes].
    cbn [run] in Hr. destruct (step e w) as [w1|] eqn:Hs; [|discriminate].
    destruct (stage_step _ _ _ _ _ _ Hst Hh He Hs) as (k1 & Hk1 & Hst1 & Hh1).
    destruct (IH _ _ _ Hst1 Hh1 Hes Hr) as (k2 & Hk2 & Hst2 & Hh2).
    exists k2. split; [lia | auto].
Qed.

End OrderFacts.

(** X24.  A session never hands its chunks out of order.  After a call
    of [speak] on a ready hook with no timer pending and nothing with
    the device, and its settle delay, whatever the device then reports
    (starts, ends, errors), whichever timers run and whenever [cancel]
    is called, in any order and as long as [speak] is not called again,
    the utterances the device has been handed are an initial segment of
    the session's utterances: the chunks of the text in their order,
    each at most once, none skipped. *)
Theorem session_hands_an_initial_segment (w w' : world) (text : jsstring)
        (es : list event) :
  ready (hk w) = true -> blank text = false -> timers w = [] ->
  inflight w = [] ->
  existsb is_call_speak es = false ->
  run ([Call_speak text; Elapse 100; Timer] ++ es) w = Some w' ->
  exists us k,
    List.map Speech.text us
    = session_texts (splitIntoSentences (processTextForSpeech text))
    /\ 1 <= k
    /\ handed (device w') = handed (device w) ++ firstn k us.
Proof.
  intros Hready Hblank Htimers Hinfl Hes Hrun.
  destruct (speak_hands_first_chunk w text Hready Hblank Htimers Hinfl)
    as (w2 & chunk & chunks & Hrun2 & Hc & Hplay & _ & Hdev & _).
  rewrite run_app, Hrun2 in Hrun.
  set (us := make_utterance (selectedVoiceRef (hk w)) (AUDIBLE_PREFIX ++ chunk)
             :: List.map (make_utterance (selectedVoiceRef (hk w))) chunks).
  destruct Hplay as (Hf & Hsyn & Hq & Hi & Hfl & Ht).
  assert (Hst : stage us 1 w2).
  { apply (With_device _ _ _
             (make_utterance (selectedVoiceRef (hk w)) (AUDIBLE_PREFIX ++ chunk)));
      try assumption.
    - now rewrite Hi.
    - now rewrite Hi. }
  assert (Hh : handed (device w2) = handed (device w) ++ firstn 1 us).
  { rewrite Hdev, handed_app. reflexivity. }
  destruct (stage_run us _ es _ _ _ Hst Hh Hes Hrun) as (k & Hk & _ & Hh').
  exists us, k. split; [|split; [exact Hk | exact Hh']].
  rewrite Hc. subst us.
  cbn [List.map session_texts Speech.text make_utterance]. f_equal.
  rewrite map_map. cbn [Speech.text make_utterance]. apply map_id.
Qed.

Lemma session_hands_an_initial_segment_witness :
  exists w',
    run ([Call_speak (lit "One. Two."); Elapse 100; Timer]
           ++ [Dev_start; Dev_end; Elapse 50; Timer; Dev_start; Call_cancel])
        (idle_world google_fr)
    = Some w'
    /\ exists us k,
         List.map Speech.text us
         = session_texts
             (splitIntoSentences (processTextForSpeech (lit "One. Two.")))
         /\ 1 <= k
         /\ handed (device w')
            = handed (device (idle_world google_fr)) ++ firstn k us.
Proof.
  eexists. split; [vm_compute; reflexivity|].
  apply (session_hands_an_initial_segment (idle_world google_fr) _
           (lit "One. Two.")
           [Dev_start; Dev_end; Elapse 50; Timer; Dev_start; Call_cancel]);
    vm_compute; reflexivity.
Defined.

(* ================================================================== *)
(** * App: the other conversations *)
(* ================================================================== *)

Section OtherFacts.

Import App.

Lemma str_eqb_neq (a b : jsstring) : a <> b -> str_eqb a b = false.
Proof.
  intros H. destruct (str_eqb a b) eqn:E; [|reflexivity].
  now apply str_eqb_eq in E.
Qed.

Lemma find_update_other (c : Conversation.t) (other : jsstring)
      (l : list Conversation.t) :
  Conversation.id c <> other ->
  List.find (fun x => str_eqb (Conversation.id x) other)
    (List.map (fun x => if str_eqb (Conversation.id x) (Conversation.id c)
                        then c else x) l)
  = List.find (fun x => str_eqb (Conversation.id x) other) l.
Proof.
  intros Hne. induction l as [|x l IH]; [reflexivity|].
  cbn [List.map List.find].
  destruct (str_eqb (Conversation.id x) (Conversation.id c)) eqn:Ex.
  - apply str_eqb_eq in Ex. rewrite Ex, (str_eqb_neq _ _ Hne). exact IH.
  - now rewrite IH.
Qed.

Lemma current_id (createdAt updatedAt : N) (st : ConversationState.t) :
  Conversation.id (currentConversation createdAt updatedAt st)
  = ConversationState.currentConversationId st.
Proof.
  unfold currentConversation.
  destruct (List.find _ _) as [c|] eqn:Ef; [|reflexivity].
  apply find_some in Ef. destruct Ef as [_ Ef]. now apply str_eqb_eq in Ef.
Qed.

End OtherFacts.

(** X25.  An exchange touches the current conversation only.  Whatever
    the webhook answers, [handleSendMessage] keeps the current id and
    the ids of the stored conversations in their order, and a
    conversation of any other id, loaded with [handleLoadConversation]
    after the exchange, is shown as it would have been before it: its
    messages and its title are those it had. *)
Theorem exchange_leaves_the_others
        (E : Engine) (engine_message : error -> jsstring)
        (a : App.app) (createdAt updatedAt : N)
        (id1 : jsstring) (timestamp1 updatedAt1 : N)
        (id2 : jsstring) (timestamp2 updatedAt2 : N)
        (text : jsstring) (f : fetched) (other : jsstring) :
  other <> App.ConversationState.currentConversationId (App.state a) ->
  let a' := App.exchange E engine_message (App.rendered createdAt updatedAt a)
              id1 timestamp1 updatedAt1 id2 timestamp2 updatedAt2 text f a in
  App.ConversationState.currentConversationId (App.state a')
  = App.ConversationState.currentConversationId (App.state a)
  /\ List.map App.Conversation.id
       (App.ConversationState.conversations (App.state a'))
     = List.map App.Conversation.id
         (App.ConversationState.conversations (App.state a))
  /\ forall createdAt' updatedAt',
       App.currentConversation createdAt' updatedAt'
         (App.handleLoadConversation other (App.state a'))
       = App.currentConversation createdAt' updatedAt'
           (App.handleLoadConversation other (App.state a)).
Proof.
  intros Hne a'.
  assert (Hid : App.Conversation.id
                  (App.currentConversation createdAt updatedAt (App.state a))
                <> other).
  { rewrite current_id. congruence. }
  subst a'. unfold App.exchange, App.handleSendMessage.
  cbn [App.rendered App.current App.speaking App.synthesisSupported].
  destruct (sendMessageToWebhook E f) as [response|e];
    unfold App.handleSendMessage_settled, App.handleLoadConversation,
      App.currentConversation at 1, App.updateConversation,
      App.set_processing, App.set_conversations, App.set_current;
    cbn [App.state App.ConversationState.currentConversationId
         App.ConversationState.conversations].
  - split; [reflexivity|]. split.
    + rewrite update_ids. apply update_ids.
    + intros c' u'. unfold App.currentConversation.
      cbn [App.ConversationState.currentConversationId
           App.ConversationState.conversations].
      rewrite find_update_other by exact Hid.
      rewrite find_update_other by exact Hid. reflexivity.
  - split; [reflexivity|]. split.
    + apply update_ids.
    + intros c' u'. unfold App.currentConversation.
      cbn [App.ConversationState.currentConversationId
           App.ConversationState.conversations].
      rewrite find_update_other by exact Hid. reflexivity.
Qed.

Lemma exchange_leaves_the_others_witness :
  App.currentConversation 40 40
    (App.handleLoadConversation (lit "b")
       (App.state
          (App.exchange small_integers (fun _ => lit "Failed to fetch")
             (App.rendered 0 0 new_page) (lit "m1") 20 21 (lit "m2") 30 31
             (lit "Salut") bonjour new_page)))
  = App.fresh (lit "b") 0 0.
Proof.
  rewrite (proj2 (proj2 (exchange_leaves_the_others small_integers
                           (fun _ => lit "Failed to fetch") new_page 0 0
                           (lit "m1") 20 21 (lit "m2") 30 31 (lit "Salut")
                           bonjour (lit "b")
                           ltac:(vm_compute; discriminate)))).
  vm_compute. reflexivity.
Defined.
